(** * Pixel_BRIA: the pixel-grid reconstruction core

    A shallow embedding of [png_to_svg.py] (boundary scanners, row block
    scanner, grid assembler) and of the two pure helpers of
    [pixel_playground.py] that consume its output or score a block size
    ([_svg_to_editable_png], [_compute_boundary_contrast]), followed by the
    properties the specification states about them. *)

From Stdlib Require Import ZArith List String Ascii Bool Lia.
From Stdlib Require Import Sorted Permutation.
From Stdlib Require Import OrderedTypeEx.
From Stdlib Require Import Reals Lra.
Import ListNotations.
Local Open Scope Z_scope.

(** ** Python built-ins used by the sources *)

Module Py.

(** [range(n)]. *)
Definition range (n : Z) : list Z :=
  map Z.of_nat (seq 0 (Z.to_nat n)).

(** [range(n - 1, -1, -1)]. *)
Definition range_down (n : Z) : list Z := rev (range n).

(** [range(a, b)]. *)
Definition range_from (a b : Z) : list Z :=
  map (fun i => a + Z.of_nat i) (seq 0 (Z.to_nat (b - a))).

(** A [for] loop whose body either leaves the loop with a value
    ([return], or an assignment followed by [break]) or falls through. *)
Fixpoint first_some {A B : Type} (xs : list A) (body : A -> option B) : option B :=
  match xs with
  | [] => None
  | x :: xs' =>
      match body x with
      | Some r => Some r
      | None => first_some xs' body
      end
  end.

(** A [for] loop over mutable state; the body answers [None] when it leaves
    the loop early ([break], or an exception caught outside the loop), and
    the state reached so far is kept. *)
Fixpoint for_each {A S : Type} (xs : list A) (body : A -> S -> option S) (s : S) : S :=
  match xs with
  | [] => s
  | x :: xs' =>
      match body x s with
      | None => s
      | Some s' => for_each xs' body s'
      end
  end.

(** A [dict] with [str] keys, in insertion order. *)
Definition dict (V : Type) : Type := list (string * V).

Fixpoint dict_get {V : Type} (d : dict V) (k : string) : option V :=
  match d with
  | [] => None
  | (k', v) :: d' => if String.eqb k' k then Some v else dict_get d' k
  end.

(** [d[k] = v]: an existing key keeps its place, a new one goes last. *)
Fixpoint dict_set {V : Type} (d : dict V) (k : string) (v : V) : dict V :=
  match d with
  | [] => [(k, v)]
  | (k', v') :: d' =>
      if String.eqb k' k then (k', v) :: d' else (k', v') :: dict_set d' k v
  end.

(** [d.get(k, default)]. *)
Definition dict_get_default {V : Type} (d : dict V) (k : string) (default : V) : V :=
  match dict_get d k with
  | Some v => v
  | None => default
  end.

(** [sorted(xs, key=...)] where [le x y] says [key(x) <= key(y)]: a stable
    sort, here by insertion from the right. *)
Fixpoint insert_sorted {A : Type} (le : A -> A -> bool) (x : A) (l : list A) : list A :=
  match l with
  | [] => [x]
  | y :: t => if le x y then x :: y :: t else y :: insert_sorted le x t
  end.

Definition sorted {A : Type} (le : A -> A -> bool) (xs : list A) : list A :=
  fold_right (insert_sorted le) [] xs.

(** One hexadecimal digit as [int(_, 16)] reads it (either case). *)
Definition hex_value (c : ascii) : option Z :=
  let n := Z.of_nat (nat_of_ascii c) in
  if (48 <=? n) && (n <=? 57) then Some (n - 48)
  else if (65 <=? n) && (n <=? 70) then Some (n - 55)
  else if (97 <=? n) && (n <=? 102) then Some (n - 87)
  else None.

(** White space as [str.split()] and [int()] see it (ASCII). *)
Definition is_space (c : ascii) : bool :=
  let n := nat_of_ascii c in
  ((9 <=? n) && (n <=? 13) || (28 <=? n) && (n <=? 32))%nat.

(** [int(s, 16)] on the two-character slices the sources pass to it
    (ASCII): two hexadecimal digits, or one digit with a sign or a blank
    before it, or one digit with a blank after it.  [None] is
    [ValueError]. *)
Definition int16 (s : string) : option Z :=
  match s with
  | String c1 (String c2 EmptyString) =>
      match hex_value c1, hex_value c2 with
      | Some h, Some l => Some (16 * h + l)
      | None, Some l =>
          if Ascii.eqb c1 "+" || is_space c1 then Some l
          else if Ascii.eqb c1 "-" then Some (- l)
          else None
      | Some h, None => if is_space c2 then Some h else None
      | None, None => None
      end
  | _ => None
  end.

(** [s[-2:]]. *)
Definition last2 (s : string) : string :=
  substring (String.length s - 2) 2 s.

(** [str(n)] for an [int]. *)
Fixpoint digits_of_pos (fuel : nat) (n : Z) (acc : string) : string :=
  match fuel with
  | O => acc
  | S fuel' =>
      let acc' := String (ascii_of_nat (Z.to_nat (48 + n mod 10))) acc in
      if n <? 10 then acc' else digits_of_pos fuel' (n / 10) acc'
  end.

Definition str_of_int (n : Z) : string :=
  if n <? 0 then String "-" (digits_of_pos (S (Z.to_nat (Z.log2 (- n)))) (- n) EmptyString)
  else digits_of_pos (S (Z.to_nat (Z.log2 n))) n EmptyString.

End Py.

(** ** png_to_svg.py *)

Module PngToSvg.
Import Py.

(** A PIL image in mode RGBA after [im.load()]: [px im x y] is
    [pix[x, y]], a tuple of four 8-bit channels.  Only coordinates inside
    [0 <= x < w], [0 <= y < h] are ever read. *)
Definition RGBA : Type := (Z * Z * Z * Z)%type.

Record Image : Type := mkImage {
  im_w : Z;
  im_h : Z;
  px : Z -> Z -> RGBA
}.

Definition alpha_of (p : RGBA) : Z := let '(_, _, _, a) := p in a.

(** The channels of every pixel of the image are bytes. *)
Definition byte_range (v : Z) : Prop := 0 <= v < 256.

Definition wf_image (im : Image) : Prop :=
  forall x y, 0 <= x < im_w im -> 0 <= y < im_h im ->
    let '(r, g, b, a) := px im x y in
    byte_range r /\ byte_range g /\ byte_range b /\ byte_range a.

(** *** Alpha-boundary scanners *)

Definition find_first_nontransparent_pixel (im : Image) (alpha_min_value : Z)
  : option (Z * Z) :=
  let w := im_w im in
  let h := im_h im in
  first_some (range h) (fun y =>
    first_some (range w) (fun x =>
      if alpha_of (px im x y) >=? alpha_min_value then Some (x, y) else None)).

Definition find_last_nontransparent_pixel (im : Image) (alpha_min_value : Z)
  : option (Z * Z) :=
  let w := im_w im in
  let h := im_h im in
  first_some (range_down h) (fun y =>
    first_some (range_down w) (fun x =>
      if alpha_of (px im x y) >=? alpha_min_value then Some (x, y) else None)).

Definition find_leftmost_nontransparent_pixel (im : Image) (alpha_min_value : Z)
  : option (Z * Z) :=
  let w := im_w im in
  let h := im_h im in
  first_some (range w) (fun x =>
    first_some (range h) (fun y =>
      if alpha_of (px im x y) >=? alpha_min_value then Some (x, y) else None)).

Definition find_rightmost_nontransparent_pixel (im : Image) (alpha_min_value : Z)
  : option (Z * Z) :=
  let w := im_w im in
  let h := im_h im in
  first_some (range_down w) (fun x =>
    first_some (range h) (fun y =>
      if alpha_of (px im x y) >=? alpha_min_value then Some (x, y) else None)).

(** *** Row block scanner *)

(** [f"{val:02X}"] for a channel value (0..255): two upper-case
    hexadecimal digits. *)
Definition hex_digit (d : Z) : ascii :=
  nth (Z.to_nat d) (list_ascii_of_string "0123456789ABCDEF") "?"%char.

Definition _to_hex (val : Z) : string :=
  String (hex_digit (val / 16)) (String (hex_digit (val mod 16)) EmptyString).

(** [f"#{_to_hex(r)}{_to_hex(g)}{_to_hex(b)}{_to_hex(a)}"]. *)
Definition rgba_hex_of (p : RGBA) : string :=
  let '(r, g, b, a) := p in
  String "#" (_to_hex r ++ _to_hex g ++ _to_hex b ++ _to_hex a)%string.

(** One element of [blk_pixels] (its [opacity_percent], a float that is
    never read again, is left out). *)
Record PixelEntry : Type := mkEntry {
  e_x : Z; e_y : Z; e_r : Z; e_g : Z; e_b : Z; e_a : Z
}.

Definition entry_rgba (e : PixelEntry) : RGBA := (e_r e, e_g e, e_b e, e_a e).

(** One element of a block's [color_counts]. *)
Record ColorCount : Type := mkColorCount {
  rgba_hex : string;
  rgb_hex : string;
  cc_a : Z;
  count : Z;
  coords : list (Z * Z)
}.

(** One element of a row's [blocks]. *)
Record Block : Type := mkBlock {
  index : Z;
  origin : Z * Z;
  actual_size : Z * Z;
  visible_pixels : Z;
  skipped_pixels : Z;
  unique_colors : Z;
  color_counts : list ColorCount
}.

(** The dictionary [scan_row_blocks] returns ([name] is added by [main]). *)
Record Row : Type := mkRow {
  row_block_size : Z;
  blocks : list Block;
  total_blocks : Z;
  first_pixel : Z * Z;
  last_pixel_visited : Z * Z
}.

(** The per-block accumulators of the pixel loops. *)
Record BlockAcc : Type := mkAcc {
  blk_pixels : list PixelEntry;
  blk_color_counts : dict Z;
  visible : Z;
  skipped : Z;
  actual_w : Z;
  actual_h : Z
}.

Definition acc0 : BlockAcc := mkAcc [] [] 0 0 0 0.

(** The body of [for dx in range(block_size)], with its [row_present] flag. *)
Definition scan_pixel (im : Image) (alpha_min_value origin_x sy : Z)
  (dx : Z) (st : BlockAcc * bool) : option (BlockAcc * bool) :=
  let '(acc, _) := st in
  let sx := origin_x + dx in
  if sx >=? im_w im then None
  else
    let '(rC, gC, bC, aC) := px im sx sy in
    let entry := mkEntry sx sy rC gC bC aC in
    let pixels' := blk_pixels acc ++ [entry] in
    let acc' :=
      if aC >=? alpha_min_value then
        let hxC := rgba_hex_of (rC, gC, bC, aC) in
        mkAcc pixels'
              (dict_set (blk_color_counts acc) hxC
                 (dict_get_default (blk_color_counts acc) hxC 0 + 1))
              (visible acc + 1) (skipped acc)
              (Z.max (actual_w acc) (dx + 1)) (actual_h acc)
      else
        mkAcc pixels' (blk_color_counts acc)
              (visible acc) (skipped acc + 1)
              (Z.max (actual_w acc) (dx + 1)) (actual_h acc)
    in Some (acc', true).

(** The body of [for dy in range(block_size)]. *)
Definition scan_pixel_row (im : Image) (alpha_min_value block_size origin_x origin_y : Z)
  (dy : Z) (acc : BlockAcc) : option BlockAcc :=
  let sy := origin_y + dy in
  if sy >=? im_h im then None
  else
    let '(acc', row_present) :=
      for_each (range block_size) (scan_pixel im alpha_min_value origin_x sy) (acc, false) in
    Some (if row_present
          then mkAcc (blk_pixels acc') (blk_color_counts acc') (visible acc')
                     (skipped acc') (actual_w acc') (actual_h acc' + 1)
          else acc').

Definition collect_block_pixels (im : Image) (alpha_min_value block_size origin_x origin_y : Z)
  : BlockAcc :=
  for_each (range block_size)
    (scan_pixel_row im alpha_min_value block_size origin_x origin_y) acc0.

(** [blk_color_coords]: for each visible entry,
    [setdefault(hex, []).append((x, y))]. *)
Definition build_color_coords (alpha_min_value : Z) (pixels : list PixelEntry)
  : dict (list (Z * Z)) :=
  fold_left (fun d pC =>
    if e_a pC >=? alpha_min_value then
      let hxC2 := rgba_hex_of (entry_rgba pC) in
      dict_set d hxC2 (dict_get_default d hxC2 [] ++ [(e_x pC, e_y pC)])
    else d) pixels [].

(** The sort key [(-kv[1], kv[0])], compared as Python compares tuples. *)
Definition count_key_le (kv1 kv2 : string * Z) : bool :=
  let '(k1, v1) := kv1 in
  let '(k2, v2) := kv2 in
  (- v1 <? - v2) || ((- v1 =? - v2) && String.leb k1 k2).

(** The list comprehension building [blk_counts_list]; [None] when
    [int(k[-2:], 16)] raises. *)
Fixpoint counts_list (coords_of : dict (list (Z * Z))) (items : list (string * Z))
  : option (list ColorCount) :=
  match items with
  | [] => Some []
  | (k, v) :: items' =>
      match int16 (last2 k), counts_list coords_of items' with
      | Some a, Some rest =>
          Some (mkColorCount k (substring 0 7 k) a v (dict_get_default coords_of k []) :: rest)
      | _, _ => None
      end
  end.

(** One turn of the [while True] loop for block number [bi]: the block it
    appends to [row_blocks] (none when the tile has no visible pixel);
    [None] when an exception is raised. *)
Definition scan_block (im : Image) (alpha_min_value block_size : Z)
  (start_block_x actual_start_y bi : Z) : option (list Block) :=
  let origin_x := start_block_x + bi * block_size in
  let origin_y := actual_start_y in
  let acc := collect_block_pixels im alpha_min_value block_size origin_x origin_y in
  let blk_color_coords := build_color_coords alpha_min_value (blk_pixels acc) in
  match counts_list blk_color_coords (sorted count_key_le (blk_color_counts acc)) with
  | None => None
  | Some blk_counts_list =>
      Some (if visible acc >? 0 then
              [mkBlock bi (origin_x, origin_y) (actual_w acc, actual_h acc)
                       (visible acc) (skipped acc)
                       (Z.of_nat (List.length blk_counts_list)) blk_counts_list]
            else [])
  end.

(** The [while True] loop.  It is entered with [block_size >= 1] only, and
    [origin_x] grows by [block_size] each turn, so [im_w - first_x] turns
    always reach the [break]; [fuel] counts the turns left. *)
Fixpoint scan_blocks (fuel : nat) (im : Image) (alpha_min_value block_size : Z)
  (start_block_x actual_start_y bi : Z) : option (list Block) :=
  match fuel with
  | O => Some []
  | S fuel' =>
      let origin_x := start_block_x + bi * block_size in
      if origin_x >=? im_w im then Some []
      else
        match scan_block im alpha_min_value block_size start_block_x actual_start_y bi,
              scan_blocks fuel' im alpha_min_value block_size start_block_x actual_start_y (bi + 1)
        with
        | Some b, Some rest => Some (b ++ rest)
        | _, _ => None
        end
  end.

(** [visibility_percent < 0.5] with
    [visibility_percent = visible_pixels / (block_size * block_size)]: a
    true division of two integers, below one half exactly when twice the
    numerator is below the denominator. *)
Definition sparse (block_size : Z) (b : Block) : bool :=
  2 * visible_pixels b <? block_size * block_size.

(** The trailing trim: [while row_blocks:] pop the last block while it is
    sparse.  Each turn removes one block, so [length row_blocks] turns
    suffice. *)
Fixpoint pop_sparse (turns : nat) (block_size : Z) (row_blocks : list Block) : list Block :=
  match turns with
  | O => row_blocks
  | S turns' =>
      match rev row_blocks with
      | [] => row_blocks
      | last_block :: _ =>
          if sparse block_size last_block
          then pop_sparse turns' block_size (removelast row_blocks)
          else row_blocks
      end
  end.

Definition trim_trailing (block_size : Z) (row_blocks : list Block) : list Block :=
  pop_sparse (List.length row_blocks) block_size row_blocks.

(** Steps 1 and 2: the anchor [(first_x, actual_start_y)] of the row.
    [start_y] is not negative, as in every call [main] makes: for a
    negative line PIL's pixel access counts from the bottom of the image
    or raises [IndexError], which this model does not follow. *)
Definition find_anchor (im : Image) (start_y block_size alpha_min_value : Z)
  : option (Z * Z) :=
  let wR := im_w im in
  let hR := im_h im in
  let search_range := Z.min block_size (hR - start_y) in
  let topmost_y :=
    first_some (range search_range) (fun dy =>
      let check_y := start_y + dy in
      first_some (range wR) (fun x_check =>
        if alpha_of (px im x_check check_y) >=? alpha_min_value
        then Some check_y else None)) in
  match topmost_y with
  | None => None
  | Some topmost_y =>
      first_some (range wR) (fun x_search =>
        if alpha_of (px im x_search topmost_y) >=? alpha_min_value
        then Some (x_search, topmost_y) else None)
  end.

(** [row_blocks] as it stands when the [while True] loop is left: [None]
    when the function has returned [None] before (no anchor, or an
    exception). *)
Definition untrimmed_blocks (im : Image) (start_y block_size alpha_min_value : Z)
  : option (Z * Z * list Block) :=
  match find_anchor im start_y block_size alpha_min_value with
  | None => None
  | Some (first_x, actual_start_y) =>
      match scan_blocks (Z.to_nat (im_w im - first_x)) im alpha_min_value block_size
                        first_x actual_start_y 0 with
      | None => None
      | Some row_blocks => Some (first_x, actual_start_y, row_blocks)
      end
  end.

(** [scan_row_blocks(img_path, start_y, block_size, alpha_min_value)] on an
    image that opens and for a start line that is not negative (see
    [find_anchor]); [None] is Python's [None]. *)
Definition scan_row_blocks (im : Image) (start_y block_size alpha_min_value : Z)
  : option Row :=
  match untrimmed_blocks im start_y block_size alpha_min_value with
  | None => None
  | Some (first_x, actual_start_y, row_blocks) =>
      match row_blocks with
      | [] => None
      | _ =>
          let row_blocks := trim_trailing block_size row_blocks in
          match rev row_blocks with
          | [] => None
          | last_block :: _ =>
              let last_block_x := fst (origin last_block) + block_size - 1 in
              let last_block_y := snd (origin last_block) + block_size - 1 in
              Some (mkRow block_size row_blocks (Z.of_nat (List.length row_blocks))
                          (first_x, actual_start_y) (last_block_x, last_block_y))
          end
      end
  end.

(** *** Grid assembler *)

(** One [<rect .../>] of the output, by the values that fill the holes of
    its f-string: [x], [y], [fill], and [fill-opacity] counted in
    ten-thousandths ([width] and [height] are the constant 1). *)
Record SvgRect : Type := mkRect {
  rect_x : Z;
  rect_y : Z;
  fill : string;
  fill_opacity : Z
}.

(** [svg_content]: the canvas size (written to [viewBox], [width] and
    [height]) and the rectangles in the order they are joined. *)
Record Svg : Type := mkSvg {
  canvas_w : Z;
  canvas_h : Z;
  rects : list SvgRect
}.

(** [round(a_val / 255.0, 4)] in ten-thousandths: the nearest multiple of
    0.0001 ([a * 10000 / 255] is never halfway between two integers, 255
    being odd, so no rounding rule for ties is involved). *)
Definition round4_of_255 (a_val : Z) : Z := (20000 * a_val + 255) / 510.

(** [int(a / b)] for integers [a], [b]: the quotient truncated towards
    zero. *)
Definition int_of_quotient (a b : Z) : Z := Z.quot a b.

(** What [args.image] names on disk. *)
Inductive ImageFile : Type :=
| NotAFile
| Unreadable
| Readable (im : Image).

(** The arguments of a run and what it finds around it: the file
    [--image] names, [--block-size], whether [--svg-out] can be opened
    for writing, [--quiet], and whether [sys.stdout] takes the four
    summary lines printed after the write.  The line
    [Canvas: ...] has the characters U+00C3 and U+2014: an encoding
    without them (ASCII, Latin-1) makes [print] raise
    [UnicodeEncodeError]; UTF-8 has them. *)
Record Args : Type := mkArgs {
  image : ImageFile;
  block_size : Z;
  svg_out_writable : bool;
  quiet : bool;
  stdout_prints : bool
}.

(** The messages [main] prints to [stderr] before a non-zero return. *)
Inductive ErrorMessage : Type :=
| File_not_found
| Open_error
| No_visible_pixels_found
| Could_not_find_image_boundaries
| No_rows_detected
| Failed_to_write_SVG.

(** How a run of [main] ends.  [Failed code msg]: [main] prints [msg] to
    [stderr] and returns [code]; nothing is written.  [Written code svg]:
    the document is written, and the process ends with exit status
    [code], which is 0 when [main] returns, and 1 when a [print] of the
    summary raises after the write (nobody catches the exception).
    [Traceback]: an exception nobody catches, before anything is
    written. *)
Inductive Outcome : Type :=
| Failed (code : Z) (msg : ErrorMessage)
| Written (code : Z) (svg : Svg)
| Traceback.

(** The loop [while current_y <= last_y]; [None] when [fuel] turns did
    not reach its end. *)
Fixpoint scan_all_rows (fuel : nat) (im : Image) (block_size alpha_min_value : Z)
  (last_y current_y : Z) : option (list Row) :=
  match fuel with
  | O => None
  | S fuel' =>
      if current_y <=? last_y then
        let row_data := scan_row_blocks im current_y block_size alpha_min_value in
        match scan_all_rows fuel' im block_size alpha_min_value last_y
                (current_y + block_size) with
        | None => None
        | Some rest =>
            Some (match row_data with
                  | Some row => row :: rest
                  | None => rest
                  end)
        end
      else Some []
  end.

(** The rectangle of one block (none when [color_counts] is empty). *)
Definition block_rect (block_size left_ref top_ref : Z) (rb : Block) : list SvgRect :=
  match color_counts rb with
  | [] => []
  | top_color :: _ =>
      let rgb_hex := rgb_hex top_color in
      let a_val := cc_a top_color in
      let fill_opacity := round4_of_255 a_val in
      let img_x := fst (origin rb) in
      let img_y := snd (origin rb) in
      let rect_x := (img_x - left_ref) / block_size in
      let rect_y := (img_y - top_ref) / block_size in
      [mkRect rect_x rect_y rgb_hex fill_opacity]
  end.

(** The two nested [for] loops that fill [rects]. *)
Definition all_rects (block_size left_ref top_ref : Z) (all_rows : list Row)
  : list SvgRect :=
  flat_map (fun row => flat_map (block_rect block_size left_ref top_ref) (blocks row))
           all_rows.

(** [main(argv)] after argument parsing.  After the write the summary is
    printed unless [--quiet] is given, and [main] returns 0; a [print]
    that raises ends the run with exit status 1.  [None]: the row loop
    is still running after [fuel] turns. *)
Definition main (fuel : nat) (args : Args) : option Outcome :=
  match image args with
  | NotAFile => Some (Failed 3 File_not_found)
  | Unreadable => Some (Failed 3 Open_error)
  | Readable im =>
      let alpha_min_value := 128 in
      match find_first_nontransparent_pixel im alpha_min_value with
      | None => Some (Failed 2 No_visible_pixels_found)
      | Some (x, y) =>
          let last_coord := find_last_nontransparent_pixel im alpha_min_value in
          let leftmost_coord := find_leftmost_nontransparent_pixel im alpha_min_value in
          let rightmost_coord := find_rightmost_nontransparent_pixel im alpha_min_value in
          match last_coord with
          | None => Some (Failed 2 Could_not_find_image_boundaries)
          | Some (_, last_y) =>
              match scan_all_rows fuel im (block_size args) alpha_min_value last_y y with
              | None => None
              | Some [] => Some (Failed 2 No_rows_detected)
              | Some ((row0 :: _) as all_rows) =>
                  match blocks row0, rightmost_coord with
                  | block0 :: _, Some (right_ref, _) =>
                      let left_ref :=
                        match leftmost_coord with
                        | Some (lx, _) => lx
                        | None => fst (origin block0)
                        end in
                      let top_ref := snd (origin block0) in
                      let rects := all_rects (block_size args) left_ref top_ref all_rows in
                      let last_y_coord := last_y in
                      let canvas_w :=
                        int_of_quotient (right_ref - left_ref) (block_size args) + 1 in
                      let canvas_h :=
                        int_of_quotient (last_y_coord - top_ref) (block_size args) + 1 in
                      if svg_out_writable args
                      then Some (Written (if quiet args || stdout_prints args then 0 else 1)
                                         (mkSvg canvas_w canvas_h rects))
                      else Some (Failed 3 Failed_to_write_SVG)
                  | _, _ => Some Traceback
                  end
              end
          end
      end
  end.

End PngToSvg.

(** ** The SVG file between the two programs

    [main] writes the document as text and [_svg_to_editable_png] reads it
    back through [xml.etree.ElementTree]; the text is modelled by what the
    parser hands over: the root's [viewBox] and the attributes of the
    [rect] elements in document order (an attribute that is absent is
    [None]).  No character written by [main] needs an XML escape. *)

Module SvgFile.
Import Py PngToSvg.

Record RectElem : Type := mkRectElem {
  at_x : option string;
  at_y : option string;
  at_width : option string;
  at_height : option string;
  at_fill : option string;
  at_fill_opacity : option string
}.

Record SvgDoc : Type := mkSvgDoc {
  viewBox : option string;
  rect_elems : list RectElem
}.

(** [width] decimal digits of [n], zero padded. *)
Fixpoint fixed_digits (width : nat) (n : Z) (acc : string) : string :=
  match width with
  | O => acc
  | S width' =>
      fixed_digits width' (n / 10) (String (ascii_of_nat (Z.to_nat (48 + n mod 10))) acc)
  end.

(** [repr] of the float [round(_, 4)] returns, for [k] ten-thousandths
    with [0 <= k] and [k] not in 1..9 (below 0.0001 Python switches to
    exponent notation): the shortest decimal, with at least one digit after the
    point. *)
Definition repr_ten_thousandths (k : Z) : string :=
  let int_part := k / 10000 in
  let frac := k mod 10000 in
  let frac_digits :=
    if frac mod 1000 =? 0 then fixed_digits 1 (frac / 1000) EmptyString
    else if frac mod 100 =? 0 then fixed_digits 2 (frac / 100) EmptyString
    else if frac mod 10 =? 0 then fixed_digits 3 (frac / 10) EmptyString
    else fixed_digits 4 frac EmptyString in
  (str_of_int int_part ++ "." ++ frac_digits)%string.

(** The f-string of one rectangle. *)
Definition rect_element (r : SvgRect) : RectElem :=
  mkRectElem (Some (str_of_int (rect_x r))) (Some (str_of_int (rect_y r)))
             (Some "1"%string) (Some "1"%string)
             (Some (fill r)) (Some (repr_ten_thousandths (fill_opacity r))).

(** [svg_content] as written to [args.svg_out]. *)
Definition svg_content (svg : Svg) : SvgDoc :=
  mkSvgDoc
    (Some ("0 0 " ++ str_of_int (canvas_w svg) ++ " " ++ str_of_int (canvas_h svg))%string)
    (map rect_element (rects svg)).

End SvgFile.

(** ** pixel_playground.py *)

Module PixelPlayground.
Import Py SvgFile.

(** *** Block size estimator: gradients at and inside tile boundaries

    NumPy's float64 arithmetic is read over the real numbers. *)

(** The array [img]: [img.shape] is [(h, w)] or [(h, w, 3)], entries are
    [uint8]; indexed [y] first. *)
Inductive ndarray : Type :=
| Array2 (h w : Z) (v : Z -> Z -> Z)
| Array3 (h w : Z) (v : Z -> Z -> Z * Z * Z).

Definition shape_h (img : ndarray) : Z :=
  match img with Array2 h _ _ => h | Array3 h _ _ => h end.

Definition shape_w (img : ndarray) : Z :=
  match img with Array2 _ w _ => w | Array3 _ w _ => w end.

(** OpenCV's default border for [Sobel], [BORDER_REFLECT_101], for an
    index at most one step outside [0 .. len-1]. *)
Definition reflect101 (p len : Z) : Z :=
  if len =? 1 then 0
  else if p <? 0 then - p
  else if p >=? len then 2 * (len - 1) - p
  else p.

Section Gradient.

(** [cv2.cvtColor(_, cv2.COLOR_RGB2GRAY)] on one pixel: OpenCV's, taken as
    given. *)
Variable rgb2gray : Z * Z * Z -> Z.

(** [gray], read through the border rule. *)
Definition gray (img : ndarray) (y x : Z) : R :=
  let y' := reflect101 y (shape_h img) in
  let x' := reflect101 x (shape_w img) in
  match img with
  | Array2 _ _ v => IZR (v y' x')
  | Array3 _ _ v => IZR (rgb2gray (v y' x'))
  end.

(** [cv2.Sobel(gray, cv2.CV_64F, 1, 0, ksize=3)] at [(y, x)]. *)
Definition sobel_x (img : ndarray) (y x : Z) : R :=
  ((gray img (y - 1) (x + 1) - gray img (y - 1) (x - 1))
   + 2 * (gray img y (x + 1) - gray img y (x - 1))
   + (gray img (y + 1) (x + 1) - gray img (y + 1) (x - 1)))%R.

(** [cv2.Sobel(gray, cv2.CV_64F, 0, 1, ksize=3)] at [(y, x)]. *)
Definition sobel_y (img : ndarray) (y x : Z) : R :=
  ((gray img (y + 1) (x - 1) - gray img (y - 1) (x - 1))
   + 2 * (gray img (y + 1) x - gray img (y - 1) x)
   + (gray img (y + 1) (x + 1) - gray img (y - 1) (x + 1)))%R.

Definition grad_magnitude (img : ndarray) (y x : Z) : R :=
  let grad_x := Rabs (sobel_x img y x) in
  let grad_y := Rabs (sobel_y img y x) in
  sqrt (grad_x ^ 2 + grad_y ^ 2).

(** [np.mean(xs) if xs else 0]. *)
Definition mean_or_zero (xs : list R) : R :=
  match xs with
  | [] => 0%R
  | _ => (fold_right Rplus 0 xs / INR (List.length xs))%R
  end.

(** The test of the two loops, for a block size that is not 0: there
    Python's [%] raises [ZeroDivisionError] (reported as [Raises] by
    [find_best_block_size]), while [mod] returns its first argument. *)
Definition on_boundary (block_size y x : Z) : bool :=
  let on_x_boundary := (x mod block_size =? 0) || (x mod block_size =? block_size - 1) in
  let on_y_boundary := (y mod block_size =? 0) || (y mod block_size =? block_size - 1) in
  on_x_boundary || on_y_boundary.

(** The positions [(y, x)] in the order of the two [for] loops. *)
Definition positions (h w : Z) : list (Z * Z) :=
  flat_map (fun y => map (fun x => (y, x)) (range w)) (range h).

(** [_compute_gradient_at_positions(img, block_size)]:
    [(avg_boundary, avg_inside)]. *)
Definition _compute_gradient_at_positions (img : ndarray) (block_size : Z) : R * R :=
  let h := shape_h img in
  let w := shape_w img in
  let '(at_boundary, inside) :=
    partition (fun p => on_boundary block_size (fst p) (snd p)) (positions h w) in
  let boundary_gradients := map (fun p => grad_magnitude img (fst p) (snd p)) at_boundary in
  let inside_gradients := map (fun p => grad_magnitude img (fst p) (snd p)) inside in
  (mean_or_zero boundary_gradients, mean_or_zero inside_gradients).

(** [_compute_boundary_contrast(img, block_size)]. *)
Definition _compute_boundary_contrast (img : ndarray) (block_size : Z) : R :=
  let '(avg_boundary, avg_inside) := _compute_gradient_at_positions img block_size in
  if Rlt_dec avg_inside (1 / 1000) then
    if Rgt_dec avg_boundary 0 then (avg_boundary / (1 / 1000))%R else 1%R
  else (avg_boundary / avg_inside)%R.

End Gradient.

(** *** Block size estimator: uniformity inside the blocks

    As above, NumPy's float64 arithmetic is read over the real numbers.
    The properties below are stated for block sizes of at least 1: with
    block size 0 Python raises [ZeroDivisionError], and below 0 NumPy
    averages an empty list. *)

(** [np.mean] of a non-empty array. *)
Definition np_mean (xs : list R) : R :=
  (fold_right Rplus 0 xs / INR (List.length xs))%R.

(** [np.std]: the square root of the mean squared distance to the mean. *)
Definition np_std (xs : list R) : R :=
  let m := np_mean xs in
  sqrt (np_mean (map (fun v => (Rabs (v - m) ^ 2)%R) xs)).

(** The entries of the array at one position, as floats: one for a
    grayscale array, three for an RGB array. *)
Definition pixel_values (img : ndarray) (y x : Z) : list R :=
  match img with
  | Array2 _ _ v => [IZR (v y x)]
  | Array3 _ _ v => let '(r, g, b) := v y x in [IZR r; IZR g; IZR b]
  end.

(** [img[y1:y2, x1:x2].astype(float)], all its entries (the slices taken
    by the score below never reach beyond the array). *)
Definition block_values (img : ndarray) (y1 y2 x1 x2 : Z) : list R :=
  flat_map (fun y => flat_map (fun x => pixel_values img y x) (range_from x1 x2))
           (range_from y1 y2).

(** The body of the two block loops: the uniformity of block
    [(by, bx)]. *)
Definition block_uniformity (img : ndarray) (block_size by_ bx : Z) : R :=
  let y1 := by_ * block_size in
  let y2 := (by_ + 1) * block_size in
  let x1 := bx * block_size in
  let x2 := (bx + 1) * block_size in
  let block := block_values img y1 y2 x1 x2 in
  let block_std := np_std block in
  (1 - Rmin (block_std / 100) 1)%R.

(** [_compute_block_uniformity_score(img, block_size)]. *)
Definition _compute_block_uniformity_score (img : ndarray) (block_size : Z) : R :=
  let h := shape_h img in
  let w := shape_w img in
  let blocks_y := h / block_size in
  let blocks_x := w / block_size in
  if (blocks_x =? 0) || (blocks_y =? 0) then 0%R
  else
    let uniformity_scores :=
      flat_map (fun by_ => map (fun bx => block_uniformity img block_size by_ bx)
                               (range blocks_x))
               (range blocks_y) in
    np_mean uniformity_scores.

(** *** Block size estimator: choosing the block size *)





Section Detection.

Variable rgb2gray : Z * Z * Z -> Z.



End Detection.

(** *** Materializer, contract B *)

(** [s.split()]. *)
Fixpoint split (s : string) : list string :=
  match s with
  | EmptyString => []
  | String c s' =>
      if is_space c then split s'
      else
        match s' with
        | EmptyString => [String c EmptyString]
        | String c' _ =>
            if is_space c' then String c EmptyString :: split s'
            else
              match split s' with
              | t :: ts => String c t :: ts
              | [] => [String c EmptyString]
              end
        end
  end.

Definition digit_value (c : ascii) : option Z :=
  let n := Z.of_nat (nat_of_ascii c) in
  if (48 <=? n) && (n <=? 57) then Some (n - 48) else None.

(** Reads the decimal digits at the head of [s]: their value on top of
    [acc], whether any digit was seen, and the rest of the string. *)
Fixpoint read_digits (s : string) (acc : Z) (seen : bool) : Z * bool * string :=
  match s with
  | EmptyString => (acc, seen, s)
  | String c s' =>
      match digit_value c with
      | Some d => read_digits s' (10 * acc + d) true
      | None => (acc, seen, s)
      end
  end.

(** [int(float(s))] on plain decimal numerals: an optional sign, digits,
    and an optional fraction, which the truncation drops.  [None] is
    [ValueError].  Spellings [float] also takes (an exponent, [inf], [nan],
    digit-group underscores, blanks around the numeral) and numerals long
    enough for the rounding to binary64 to matter are outside this model. *)
Definition int_float (s : string) : option Z :=
  let '(negative, s1) :=
    match s with
    | String "-"%char r => (true, r)
    | String "+"%char r => (false, r)
    | _ => (false, s)
    end in
  let '(int_part, seen1, rest) := read_digits s1 0 false in
  let value := if negative then - int_part else int_part in
  match rest with
  | EmptyString => if seen1 then Some value else None
  | String "."%char frac =>
      let '(_, seen2, rest') := read_digits frac 0 false in
      match rest' with
      | EmptyString => if seen1 || seen2 then Some value else None
      | _ => None
      end
  | _ => None
  end.

(** [int(float(rect.get(name, default)))]: the default is an [int]. *)
Definition attr_int (attr : option string) (default : Z) : option Z :=
  match attr with
  | None => Some default
  | Some s => int_float s
  end.

Definition RGB : Type := (Z * Z * Z)%type.

(** A PIL image in mode RGB with its pixel access object. *)
Record Raster : Type := mkRaster {
  ras_w : Z;
  ras_h : Z;
  pixels : Z -> Z -> RGB
}.

Definition white : RGB := (255, 255, 255).

(** [Image.new('RGB', (w, h), color='white')], for a size Pillow
    allocates: it raises for a side of [2^31] or more and when memory
    runs out. *)
Definition new_image (w h : Z) : Raster := mkRaster w h (fun _ _ => white).

Definition clip8 (v : Z) : Z := Z.max 0 (Z.min 255 v).

(** [pixels[x, y] = color]: a negative index counts from the far edge,
    channel values are clipped to a byte, and a coordinate outside the
    image raises [IndexError] ([None]). *)
Definition putpixel (img : Raster) (x y : Z) (color : RGB) : option Raster :=
  let x' := if x <? 0 then ras_w img + x else x in
  let y' := if y <? 0 then ras_h img + y else y in
  if (x' <? 0) || (x' >=? ras_w img) || (y' <? 0) || (y' >=? ras_h img) then None
  else
    let '(r, g, b) := color in
    Some (mkRaster (ras_w img) (ras_h img)
            (fun i j => if (i =? x') && (j =? y') then (clip8 r, clip8 g, clip8 b)
                        else pixels img i j)).

Definition starts_with_hash (s : string) : bool :=
  match s with
  | String c _ => Ascii.eqb c "#"
  | EmptyString => false
  end.

(** The colour of a rectangle from its [fill]; [None] when [int(_, 16)]
    raises. *)
Definition rect_color (fill : string) : option RGB :=
  if starts_with_hash fill && (String.length fill =? 7)%nat then
    match int16 (substring 1 2 fill), int16 (substring 3 2 fill),
          int16 (substring 5 2 fill) with
    | Some r, Some g, Some b => Some (r, g, b)
    | _, _, _ => None
    end
  else Some (0, 0, 0).

(** The pairs [(px, py)] in the order the two nested [for] loops visit
    them. *)
Definition rect_cells (x y w h vb_width vb_height : Z) : list (Z * Z) :=
  flat_map (fun py => map (fun px => (px, py)) (range_from x (Z.min (x + w) vb_width)))
           (range_from y (Z.min (y + h) vb_height)).

(** One turn of [for rect in rects]: the [try] block, left by [continue]
    at the first exception with the pixels written so far. *)
Definition draw_rect (vb_width vb_height : Z) (img : Raster) (rect : RectElem) : Raster :=
  match attr_int (at_x rect) 0, attr_int (at_y rect) 0,
        attr_int (at_width rect) 1, attr_int (at_height rect) 1 with
  | Some x, Some y, Some w, Some h =>
      let fill :=
        match at_fill rect with
        | Some s => s
        | None => "#000000"%string
        end in
      match rect_color fill with
      | Some color =>
          for_each (rect_cells x y w h vb_width vb_height)
                   (fun cell img' => putpixel img' (fst cell) (snd cell) color) img
      | None => img
      end
  | _, _, _, _ => img
  end.

(** [_svg_to_editable_png(svg_path, block_size)]; the file at [svg_path]
    is [None] when [ET.parse] raises.  The result [None] is Python's. *)
Definition _svg_to_editable_png (svg_file : option SvgDoc) (block_size : Z)
  : option Raster :=
  match svg_file with
  | None => None
  | Some root =>
      match viewBox root with
      | None => None
      | Some viewbox =>
          if (String.length viewbox =? 0)%nat then None
          else
            let vb_parts := split viewbox in
            match nth_error vb_parts 2, nth_error vb_parts 3 with
            | Some part2, Some part3 =>
                match int_float part2, int_float part3 with
                | Some vb_width, Some vb_height =>
                    if (vb_width <? 0) || (vb_height <? 0) then None
                    else
                      let img := new_image vb_width vb_height in
                      Some (fold_left (draw_rect vb_width vb_height) (rect_elems root) img)
                | _, _ => None
                end
            | _, _ => None
            end
      end
  end.

End PixelPlayground.

(** * Vocabulary of the properties *)

Import Py PngToSvg SvgFile PixelPlayground.

(** ** Visible pixels and tiles *)

(** The pixel at [(x, y)] lies in the image and meets the threshold. *)
Definition visible_at (im : Image) (thr x y : Z) : Prop :=
  0 <= x < im_w im /\ 0 <= y < im_h im /\ thr <= alpha_of (px im x y).

(** Every pixel of the image has alpha 0. *)
Definition fully_transparent (im : Image) : Prop :=
  forall x y, 0 <= x < im_w im -> 0 <= y < im_h im -> alpha_of (px im x y) = 0.

(** The cells of the tile of side [bs] at [(ox, oy)] that lie inside the
    image, in the order the two pixel loops visit them. *)
Definition footprint (im : Image) (bs ox oy : Z) : list (Z * Z) :=
  flat_map (fun dy =>
              map (fun dx => (ox + dx, oy + dy))
                  (filter (fun dx => negb (ox + dx >=? im_w im)) (range bs)))
           (filter (fun dy => negb (oy + dy >=? im_h im)) (range bs)).

(** The colour strings of the visible pixels among [cells], in order. *)
Definition visible_colors_of (im : Image) (thr : Z) (cells : list (Z * Z)) : list string :=
  map (fun c => rgba_hex_of (px im (fst c) (snd c)))
      (filter (fun c => alpha_of (px im (fst c) (snd c)) >=? thr) cells).

(** The visible-pixel colours of a tile: the multiset the dominant colour
    is chosen from. *)
Definition visible_colors (im : Image) (thr bs : Z) (o : Z * Z) : list string :=
  visible_colors_of im thr (footprint im bs (fst o) (snd o)).

(** The positions among [cells], in order, of the visible pixels whose
    colour string is [k]. *)
Definition pixels_of_color (im : Image) (thr : Z) (k : string) (cells : list (Z * Z))
  : list (Z * Z) :=
  filter (fun p => (alpha_of (px im (fst p) (snd p)) >=? thr)
                   && String.eqb (rgba_hex_of (px im (fst p) (snd p))) k) cells.

(** Two pixels have the same four channels. *)
Definition rgba_eqb (p q : RGBA) : bool :=
  let '(r1, g1, b1, a1) := p in
  let '(r2, g2, b2, a2) := q in
  (r1 =? r2) && (g1 =? g2) && (b1 =? b2) && (a1 =? a2).

(** The four channels of a pixel are bytes. *)
Definition rgba_bytes (p : RGBA) : Prop :=
  let '(r, g, b, a) := p in
  byte_range r /\ byte_range g /\ byte_range b /\ byte_range a.

(** Counting colours one by one, as [blk_color_counts] is updated. *)
Definition histogram (colors : list string) : dict Z :=
  fold_left (fun d k => dict_set d k (dict_get_default d k 0 + 1)) colors [].

(** The entry [blk_pixels] gets for the pixel at [c]. *)
Definition entry_at (im : Image) (c : Z * Z) : PixelEntry :=
  let '(r, g, b, a) := px im (fst c) (snd c) in
  mkEntry (fst c) (snd c) r g b a.

(** The accumulators after the pixels at [cells] have been visited. *)
Definition summarises (im : Image) (thr : Z) (cells : list (Z * Z)) (acc : BlockAcc) : Prop :=
  blk_pixels acc = map (entry_at im) cells /\
  blk_color_counts acc = histogram (visible_colors_of im thr cells) /\
  visible acc = Z.of_nat (List.length (visible_colors_of im thr cells)).

(** Two images of the same size that differ at most in pixels that are
    below the threshold in both. *)
Definition same_visible_pixels (thr : Z) (im1 im2 : Image) : Prop :=
  im_w im1 = im_w im2 /\ im_h im1 = im_h im2 /\
  forall x y, 0 <= x < im_w im1 -> 0 <= y < im_h im1 ->
    px im1 x y = px im2 x y \/
    (alpha_of (px im1 x y) < thr /\ alpha_of (px im2 x y) < thr).

(** ** Blocks and rows *)

(** Descending count, ties broken by the smaller colour string. *)
Definition before (c1 c2 : ColorCount) : Prop :=
  count c2 < count c1 \/
  (count c1 = count c2 /\ String.ltb (rgba_hex c1) (rgba_hex c2) = true).

(** What [scan_row_blocks] records in a block of the row anchored at
    [(fx, ay)]. *)
Definition block_ok (im : Image) (thr bs fx ay : Z) (b : Block) : Prop :=
  0 <= index b /\
  origin b = (fx + index b * bs, ay) /\
  visible_pixels b = Z.of_nat (List.length (visible_colors im thr bs (origin b))) /\
  0 < visible_pixels b /\
  map (fun c => (rgba_hex c, count c)) (color_counts b)
    = sorted count_key_le (histogram (visible_colors im thr bs (origin b))) /\
  Forall (fun c => rgb_hex c = substring 0 7 (rgba_hex c) /\
                   int16 (last2 (rgba_hex c)) = Some (cc_a c))
         (color_counts b).

(** Blocks in the order of their [index]. *)
Definition index_lt (b1 b2 : Block) : Prop := index b1 < index b2.

(** What [scan_row_blocks] returns for the strip starting at [start_y]. *)
Definition row_ok (im : Image) (thr bs start_y : Z) (row : Row) : Prop :=
  exists fx ay,
    find_anchor im start_y bs thr = Some (fx, ay) /\
    first_pixel row = (fx, ay) /\
    blocks row <> [] /\
    Forall (block_ok im thr bs fx ay) (blocks row) /\
    StronglySorted index_lt (blocks row).

(** The rows [scan_all_rows] collects from the strip at [cy] on: each
    strip, one block size below the one before, gives a row or none. *)
Inductive rows_from (im : Image) (thr bs : Z) : Z -> list Row -> Prop :=
| rows_done (cy : Z) : rows_from im thr bs cy []
| rows_gap (cy : Z) (rows : list Row) :
    rows_from im thr bs (cy + bs) rows -> rows_from im thr bs cy rows
| rows_row (cy : Z) (row : Row) (rows : list Row) :
    scan_row_blocks im cy bs thr = Some row ->
    rows_from im thr bs (cy + bs) rows ->
    rows_from im thr bs cy (row :: rows).

(** The grid row of a row, counted from the line [y0]. *)
Definition grid_row (y0 bs : Z) (row : Row) : Z := (snd (first_pixel row) - y0) / bs.

(** The rows found in the strips that start at [cy], [cy + bs], ... up to
    [last_y], in this order. *)
Definition rows_of_strips (im : Image) (bs thr last_y cy : Z) : list Row :=
  flat_map (fun j => match scan_row_blocks im (cy + j * bs) bs thr with
                     | Some row => [row]
                     | None => []
                     end)
           (range (if cy <=? last_y then (last_y - cy) / bs + 1 else 0)).

(** ** Runs of [main] *)

(** The three failure classes of the specification's error taxonomy:
    input errors (file missing or unreadable), empty content (no visible
    pixel, no boundary, no row), write errors. *)
Inductive FailureClass : Type :=
| Bad_input
| No_content_found
| IO_failure.

(** The class of each message. *)
Definition failure_class (msg : ErrorMessage) : FailureClass :=
  match msg with
  | File_not_found | Open_error => Bad_input
  | No_visible_pixels_found | Could_not_find_image_boundaries | No_rows_detected =>
      No_content_found
  | Failed_to_write_SVG => IO_failure
  end.

(** The exit code [main] returns for each class. *)
Definition class_exit_code (c : FailureClass) : Z :=
  match c with
  | Bad_input => 3
  | No_content_found => 2
  | IO_failure => 3
  end.

(** What a run of [main] that writes its document has computed. *)
Inductive Assembled (fuel : nat) (args : Args) (svg : Svg) : Prop :=
| assembled (im : Image) (first last leftmost rightmost : Z * Z)
    (row0 : Row) (rest : list Row) (block0 : Block) (bl0 : list Block) :
    image args = Readable im ->
    find_first_nontransparent_pixel im 128 = Some first ->
    find_last_nontransparent_pixel im 128 = Some last ->
    find_leftmost_nontransparent_pixel im 128 = Some leftmost ->
    find_rightmost_nontransparent_pixel im 128 = Some rightmost ->
    scan_all_rows fuel im (block_size args) 128 (snd last) (snd first)
      = Some (row0 :: rest) ->
    blocks row0 = block0 :: bl0 ->
    svg = mkSvg
      (int_of_quotient (fst rightmost - fst leftmost) (block_size args) + 1)
      (int_of_quotient (snd last - snd (origin block0)) (block_size args) + 1)
      (all_rects (block_size args) (fst leftmost) (snd (origin block0)) (row0 :: rest)) ->
    Assembled fuel args svg.

(** ** Rectangles and what is written for them *)

(** The grid cell of a rectangle. *)
Definition cell (r : SvgRect) : Z * Z := (rect_x r, rect_y r).

(** The rectangle lies inside the declared canvas. *)
Definition in_canvas (svg : Svg) (r : SvgRect) : Prop :=
  0 <= rect_x r < canvas_w svg /\ 0 <= rect_y r < canvas_h svg.

(** Row by row, then left to right. *)
Definition cell_lt (r1 r2 : SvgRect) : Prop :=
  rect_y r1 < rect_y r2 \/ (rect_y r1 = rect_y r2 /\ rect_x r1 < rect_x r2).

(** The rectangle [main] writes for a block: at the grid cell of the
    block's origin, with the colour and the alpha of the block's first
    colour entry. *)
Definition rect_of_block (bs left_ref top_ref : Z) (b : Block) (r : SvgRect) : Prop :=
  exists top_color others,
    color_counts b = top_color :: others /\
    fill r = rgb_hex top_color /\
    fill_opacity r = round4_of_255 (cc_a top_color) /\
    rect_x r = (fst (origin b) - left_ref) / bs /\
    rect_y r = (snd (origin b) - top_ref) / bs.

(** The rectangles of one row, in the order of its blocks. *)
Definition row_rects (bs left_ref top_ref : Z) (row : Row) : list SvgRect :=
  flat_map (block_rect bs left_ref top_ref) (blocks row).

(** On the same grid row, further right. *)
Definition right_of (r1 r2 : SvgRect) : Prop :=
  rect_y r1 = rect_y r2 /\ rect_x r1 < rect_x r2.

(** [f"#{_to_hex(r)}{_to_hex(g)}{_to_hex(b)}"]: the fill of a colour. *)
Definition rgb_hex_of (r g b : Z) : string :=
  String "#" (_to_hex r ++ _to_hex g ++ _to_hex b)%string.

(** A rectangle inside a [w] x [h] canvas whose fill is the hexadecimal
    string of three bytes. *)
Definition emitted_ok (w h : Z) (r : SvgRect) : Prop :=
  (0 <= rect_x r < w /\ 0 <= rect_y r < h) /\
  exists red green blue,
    byte_range red /\ byte_range green /\ byte_range blue /\
    fill r = rgb_hex_of red green blue.

(** A string of decimal digits, at least one. *)
Inductive numeral : string -> Prop :=
| numeral_one (d : Z) :
    0 <= d < 10 -> numeral (String (ascii_of_nat (Z.to_nat (48 + d))) EmptyString)
| numeral_more (d : Z) (s : string) :
    0 <= d < 10 -> numeral s -> numeral (String (ascii_of_nat (Z.to_nat (48 + d))) s).

(** ** Images that are already pixel art *)

(** The image is a grid of [cols] x [rows] tiles of side [bs], each of
    one pixel value that meets the threshold. *)
Definition tile_grid (thr bs cols rows : Z) (im : Image) : Prop :=
  im_w im = cols * bs /\ im_h im = rows * bs /\
  forall x y, 0 <= x < cols * bs -> 0 <= y < rows * bs ->
    px im x y = px im (x / bs * bs) (y / bs * bs) /\ thr <= alpha_of (px im x y).

(** The rectangle for the tile in column [i] and row [j] of such a grid. *)
Definition tile_rect (im : Image) (bs i j : Z) : SvgRect :=
  let '(r, g, b, a) := px im (i * bs) (j * bs) in
  mkRect i j (rgb_hex_of r g b) (round4_of_255 a).

(** ** Rectangles read by the materializer *)










(** A character [int(_, 16)] reads as a digit. *)
Definition is_hex_digit (c : ascii) : bool :=
  match hex_value c with Some _ => true | None => false end.

(** ['#RRGGBB']: a hash sign and six hexadecimal digits. *)
Definition is_hash_rrggbb (s : string) : bool :=
  match s with
  | String h (String c1 (String c2 (String c3 (String c4 (String c5 (String c6 EmptyString)))))) =>
      Ascii.eqb h "#" && is_hex_digit c1 && is_hex_digit c2 && is_hex_digit c3
      && is_hex_digit c4 && is_hex_digit c5 && is_hex_digit c6
  | _ => false
  end.




(** ** Images for the estimator *)

(** An [h] x [w] RGB array of one colour. *)
Definition flat_image (h w : Z) (c : Z * Z * Z) : ndarray := Array3 h w (fun _ _ => c).

(** The weights OpenCV documents for RGB to gray,
    [0.299 R + 0.587 G + 0.114 B], rounded to the nearest integer. *)
Definition luma (p : Z * Z * Z) : Z :=
  let '(r, g, b) := p in (299 * r + 587 * g + 114 * b + 500) / 1000.

(** The entries of the array at two positions are the same. *)
Definition same_value (img : ndarray) (y x y' x' : Z) : Prop :=
  match img with
  | Array2 _ _ v => v y x = v y' x'
  | Array3 _ _ v => v y x = v y' x'
  end.

(** The image is made of tiles of side [bs], counted from its top-left
    corner, each of one value (the tiles of the last column and line
    may be cut by the edge of the image). *)
Definition tiled (bs : Z) (img : ndarray) : Prop :=
  forall y x y' x',
    0 <= y < shape_h img -> 0 <= x < shape_w img ->
    0 <= y' < shape_h img -> 0 <= x' < shape_w img ->
    y / bs = y' / bs -> x / bs = x' / bs ->
    same_value img y x y' x'.


(** Every pixel of the image is gray: the array has one channel, or the
    three channels of each pixel are equal. *)
Definition gray_pixels (img : ndarray) : Prop :=
  match img with
  | Array2 _ _ _ => True
  | Array3 h w v =>
      forall y x, 0 <= y < h -> 0 <= x < w -> let '(r, g, b) := v y x in r = g /\ g = b
  end.

(** ** Images with a margin *)

(** The position [p] moved by [(dx, dy)]. *)
Definition shift_by (dx dy : Z) (p : Z * Z) : Z * Z := (fst p + dx, snd p + dy).

(** [im'] shows [im] at the offset [(dx, dy)], and has only pixels below
    the threshold around it. *)
Definition embedded_at (thr dx dy : Z) (im im' : Image) : Prop :=
  0 <= dx /\ 0 <= dy /\
  im_w im + dx <= im_w im' /\ im_h im + dy <= im_h im' /\
  (forall x y, 0 <= x < im_w im -> 0 <= y < im_h im ->
     px im' (x + dx) (y + dy) = px im x y) /\
  (forall x y, 0 <= x < im_w im' -> 0 <= y < im_h im' ->
     ~ (dx <= x < dx + im_w im /\ dy <= y < dy + im_h im) ->
     alpha_of (px im' x y) < thr).

(** The cells of the whole tile of side [bs] at [(ox, oy)], line by
    line. *)
Definition tile_cells (bs ox oy : Z) : list (Z * Z) :=
  flat_map (fun dy => map (fun dx => (ox + dx, oy + dy)) (range bs)) (range bs).

(** Two results that are both missing, or both there and related. *)
Definition option_rel {A B : Type} (R : A -> B -> Prop) (o : option A) (o' : option B)
  : Prop :=
  match o, o' with
  | Some a, Some b => R a b
  | None, None => True
  | _, _ => False
  end.

(** A colour entry with its [coords] moved by [(dx, dy)]. *)
Definition shift_color (dx dy : Z) (c : ColorCount) : ColorCount :=
  mkColorCount (rgba_hex c) (rgb_hex c) (cc_a c) (count c) (map (shift_by dx dy) (coords c)).

(** [b'] is the block [b] moved by [(dx, dy)]; the size of the clipped
    tile and the number of pixels below the threshold may differ. *)
Definition block_shown_as (dx dy : Z) (b b' : Block) : Prop :=
  index b' = index b /\
  origin b' = shift_by dx dy (origin b) /\
  visible_pixels b' = visible_pixels b /\
  unique_colors b' = unique_colors b /\
  color_counts b' = map (shift_color dx dy) (color_counts b).

(** [row'] is the row [row] moved by [(dx, dy)]. *)
Definition row_shown_as (dx dy : Z) (row row' : Row) : Prop :=
  row_block_size row' = row_block_size row /\
  Forall2 (block_shown_as dx dy) (blocks row) (blocks row') /\
  total_blocks row' = total_blocks row /\
  first_pixel row' = shift_by dx dy (first_pixel row) /\
  last_pixel_visited row' = shift_by dx dy (last_pixel_visited row).

(** A position on a tile boundary for the block size [n]: its X or its
    Y coordinate is congruent to 0 or to [n - 1] modulo [n]. *)
Definition tile_boundary (n y x : Z) : Prop :=
  x mod n = 0 \/ x mod n = n - 1 \/ y mod n = 0 \/ y mod n = n - 1.

(** ** Example inputs *)

(** A 2x2 image with alpha 0 everywhere. *)
Definition transparent_2x2 : Image := mkImage 2 2 (fun _ _ => (10, 20, 30, 0)).

(** The 32x32 image of the specification's scenario: an opaque green
    16x16 square at (8, 8) on a transparent background. *)
Definition green_square : Image :=
  mkImage 32 32 (fun x y =>
    if (8 <=? x) && (x <? 24) && (8 <=? y) && (y <? 24)
    then (0, 255, 0, 255) else (0, 0, 0, 0)).

(** A 4x2 image: an opaque red 2x2 tile, then a tile with one visible
    pixel. *)
Definition dense_then_sparse : Image :=
  mkImage 4 2 (fun x y =>
    if (x <? 2) || ((x =? 2) && (y =? 0)) then (255, 0, 0, 255) else (0, 0, 0, 0)).

(** A 2x2 image with two opaque red and two opaque blue pixels. *)
Definition red_blue_tie : Image :=
  mkImage 2 2 (fun x y => if x =? y then (255, 0, 0, 255) else (0, 0, 255, 255)).

(** A 2x6 image: one visible pixel on line 0 (too sparse for a block of
    side 2, so the first strip gives no row), two red pixels on line 3,
    three blue pixels on lines 4 and 5. *)
Definition drifting_rows : Image :=
  mkImage 2 6 (fun x y =>
    if (x =? 0) && (y =? 0) then (0, 255, 0, 255)
    else if y =? 3 then (255, 0, 0, 255)
    else if ((y =? 4) && (x =? 0)) || (y =? 5) then (0, 0, 255, 255)
    else (0, 0, 0, 0)).

(** [drifting_rows] with its pixels below the threshold 128 replaced by
    transparent white. *)
Definition drifting_rows_on_white : Image :=
  mkImage (im_w drifting_rows) (im_h drifting_rows)
    (fun x y => if alpha_of (px drifting_rows x y) <? 128
                then (255, 255, 255, 0) else px drifting_rows x y).

(** A 4x2 image of two opaque tiles of side 2, red then blue. *)
Definition two_tiles : Image :=
  mkImage 4 2 (fun x y => if x <? 2 then (255, 0, 0, 255) else (0, 0, 255, 255)).

(** [two_tiles] inside a 7x5 image, one column from the left and two
    lines from the top, the rest transparent. *)
Definition two_tiles_in_margin : Image :=
  mkImage 7 5 (fun x y =>
    if (1 <=? x) && (x <? 5) && (2 <=? y) && (y <? 4)
    then px two_tiles (x - 1) (y - 2)
    else (0, 0, 0, 0)).

(** The document [main] writes for [two_tiles] with block size 2. *)
Definition two_tiles_svg : Svg :=
  mkSvg 2 1 [mkRect 0 0 "#FF0000" 10000; mkRect 1 0 "#0000FF" 10000].





(** A 6x6 grayscale array of four tiles of side 3, in two shades. *)
Definition four_tiles : ndarray :=
  Array2 6 6 (fun y x => if (y / 3 + x / 3) mod 2 =? 0 then 40 else 200).

(** A 3x3 array of one channel whose value is the column number. *)
Definition ramp_3x3 : ndarray := Array2 3 3 (fun _ x => x).

(** ** The claims that fail, as they are worded *)

(** The claim as the specification words it: two failing runs of
    different classes never return the same exit code. *)
Definition exit_code_identifies_class : Prop :=
  forall fuel1 args1 code1 msg1 fuel2 args2 code2 msg2,
    main fuel1 args1 = Some (Failed code1 msg1) ->
    main fuel2 args2 = Some (Failed code2 msg2) ->
    failure_class msg1 <> failure_class msg2 ->
    code1 <> code2.


(** The claim as worded: the contrast is [avgBoundary / avgInside] from
    0.001 on, and [avgBoundary / 0.001] below. *)
Definition contrast_is_guarded_ratio (rgb2gray : Z * Z * Z -> Z) : Prop :=
  forall img block_size,
    let avg_boundary := fst (_compute_gradient_at_positions rgb2gray img block_size) in
    let avg_inside := snd (_compute_gradient_at_positions rgb2gray img block_size) in
    ((1 / 1000 <= avg_inside)%R ->
     _compute_boundary_contrast rgb2gray img block_size = (avg_boundary / avg_inside)%R) /\
    ((avg_inside < 1 / 1000)%R ->
     _compute_boundary_contrast rgb2gray img block_size = (avg_boundary / (1 / 1000))%R).

(** The claim as worded: the canvas is measured between the four
    extremes the boundary scanners report. *)
Definition canvas_spans_extremes : Prop :=
  forall fuel im bs writable quiet out code svg x0 topmost_y xl bottommost_y
         leftmost_x ly rightmost_x ry,
    main fuel (mkArgs (Readable im) bs writable quiet out) = Some (Written code svg) ->
    find_first_nontransparent_pixel im 128 = Some (x0, topmost_y) ->
    find_last_nontransparent_pixel im 128 = Some (xl, bottommost_y) ->
    find_leftmost_nontransparent_pixel im 128 = Some (leftmost_x, ly) ->
    find_rightmost_nontransparent_pixel im 128 = Some (rightmost_x, ry) ->
    canvas_w svg = (rightmost_x - leftmost_x) / bs + 1 /\
    canvas_h svg = (bottommost_y - topmost_y) / bs + 1.

(** The claim as worded: every rectangle lies inside the canvas and no
    two rectangles occupy the same cell. *)
Definition one_rectangle_per_cell : Prop :=
  forall fuel args code svg,
    main fuel args = Some (Written code svg) ->
    Forall (in_canvas svg) (rects svg) /\ NoDup (map cell (rects svg)).

(** The claim as worded: after materializing the document, the pixel at
    the grid cell of every rectangle holds that rectangle's fill. *)
Definition round_trip_every_rectangle : Prop :=
  forall fuel im bs writable quiet out code svg,
    wf_image im ->
    main fuel (mkArgs (Readable im) bs writable quiet out) = Some (Written code svg) ->
    exists img,
      _svg_to_editable_png (Some (svg_content svg)) bs = Some img /\
      forall r red green blue,
        In r (rects svg) ->
        byte_range red -> byte_range green -> byte_range blue ->
        fill r = rgb_hex_of red green blue ->
        pixels img (rect_x r) (rect_y r) = (red, green, blue).

(** * Lemmas *)

(** ** Loops over ranges *)

Lemma in_range (n x : Z) : In x (range n) <-> 0 <= x < n.
Proof.
  unfold range. rewrite in_map_iff. split.
  - intros (k & <- & Hk). apply in_seq in Hk. lia.
  - intros Hx. exists (Z.to_nat x). split; [lia|]. apply in_seq. lia.
Qed.

Lemma in_range_down (n x : Z) : In x (range_down n) <-> 0 <= x < n.
Proof. unfold range_down. rewrite <- in_rev. apply in_range. Qed.

Lemma in_range_from (a b x : Z) : In x (range_from a b) <-> a <= x < b.
Proof.
  unfold range_from. rewrite in_map_iff. split.
  - intros (k & <- & Hk). apply in_seq in Hk. lia.
  - intros Hx. exists (Z.to_nat (x - a)). split; [lia|]. apply in_seq. lia.
Qed.

Lemma first_some_None {A B : Type} (xs : list A) (body : A -> option B) :
  first_some xs body = None <-> (forall x, In x xs -> body x = None).
Proof.
  induction xs as [|x xs IH]; simpl.
  - split; [intros _ x []|reflexivity].
  - destruct (body x) eqn:E.
    + split; [discriminate|]. intros H. rewrite (H x) in E by auto. discriminate.
    + rewrite IH. split.
      * intros H z [<-|Hz]; auto.
      * intros H z Hz. apply H. auto.
Qed.

Lemma first_some_Some {A B : Type} (xs : list A) (body : A -> option B) (r : B) :
  first_some xs body = Some r ->
  exists l1 x l2, xs = l1 ++ x :: l2 /\ body x = Some r /\
                  forall z, In z l1 -> body z = None.
Proof.
  induction xs as [|x xs IH]; simpl; [discriminate|].
  destruct (body x) eqn:E.
  - intros [= <-]. exists [], x, xs. repeat split; auto. intros z [].
  - intros H. destruct (IH H) as (l1 & z & l2 & -> & Hz & Hl1).
    exists (x :: l1), z, l2. repeat split; auto.
    intros y [<-|Hy]; auto.
Qed.

(** ** Transparent images *)

Lemma transparent_pixel_skipped (im : Image) (thr x y : Z) (r : Z * Z) :
  fully_transparent im -> 1 <= thr ->
  0 <= x < im_w im -> 0 <= y < im_h im ->
  (if alpha_of (px im x y) >=? thr then Some r else None) = None.
Proof.
  intros Ht Hthr Hx Hy. rewrite (Ht x y Hx Hy).
  destruct (0 >=? thr) eqn:E; [|reflexivity].
  apply Z.geb_le in E. lia.
Qed.

(** ** The trailing trim *)

Lemma pop_sparse_spec (bs : Z) (n : nat) (l : list Block) :
  (List.length l <= n)%nat ->
  exists removed,
    l = pop_sparse n bs l ++ removed /\
    Forall (fun b => sparse bs b = true) removed /\
    (forall kept' b, pop_sparse n bs l = kept' ++ [b] -> sparse bs b = false).
Proof.
  revert l. induction n as [|n IH]; intros l Hn.
  - destruct l; [|simpl in Hn; lia]. exists []. simpl. repeat split; auto.
    intros kept' b H. destruct kept'; discriminate.
  - simpl. destruct (rev l) as [|last_block rl] eqn:Er.
    + exists []. rewrite app_nil_r. repeat split; auto.
      intros kept' b ->. rewrite rev_app_distr in Er. discriminate.
    + assert (El : l = rev rl ++ [last_block]).
      { rewrite <- (rev_involutive l), Er. reflexivity. }
      destruct (sparse bs last_block) eqn:Es.
      * rewrite El, removelast_last.
        destruct (IH (rev rl)) as (removed & H1 & H2 & H3).
        { rewrite El, length_app in Hn. simpl in Hn. lia. }
        exists (removed ++ [last_block]). repeat split.
        -- rewrite app_assoc, <- H1. reflexivity.
        -- apply Forall_app. split; auto.
        -- exact H3.
      * exists []. rewrite app_nil_r. repeat split; auto.
        intros kept' b H. rewrite El in H. apply app_inj_tail in H.
        destruct H as [_ <-]. exact Es.
Qed.

(** ** Materializer: drawing rectangles *)

Lemma putpixel_inside (img : Raster) (x y : Z) (color : RGB) :
  0 <= x < ras_w img -> 0 <= y < ras_h img ->
  exists img',
    putpixel img x y color = Some img' /\
    ras_w img' = ras_w img /\ ras_h img' = ras_h img /\
    pixels img' x y = (let '(r, g, b) := color in (clip8 r, clip8 g, clip8 b)) /\
    forall i j, (i, j) <> (x, y) -> pixels img' i j = pixels img i j.
Proof.
  intros Hx Hy. unfold putpixel.
  assert (E1 : (x <? 0) = false) by (apply Z.ltb_ge; lia).
  assert (E2 : (y <? 0) = false) by (apply Z.ltb_ge; lia).
  assert (E3 : (x >=? ras_w img) = false) by (rewrite Z.geb_leb; apply Z.leb_gt; lia).
  assert (E4 : (y >=? ras_h img) = false) by (rewrite Z.geb_leb; apply Z.leb_gt; lia).
  cbv zeta. rewrite E1, E2, E1, E2, E3, E4.
  simpl. destruct color as [[r g] b]. eexists. split; [reflexivity|]. simpl.
  repeat split.
  - rewrite !Z.eqb_refl. reflexivity.
  - intros i j Hij.
    destruct (i =? x) eqn:Ei; [|reflexivity].
    destruct (j =? y) eqn:Ej; [|reflexivity].
    apply Z.eqb_eq in Ei, Ej. subst. congruence.
Qed.




(** ** Gradient averages *)

Lemma in_positions (h w y x : Z) :
  In (y, x) (positions h w) <-> 0 <= y < h /\ 0 <= x < w.
Proof.
  unfold positions. rewrite in_flat_map. split.
  - intros (y' & Hy & Hin). apply in_map_iff in Hin. destruct Hin as (x' & [= -> ->] & Hx).
    apply in_range in Hy, Hx. auto.
  - intros [Hy Hx]. exists y. split; [apply in_range; exact Hy|].
    apply in_map_iff. exists x. split; [reflexivity|apply in_range; exact Hx].
Qed.

Lemma sum_nonneg (xs : list R) :
  Forall (fun v => (0 <= v)%R) xs -> (0 <= fold_right Rplus 0 xs)%R.
Proof.
  induction 1 as [|v xs Hv _ IH]; simpl; lra.
Qed.

Lemma mean_or_zero_nonneg (xs : list R) :
  Forall (fun v => (0 <= v)%R) xs -> (0 <= mean_or_zero xs)%R.
Proof.
  intros H. unfold mean_or_zero. destruct xs as [|v xs]; [lra|].
  apply Rmult_le_pos.
  - apply sum_nonneg. exact H.
  - apply Rlt_le, Rinv_0_lt_compat. apply lt_0_INR. simpl. lia.
Qed.

Lemma mean_or_zero_zeros (xs : list R) :
  Forall (fun v => v = 0%R) xs -> mean_or_zero xs = 0%R.
Proof.
  intros H. unfold mean_or_zero. destruct xs as [|v xs]; [reflexivity|].
  assert (E : fold_right Rplus 0%R (v :: xs) = 0%R).
  { induction H as [|u us Hu _ IH]; simpl; [reflexivity|]. rewrite Hu, IH. lra. }
  rewrite E. unfold Rdiv. apply Rmult_0_l.
Qed.

Lemma grad_magnitude_nonneg (rgb2gray : Z * Z * Z -> Z) (img : ndarray) (y x : Z) :
  (0 <= grad_magnitude rgb2gray img y x)%R.
Proof. unfold grad_magnitude. apply sqrt_pos. Qed.

Lemma averages_nonneg (rgb2gray : Z * Z * Z -> Z) (img : ndarray) (block_size : Z) :
  (0 <= fst (_compute_gradient_at_positions rgb2gray img block_size))%R /\
  (0 <= snd (_compute_gradient_at_positions rgb2gray img block_size))%R.
Proof.
  unfold _compute_gradient_at_positions.
  destruct (partition _ _) as [at_boundary inside]. simpl.
  split; apply mean_or_zero_nonneg; apply Forall_forall; intros v Hv;
    apply in_map_iff in Hv; destruct Hv as (p & <- & _); apply grad_magnitude_nonneg.
Qed.

Lemma flat_image_gradient (rgb2gray : Z * Z * Z -> Z) (h w : Z) (c : Z * Z * Z) (y x : Z) :
  grad_magnitude rgb2gray (flat_image h w c) y x = 0%R.
Proof.
  unfold grad_magnitude, sobel_x, sobel_y, gray. simpl.
  set (v := IZR (rgb2gray c)).
  replace (v - v + 2 * (v - v) + (v - v))%R with 0%R by lra.
  rewrite Rabs_R0. replace (0 * (0 * 1) + 0 * (0 * 1))%R with 0%R by lra. apply sqrt_0.
Qed.

Lemma flat_image_averages (rgb2gray : Z * Z * Z -> Z) (h w : Z) (c : Z * Z * Z) (n : Z) :
  _compute_gradient_at_positions rgb2gray (flat_image h w c) n = (0%R, 0%R).
Proof.
  unfold _compute_gradient_at_positions.
  destruct (partition _ _) as [at_boundary inside].
  f_equal; apply mean_or_zero_zeros; apply Forall_forall; intros v Hv;
    apply in_map_iff in Hv; destruct Hv as (p & <- & _); apply flat_image_gradient.
Qed.

(** ** The boundary scanners find the extremes *)

Lemma seq_strongly_sorted (len start : nat) : StronglySorted lt (seq start len).
Proof.
  revert start. induction len as [|len IH]; intros start; simpl; constructor.
  - apply IH.
  - apply Forall_forall. intros k Hk. apply in_seq in Hk. lia.
Qed.

Lemma range_strongly_sorted (n : Z) : StronglySorted Z.lt (range n).
Proof.
  unfold range. generalize (seq_strongly_sorted (Z.to_nat n) 0).
  induction 1 as [|k l _ IH Hk]; simpl; constructor; auto.
  apply Forall_forall. intros z Hz. apply in_map_iff in Hz.
  destruct Hz as (j & <- & Hj). rewrite Forall_forall in Hk.
  specialize (Hk j Hj). lia.
Qed.

Lemma strongly_sorted_split {A : Type} (R : A -> A -> Prop) (l1 l2 : list A) (x : A) :
  StronglySorted R (l1 ++ x :: l2) -> Forall (fun z => R z x) l1 /\ Forall (R x) l2.
Proof.
  induction l1 as [|a l1 IH]; simpl; intros H; inversion H as [|? ? Hs Hf]; subst.
  - split; [constructor|assumption].
  - destruct (IH Hs) as [H1 H2]. split; [|assumption].
    constructor; [|assumption].
    rewrite Forall_forall in Hf. apply Hf. apply in_or_app. right. left. reflexivity.
Qed.

Lemma range_split (n x : Z) (l1 l2 : list Z) :
  range n = l1 ++ x :: l2 ->
  0 <= x < n /\
  (forall z, 0 <= z < x -> In z l1) /\
  (forall z, x < z < n -> In z l2).
Proof.
  intros E. pose proof (range_strongly_sorted n) as Hs. rewrite E in Hs.
  apply strongly_sorted_split in Hs. destruct Hs as [H1 H2].
  rewrite Forall_forall in H1, H2.
  assert (Hx : 0 <= x < n).
  { apply in_range. rewrite E. apply in_or_app. right. left. reflexivity. }
  split; [exact Hx|]. split; intros z Hz.
  - assert (Hin : In z (range n)) by (apply in_range; lia).
    rewrite E in Hin. apply in_app_or in Hin. destruct Hin as [Hin|[Hin|Hin]]; auto.
    + lia.
    + specialize (H2 z Hin). lia.
  - assert (Hin : In z (range n)) by (apply in_range; lia).
    rewrite E in Hin. apply in_app_or in Hin. destruct Hin as [Hin|[Hin|Hin]]; auto.
    + specialize (H1 z Hin). lia.
    + lia.
Qed.

Lemma first_some_range {B : Type} (n : Z) (body : Z -> option B) (r : B) :
  first_some (range n) body = Some r ->
  exists x, 0 <= x < n /\ body x = Some r /\ forall z, 0 <= z < x -> body z = None.
Proof.
  intros H. apply first_some_Some in H. destruct H as (l1 & x & l2 & E & Hx & Hl1).
  apply range_split in E. destruct E as (Hr & Hbelow & _).
  exists x. repeat split; auto; lia.
Qed.

Lemma first_some_range_down {B : Type} (n : Z) (body : Z -> option B) (r : B) :
  first_some (range_down n) body = Some r ->
  exists x, 0 <= x < n /\ body x = Some r /\ forall z, x < z < n -> body z = None.
Proof.
  intros H. apply first_some_Some in H. destruct H as (l1 & x & l2 & E & Hx & Hl1).
  unfold range_down in E. apply (f_equal (@rev Z)) in E.
  rewrite rev_involutive, rev_app_distr in E. simpl in E. rewrite <- app_assoc in E.
  apply range_split in E. destruct E as (Hr & _ & Habove).
  exists x. repeat split; auto; try lia.
  intros z Hz. apply Hl1. apply in_rev. apply Habove. exact Hz.
Qed.

Lemma alpha_test_Some (im : Image) (thr x y : Z) (r c : Z * Z) :
  (if alpha_of (px im x y) >=? thr then Some c else None) = Some r ->
  c = r /\ thr <= alpha_of (px im x y).
Proof.
  destruct (alpha_of (px im x y) >=? thr) eqn:E; [|discriminate].
  intros [= <-]. apply Z.geb_le in E. auto.
Qed.

Lemma alpha_test_None (im : Image) (thr x y : Z) (c : Z * Z) :
  (if alpha_of (px im x y) >=? thr then Some c else None) = None ->
  alpha_of (px im x y) < thr.
Proof.
  destruct (alpha_of (px im x y) >=? thr) eqn:E; [discriminate|].
  intros _. rewrite Z.geb_leb in E. apply Z.leb_gt in E. exact E.
Qed.

Section Scanners.

Variable im : Image.
Variable thr : Z.

Lemma find_first_spec (x0 y0 : Z) :
  find_first_nontransparent_pixel im thr = Some (x0, y0) ->
  visible_at im thr x0 y0 /\
  (forall x y, visible_at im thr x y -> y0 <= y) /\
  (forall x, visible_at im thr x y0 -> x0 <= x).
Proof.
  unfold find_first_nontransparent_pixel. intros H.
  apply first_some_range in H. destruct H as (y & Hy & H & Habove).
  apply first_some_range in H. destruct H as (x & Hx & H & Hleft).
  apply alpha_test_Some in H. destruct H as [[= <- <-] Ha].
  split; [unfold visible_at; auto|]. split.
  - intros x' y' (Hx' & Hy' & Ha').
    destruct (Z_lt_le_dec y' y) as [Hlt|]; [|assumption].
    assert (Hrow := Habove y' ltac:(lia)).
    rewrite first_some_None in Hrow.
    specialize (Hrow x' (proj2 (in_range _ _) Hx')).
    apply alpha_test_None in Hrow. lia.
  - intros x' (Hx' & _ & Ha').
    destruct (Z_lt_le_dec x' x) as [Hlt|]; [|assumption].
    assert (Hc := Hleft x' ltac:(lia)). apply alpha_test_None in Hc. lia.
Qed.

Lemma find_last_spec (x0 y0 : Z) :
  find_last_nontransparent_pixel im thr = Some (x0, y0) ->
  visible_at im thr x0 y0 /\ forall x y, visible_at im thr x y -> y <= y0.
Proof.
  unfold find_last_nontransparent_pixel. intros H.
  apply first_some_range_down in H. destruct H as (y & Hy & H & Hbelow).
  apply first_some_range_down in H. destruct H as (x & Hx & H & _).
  apply alpha_test_Some in H. destruct H as [[= <- <-] Ha].
  split; [unfold visible_at; auto|].
  intros x' y' (Hx' & Hy' & Ha').
  destruct (Z_lt_le_dec y y') as [Hlt|]; [|assumption].
  assert (Hrow := Hbelow y' ltac:(lia)).
  rewrite first_some_None in Hrow.
  specialize (Hrow x' (proj2 (in_range_down _ _) Hx')).
  apply alpha_test_None in Hrow. lia.
Qed.

Lemma find_leftmost_spec (x0 y0 : Z) :
  find_leftmost_nontransparent_pixel im thr = Some (x0, y0) ->
  visible_at im thr x0 y0 /\ forall x y, visible_at im thr x y -> x0 <= x.
Proof.
  unfold find_leftmost_nontransparent_pixel. intros H.
  apply first_some_range in H. destruct H as (x & Hx & H & Hleft).
  apply first_some_range in H. destruct H as (y & Hy & H & _).
  apply alpha_test_Some in H. destruct H as [[= <- <-] Ha].
  split; [unfold visible_at; auto|].
  intros x' y' (Hx' & Hy' & Ha').
  destruct (Z_lt_le_dec x' x) as [Hlt|]; [|assumption].
  assert (Hcol := Hleft x' ltac:(lia)).
  rewrite first_some_None in Hcol.
  specialize (Hcol y' (proj2 (in_range _ _) Hy')).
  apply alpha_test_None in Hcol. lia.
Qed.

Lemma find_rightmost_spec (x0 y0 : Z) :
  find_rightmost_nontransparent_pixel im thr = Some (x0, y0) ->
  visible_at im thr x0 y0 /\ forall x y, visible_at im thr x y -> x <= x0.
Proof.
  unfold find_rightmost_nontransparent_pixel. intros H.
  apply first_some_range_down in H. destruct H as (x & Hx & H & Hright).
  apply first_some_range in H. destruct H as (y & Hy & H & _).
  apply alpha_test_Some in H. destruct H as [[= <- <-] Ha].
  split; [unfold visible_at; auto|].
  intros x' y' (Hx' & Hy' & Ha').
  destruct (Z_lt_le_dec x x') as [Hlt|]; [|assumption].
  assert (Hcol := Hright x' ltac:(lia)).
  rewrite first_some_None in Hcol.
  specialize (Hcol y' (proj2 (in_range _ _) Hy')).
  apply alpha_test_None in Hcol. lia.
Qed.

Lemma alpha_test_visible (x y : Z) (c : Z * Z) :
  visible_at im thr x y ->
  (if alpha_of (px im x y) >=? thr then Some c else None) <> None.
Proof.
  intros (_ & _ & Ha). destruct (alpha_of (px im x y) >=? thr) eqn:E; [discriminate|].
  rewrite Z.geb_leb in E. apply Z.leb_gt in E. lia.
Qed.

Lemma find_leftmost_exists (x y : Z) :
  visible_at im thr x y -> find_leftmost_nontransparent_pixel im thr <> None.
Proof.
  intros Hv H. unfold find_leftmost_nontransparent_pixel in H.
  rewrite first_some_None in H.
  destruct Hv as (Hx & Hy & Ha).
  specialize (H x (proj2 (in_range _ _) Hx)).
  rewrite first_some_None in H.
  specialize (H y (proj2 (in_range _ _) Hy)).
  revert H. apply alpha_test_visible. unfold visible_at. auto.
Qed.

Lemma find_rightmost_exists (x y : Z) :
  visible_at im thr x y -> find_rightmost_nontransparent_pixel im thr <> None.
Proof.
  intros Hv H. unfold find_rightmost_nontransparent_pixel in H.
  rewrite first_some_None in H.
  destruct Hv as (Hx & Hy & Ha).
  specialize (H x (proj2 (in_range_down _ _) Hx)).
  rewrite first_some_None in H.
  specialize (H y (proj2 (in_range _ _) Hy)).
  revert H. apply alpha_test_visible. unfold visible_at. auto.
Qed.

End Scanners.

(** ** The row scanner: anchor *)

Lemma find_anchor_spec (im : Image) (start_y bs thr first_x actual_y : Z) :
  0 <= start_y ->
  find_anchor im start_y bs thr = Some (first_x, actual_y) ->
  1 <= bs /\ start_y <= actual_y < start_y + bs /\
  visible_at im thr first_x actual_y /\
  (forall x y, start_y <= y < actual_y -> ~ visible_at im thr x y) /\
  (forall x, visible_at im thr x actual_y -> first_x <= x).
Proof.
  intros Hs. unfold find_anchor.
  destruct (first_some (range (Z.min bs (im_h im - start_y))) _) as [topmost_y|] eqn:Et;
    [|discriminate].
  apply first_some_range in Et. destruct Et as (dy & Hdy & Hrow & Habove).
  apply first_some_range in Hrow. destruct Hrow as (xc & Hxc & Hc & _).
  destruct (alpha_of (px im xc (start_y + dy)) >=? thr); [|discriminate].
  injection Hc as <-.
  intros H. apply first_some_range in H. destruct H as (x & Hx & H & Hleft).
  apply alpha_test_Some in H. destruct H as [[= <- <-] Ha].
  split; [lia|]. split; [lia|]. split; [unfold visible_at; split; [lia|split; [lia|exact Ha]]|].
  split.
  - intros x' y' Hy' (Hx' & _ & Ha').
    assert (Hr := Habove (y' - start_y) ltac:(lia)).
    rewrite first_some_None in Hr.
    specialize (Hr x' (proj2 (in_range _ _) Hx')).
    replace (start_y + (y' - start_y)) with y' in Hr by lia.
    destruct (alpha_of (px im x' y') >=? thr) eqn:E; [discriminate|].
    rewrite Z.geb_leb in E. apply Z.leb_gt in E. lia.
  - intros x' (Hx' & _ & Ha').
    destruct (Z_lt_le_dec x' x) as [Hlt|]; [|assumption].
    assert (Hc := Hleft x' ltac:(lia)). apply alpha_test_None in Hc. lia.
Qed.

(** ** The row scanner: the pixels of one tile *)

Lemma in_footprint (im : Image) (bs ox oy x y : Z) :
  In (x, y) (footprint im bs ox oy) <->
  ox <= x < ox + bs /\ x < im_w im /\ oy <= y < oy + bs /\ y < im_h im.
Proof.
  unfold footprint. rewrite in_flat_map. split.
  - intros (dy & Hdy & Hin). apply in_map_iff in Hin.
    destruct Hin as (dx & [= <- <-] & Hdx).
    apply filter_In in Hdy, Hdx. destruct Hdy as [Hdy Hy], Hdx as [Hdx Hx].
    apply in_range in Hdy, Hdx.
    apply negb_true_iff in Hy, Hx. rewrite Z.geb_leb in Hy, Hx.
    apply Z.leb_gt in Hy, Hx. lia.
  - intros (Hx & Hxw & Hy & Hyh). exists (y - oy). split.
    + apply filter_In. split; [apply in_range; lia|].
      apply negb_true_iff. rewrite Z.geb_leb. apply Z.leb_gt. lia.
    + apply in_map_iff. exists (x - ox). split; [f_equal; lia|].
      apply filter_In. split; [apply in_range; lia|].
      apply negb_true_iff. rewrite Z.geb_leb. apply Z.leb_gt. lia.
Qed.

Lemma in_visible_colors_of (im : Image) (thr : Z) (cells : list (Z * Z)) (k : string) :
  In k (visible_colors_of im thr cells) <->
  exists x y, In (x, y) cells /\ thr <= alpha_of (px im x y) /\ k = rgba_hex_of (px im x y).
Proof.
  unfold visible_colors_of. rewrite in_map_iff. split.
  - intros ([x y] & <- & Hc). apply filter_In in Hc. destruct Hc as [Hc Ha].
    simpl in *. apply Z.geb_le in Ha. exists x, y. auto.
  - intros (x & y & Hc & Ha & ->). exists (x, y). split; [reflexivity|].
    apply filter_In. split; [assumption|]. simpl. apply Z.geb_le. exact Ha.
Qed.

Lemma visible_colors_of_app (im : Image) (thr : Z) (c1 c2 : list (Z * Z)) :
  visible_colors_of im thr (c1 ++ c2)
  = visible_colors_of im thr c1 ++ visible_colors_of im thr c2.
Proof. unfold visible_colors_of. rewrite filter_app, map_app. reflexivity. Qed.

Lemma histogram_snoc (colors : list string) (k : string) :
  histogram (colors ++ [k])
  = dict_set (histogram colors) k (dict_get_default (histogram colors) k 0 + 1).
Proof. unfold histogram. rewrite fold_left_app. reflexivity. Qed.

(** One pixel visited: the state after [scan_pixel]. *)
Lemma scan_pixel_step (im : Image) (thr ox sy dx : Z) (acc : BlockAcc) (flag : bool)
  (cells : list (Z * Z)) :
  summarises im thr cells acc ->
  if ox + dx >=? im_w im
  then scan_pixel im thr ox sy dx (acc, flag) = None
  else exists acc',
      scan_pixel im thr ox sy dx (acc, flag) = Some (acc', true) /\
      summarises im thr (cells ++ [(ox + dx, sy)]) acc'.
Proof.
  intros (Hp & Hc & Hv). unfold scan_pixel.
  destruct (ox + dx >=? im_w im); [reflexivity|].
  destruct (px im (ox + dx) sy) as [[[rC gC] bC] aC] eqn:Epx.
  eexists. split; [reflexivity|].
  unfold summarises. rewrite visible_colors_of_app, map_app.
  assert (Evc : visible_colors_of im thr [(ox + dx, sy)]
                = if aC >=? thr then [rgba_hex_of (rC, gC, bC, aC)] else []).
  { unfold visible_colors_of. cbn [filter fst snd]. rewrite Epx. unfold alpha_of.
    destruct (aC >=? thr); cbn [map fst snd]; [rewrite Epx|]; reflexivity. }
  assert (Een : map (entry_at im) [(ox + dx, sy)] = [mkEntry (ox + dx) sy rC gC bC aC]).
  { simpl. unfold entry_at. simpl. rewrite Epx. reflexivity. }
  rewrite Evc, Een. destruct (aC >=? thr); cbn [blk_pixels blk_color_counts visible].
  - rewrite histogram_snoc, <- Hc, Hp, length_app, Hv. cbn [List.length].
    repeat split. lia.
  - rewrite !app_nil_r, Hp, Hc, Hv. repeat split.
Qed.

Lemma filter_beyond (bound o d : Z) (ds : list Z) :
  (o + d >=? bound) = true -> Forall (Z.lt d) ds ->
  filter (fun dx => negb (o + dx >=? bound)) ds = [].
Proof.
  intros Hd Hs. apply Z.geb_le in Hd.
  induction Hs as [|z ds Hz _ IH]; simpl; [reflexivity|].
  replace (o + z >=? bound) with true by (symmetry; apply Z.geb_le; lia).
  exact IH.
Qed.

Lemma inner_loop_summary (im : Image) (thr ox sy : Z) (ds : list Z) :
  StronglySorted Z.lt ds ->
  forall cells acc flag,
    summarises im thr cells acc ->
    exists acc' flag',
      for_each ds (scan_pixel im thr ox sy) (acc, flag) = (acc', flag') /\
      summarises im thr
        (cells ++ map (fun dx => (ox + dx, sy))
                      (filter (fun dx => negb (ox + dx >=? im_w im)) ds)) acc'.
Proof.
  induction 1 as [|d ds Hs IH Hd]; intros cells acc flag Hsum.
  - simpl. rewrite app_nil_r. eauto.
  - cbn [for_each filter].
    pose proof (scan_pixel_step im thr ox sy d acc flag cells Hsum) as Hstep.
    destruct (ox + d >=? im_w im) eqn:E; cbn [negb].
    + rewrite Hstep. rewrite (filter_beyond _ _ d) by assumption.
      cbn [map]. rewrite app_nil_r. eauto.
    + destruct Hstep as (acc1 & -> & Hsum1).
      destruct (IH _ _ true Hsum1) as (acc' & flag' & E' & Hsum').
      exists acc', flag'. split; [exact E'|].
      cbn [map]. rewrite <- app_assoc in Hsum'. exact Hsum'.
Qed.

Lemma summarises_bump (im : Image) (thr : Z) (cells : list (Z * Z)) (acc : BlockAcc) (h' : Z) :
  summarises im thr cells acc ->
  summarises im thr cells
    (mkAcc (blk_pixels acc) (blk_color_counts acc) (visible acc) (skipped acc)
           (actual_w acc) h').
Proof. intros H. exact H. Qed.

Lemma outer_loop_summary (im : Image) (thr bs ox oy : Z) (dys : list Z) :
  StronglySorted Z.lt dys ->
  forall cells acc,
    summarises im thr cells acc ->
    summarises im thr
      (cells ++ flat_map (fun dy =>
                   map (fun dx => (ox + dx, oy + dy))
                       (filter (fun dx => negb (ox + dx >=? im_w im)) (range bs)))
                 (filter (fun dy => negb (oy + dy >=? im_h im)) dys))
      (for_each dys (scan_pixel_row im thr bs ox oy) acc).
Proof.
  induction 1 as [|d dys Hs IH Hd]; intros cells acc Hsum.
  - simpl. rewrite app_nil_r. exact Hsum.
  - cbn [for_each filter]. unfold scan_pixel_row at 1.
    destruct (oy + d >=? im_h im) eqn:E; cbn [negb].
    + rewrite (filter_beyond (im_h im) oy d dys E Hd).
      cbn [flat_map]. rewrite app_nil_r. exact Hsum.
    + destruct (inner_loop_summary im thr ox (oy + d) (range bs)
                  (range_strongly_sorted bs) cells acc false Hsum)
        as (acc1 & flag1 & -> & Hsum1).
      cbn [flat_map]. rewrite app_assoc. apply IH.
      destruct flag1; [apply summarises_bump|]; exact Hsum1.
Qed.

Lemma collect_block_summary (im : Image) (thr bs ox oy : Z) :
  summarises im thr (footprint im bs ox oy) (collect_block_pixels im thr bs ox oy).
Proof.
  unfold collect_block_pixels, footprint.
  apply (outer_loop_summary im thr bs ox oy (range bs) (range_strongly_sorted bs) [] acc0).
  repeat split.
Qed.

(** ** Dictionaries and the colour histogram *)

Lemma dict_get_set {V : Type} (d : dict V) (k k' : string) (v : V) :
  dict_get (dict_set d k v) k' = if String.eqb k k' then Some v else dict_get d k'.
Proof.
  induction d as [|[k0 v0] d IH]; simpl.
  - reflexivity.
  - destruct (String.eqb k0 k) eqn:E0; simpl.
    + apply String.eqb_eq in E0. subst k0.
      destruct (String.eqb k k'); reflexivity.
    + destruct (String.eqb k0 k') eqn:E1.
      * apply String.eqb_eq in E1. subst k0.
        rewrite String.eqb_sym, E0. reflexivity.
      * exact IH.
Qed.

Lemma dict_set_keys {V : Type} (d : dict V) (k : string) (v : V) :
  forall k', In k' (map fst (dict_set d k v)) <-> k' = k \/ In k' (map fst d).
Proof.
  induction d as [|[k0 v0] d IH]; intros k'; simpl.
  - intuition.
  - destruct (String.eqb k0 k) eqn:E0; simpl.
    + apply String.eqb_eq in E0. subst k0. intuition.
    + rewrite IH. intuition.
Qed.

Lemma dict_set_NoDup {V : Type} (d : dict V) (k : string) (v : V) :
  NoDup (map fst d) -> NoDup (map fst (dict_set d k v)).
Proof.
  induction d as [|[k0 v0] d IH]; simpl; intros H.
  - constructor; [intros []|constructor].
  - inversion H as [|? ? Hn Hd]; subst.
    destruct (String.eqb k0 k) eqn:E0; simpl.
    + constructor; assumption.
    + constructor; [|apply IH; assumption].
      rewrite dict_set_keys. intros [->|Hin]; [|contradiction].
      rewrite String.eqb_refl in E0. discriminate.
Qed.

Lemma dict_get_In {V : Type} (d : dict V) (k : string) (v : V) :
  dict_get d k = Some v -> In (k, v) d.
Proof.
  induction d as [|[k0 v0] d IH]; simpl; [discriminate|].
  destruct (String.eqb k0 k) eqn:E0.
  - apply String.eqb_eq in E0. intros [= ->]. left. congruence.
  - intros H. right. apply IH. exact H.
Qed.

Lemma In_dict_get {V : Type} (d : dict V) (k : string) (v : V) :
  NoDup (map fst d) -> In (k, v) d -> dict_get d k = Some v.
Proof.
  induction d as [|[k0 v0] d IH]; simpl; intros Hnd Hin; [contradiction|].
  inversion Hnd as [|? ? Hn Hd]; subst.
  destruct Hin as [[= -> ->]|Hin].
  - rewrite String.eqb_refl. reflexivity.
  - destruct (String.eqb k0 k) eqn:E0.
    + apply String.eqb_eq in E0. subst k0. exfalso. apply Hn.
      apply in_map_iff. exists (k, v). auto.
    + apply IH; assumption.
Qed.

Lemma histogram_NoDup (colors : list string) : NoDup (map fst (histogram colors)).
Proof.
  induction colors as [|k colors IH] using rev_ind.
  - constructor.
  - rewrite histogram_snoc. apply dict_set_NoDup. exact IH.
Qed.

(** The histogram holds, for each colour that occurs, how often it
    occurs. *)
Lemma histogram_get (colors : list string) (k : string) :
  dict_get (histogram colors) k =
  if (count_occ string_dec colors k =? 0)%nat then None
  else Some (Z.of_nat (count_occ string_dec colors k)).
Proof.
  induction colors as [|k0 colors IH] using rev_ind.
  - reflexivity.
  - rewrite histogram_snoc, dict_get_set, count_occ_app. simpl.
    destruct (String.eqb k0 k) eqn:E0.
    + apply String.eqb_eq in E0. subst k0.
      destruct (string_dec k k) as [_|Hn]; [|contradiction].
      unfold dict_get_default. rewrite IH.
      destruct (count_occ string_dec colors k) as [|n] eqn:Ec; simpl.
      * reflexivity.
      * replace (n + 1 =? 0)%nat with false by (symmetry; apply Nat.eqb_neq; lia).
        f_equal. lia.
    + apply String.eqb_neq in E0.
      destruct (string_dec k0 k) as [Heq|_]; [contradiction|].
      rewrite Nat.add_0_r. exact IH.
Qed.

Lemma histogram_In (colors : list string) (k : string) (v : Z) :
  In (k, v) (histogram colors) <->
  v = Z.of_nat (count_occ string_dec colors k) /\ In k colors.
Proof.
  split.
  - intros H. apply In_dict_get in H; [|apply histogram_NoDup].
    rewrite histogram_get in H.
    destruct (count_occ string_dec colors k =? 0)%nat eqn:E; [discriminate|].
    injection H as <-. split; [reflexivity|].
    apply Nat.eqb_neq in E. apply (count_occ_In string_dec). lia.
  - intros [-> Hin]. apply dict_get_In. rewrite histogram_get.
    apply (count_occ_In string_dec) in Hin.
    replace (count_occ string_dec colors k =? 0)%nat with false
      by (symmetry; apply Nat.eqb_neq; lia).
    reflexivity.
Qed.

(** ** [sorted] *)

Lemma insert_sorted_perm {A : Type} (le : A -> A -> bool) (x : A) (l : list A) :
  Permutation (insert_sorted le x l) (x :: l).
Proof.
  induction l as [|y l IH]; simpl; [reflexivity|].
  destruct (le x y); [reflexivity|].
  rewrite IH. apply perm_swap.
Qed.

Lemma sorted_perm {A : Type} (le : A -> A -> bool) (l : list A) :
  Permutation (sorted le l) l.
Proof.
  induction l as [|x l IH]; simpl; [reflexivity|].
  unfold sorted in *. simpl. rewrite insert_sorted_perm. constructor. exact IH.
Qed.

Section SortedBy.

Context {A : Type} (le : A -> A -> bool).
Hypothesis le_total : forall x y, le x y = true \/ le y x = true.
Hypothesis le_trans : forall x y z, le x y = true -> le y z = true -> le x z = true.

Lemma insert_sorted_sorted (x : A) (l : list A) :
  StronglySorted (fun a b => le a b = true) l ->
  StronglySorted (fun a b => le a b = true) (insert_sorted le x l).
Proof.
  induction 1 as [|y l Hs IH Hy]; simpl.
  - constructor; constructor.
  - destruct (le x y) eqn:E.
    + constructor; [constructor; assumption|].
      constructor; [exact E|].
      eapply Forall_impl; [|exact Hy]. intros z Hz. simpl in Hz. eauto.
    + constructor; [exact IH|].
      assert (Hyx : le y x = true) by (destruct (le_total x y); congruence).
      rewrite Forall_forall in *. intros z Hz.
      apply (Permutation_in _ (insert_sorted_perm le x l)) in Hz.
      destruct Hz as [<-|Hz]; auto.
Qed.

Lemma sorted_sorted (l : list A) :
  StronglySorted (fun a b => le a b = true) (sorted le l).
Proof.
  induction l as [|x l IH]; simpl; [constructor|].
  apply insert_sorted_sorted. exact IH.
Qed.

End SortedBy.

(** ** The sort key of [color_counts] *)

Lemma string_leb_iff (a b : string) :
  String.leb a b = true <-> a = b \/ String_as_OT.lt a b.
Proof.
  unfold String.leb. destruct (String.compare a b) eqn:E.
  - apply String_as_OT.cmp_eq in E. intuition.
  - apply String_as_OT.cmp_lt in E. intuition.
  - split; [discriminate|]. intros [->|H].
    + assert (E' : String.compare b b = Eq) by (apply String_as_OT.cmp_eq; reflexivity).
      congruence.
    + apply String_as_OT.cmp_lt in H. unfold String_as_OT.cmp in H. congruence.
Qed.

Lemma string_leb_trans (a b c : string) :
  String.leb a b = true -> String.leb b c = true -> String.leb a c = true.
Proof.
  rewrite !string_leb_iff. intros [->|H1] [->|H2]; auto.
  right. eapply String_as_OT.lt_trans; eassumption.
Qed.

Lemma string_ltb_iff (a b : string) :
  String.ltb a b = true <-> String.leb a b = true /\ a <> b.
Proof.
  unfold String.ltb, String.leb. destruct (String.compare a b) eqn:E.
  - apply String_as_OT.cmp_eq in E. split; [discriminate|]. intros [_ H]. contradiction.
  - split; [|reflexivity]. intros _. split; [reflexivity|]. intros ->.
    assert (E' : String.compare b b = Eq) by (apply String_as_OT.cmp_eq; reflexivity).
    congruence.
  - split; [discriminate|]. intros [H _]. discriminate.
Qed.

Lemma count_key_le_iff (k1 k2 : string) (v1 v2 : Z) :
  count_key_le (k1, v1) (k2, v2) = true <->
  v2 < v1 \/ (v1 = v2 /\ String.leb k1 k2 = true).
Proof.
  unfold count_key_le. rewrite orb_true_iff, andb_true_iff, Z.ltb_lt, Z.eqb_eq.
  intuition lia.
Qed.

Lemma count_key_le_total (x y : string * Z) :
  count_key_le x y = true \/ count_key_le y x = true.
Proof.
  destruct x as [k1 v1], y as [k2 v2]. rewrite !count_key_le_iff.
  destruct (Z.lt_trichotomy v1 v2) as [H|[H|H]]; try lia.
  destruct (String.leb_total k1 k2); [left|right]; right; auto.
Qed.

Lemma count_key_le_trans (x y z : string * Z) :
  count_key_le x y = true -> count_key_le y z = true -> count_key_le x z = true.
Proof.
  destruct x as [k1 v1], y as [k2 v2], z as [k3 v3]. rewrite !count_key_le_iff.
  intros [H1|[H1 L1]] [H2|[H2 L2]]; try lia.
  right. split; [lia|]. eapply string_leb_trans; eassumption.
Qed.

Lemma strongly_sorted_map {A B : Type} (f : A -> B) (R : B -> B -> Prop) (l : list A) :
  StronglySorted R (map f l) -> StronglySorted (fun a b => R (f a) (f b)) l.
Proof.
  induction l as [|a l IH]; simpl; intros H; [constructor|].
  inversion H as [|? ? Hs Hf]; subst. constructor; [apply IH; exact Hs|].
  rewrite Forall_forall in *. intros b Hb. apply Hf. apply in_map. exact Hb.
Qed.

Lemma strongly_sorted_strict (l : list ColorCount) :
  StronglySorted (fun a b => count_key_le (rgba_hex a, count a) (rgba_hex b, count b) = true) l ->
  NoDup (map rgba_hex l) ->
  StronglySorted before l.
Proof.
  induction 1 as [|c l Hs IH Hc]; intros Hnd; [constructor|].
  simpl in Hnd. inversion Hnd as [|? ? Hn Hd]; subst.
  constructor; [apply IH; exact Hd|].
  rewrite Forall_forall in *. intros c' Hc'. specialize (Hc c' Hc').
  apply count_key_le_iff in Hc. unfold before.
  destruct Hc as [Hc|[Hc Hl]]; [left; exact Hc|right].
  split; [exact Hc|]. apply string_ltb_iff. split; [exact Hl|].
  intros E. apply Hn. rewrite E. apply in_map. exact Hc'.
Qed.

(** ** The row scanner: blocks *)

Lemma counts_list_spec (coords_of : dict (list (Z * Z))) (items : list (string * Z))
  (l : list ColorCount) :
  counts_list coords_of items = Some l ->
  map (fun c => (rgba_hex c, count c)) l = items /\
  Forall (fun c => rgb_hex c = substring 0 7 (rgba_hex c) /\
                   int16 (last2 (rgba_hex c)) = Some (cc_a c)) l.
Proof.
  revert l. induction items as [|[k v] items IH]; simpl; intros l.
  - intros [= <-]. split; constructor.
  - destruct (int16 (last2 k)) as [a|] eqn:Ea; [|discriminate].
    destruct (counts_list coords_of items) as [rest|]; [|discriminate].
    intros [= <-]. destruct (IH rest eq_refl) as [H1 H2]. simpl. split.
    + f_equal. exact H1.
    + constructor; [split; [reflexivity|exact Ea]|exact H2].
Qed.

Lemma scan_block_spec (im : Image) (thr bs fx ay bi : Z) (bl : list Block) :
  0 <= bi ->
  scan_block im thr bs fx ay bi = Some bl ->
  bl = [] \/ exists b, bl = [b] /\ index b = bi /\ block_ok im thr bs fx ay b.
Proof.
  intros Hbi. unfold scan_block.
  destruct (collect_block_summary im thr bs (fx + bi * bs) ay) as (_ & Hc & Hv).
  rewrite Hc, Hv.
  destruct (counts_list _ _) as [l|] eqn:El; [|discriminate].
  apply counts_list_spec in El. destruct El as [El1 El2].
  fold (visible_colors im thr bs (fx + bi * bs, ay)) in *.
  destruct (_ >? 0) eqn:Epos; intros [= <-]; [right|left; reflexivity].
  eexists. split; [reflexivity|]. split; [reflexivity|].
  unfold block_ok. simpl. repeat split; auto.
  apply Z.gtb_lt in Epos. lia.
Qed.

Lemma scan_blocks_spec (im : Image) (thr bs fx ay : Z) (fuel : nat) :
  forall bi bl,
    0 <= bi ->
    scan_blocks fuel im thr bs fx ay bi = Some bl ->
    Forall (fun b => block_ok im thr bs fx ay b /\ bi <= index b) bl /\
    StronglySorted index_lt bl.
Proof.
  induction fuel as [|fuel IH]; intros bi bl Hbi; simpl.
  - intros [= <-]. split; constructor.
  - destruct (fx + bi * bs >=? im_w im); [intros [= <-]; split; constructor|].
    destruct (scan_block im thr bs fx ay bi) as [b|] eqn:Eb; [|discriminate].
    destruct (scan_blocks fuel im thr bs fx ay (bi + 1)) as [rest|] eqn:Er; [|discriminate].
    intros [= <-].
    destruct (IH (bi + 1) rest ltac:(lia) Er) as [Hrest Hsorted].
    assert (Hrest' : Forall (fun b => block_ok im thr bs fx ay b /\ bi <= index b) rest).
    { eapply Forall_impl; [|exact Hrest]. intros b' [H1 H2]. split; [exact H1|lia]. }
    apply scan_block_spec in Eb; [|exact Hbi].
    destruct Eb as [->|(b0 & -> & Hi & Hok)]; simpl; [split; assumption|].
    split.
    + constructor; [split; [exact Hok|lia]|exact Hrest'].
    + constructor; [exact Hsorted|].
      eapply Forall_impl; [|exact Hrest]. intros b' [_ H2]. unfold index_lt. lia.
Qed.

(** The fuel [untrimmed_blocks] hands to the block loop is enough: one
    more turn changes nothing. *)
Lemma scan_blocks_fuel_enough (im : Image) (thr bs fx ay : Z) (fuel : nat) :
  1 <= bs ->
  forall bi,
    im_w im - (fx + bi * bs) <= Z.of_nat fuel ->
    scan_blocks (S fuel) im thr bs fx ay bi = scan_blocks fuel im thr bs fx ay bi.
Proof.
  intros Hbs. induction fuel as [|fuel IH]; intros bi Hf.
  - simpl. replace (fx + bi * bs >=? im_w im) with true; [reflexivity|].
    symmetry. apply Z.geb_le. simpl in Hf. lia.
  - change (scan_blocks (S (S fuel)) im thr bs fx ay bi)
      with (let origin_x := fx + bi * bs in
            if origin_x >=? im_w im then Some []
            else match scan_block im thr bs fx ay bi,
                       scan_blocks (S fuel) im thr bs fx ay (bi + 1) with
                 | Some b, Some rest => Some (b ++ rest)
                 | _, _ => None
                 end).
    cbv zeta. rewrite (IH (bi + 1)) by lia. reflexivity.
Qed.

Lemma prefix_Forall {A : Type} (P : A -> Prop) (l1 l2 : list A) :
  Forall P (l1 ++ l2) -> Forall P l1.
Proof. intros H. apply Forall_app in H. tauto. Qed.

Lemma prefix_strongly_sorted {A : Type} (R : A -> A -> Prop) (l1 l2 : list A) :
  StronglySorted R (l1 ++ l2) -> StronglySorted R l1.
Proof.
  induction l1 as [|a l1 IH]; simpl; intros H; [constructor|].
  inversion H as [|? ? Hs Hf]; subst. constructor; [apply IH; exact Hs|].
  apply Forall_app in Hf. tauto.
Qed.

Lemma scan_row_blocks_spec (im : Image) (start_y bs thr : Z) (row : Row) :
  scan_row_blocks im start_y bs thr = Some row -> row_ok im thr bs start_y row.
Proof.
  unfold scan_row_blocks, untrimmed_blocks.
  destruct (find_anchor im start_y bs thr) as [[fx ay]|] eqn:Ea; [|discriminate].
  destruct (scan_blocks _ im thr bs fx ay 0) as [bl|] eqn:Eb; [|discriminate].
  apply scan_blocks_spec in Eb; [|lia]. destruct Eb as [Hok Hsorted].
  destruct bl as [|b0 bl0] eqn:Ebl; [discriminate|]. rewrite <- Ebl in *.
  destruct (pop_sparse_spec bs (List.length bl) bl (le_n _)) as (removed & H1 & _).
  fold (trim_trailing bs bl) in H1.
  destruct (rev (trim_trailing bs bl)) as [|last_block rl] eqn:Er; [discriminate|].
  intros [= <-]. exists fx, ay. simpl.
  rewrite H1 in Hok, Hsorted.
  apply prefix_Forall in Hok. apply prefix_strongly_sorted in Hsorted.
  repeat split; auto.
  - intros E. rewrite E in Er. discriminate.
  - eapply Forall_impl; [|exact Hok]. intros b [H _]. exact H.
Qed.

(** ** The sorted histogram depends on the multiset only *)

Lemma count_key_le_antisym (x y : string * Z) :
  count_key_le x y = true -> count_key_le y x = true -> x = y.
Proof.
  destruct x as [k1 v1], y as [k2 v2]. rewrite !count_key_le_iff.
  intros [H1|[H1 L1]] [H2|[H2 L2]]; try lia.
  subst. f_equal. apply String.leb_antisym; assumption.
Qed.

(** Two lists sorted by the key, without repeated colours and with the
    same elements, are the same list. *)
Lemma sorted_by_key_unique (l1 : list (string * Z)) :
  forall l2,
    StronglySorted (fun a b => count_key_le a b = true) l1 ->
    StronglySorted (fun a b => count_key_le a b = true) l2 ->
    NoDup l1 -> NoDup l2 ->
    (forall e, In e l1 <-> In e l2) ->
    l1 = l2.
Proof.
  induction l1 as [|a l1 IH]; intros l2 Hs1 Hs2 Hn1 Hn2 Hin.
  - destruct l2 as [|b l2]; [reflexivity|].
    exfalso. apply (proj2 (Hin b)). left. reflexivity.
  - destruct l2 as [|b l2].
    + exfalso. apply (proj1 (Hin a)). left. reflexivity.
    + inversion Hs1 as [|? ? Hs1' Hf1]; inversion Hs2 as [|? ? Hs2' Hf2]; subst.
      inversion Hn1 as [|? ? Ha Hn1']; inversion Hn2 as [|? ? Hb Hn2']; subst.
      rewrite Forall_forall in Hf1, Hf2.
      assert (Eab : a = b).
      { destruct (proj1 (Hin a) (or_introl eq_refl)) as [E|Ha2]; [congruence|].
        destruct (proj2 (Hin b) (or_introl eq_refl)) as [E|Hb1]; [congruence|].
        apply count_key_le_antisym; auto. }
      subst b. f_equal. apply IH; auto.
      intros e. split; intros He.
      * destruct (proj1 (Hin e) (or_intror He)) as [E|H]; [subst; contradiction|exact H].
      * destruct (proj2 (Hin e) (or_intror He)) as [E|H]; [subst; contradiction|exact H].
Qed.

Lemma NoDup_of_keys {V : Type} (d : dict V) : NoDup (map fst d) -> NoDup d.
Proof. apply NoDup_map_inv. Qed.

Lemma sorted_histogram_NoDup (colors : list string) :
  NoDup (map fst (sorted count_key_le (histogram colors))).
Proof.
  eapply Permutation_NoDup; [|apply histogram_NoDup].
  apply Permutation_map. symmetry. apply sorted_perm.
Qed.

(** The sorted histogram depends on the multiset of colours only. *)
Lemma sorted_histogram_perm (c1 c2 : list string) :
  Permutation c1 c2 ->
  sorted count_key_le (histogram c1) = sorted count_key_le (histogram c2).
Proof.
  intros Hp. apply sorted_by_key_unique.
  - apply sorted_sorted; [apply count_key_le_total|apply count_key_le_trans].
  - apply sorted_sorted; [apply count_key_le_total|apply count_key_le_trans].
  - apply NoDup_of_keys, sorted_histogram_NoDup.
  - apply NoDup_of_keys, sorted_histogram_NoDup.
  - intros [k v].
    assert (Hin : forall c, In (k, v) (sorted count_key_le (histogram c)) <->
                            v = Z.of_nat (count_occ string_dec c k) /\ In k c).
    { intros c. rewrite <- histogram_In. split; apply Permutation_in;
        [|symmetry]; apply sorted_perm. }
    rewrite !Hin.
    rewrite (proj1 (Permutation_count_occ string_dec c1 c2) Hp k).
    split; intros [H1 H2]; split; auto.
    + eapply Permutation_in; eassumption.
    + eapply Permutation_in; [symmetry|]; eassumption.
Qed.

Lemma block_ok_color_counts (im : Image) (thr bs fx ay : Z) (b : Block) :
  block_ok im thr bs fx ay b ->
  let V := visible_colors im thr bs (origin b) in
  StronglySorted before (color_counts b) /\
  (forall c, In c (color_counts b) ->
     In (rgba_hex c) V /\ count c = Z.of_nat (count_occ string_dec V (rgba_hex c))) /\
  (forall k, In k V -> exists c, In c (color_counts b) /\ rgba_hex c = k).
Proof.
  intros (_ & _ & _ & _ & Hcc & _) V. fold V in Hcc.
  assert (Hmem : forall k v,
             In (k, v) (map (fun c => (rgba_hex c, count c)) (color_counts b)) <->
             v = Z.of_nat (count_occ string_dec V k) /\ In k V).
  { intros k v. rewrite Hcc, <- histogram_In. split; apply Permutation_in;
      [|symmetry]; apply sorted_perm. }
  split; [|split].
  - apply strongly_sorted_strict.
    + apply (strongly_sorted_map (fun c => (rgba_hex c, count c))
               (fun a b => count_key_le a b = true)).
      rewrite Hcc. apply sorted_sorted; [apply count_key_le_total|apply count_key_le_trans].
    + replace (map rgba_hex (color_counts b))
        with (map fst (map (fun c => (rgba_hex c, count c)) (color_counts b)))
        by (rewrite map_map; reflexivity).
      rewrite Hcc. apply sorted_histogram_NoDup.
  - intros c Hc.
    assert (H : In (rgba_hex c, count c)
                   (map (fun c => (rgba_hex c, count c)) (color_counts b)))
      by (apply (in_map (fun c => (rgba_hex c, count c))); exact Hc).
    apply Hmem in H. tauto.
  - intros k Hk.
    assert (H : In (k, Z.of_nat (count_occ string_dec V k))
                   (map (fun c => (rgba_hex c, count c)) (color_counts b)))
      by (apply Hmem; auto).
    apply in_map_iff in H. destruct H as (c & [= E1 E2] & Hc). eauto.
Qed.

(** ** The grid assembler: rows *)

Lemma scan_all_rows_spec (im : Image) (bs thr last_y : Z) (fuel : nat) :
  forall cy rows,
    scan_all_rows fuel im bs thr last_y cy = Some rows ->
    rows_from im thr bs cy rows /\
    (forall row, cy <= last_y -> scan_row_blocks im cy bs thr = Some row ->
                 exists rest, rows = row :: rest).
Proof.
  induction fuel as [|fuel IH]; intros cy rows; simpl; [discriminate|].
  destruct (cy <=? last_y) eqn:E.
  - destruct (scan_all_rows fuel im bs thr last_y (cy + bs)) as [rest|] eqn:Er;
      [|discriminate].
    destruct (IH _ _ Er) as [Hrest _].
    destruct (scan_row_blocks im cy bs thr) as [row|] eqn:Erow; intros [= <-].
    + split; [apply rows_row; assumption|].
      intros row' _ [= <-]. eauto.
    + split; [apply rows_gap; assumption|]. intros row' _ H. discriminate.
  - intros [= <-]. split; [apply rows_done|].
    intros row Hle. apply Z.leb_gt in E. lia.
Qed.

(** With a positive block size the row loop ends: [last_y - cy + 1] turns
    (one, when [cy] is already past [last_y]) are enough. *)
Lemma scan_all_rows_terminates (im : Image) (bs thr last_y : Z) (fuel : nat) :
  1 <= bs ->
  forall cy,
    Z.max 0 (last_y - cy + 1) < Z.of_nat fuel ->
    scan_all_rows fuel im bs thr last_y cy <> None.
Proof.
  intros Hbs. induction fuel as [|fuel IH]; intros cy Hf; simpl; [lia|].
  destruct (cy <=? last_y) eqn:E; [|discriminate].
  apply Z.leb_le in E.
  specialize (IH (cy + bs) ltac:(lia)).
  destruct (scan_all_rows fuel im bs thr last_y (cy + bs)); [discriminate|contradiction].
Qed.

(** The anchor of a row and its blocks, for a strip inside the image. *)
Lemma row_facts (im : Image) (thr bs cy : Z) (row : Row) :
  0 <= cy ->
  scan_row_blocks im cy bs thr = Some row ->
  exists fx ay,
    first_pixel row = (fx, ay) /\
    1 <= bs /\ cy <= ay < cy + bs /\
    visible_at im thr fx ay /\
    (forall x y, cy <= y < ay -> ~ visible_at im thr x y) /\
    (forall x, visible_at im thr x ay -> fx <= x) /\
    blocks row <> [] /\
    Forall (block_ok im thr bs fx ay) (blocks row) /\
    StronglySorted index_lt (blocks row).
Proof.
  intros Hcy H. apply scan_row_blocks_spec in H.
  destruct H as (fx & ay & Ha & Hf & Hne & Hok & Hs).
  destruct (find_anchor_spec im cy bs thr fx ay Hcy Ha) as (H1 & H2 & H3 & H4 & H5).
  exists fx, ay.
  exact (conj Hf (conj H1 (conj H2 (conj H3 (conj H4 (conj H5 (conj Hne (conj Hok Hs)))))))).
Qed.

(** A block that was kept has a visible pixel in its tile. *)
Lemma block_has_visible_pixel (im : Image) (thr bs fx ay : Z) (b : Block) :
  0 <= fx -> 0 <= ay -> 1 <= bs ->
  block_ok im thr bs fx ay b ->
  exists x y, visible_at im thr x y /\
              fst (origin b) <= x < fst (origin b) + bs /\
              snd (origin b) <= y < snd (origin b) + bs.
Proof.
  intros Hfx Hay Hbs (Hi & Ho & Hv & Hpos & _).
  destruct (visible_colors im thr bs (origin b)) as [|k V] eqn:EV;
    [simpl in Hv; lia|].
  assert (Hk : In k (visible_colors im thr bs (origin b))) by (rewrite EV; left; reflexivity).
  unfold visible_colors in Hk. apply in_visible_colors_of in Hk.
  destruct Hk as (x & y & Hin & Ha & _).
  apply in_footprint in Hin. rewrite Ho in *. simpl in *.
  assert (0 <= index b * bs) by (apply Z.mul_nonneg_nonneg; lia).
  exists x, y. unfold visible_at. repeat split; lia.
Qed.

Lemma rows_from_head (im : Image) (thr bs cy : Z) (rows : list Row) :
  rows_from im thr bs cy rows ->
  forall row rest, rows = row :: rest ->
  exists j, 0 <= j /\
            scan_row_blocks im (cy + j * bs) bs thr = Some row /\
            rows_from im thr bs (cy + (j + 1) * bs) rest.
Proof.
  induction 1 as [cy|cy rows Hr IH|cy row0 rows Hrow Hr _]; intros row rest E.
  - discriminate.
  - destruct (IH row rest E) as (j & Hj & H1 & H2).
    exists (j + 1). split; [lia|].
    replace (cy + (j + 1) * bs) with (cy + bs + j * bs) by lia.
    replace (cy + (j + 1 + 1) * bs) with (cy + bs + (j + 1) * bs) by lia.
    auto.
  - injection E as <- <-. exists 0. split; [lia|].
    replace (cy + 0 * bs) with cy by lia.
    replace (cy + (0 + 1) * bs) with (cy + bs) by lia. auto.
Qed.

(** Every row collected from the strip at [cy] on comes from a strip at
    [cy] or below it in the image. *)
Lemma rows_from_strips (im : Image) (thr bs cy : Z) (rows : list Row) :
  rows_from im thr bs cy rows ->
  1 <= bs ->
  forall row, In row rows ->
  exists j, 0 <= j /\ scan_row_blocks im (cy + j * bs) bs thr = Some row.
Proof.
  induction 1 as [cy|cy rows Hr IH|cy row0 rows Hrow Hr IH]; intros Hbs row Hin.
  - contradiction.
  - destruct (IH Hbs row Hin) as (j & Hj & H1). exists (j + 1). split; [lia|].
    replace (cy + (j + 1) * bs) with (cy + bs + j * bs) by lia. exact H1.
  - destruct Hin as [<-|Hin].
    + exists 0. split; [lia|]. replace (cy + 0 * bs) with cy by lia. exact Hrow.
    + destruct (IH Hbs row Hin) as (j & Hj & H1). exists (j + 1). split; [lia|].
      replace (cy + (j + 1) * bs) with (cy + bs + j * bs) by lia. exact H1.
Qed.

Lemma main_written (fuel : nat) (args : Args) (code : Z) (svg : Svg) :
  main fuel args = Some (Written code svg) ->
  code = (if quiet args || stdout_prints args then 0 else 1) /\ Assembled fuel args svg.
Proof.
  unfold main.
  destruct (image args) as [| |im] eqn:Eim; try discriminate.
  destruct (find_first_nontransparent_pixel im 128) as [[x y]|] eqn:E1; [|discriminate].
  destruct (find_last_nontransparent_pixel im 128) as [[xl last_y]|] eqn:E2; [|discriminate].
  destruct (scan_all_rows fuel im (block_size args) 128 last_y y) as [[|row0 rest]|] eqn:E3;
    try discriminate.
  destruct (blocks row0) as [|block0 bl0] eqn:E4; [discriminate|].
  destruct (find_rightmost_nontransparent_pixel im 128) as [[right_ref ry]|] eqn:E5;
    [|discriminate].
  destruct (find_leftmost_nontransparent_pixel im 128) as [[lx ly]|] eqn:E6.
  - destruct (svg_out_writable args); [|discriminate].
    intros [= <- <-]. split; [reflexivity|].
    eapply (assembled fuel args _ im (x, y) (xl, last_y) (lx, ly) (right_ref, ry));
      eauto.
  - exfalso. apply find_first_spec in E1. destruct E1 as [Hv _].
    apply (find_leftmost_exists im 128 x y Hv E6).
Qed.

(** ** The grid assembler: the row loop in closed form *)

Lemma range_succ (n : Z) : 0 <= n -> range (n + 1) = 0 :: map (fun j => j + 1) (range n).
Proof.
  intros Hn. unfold range.
  replace (Z.to_nat (n + 1)) with (S (Z.to_nat n)) by lia.
  cbn [seq map]. f_equal. rewrite <- seq_shift, !map_map.
  apply map_ext. intros k. lia.
Qed.

Lemma flat_map_map {A B C : Type} (f : B -> list C) (g : A -> B) (l : list A) :
  flat_map f (map g l) = flat_map (fun a => f (g a)) l.
Proof.
  induction l as [|a l IH]; [reflexivity|].
  cbn [map flat_map]. rewrite IH. reflexivity.
Qed.

Lemma scan_all_rows_closed_form (im : Image) (bs thr last_y : Z) (fuel : nat) :
  1 <= bs ->
  forall cy rows,
    scan_all_rows fuel im bs thr last_y cy = Some rows ->
    rows = rows_of_strips im bs thr last_y cy.
Proof.
  intros Hbs. induction fuel as [|fuel IH]; intros cy rows; [discriminate|].
  cbn [scan_all_rows]. unfold rows_of_strips.
  destruct (cy <=? last_y) eqn:Ecy.
  - apply Z.leb_le in Ecy.
    destruct (scan_all_rows fuel im bs thr last_y (cy + bs)) as [rest|] eqn:Er; [|discriminate].
    intros [= <-]. apply IH in Er. unfold rows_of_strips in Er.
    assert (Hn : 0 <= (last_y - cy) / bs) by (apply Z.div_pos; lia).
    rewrite (range_succ _ Hn). cbn [flat_map].
    replace (cy + 0 * bs) with cy by lia.
    assert (Etail : rest
                    = flat_map (fun j => match scan_row_blocks im (cy + j * bs) bs thr with
                                         | Some row => [row]
                                         | None => []
                                         end)
                               (map (fun j => j + 1) (range ((last_y - cy) / bs)))).
    { rewrite Er, flat_map_map.
      destruct (cy + bs <=? last_y) eqn:En.
      - apply Z.leb_le in En.
        replace ((last_y - (cy + bs)) / bs + 1) with ((last_y - cy) / bs).
        + apply flat_map_ext. intros j. replace (cy + bs + j * bs) with (cy + (j + 1) * bs) by lia.
          reflexivity.
        + replace (last_y - cy) with ((last_y - (cy + bs)) + 1 * bs) by lia.
          rewrite Z.div_add by lia. reflexivity.
      - apply Z.leb_gt in En.
        replace ((last_y - cy) / bs) with 0
          by (symmetry; apply Z.div_small; lia).
        reflexivity. }
    rewrite <- Etail. destruct (scan_row_blocks im cy bs thr); reflexivity.
  - intros [= <-]. reflexivity.
Qed.

(** ** The grid assembler: where the blocks lie *)

Section Grid.

Variables (im : Image) (bs : Z) (fuel : nat).
Variables (x0 y0 xl last_y lx ly rx ry : Z).
Variables (row0 : Row) (rest : list Row) (block0 : Block) (bl0 : list Block).

Hypothesis Hfirst : find_first_nontransparent_pixel im 128 = Some (x0, y0).
Hypothesis Hlast : find_last_nontransparent_pixel im 128 = Some (xl, last_y).
Hypothesis Hleft : find_leftmost_nontransparent_pixel im 128 = Some (lx, ly).
Hypothesis Hright : find_rightmost_nontransparent_pixel im 128 = Some (rx, ry).
Hypothesis Hscan : scan_all_rows fuel im bs 128 last_y y0 = Some (row0 :: rest).
Hypothesis Hblock0 : blocks row0 = block0 :: bl0.

Lemma grid_first_visible : visible_at im 128 x0 y0.
Proof. apply (find_first_spec im 128 x0 y0 Hfirst). Qed.

Lemma grid_y0 : 0 <= y0 <= last_y.
Proof.
  pose proof grid_first_visible as Hv.
  destruct (find_last_spec im 128 xl last_y Hlast) as [_ Hmax].
  specialize (Hmax x0 y0 Hv). destruct Hv as (_ & Hy & _). lia.
Qed.

Lemma grid_row0 :
  exists j0, 0 <= j0 /\
             scan_row_blocks im (y0 + j0 * bs) bs 128 = Some row0 /\
             rows_from im 128 bs (y0 + (j0 + 1) * bs) rest.
Proof.
  destruct (scan_all_rows_spec im bs 128 last_y fuel y0 _ Hscan) as [Hrows _].
  apply (rows_from_head im 128 bs y0 _ Hrows row0 rest eq_refl).
Qed.

Lemma grid_bs : 1 <= bs.
Proof.
  destruct grid_row0 as (j0 & Hj0 & Hrow & _).
  destruct (scan_row_blocks_spec im _ bs 128 row0 Hrow) as (fx & ay & Ha & _).
  unfold find_anchor in Ha.
  destruct (first_some (range (Z.min bs (im_h im - (y0 + j0 * bs)))) _) eqn:E;
    [|discriminate].
  apply first_some_range in E. destruct E as (dy & Hdy & _). lia.
Qed.

(** The blocks of a row scanned at strip [j] lie between the extremes,
    on the line of the row's anchor. *)
Lemma grid_strip_blocks (j : Z) (row : Row) (b : Block) :
  0 <= j ->
  scan_row_blocks im (y0 + j * bs) bs 128 = Some row ->
  In b (blocks row) ->
  exists i, 0 <= i /\ index b = i /\
    lx <= fst (first_pixel row) /\
    fst (origin b) = fst (first_pixel row) + i * bs /\
    fst (origin b) <= rx /\
    snd (origin b) = snd (first_pixel row) /\
    y0 + j * bs <= snd (origin b) < y0 + (j + 1) * bs /\
    snd (origin b) <= last_y.
Proof.
  intros Hj Hrow Hb.
  pose proof grid_y0 as Hy0. pose proof grid_bs as Hbs.
  assert (Hc : 0 <= y0 + j * bs) by (assert (0 <= j * bs) by (apply Z.mul_nonneg_nonneg; lia); lia).
  destruct (row_facts im 128 bs _ row Hc Hrow)
    as (fx & ay & Hfp & _ & Hay & Hv & _ & _ & _ & Hok & _).
  rewrite Forall_forall in Hok. specialize (Hok b Hb).
  destruct (find_leftmost_spec im 128 lx ly Hleft) as [_ Hmin].
  destruct (find_rightmost_spec im 128 rx ry Hright) as [_ Hmax].
  destruct (find_last_spec im 128 xl last_y Hlast) as [_ Hbottom].
  pose proof (Hmin fx ay Hv) as Hlx. pose proof (Hbottom fx ay Hv) as Hly.
  assert (Hfx : 0 <= fx) by (destruct Hv; lia).
  destruct (block_has_visible_pixel im 128 bs fx ay b Hfx ltac:(lia) Hbs Hok)
    as (x & y & Hvis & Hx & _).
  pose proof (Hmax x y Hvis) as Hrx.
  destruct Hok as (Hi & Ho & _).
  rewrite Hfp, Ho in *. simpl in *.
  exists (index b). repeat split; lia.
Qed.

Lemma grid_top_ref :
  exists j0, 0 <= j0 /\
    scan_row_blocks im (y0 + j0 * bs) bs 128 = Some row0 /\
    rows_from im 128 bs (y0 + (j0 + 1) * bs) rest /\
    y0 + j0 * bs <= snd (origin block0) < y0 + (j0 + 1) * bs /\
    snd (origin block0) <= last_y /\
    snd (origin block0) = snd (first_pixel row0).
Proof.
  destruct grid_row0 as (j0 & Hj0 & Hrow & Hrest).
  destruct (grid_strip_blocks j0 row0 block0 Hj0 Hrow) as (i & _ & _ & _ & _ & _ & H1 & H2 & H3).
  { rewrite Hblock0. left. reflexivity. }
  exists j0. repeat split; auto; lia.
Qed.

(** Every block of every row lies between the four extremes, at or
    below the line [top_ref] of the first row. *)
Lemma grid_block_bounds (row : Row) (b : Block) :
  In row (row0 :: rest) -> In b (blocks row) ->
  lx <= fst (origin b) <= rx /\ snd (origin block0) <= snd (origin b) <= last_y.
Proof.
  intros Hrow Hb. pose proof grid_bs as Hbs.
  destruct grid_top_ref as (j0 & Hj0 & Hrow0 & Hrest & Htop & _ & Htop').
  destruct Hrow as [<-|Hrow].
  - destruct (grid_strip_blocks j0 row0 b Hj0 Hrow0 Hb)
      as (i & Hi & _ & H1 & H2 & H3 & H4 & H5 & H6).
    assert (0 <= i * bs) by (apply Z.mul_nonneg_nonneg; lia).
    lia.
  - destruct (rows_from_strips im 128 bs _ rest Hrest Hbs row Hrow) as (j & Hj & Hscanj).
    replace (y0 + (j0 + 1) * bs + j * bs) with (y0 + (j0 + 1 + j) * bs) in Hscanj by lia.
    destruct (grid_strip_blocks (j0 + 1 + j) row b ltac:(lia) Hscanj Hb)
      as (i & Hi & _ & H1 & H2 & H3 & _ & H5 & H6).
    assert (0 <= i * bs) by (apply Z.mul_nonneg_nonneg; lia).
    assert (0 <= j * bs) by (apply Z.mul_nonneg_nonneg; lia).
    lia.
Qed.

(** When the strip of the first visible pixel gives a row, that row is
    the first one and [top_ref] is the line of the first pixel. *)
Lemma grid_first_strip_kept :
  scan_row_blocks im y0 bs 128 <> None -> snd (origin block0) = y0.
Proof.
  intros Hkept.
  destruct (scan_row_blocks im y0 bs 128) as [row|] eqn:Erow; [|contradiction].
  destruct (scan_all_rows_spec im bs 128 last_y fuel y0 _ Hscan) as [_ Hhead].
  destruct (Hhead row (proj2 grid_y0) Erow) as (rest' & [= E1 E2]).
  subst row rest'.
  destruct (row_facts im 128 bs y0 row0 (proj1 grid_y0) Erow)
    as (fx & ay & Hfp & _ & Hay & _ & Hnone & _ & _ & Hok & _).
  rewrite Forall_forall in Hok.
  destruct (Hok block0 ltac:(rewrite Hblock0; left; reflexivity)) as (_ & Ho & _).
  rewrite Ho. simpl.
  destruct (Z.eq_dec ay y0) as [E|Hne]; [exact E|].
  exfalso. apply (Hnone x0 y0 ltac:(lia)). exact grid_first_visible.
Qed.

End Grid.

(** ** The grid assembler: rectangles *)

Lemma in_block_rect (bs left_ref top_ref : Z) (b : Block) (r : SvgRect) :
  In r (block_rect bs left_ref top_ref b) ->
  rect_x r = (fst (origin b) - left_ref) / bs /\
  rect_y r = (snd (origin b) - top_ref) / bs /\
  exists top_color others,
    color_counts b = top_color :: others /\
    fill r = rgb_hex top_color /\
    fill_opacity r = round4_of_255 (cc_a top_color).
Proof.
  unfold block_rect. destruct (color_counts b) as [|top_color others]; [intros []|].
  intros [<-|[]]. simpl. repeat split. exists top_color, others. auto.
Qed.

Lemma in_all_rects (bs left_ref top_ref : Z) (rows : list Row) (r : SvgRect) :
  In r (all_rects bs left_ref top_ref rows) <->
  exists row b, In row rows /\ In b (blocks row) /\
                In r (block_rect bs left_ref top_ref b).
Proof.
  unfold all_rects. rewrite in_flat_map. split.
  - intros (row & Hrow & Hr). apply in_flat_map in Hr. destruct Hr as (b & Hb & Hr). eauto.
  - intros (row & b & Hrow & Hb & Hr). exists row. split; [exact Hrow|].
    apply in_flat_map. eauto.
Qed.

Lemma strongly_sorted_app {A : Type} (R : A -> A -> Prop) (l1 l2 : list A) :
  StronglySorted R l1 -> StronglySorted R l2 ->
  (forall a b, In a l1 -> In b l2 -> R a b) ->
  StronglySorted R (l1 ++ l2).
Proof.
  induction 1 as [|a l1 Hs IH Ha]; intros H2 Hcross; simpl; [exact H2|].
  constructor.
  - apply IH; [exact H2|]. intros x y Hx Hy. apply Hcross; [right|]; assumption.
  - apply Forall_app. split; [exact Ha|].
    apply Forall_forall. intros y Hy. apply Hcross; [left; reflexivity|exact Hy].
Qed.

Lemma flat_map_strongly_sorted {A B : Type} (f : A -> list B)
  (Q : A -> A -> Prop) (R : B -> B -> Prop) (l : list A) :
  StronglySorted Q l ->
  (forall a, In a l -> StronglySorted R (f a)) ->
  (forall a1 a2 b1 b2, In a1 l -> In a2 l -> Q a1 a2 ->
                       In b1 (f a1) -> In b2 (f a2) -> R b1 b2) ->
  StronglySorted R (flat_map f l).
Proof.
  induction 1 as [|a l Hs IH Ha]; intros Hin Hcross; simpl; [constructor|].
  apply strongly_sorted_app.
  - apply Hin. left. reflexivity.
  - apply IH.
    + intros a' Ha'. apply Hin. right. exact Ha'.
    + intros a1 a2 b1 b2 H1 H2. apply Hcross; right; assumption.
  - intros b1 b2 Hb1 Hb2. apply in_flat_map in Hb2. destruct Hb2 as (a2 & Ha2 & Hb2).
    rewrite Forall_forall in Ha.
    apply (Hcross a a2); auto; [left; reflexivity|right; exact Ha2].
Qed.

Lemma cell_lt_NoDup (l : list SvgRect) :
  StronglySorted cell_lt l -> NoDup (map cell l).
Proof.
  induction 1 as [|r l Hs IH Hr]; simpl; constructor; [|exact IH].
  intros Hin. apply in_map_iff in Hin. destruct Hin as (r' & E & Hr').
  rewrite Forall_forall in Hr. specialize (Hr r' Hr').
  unfold cell in E. injection E as Ex Ey. unfold cell_lt in Hr. lia.
Qed.

Lemma div_in_strip (a j bs : Z) :
  1 <= bs -> j * bs <= a < (j + 1) * bs -> a / bs = j.
Proof.
  intros Hbs Ha. symmetry. apply (Z.div_unique a bs j (a - j * bs)); lia.
Qed.

Lemma rows_from_grid_rows (im : Image) (thr bs y0 cy : Z) (rows : list Row) :
  rows_from im thr bs cy rows ->
  1 <= bs -> 0 <= y0 ->
  forall j, 0 <= j -> cy = y0 + j * bs ->
    Forall (fun row => j <= grid_row y0 bs row) rows /\
    StronglySorted (fun r1 r2 => grid_row y0 bs r1 < grid_row y0 bs r2) rows.
Proof.
  intros H Hbs Hy0.
  induction H as [cy|cy rows Hr IH|cy row rows Hrow Hr IH]; intros j Hj Hcy.
  - split; constructor.
  - destruct (IH (j + 1) ltac:(lia) ltac:(lia)) as [H1 H2].
    split; [|exact H2]. eapply Forall_impl; [|exact H1]. intros r Hrj. simpl in Hrj. lia.
  - destruct (IH (j + 1) ltac:(lia) ltac:(lia)) as [H1 H2].
    assert (Hc : 0 <= cy)
      by (assert (0 <= j * bs) by (apply Z.mul_nonneg_nonneg; lia); lia).
    destruct (row_facts im thr bs cy row Hc Hrow) as (fx & ay & Hfp & _ & Hay & _).
    assert (Hg : grid_row y0 bs row = j).
    { unfold grid_row. rewrite Hfp. simpl. apply div_in_strip; lia. }
    split.
    + constructor; [lia|]. eapply Forall_impl; [|exact H1]. intros r Hrj. simpl in Hrj. lia.
    + constructor; [exact H2|]. eapply Forall_impl; [|exact H1].
      intros r Hrj. simpl in Hrj. lia.
Qed.

Lemma rect_in_row (im : Image) (thr bs cy left_ref top_ref : Z) (row : Row)
  (b : Block) (r : SvgRect) :
  0 <= cy ->
  scan_row_blocks im cy bs thr = Some row ->
  In b (blocks row) ->
  In r (block_rect bs left_ref top_ref b) ->
  rect_x r = (fst (first_pixel row) - left_ref) / bs + index b /\
  rect_y r = (snd (first_pixel row) - top_ref) / bs.
Proof.
  intros Hcy Hrow Hb Hr.
  destruct (row_facts im thr bs cy row Hcy Hrow)
    as (fx & ay & Hfp & Hbs & _ & _ & _ & _ & _ & Hok & _).
  rewrite Forall_forall in Hok. destruct (Hok b Hb) as (_ & Ho & _).
  apply in_block_rect in Hr. destruct Hr as (Hx & Hy & _).
  rewrite Hx, Hy, Ho, Hfp. simpl. split; [|reflexivity].
  replace (fx + index b * bs - left_ref) with (fx - left_ref + index b * bs) by lia.
  apply Z.div_add. lia.
Qed.

Lemma block_rect_sorted (bs left_ref top_ref : Z) (b : Block) :
  StronglySorted cell_lt (block_rect bs left_ref top_ref b).
Proof.
  unfold block_rect. destruct (color_counts b); repeat constructor.
Qed.

(** Anchored on the line of the first visible pixel, the rectangles come
    out row by row and left to right, each cell once. *)
Lemma all_rects_sorted (im : Image) (thr bs y0 left_ref : Z) (rows : list Row) :
  rows_from im thr bs y0 rows ->
  1 <= bs -> 0 <= y0 ->
  StronglySorted cell_lt (all_rects bs left_ref y0 rows).
Proof.
  intros Hrows Hbs Hy0. unfold all_rects.
  destruct (rows_from_grid_rows im thr bs y0 y0 rows Hrows Hbs Hy0 0 ltac:(lia) ltac:(lia))
    as [_ Hsorted].
  assert (Hstrip : forall row, In row rows ->
            exists cy, 0 <= cy /\ scan_row_blocks im cy bs thr = Some row).
  { intros row Hin.
    destruct (rows_from_strips im thr bs y0 rows Hrows Hbs row Hin) as (j & Hj & H).
    exists (y0 + j * bs). split; [|exact H].
    assert (0 <= j * bs) by (apply Z.mul_nonneg_nonneg; lia). lia. }
  apply (flat_map_strongly_sorted _ (fun r1 r2 => grid_row y0 bs r1 < grid_row y0 bs r2));
    [exact Hsorted| |].
  - intros row Hin. destruct (Hstrip row Hin) as (cy & Hcy & Hrow).
    destruct (row_facts im thr bs cy row Hcy Hrow)
      as (fx & ay & _ & _ & _ & _ & _ & _ & _ & _ & Hidx).
    apply (flat_map_strongly_sorted _ index_lt); [exact Hidx| |].
    + intros b _. apply block_rect_sorted.
    + intros b1 b2 r1 r2 Hb1 Hb2 Hlt Hr1 Hr2.
      destruct (rect_in_row im thr bs cy left_ref y0 row b1 r1 Hcy Hrow Hb1 Hr1) as [Hx1 Hy1].
      destruct (rect_in_row im thr bs cy left_ref y0 row b2 r2 Hcy Hrow Hb2 Hr2) as [Hx2 Hy2].
      unfold cell_lt, index_lt in *. right. lia.
  - intros row1 row2 r1 r2 Hin1 Hin2 Hlt Hr1 Hr2.
    apply in_flat_map in Hr1, Hr2.
    destruct Hr1 as (b1 & Hb1 & Hr1), Hr2 as (b2 & Hb2 & Hr2).
    destruct (Hstrip row1 Hin1) as (cy1 & Hcy1 & Hrow1).
    destruct (Hstrip row2 Hin2) as (cy2 & Hcy2 & Hrow2).
    destruct (rect_in_row im thr bs cy1 left_ref y0 row1 b1 r1 Hcy1 Hrow1 Hb1 Hr1) as [_ Hy1].
    destruct (rect_in_row im thr bs cy2 left_ref y0 row2 b2 r2 Hcy2 Hrow2 Hb2 Hr2) as [_ Hy2].
    unfold cell_lt, grid_row in *. left. lia.
Qed.

(** The rectangles of a run that writes its document lie inside the
    canvas; when the strip of the first visible pixel gives a row, no two
    of them share a cell. *)
Lemma assembled_rects (fuel : nat) (args : Args) (svg : Svg) :
  Assembled fuel args svg ->
  Forall (in_canvas svg) (rects svg) /\
  ((exists im x0 y0, image args = Readable im /\
      find_first_nontransparent_pixel im 128 = Some (x0, y0) /\
      scan_row_blocks im y0 (block_size args) 128 <> None) ->
   StronglySorted cell_lt (rects svg)).
Proof.
  intros [im [x0 y0] [xl last_y] [lx ly] [rx ry] row0 rest block0 bl0
             Him H1 H2 H3 H4 H5 H6 Hsvg].
  cbn [fst snd] in H5, Hsvg. set (bs := block_size args) in *.
  pose proof (grid_bs _ _ _ _ _ _ _ H5) as Hbs.
  destruct (grid_top_ref _ _ _ _ _ _ _ _ _ _ _ _ _ _ _ H1 H2 H3 H4 H5 H6)
    as (j0 & Hj0 & _ & _ & Htop & Htop' & _).
  pose proof (grid_y0 _ _ _ _ _ H1 H2) as Hy0.
  assert (Hlr : lx <= rx).
  { destruct (find_leftmost_spec im 128 lx ly H3) as [Hv _].
    destruct (find_rightmost_spec im 128 rx ry H4) as [_ Hmax].
    apply (Hmax lx ly Hv). }
  assert (0 <= j0 * bs) by (apply Z.mul_nonneg_nonneg; lia).
  split.
  - subst svg. cbn [rects]. apply Forall_forall. intros r Hr.
    apply in_all_rects in Hr. destruct Hr as (row & b & Hrow & Hb & Hr).
    destruct (grid_block_bounds _ _ _ _ _ _ _ _ _ _ _ _ _ _ _ H1 H2 H3 H4 H5 H6 row b Hrow Hb)
      as [Hx Hy].
    apply in_block_rect in Hr. destruct Hr as (Ex & Ey & _).
    unfold in_canvas, int_of_quotient. cbn [canvas_w canvas_h].
    rewrite !Z.quot_div_nonneg by lia. rewrite Ex, Ey.
    assert ((fst (origin b) - lx) / bs <= (rx - lx) / bs) by (apply Z.div_le_mono; lia).
    assert ((snd (origin b) - snd (origin block0)) / bs
            <= (last_y - snd (origin block0)) / bs) by (apply Z.div_le_mono; lia).
    assert (0 <= (fst (origin b) - lx) / bs) by (apply Z.div_pos; lia).
    assert (0 <= (snd (origin b) - snd (origin block0)) / bs) by (apply Z.div_pos; lia).
    lia.
  - intros (im' & x0' & y0' & Him' & H1' & Hkept).
    rewrite Him in Him'. injection Him' as <-.
    rewrite H1 in H1'. injection H1' as <- <-.
    pose proof (grid_first_strip_kept _ _ _ _ _ _ _ _ _ _ _ H1 H2 H5 H6 Hkept) as Etop.
    subst svg. cbn [rects]. rewrite Etop.
    destruct (scan_all_rows_spec im bs 128 last_y fuel y0 _ H5) as [Hrows _].
    apply (all_rects_sorted im 128 bs y0 lx _ Hrows Hbs). lia.
Qed.

(** ** Numerals written by [main] and read back by the materializer *)

Lemma digit_char_value (d : Z) :
  0 <= d < 10 -> digit_value (ascii_of_nat (Z.to_nat (48 + d))) = Some d.
Proof.
  intros Hd.
  assert (E : d = 0 \/ d = 1 \/ d = 2 \/ d = 3 \/ d = 4 \/ d = 5 \/ d = 6 \/ d = 7
              \/ d = 8 \/ d = 9) by lia.
  repeat (destruct E as [-> | E]; [reflexivity|]). subst d. reflexivity.
Qed.

Lemma digit_char_not_space (d : Z) :
  0 <= d < 10 -> is_space (ascii_of_nat (Z.to_nat (48 + d))) = false.
Proof.
  intros Hd.
  assert (E : d = 0 \/ d = 1 \/ d = 2 \/ d = 3 \/ d = 4 \/ d = 5 \/ d = 6 \/ d = 7
              \/ d = 8 \/ d = 9) by lia.
  repeat (destruct E as [-> | E]; [reflexivity|]). subst d. reflexivity.
Qed.

Lemma numeral_app (s t : string) : numeral s -> numeral t -> numeral (s ++ t).
Proof.
  induction 1 as [d Hd|d s Hd Hs IH]; intros Ht; simpl.
  - apply numeral_more; assumption.
  - apply numeral_more; auto.
Qed.

Lemma string_app_assoc (s t u : string) : ((s ++ t) ++ u = s ++ (t ++ u))%string.
Proof. induction s as [|c s IH]; simpl; [reflexivity|]. rewrite IH. reflexivity. Qed.

Lemma digits_of_pos_S (fuel : nat) (n : Z) (acc : string) :
  digits_of_pos (S fuel) n acc =
  if n <? 10 then String (ascii_of_nat (Z.to_nat (48 + n mod 10))) acc
  else digits_of_pos fuel (n / 10) (String (ascii_of_nat (Z.to_nat (48 + n mod 10))) acc).
Proof. reflexivity. Qed.

Lemma digits_of_pos_app (fuel : nat) :
  forall n acc, digits_of_pos fuel n acc = (digits_of_pos fuel n EmptyString ++ acc)%string.
Proof.
  induction fuel as [|fuel IH]; intros n acc; [reflexivity|].
  rewrite !digits_of_pos_S. destruct (n <? 10); [reflexivity|].
  rewrite IH. rewrite (IH (n / 10) (String _ EmptyString)).
  rewrite string_app_assoc. reflexivity.
Qed.

Lemma digits_of_pos_numeral (fuel : nat) :
  forall n, 0 <= n -> numeral (digits_of_pos (S fuel) n EmptyString).
Proof.
  induction fuel as [|fuel IH]; intros n Hn; rewrite digits_of_pos_S.
  - destruct (n <? 10); apply numeral_one; apply Z.mod_pos_bound; lia.
  - destruct (n <? 10).
    + apply numeral_one. apply Z.mod_pos_bound. lia.
    + rewrite digits_of_pos_app. apply numeral_app.
      * apply IH. apply Z.div_pos; lia.
      * apply numeral_one. apply Z.mod_pos_bound. lia.
Qed.

Lemma str_of_int_numeral (n : Z) : 0 <= n -> numeral (str_of_int n).
Proof.
  intros Hn. unfold str_of_int.
  replace (n <? 0) with false by (symmetry; apply Z.ltb_ge; lia).
  apply digits_of_pos_numeral. exact Hn.
Qed.

Lemma read_digit_char (d : Z) (tail : string) (acc : Z) (seen : bool) :
  0 <= d < 10 ->
  read_digits (String (ascii_of_nat (Z.to_nat (48 + d))) tail) acc seen
  = read_digits tail (10 * acc + d) true.
Proof.
  intros Hd. cbn [read_digits]. rewrite digit_char_value by exact Hd. reflexivity.
Qed.

Lemma read_digits_of_pos (fuel : nat) :
  forall n tail seen,
    0 <= n < 2 ^ Z.of_nat (S fuel) ->
    read_digits (digits_of_pos (S fuel) n tail) 0 seen = read_digits tail n true.
Proof.
  induction fuel as [|fuel IH]; intros n tail seen Hn; rewrite digits_of_pos_S.
  - change (2 ^ Z.of_nat 1) with 2 in Hn.
    replace (n <? 10) with true by (symmetry; apply Z.ltb_lt; lia).
    rewrite read_digit_char by (apply Z.mod_pos_bound; lia).
    f_equal. rewrite Z.mod_small; lia.
  - destruct (n <? 10) eqn:E.
    + apply Z.ltb_lt in E.
      rewrite read_digit_char by (apply Z.mod_pos_bound; lia).
      f_equal. rewrite Z.mod_small; lia.
    + rewrite IH.
      * rewrite read_digit_char by (apply Z.mod_pos_bound; lia).
        f_equal. rewrite (Z.div_mod n 10) at 3 by lia. reflexivity.
      * split; [apply Z.div_pos; lia|].
        apply Z.div_lt_upper_bound; [lia|].
        rewrite !Nat2Z.inj_succ in *. rewrite Z.pow_succ_r in Hn by lia. lia.
Qed.

Lemma int_float_unsigned (c : ascii) (s : string) (d : Z) :
  digit_value c = Some d ->
  int_float (String c s) =
  let '(int_part, seen1, rest) := read_digits (String c s) 0 false in
  match rest with
  | EmptyString => if seen1 then Some int_part else None
  | String "."%char frac =>
      let '(_, seen2, rest') := read_digits frac 0 false in
      match rest' with
      | EmptyString => if seen1 || seen2 then Some int_part else None
      | _ => None
      end
  | _ => None
  end.
Proof.
  intros Hd. unfold int_float.
  destruct c as [[] [] [] [] [] [] [] []]; try discriminate Hd; reflexivity.
Qed.

Lemma numeral_head (s : string) :
  numeral s -> exists c s' d, s = String c s' /\ digit_value c = Some d.
Proof.
  intros [d Hd|d s' Hd _]; eexists _, _, d; split; try reflexivity;
    apply digit_char_value; exact Hd.
Qed.

(** [int(float(str(n)))] is [n]. *)
Lemma int_float_str_of_int (n : Z) : 0 <= n -> int_float (str_of_int n) = Some n.
Proof.
  intros Hn.
  destruct (numeral_head _ (str_of_int_numeral n Hn)) as (c & s' & d & E & Hd).
  rewrite E, (int_float_unsigned c s' d Hd), <- E.
  unfold str_of_int.
  replace (n <? 0) with false by (symmetry; apply Z.ltb_ge; lia).
  rewrite read_digits_of_pos.
  - reflexivity.
  - split; [exact Hn|].
    destruct (Z.eq_dec n 0) as [->|Hne]; [reflexivity|].
    rewrite Nat2Z.inj_succ, Z2Nat.id by apply Z.log2_nonneg.
    apply Z.log2_spec. lia.
Qed.

Lemma split_cons (c : ascii) (s' : string) :
  split (String c s') =
  if is_space c then split s'
  else match s' with
       | EmptyString => [String c EmptyString]
       | String c' _ =>
           if is_space c' then String c EmptyString :: split s'
           else match split s' with
                | t :: ts => String c t :: ts
                | [] => [String c EmptyString]
                end
       end.
Proof. reflexivity. Qed.

Lemma numeral_not_space (s : string) :
  numeral s -> exists c s', s = String c s' /\ is_space c = false.
Proof.
  intros [d Hd|d s' Hd _]; eexists _, _; split; try reflexivity;
    apply digit_char_not_space; exact Hd.
Qed.

Lemma split_numeral_space (s rest : string) :
  numeral s -> split (s ++ String " " rest) = s :: split rest.
Proof.
  induction 1 as [d Hd|d s Hd Hs IH].
  - cbn [append]. rewrite split_cons, digit_char_not_space by exact Hd.
    change (is_space " ") with true. cbv iota. rewrite (split_cons " " rest).
    change (is_space " ") with true. reflexivity.
  - cbn [append]. rewrite split_cons, digit_char_not_space by exact Hd.
    destruct (numeral_not_space s Hs) as (c & s' & E & Hc).
    rewrite IH. rewrite E at 1. cbn [append]. rewrite Hc. reflexivity.
Qed.

Lemma split_numeral (s : string) : numeral s -> split s = [s].
Proof.
  induction 1 as [d Hd|d s Hd Hs IH].
  - rewrite split_cons, digit_char_not_space by exact Hd. reflexivity.
  - rewrite split_cons, digit_char_not_space by exact Hd.
    destruct (numeral_not_space s Hs) as (c & s' & E & Hc).
    rewrite IH. rewrite E at 1. rewrite Hc. reflexivity.
Qed.

(** The [viewBox] written by [main] splits into its four numbers. *)
Lemma split_viewbox (w h : Z) :
  0 <= w -> 0 <= h ->
  split ("0 0 " ++ str_of_int w ++ " " ++ str_of_int h)
  = ["0"; "0"; str_of_int w; str_of_int h]%string.
Proof.
  intros Hw Hh.
  change ("0 0 " ++ str_of_int w ++ " " ++ str_of_int h)%string
    with (String "0" (String " " (String "0" (String " "
            (str_of_int w ++ String " " (str_of_int h)))))).
  rewrite split_cons. change (is_space "0") with false. cbv iota.
  change (is_space " ") with true. cbv iota.
  rewrite (split_cons " "). change (is_space " ") with true. cbv iota.
  rewrite split_cons. change (is_space "0") with false. cbv iota.
  change (is_space " ") with true. cbv iota.
  rewrite (split_cons " "). change (is_space " ") with true. cbv iota.
  rewrite split_numeral_space by (apply str_of_int_numeral; exact Hw).
  rewrite split_numeral by (apply str_of_int_numeral; exact Hh).
  reflexivity.
Qed.

(** ** Colour strings written by [main] and read back *)

Lemma hex_digit_value (d : Z) : 0 <= d < 16 -> hex_value (hex_digit d) = Some d.
Proof.
  intros Hd.
  assert (E : d = 0 \/ d = 1 \/ d = 2 \/ d = 3 \/ d = 4 \/ d = 5 \/ d = 6 \/ d = 7
              \/ d = 8 \/ d = 9 \/ d = 10 \/ d = 11 \/ d = 12 \/ d = 13 \/ d = 14
              \/ d = 15) by lia.
  repeat (destruct E as [-> | E]; [reflexivity|]). subst d. reflexivity.
Qed.

Lemma int16_to_hex (v : Z) : byte_range v -> int16 (_to_hex v) = Some v.
Proof.
  unfold byte_range. intros Hv. unfold _to_hex, int16.
  rewrite !hex_digit_value.
  - f_equal. rewrite (Z.div_mod v 16) at 3 by lia. reflexivity.
  - apply Z.mod_pos_bound. lia.
  - split; [apply Z.div_pos; lia|apply Z.div_lt_upper_bound; lia].
Qed.

Lemma rgb_prefix_of_rgba (r g b a : Z) :
  substring 0 7 (rgba_hex_of (r, g, b, a)) = rgb_hex_of r g b.
Proof. reflexivity. Qed.

Lemma rect_color_rgb_hex (r g b : Z) :
  byte_range r -> byte_range g -> byte_range b ->
  rect_color (rgb_hex_of r g b) = Some (r, g, b).
Proof.
  intros Hr Hg Hb. unfold rect_color.
  change (starts_with_hash (rgb_hex_of r g b)) with true.
  change (String.length (rgb_hex_of r g b)) with 7%nat.
  change (substring 1 2 (rgb_hex_of r g b)) with (_to_hex r).
  change (substring 3 2 (rgb_hex_of r g b)) with (_to_hex g).
  change (substring 5 2 (rgb_hex_of r g b)) with (_to_hex b).
  rewrite !int16_to_hex by assumption. reflexivity.
Qed.

Lemma clip8_byte (v : Z) : byte_range v -> clip8 v = v.
Proof. unfold byte_range, clip8. lia. Qed.

(** ** Materializer: the rectangles [main] writes *)

Lemma range_from_one (a : Z) : range_from a (a + 1) = [a].
Proof.
  unfold range_from. replace (a + 1 - a) with 1 by lia. simpl. f_equal. lia.
Qed.

Lemma draw_emitted_rect (w h : Z) (img : Raster) (r : SvgRect) (red green blue : Z) :
  ras_w img = w -> ras_h img = h ->
  0 <= rect_x r < w -> 0 <= rect_y r < h ->
  byte_range red -> byte_range green -> byte_range blue ->
  fill r = rgb_hex_of red green blue ->
  let img' := draw_rect w h img (rect_element r) in
  ras_w img' = w /\ ras_h img' = h /\
  pixels img' (rect_x r) (rect_y r) = (red, green, blue) /\
  forall i j, (i, j) <> (rect_x r, rect_y r) -> pixels img' i j = pixels img i j.
Proof.
  intros Hw Hh Hx Hy Hr Hg Hb Hfill. unfold draw_rect, rect_element.
  cbn [at_x at_y at_width at_height at_fill attr_int].
  rewrite !int_float_str_of_int by lia.
  change (int_float "1") with (Some 1).
  rewrite Hfill, rect_color_rgb_hex by assumption.
  unfold rect_cells.
  replace (Z.min (rect_x r + 1) w) with (rect_x r + 1) by lia.
  replace (Z.min (rect_y r + 1) h) with (rect_y r + 1) by lia.
  rewrite !range_from_one. cbn [flat_map map app for_each fst snd].
  destruct (putpixel_inside img (rect_x r) (rect_y r) (red, green, blue))
    as (img1 & E & Hw1 & Hh1 & Hset & Hkeep); [lia|lia|].
  rewrite E. cbv zeta.
  rewrite !clip8_byte in Hset by assumption.
  repeat split; try congruence. exact Hkeep.
Qed.

Lemma fold_draw_size (w h : Z) (rects : list SvgRect) :
  forall img,
    ras_w img = w -> ras_h img = h ->
    Forall (emitted_ok w h) rects ->
    let img' := fold_left (draw_rect w h) (map rect_element rects) img in
    ras_w img' = w /\ ras_h img' = h /\
    forall i j, (forall r, In r rects -> cell r <> (i, j)) ->
                pixels img' i j = pixels img i j.
Proof.
  induction rects as [|r rects IH]; intros img Hw Hh Hok; simpl.
  - auto.
  - inversion Hok as [|? ? [[Hx Hy] (red & green & blue & Hr & Hg & Hb & Hfill)] Hrest]; subst.
    destruct (draw_emitted_rect _ _ img r red green blue eq_refl eq_refl Hx Hy Hr Hg Hb Hfill)
      as (Hw1 & Hh1 & _ & Hkeep).
    destruct (IH _ Hw1 Hh1 Hrest) as (Hw2 & Hh2 & Hkeep2).
    repeat split; auto.
    intros i j Hne. rewrite Hkeep2.
    + apply Hkeep. intros E. apply (Hne r); [left; reflexivity|]. unfold cell. congruence.
    + intros r' Hr'. apply Hne. right. exact Hr'.
Qed.

(** After all rectangles are drawn, the cell of a rectangle that no
    later rectangle shares holds that rectangle's colour. *)
Lemma fold_draw_last (w h : Z) (rects : list SvgRect) :
  forall img,
    ras_w img = w -> ras_h img = h ->
    Forall (emitted_ok w h) rects ->
    forall before r after red green blue,
      rects = before ++ r :: after ->
      (forall r', In r' after -> cell r' <> cell r) ->
      byte_range red -> byte_range green -> byte_range blue ->
      fill r = rgb_hex_of red green blue ->
      pixels (fold_left (draw_rect w h) (map rect_element rects) img)
             (rect_x r) (rect_y r) = (red, green, blue).
Proof.
  induction rects as [|r0 rects IH];
    intros img Hw Hh Hok before r after red green blue E Hlast Hr Hg Hb Hfill.
  - destruct before; discriminate.
  - inversion Hok as [|? ? [[Hx0 Hy0] (r0' & g0' & b0' & Hr0 & Hg0 & Hb0 & Hfill0)] Hrest];
      subst.
    destruct before as [|b0 before]; simpl in E; injection E as -> ->.
    + simpl.
      destruct (draw_emitted_rect _ _ img r red green blue eq_refl eq_refl Hx0 Hy0 Hr Hg Hb Hfill)
        as (Hw1 & Hh1 & Hset & _).
      destruct (fold_draw_size _ _ after _ Hw1 Hh1 Hrest) as (_ & _ & Hkeep).
      rewrite Hkeep; [exact Hset|]. exact Hlast.
    + simpl.
      destruct (draw_emitted_rect _ _ img b0 r0' g0' b0' eq_refl eq_refl Hx0 Hy0
                  Hr0 Hg0 Hb0 Hfill0) as (Hw1 & Hh1 & _ & _).
      apply (IH _ Hw1 Hh1 Hrest before r after); auto.
Qed.

(** The materializer on a document [main] writes. *)
Lemma materialize_written (svg : Svg) (bs : Z) :
  0 <= canvas_w svg -> 0 <= canvas_h svg ->
  _svg_to_editable_png (Some (svg_content svg)) bs
  = Some (fold_left (draw_rect (canvas_w svg) (canvas_h svg))
                    (map rect_element (rects svg))
                    (new_image (canvas_w svg) (canvas_h svg))).
Proof.
  intros Hw Hh. unfold _svg_to_editable_png, svg_content.
  cbn [viewBox rect_elems].
  assert (Hlen : (String.length ("0 0 " ++ str_of_int (canvas_w svg) ++ " "
                                  ++ str_of_int (canvas_h svg)) =? 0)%nat = false)
    by reflexivity.
  rewrite Hlen, split_viewbox by assumption.
  cbn [nth_error].
  rewrite !int_float_str_of_int by assumption.
  replace (canvas_w svg <? 0) with false by (symmetry; apply Z.ltb_ge; lia).
  replace (canvas_h svg <? 0) with false by (symmetry; apply Z.ltb_ge; lia).
  reflexivity.
Qed.

(** ** The fills of the rectangles *)

(** The fill of every colour entry of a block is the hexadecimal string of
    the red, green and blue bytes of a pixel. *)
Lemma block_fill_bytes (im : Image) (thr bs fx ay : Z) (b : Block) (c : ColorCount) :
  wf_image im -> 0 <= fx -> 0 <= ay -> 1 <= bs ->
  block_ok im thr bs fx ay b ->
  In c (color_counts b) ->
  exists red green blue,
    byte_range red /\ byte_range green /\ byte_range blue /\
    rgb_hex c = rgb_hex_of red green blue.
Proof.
  intros Hwf Hfx Hay Hbs Hok Hc.
  destruct (block_ok_color_counts im thr bs fx ay b Hok) as (_ & Hmem & _).
  destruct (Hmem c Hc) as [Hin _].
  destruct Hok as (Hi & Ho & _ & _ & _ & Hfields).
  rewrite Forall_forall in Hfields. destruct (Hfields c Hc) as [Hrgb _].
  unfold visible_colors in Hin. apply in_visible_colors_of in Hin.
  destruct Hin as (x & y & Hfoot & _ & Ekey).
  apply in_footprint in Hfoot. rewrite Ho in Hfoot. simpl in Hfoot.
  assert (0 <= index b * bs) by (apply Z.mul_nonneg_nonneg; lia).
  specialize (Hwf x y ltac:(lia) ltac:(lia)).
  destruct (px im x y) as [[[red green] blue] alpha].
  destruct Hwf as (Hr & Hg & Hb & _).
  exists red, green, blue.
  split; [exact Hr|]. split; [exact Hg|]. split; [exact Hb|].
  rewrite Hrgb, Ekey. apply rgb_prefix_of_rgba.
Qed.

Lemma assembled_fills (fuel : nat) (args : Args) (svg : Svg) (im : Image) :
  Assembled fuel args svg ->
  image args = Readable im -> wf_image im ->
  Forall (fun r => exists red green blue,
              byte_range red /\ byte_range green /\ byte_range blue /\
              fill r = rgb_hex_of red green blue) (rects svg).
Proof.
  intros [im' [x0 y0] [xl last_y] [lx ly] [rx ry] row0 rest block0 bl0
              Him H1 H2 H3 H4 H5 H6 Hsvg] Him' Hwf.
  rewrite Him in Him'. injection Him' as ->.
  cbn [fst snd] in H5, Hsvg. set (bs := block_size args) in *.
  pose proof (grid_bs _ _ _ _ _ _ _ H5) as Hbs.
  pose proof (grid_y0 _ _ _ _ _ H1 H2) as Hy0.
  destruct (scan_all_rows_spec im bs 128 last_y fuel y0 _ H5) as [Hrows _].
  subst svg. cbn [rects]. apply Forall_forall. intros r Hr.
  apply in_all_rects in Hr. destruct Hr as (row & b & Hrow & Hb & Hr).
  destruct (rows_from_strips im 128 bs y0 _ Hrows Hbs row Hrow) as (j & Hj & Hscan).
  assert (Hcy : 0 <= y0 + j * bs)
    by (assert (0 <= j * bs) by (apply Z.mul_nonneg_nonneg; lia); lia).
  destruct (row_facts im 128 bs _ row Hcy Hscan)
    as (fx & ay & _ & _ & Hay & Hv & _ & _ & _ & Hok & _).
  rewrite Forall_forall in Hok. specialize (Hok b Hb).
  apply in_block_rect in Hr. destruct Hr as (_ & _ & top_color & others & Ecc & Hfill & _).
  rewrite Hfill.
  apply (block_fill_bytes im 128 bs fx ay b top_color Hwf); try lia.
  - destruct Hv; lia.
  - exact Hok.
  - rewrite Ecc. left. reflexivity.
Qed.

Lemma NoDup_map_split {A B : Type} (f : A -> B) (before after : list A) (a : A) :
  NoDup (map f (before ++ a :: after)) ->
  forall a', In a' after -> f a' <> f a.
Proof.
  rewrite map_app. simpl. intros H a' Ha' E.
  apply NoDup_remove_2 in H. apply H. apply in_or_app. right.
  rewrite <- E. apply in_map. exact Ha'.
Qed.

(** The canvas of a document that was written has at least one cell
    each way. *)
Lemma canvas_positive (fuel : nat) (im : Image) (bs : Z) (writable quiet out : bool)
  (code : Z) (svg : Svg) :
  main fuel (mkArgs (Readable im) bs writable quiet out) = Some (Written code svg) ->
  1 <= canvas_w svg /\ 1 <= canvas_h svg.
Proof.
  intros Hmain. apply main_written in Hmain. destruct Hmain as [_ Hasm].
  destruct Hasm as [im' [x0 y0] [xl last_y] [lx ly] [rx ry] row0 rest block0 bl0
                      Him H1 H2 H3 H4 H5 H6 Hsvg].
  cbn [fst snd block_size image] in Him, H5, Hsvg. injection Him as <-.
  pose proof (grid_bs _ _ _ _ _ _ _ H5) as Hbs.
  destruct (grid_top_ref _ _ _ _ _ _ _ _ _ _ _ _ _ _ _ H1 H2 H3 H4 H5 H6)
    as (j0 & Hj0 & _ & _ & Htop & Htop' & _).
  assert (Hlr : lx <= rx).
  { destruct (find_leftmost_spec im 128 lx ly H3) as [Hv _].
    destruct (find_rightmost_spec im 128 rx ry H4) as [_ Hmax].
    apply (Hmax lx ly Hv). }
  subst svg. cbn [canvas_w canvas_h]. unfold int_of_quotient.
  rewrite !Z.quot_div_nonneg by lia.
  assert (0 <= (rx - lx) / bs) by (apply Z.div_pos; lia).
  assert (0 <= (last_y - snd (origin block0)) / bs) by (apply Z.div_pos; lia).
  lia.
Qed.

(** ** The example images are well formed *)

Lemma drifting_rows_wf : wf_image drifting_rows.
Proof.
  intros x y _ _. unfold drifting_rows, px, byte_range.
  destruct ((x =? 0) && (y =? 0)); [lia|].
  destruct (y =? 3); [lia|].
  destruct (((y =? 4) && (x =? 0)) || (y =? 5)); lia.
Qed.

Lemma two_tiles_wf : wf_image two_tiles.
Proof.
  intros x y _ _. unfold two_tiles, px, byte_range. destruct (x <? 2); lia.
Qed.

(** ** Termination of [main] *)

(** With a positive block size, [main] returns as soon as the fuel
    exceeds the height of the image by two. *)
Lemma main_terminates (fuel : nat) (args : Args) :
  1 <= block_size args ->
  (forall im, image args = Readable im -> im_h im + 1 < Z.of_nat fuel) ->
  main fuel args <> None.
Proof.
  intros Hbs Hfuel. unfold main.
  destruct (image args) as [| |im] eqn:Eim; try discriminate.
  specialize (Hfuel im eq_refl).
  destruct (find_first_nontransparent_pixel im 128) as [[x y]|] eqn:E1; [|discriminate].
  destruct (find_last_nontransparent_pixel im 128) as [[xl last_y]|] eqn:E2; [|discriminate].
  destruct (find_first_spec im 128 x y E1) as [(_ & Hy & _) _].
  destruct (find_last_spec im 128 xl last_y E2) as [(_ & Hl & _) _].
  pose proof (scan_all_rows_terminates im (block_size args) 128 last_y fuel Hbs y
                ltac:(lia)) as Hrows.
  destruct (scan_all_rows fuel im (block_size args) 128 last_y y) as [[|row0 rest]|];
    [discriminate| |contradiction].
  destruct (blocks row0); [discriminate|].
  destruct (find_rightmost_nontransparent_pixel im 128) as [[rx ry]|]; [|discriminate].
  destruct (svg_out_writable args); discriminate.
Qed.

(** ** More fuel *)

(** Once the row loop has ended, more fuel changes nothing. *)
Lemma scan_all_rows_more_fuel (im : Image) (bs thr last_y : Z) (fuel : nat) :
  forall cy rows,
    scan_all_rows fuel im bs thr last_y cy = Some rows ->
    scan_all_rows (S fuel) im bs thr last_y cy = Some rows.
Proof.
  induction fuel as [|fuel IH]; intros cy rows; [discriminate|].
  intros H.
  change (scan_all_rows (S (S fuel)) im bs thr last_y cy)
    with (if cy <=? last_y then
            match scan_all_rows (S fuel) im bs thr last_y (cy + bs) with
            | None => None
            | Some rest =>
                Some (match scan_row_blocks im cy bs thr with
                      | Some row => row :: rest
                      | None => rest
                      end)
            end
          else Some []).
  change (scan_all_rows (S fuel) im bs thr last_y cy)
    with (if cy <=? last_y then
            match scan_all_rows fuel im bs thr last_y (cy + bs) with
            | None => None
            | Some rest =>
                Some (match scan_row_blocks im cy bs thr with
                      | Some row => row :: rest
                      | None => rest
                      end)
            end
          else Some []) in H.
  destruct (cy <=? last_y); [|exact H].
  destruct (scan_all_rows fuel im bs thr last_y (cy + bs)) as [rest|] eqn:E;
    [|discriminate].
  rewrite (IH _ _ E). exact H.
Qed.

Lemma main_more_fuel (fuel : nat) (args : Args) (o : Outcome) :
  main fuel args = Some o -> main (S fuel) args = Some o.
Proof.
  unfold main.
  destruct (image args) as [| |im]; try (intros H; exact H).
  destruct (find_first_nontransparent_pixel im 128) as [[x y]|]; [|intros H; exact H].
  destruct (find_last_nontransparent_pixel im 128) as [[xl last_y]|]; [|intros H; exact H].
  destruct (scan_all_rows fuel im (block_size args) 128 last_y y) as [rows|] eqn:E;
    [|discriminate].
  rewrite (scan_all_rows_more_fuel _ _ _ _ _ _ _ E). intros H. exact H.
Qed.

(** ** No uncaught exception *)

(** [main] never ends in a traceback: the first row has a block, and an
    image with a first visible pixel has a rightmost one. *)
Lemma main_no_traceback (fuel : nat) (args : Args) :
  main fuel args <> Some Traceback.
Proof.
  unfold main.
  destruct (image args) as [| |im]; try discriminate.
  destruct (find_first_nontransparent_pixel im 128) as [[x y]|] eqn:E1; [|discriminate].
  destruct (find_last_nontransparent_pixel im 128) as [[xl last_y]|]; [|discriminate].
  destruct (scan_all_rows fuel im (block_size args) 128 last_y y) as [[|row0 rest]|] eqn:E3;
    try discriminate.
  destruct (scan_all_rows_spec _ _ _ _ _ _ _ E3) as [Hrows _].
  destruct (rows_from_head _ _ _ _ _ Hrows row0 rest eq_refl) as (j & _ & Hrow & _).
  destruct (scan_row_blocks_spec _ _ _ _ _ Hrow) as (fx & ay & _ & _ & Hne & _).
  destruct (blocks row0) as [|block0 bl0]; [contradiction|].
  destruct (find_rightmost_nontransparent_pixel im 128) as [[rx ry]|] eqn:E5.
  - destruct (svg_out_writable args); discriminate.
  - exfalso. apply find_first_spec in E1. destruct E1 as [Hv _].
    apply (find_rightmost_exists im 128 x y Hv E5).
Qed.

(** * The claims *)

(** ** C1: the green square *)

(** C1. On the 32x32 image whose only visible content is the 16x16 square
    of colour (0,255,0,255) at (8,8), with threshold 128 and block size 16:
    the first-pixel scan returns (8,8); [scan_row_blocks] at [start_y = 8]
    returns a row with exactly one block, of origin (8,8), 256 visible
    pixels and dominant colour [#00FF00FF]; and [main] writes a document
    with a 1x1 canvas and exactly one unit rectangle, at (0,0), with fill
    [#00FF00] and fill-opacity [1.0]. *)
Theorem C1_green_square_scenario :
  find_first_nontransparent_pixel green_square 128 = Some (8, 8) /\
  (exists row,
      scan_row_blocks green_square 8 16 128 = Some row /\
      exists b top,
      blocks row = [b] /\
      origin b = (8, 8) /\
      visible_pixels b = 256 /\
      color_counts b = [top] /\
      rgba_hex top = "#00FF00FF"%string) /\
  (forall quiet out,
     main 2 (mkArgs (Readable green_square) 16 true quiet out)
     = Some (Written (if quiet || out then 0 else 1)
                     (mkSvg 1 1 [mkRect 0 0 "#00FF00" 10000]))) /\
  svg_content (mkSvg 1 1 [mkRect 0 0 "#00FF00" 10000])
    = mkSvgDoc (Some "0 0 1 1"%string)
        [mkRectElem (Some "0"%string) (Some "0"%string) (Some "1"%string)
           (Some "1"%string) (Some "#00FF00"%string) (Some "1.0"%string)].
Proof.
  split; [vm_compute; reflexivity|].
  split.
  - destruct (scan_row_blocks green_square 8 16 128) as [row|] eqn:E;
      [|vm_compute in E; discriminate].
    exists row. split; [reflexivity|].
    assert (Hb : map (fun b => (origin b, visible_pixels b, map rgba_hex (color_counts b)))
                     (blocks row) = [((8, 8), 256, ["#00FF00FF"%string])]).
    { apply (f_equal (option_map (fun r =>
              map (fun b => (origin b, visible_pixels b, map rgba_hex (color_counts b)))
                  (blocks r)))) in E.
      vm_compute in E. injection E as E. symmetry. exact E. }
    clear E. revert Hb. generalize (blocks row).
    intros [|b [|b' bl]] Hb; simpl in Hb; try (inversion Hb; fail).
    injection Hb as Ho Hv Hc.
    destruct (color_counts b) as [|top [|top' cl]] eqn:Ec;
      simpl in Hc; try (inversion Hc; fail).
    injection Hc as Hc.
    exists b, top. repeat split; auto.
  - split; vm_compute; reflexivity.
Qed.

(** ** C2: round trip through the materializer *)

(** C2, refuted as stated: on [drifting_rows] with block size 2 the
    document holds the rectangles [#FF0000] and [#0000FF], both at cell
    (0, 0); the materializer draws them in order, and the pixel (0, 0)
    ends up blue, not the red of the first rectangle. *)
Lemma C2_later_rectangle_overwrites :
  main 4 (mkArgs (Readable drifting_rows) 2 true false true)
    = Some (Written 0 (mkSvg 1 2 [mkRect 0 0 "#FF0000" 10000;
                                 mkRect 0 0 "#0000FF" 10000])) /\
  (exists img,
     _svg_to_editable_png
       (Some (svg_content (mkSvg 1 2 [mkRect 0 0 "#FF0000" 10000;
                                      mkRect 0 0 "#0000FF" 10000]))) 2 = Some img /\
     pixels img 0 0 = (0, 0, 255)) /\
  ~ round_trip_every_rectangle.
Proof.
  set (svg := mkSvg 1 2 [mkRect 0 0 "#FF0000" 10000; mkRect 0 0 "#0000FF" 10000]).
  assert (Hmain : main 4 (mkArgs (Readable drifting_rows) 2 true false true) = Some (Written 0 svg))
    by (vm_compute; reflexivity).
  assert (Hpix : option_map (fun img => pixels img 0 0)
                   (_svg_to_editable_png (Some (svg_content svg)) 2) = Some (0, 0, 255))
    by (vm_compute; reflexivity).
  split; [exact Hmain|]. split.
  - destruct (_svg_to_editable_png (Some (svg_content svg)) 2) as [img|];
      [|discriminate Hpix].
    exists img. split; [reflexivity|]. simpl in Hpix. congruence.
  - intros H.
    destruct (H _ _ _ _ _ _ _ _ drifting_rows_wf Hmain) as (img & Himg & Hall).
    rewrite Himg in Hpix. simpl in Hpix.
    assert (Hred : pixels img 0 0 = (255, 0, 0)).
    { apply (Hall (mkRect 0 0 "#FF0000" 10000) 255 0 0);
        unfold byte_range; try lia; [left|]; reflexivity. }
    congruence.
Qed.

(** C2, amended. For every document [main] writes from a well-formed
    image, the materializer (contract B) returns a raster of the size of
    the canvas; the fill of every rectangle is the hexadecimal string of
    three bytes; for every rectangle that no later rectangle of the
    document shares its cell with, the pixel at its grid coordinates holds
    exactly these three bytes; and when the strip of the first visible
    pixel gives a row, that is the case of every rectangle. *)
Theorem C2_round_trip (fuel : nat) (im : Image) (bs : Z) (writable quiet out : bool)
  (code : Z) (svg : Svg) :
  wf_image im ->
  main fuel (mkArgs (Readable im) bs writable quiet out) = Some (Written code svg) ->
  exists img,
    _svg_to_editable_png (Some (svg_content svg)) bs = Some img /\
    ras_w img = canvas_w svg /\ ras_h img = canvas_h svg /\
    (forall r, In r (rects svg) ->
       exists red green blue,
         byte_range red /\ byte_range green /\ byte_range blue /\
         fill r = rgb_hex_of red green blue) /\
    (forall before r after red green blue,
       rects svg = before ++ r :: after ->
       (forall r', In r' after -> cell r' <> cell r) ->
       byte_range red -> byte_range green -> byte_range blue ->
       fill r = rgb_hex_of red green blue ->
       pixels img (rect_x r) (rect_y r) = (red, green, blue)) /\
    (forall x0 y0,
       find_first_nontransparent_pixel im 128 = Some (x0, y0) ->
       scan_row_blocks im y0 bs 128 <> None ->
       forall r red green blue,
         In r (rects svg) ->
         byte_range red -> byte_range green -> byte_range blue ->
         fill r = rgb_hex_of red green blue ->
         pixels img (rect_x r) (rect_y r) = (red, green, blue)).
Proof.
  intros Hwf Hmain.
  pose proof (canvas_positive fuel im bs writable quiet out code svg Hmain) as [Hcw Hch].
  apply main_written in Hmain. destruct Hmain as [_ Hasm].
  destruct (assembled_rects _ _ _ Hasm) as [Hin Hsorted].
  pose proof (assembled_fills _ _ _ im Hasm eq_refl Hwf) as Hfills.
  assert (Hok : Forall (emitted_ok (canvas_w svg) (canvas_h svg)) (rects svg)).
  { rewrite Forall_forall in *. intros r Hr. split; [apply Hin|apply Hfills]; exact Hr. }
  rewrite materialize_written by lia.
  eexists. split; [reflexivity|].
  destruct (fold_draw_size (canvas_w svg) (canvas_h svg) (rects svg)
              (new_image (canvas_w svg) (canvas_h svg)) eq_refl eq_refl Hok)
    as (Hw & Hh & _).
  assert (Hlast : forall before r after red green blue,
             rects svg = before ++ r :: after ->
             (forall r', In r' after -> cell r' <> cell r) ->
             byte_range red -> byte_range green -> byte_range blue ->
             fill r = rgb_hex_of red green blue ->
             pixels (fold_left (draw_rect (canvas_w svg) (canvas_h svg))
                       (map rect_element (rects svg))
                       (new_image (canvas_w svg) (canvas_h svg)))
                    (rect_x r) (rect_y r) = (red, green, blue)).
  { intros before r after red green blue E Hl Hr Hg Hb Hf.
    apply (fold_draw_last (canvas_w svg) (canvas_h svg) (rects svg)
             (new_image (canvas_w svg) (canvas_h svg)) eq_refl eq_refl Hok
             before r after); auto. }
  split; [exact Hw|]. split; [exact Hh|].
  split; [rewrite Forall_forall in Hfills; exact Hfills|].
  split; [exact Hlast|].
  intros x0 y0 Hfirst Hkept r red green blue Hr Hred Hgreen Hblue Hfill.
  assert (Hnd : NoDup (map cell (rects svg))).
  { apply cell_lt_NoDup. apply Hsorted. exists im, x0, y0. simpl. auto. }
  destruct (in_split r (rects svg) Hr) as (before & after & E).
  apply (Hlast before r after); auto.
  rewrite E in Hnd. apply (NoDup_map_split cell before after r Hnd).
Qed.

(** C2 on [two_tiles]: both rectangles are read back. *)
Lemma C2_witness :
  exists img,
    _svg_to_editable_png (Some (svg_content two_tiles_svg)) 2 = Some img /\
    pixels img 0 0 = (255, 0, 0) /\ pixels img 1 0 = (0, 0, 255).
Proof.
  destruct (C2_round_trip 3 two_tiles 2 true false true 0 two_tiles_svg two_tiles_wf)
    as (img & Hm & _ & _ & _ & _ & Hall).
  - vm_compute. reflexivity.
  - exists img. split; [exact Hm|].
    assert (Hfirst : find_first_nontransparent_pixel two_tiles 128 = Some (0, 0))
      by (vm_compute; reflexivity).
    assert (Hkept : scan_row_blocks two_tiles 0 2 128 <> None)
      by (vm_compute; discriminate).
    split.
    + apply (Hall 0 0 Hfirst Hkept (mkRect 0 0 "#FF0000" 10000) 255 0 0);
        unfold byte_range; try lia; [left|]; reflexivity.
    + apply (Hall 0 0 Hfirst Hkept (mkRect 1 0 "#0000FF" 10000) 0 0 255);
        unfold byte_range; try lia; [right; left|]; reflexivity.
Defined.

(** ** C3: exit codes and failure classes *)

(** C3, refuted as stated: a missing input file and an unwritable output
    path (on the green square, which has content) both end with exit
    code 3, although the first is a "bad input" and the second an "I/O
    failure". *)
Lemma C3_bad_input_and_io_failure_share_exit_code :
  main 0 (mkArgs NotAFile 16 true false true) = Some (Failed 3 File_not_found) /\
  main 2 (mkArgs (Readable green_square) 16 false false true)
  = Some (Failed 3 Failed_to_write_SVG) /\
  failure_class File_not_found = Bad_input /\
  failure_class Failed_to_write_SVG = IO_failure /\
  ~ exit_code_identifies_class.
Proof.
  assert (H1 : main 0 (mkArgs NotAFile 16 true false true) = Some (Failed 3 File_not_found))
    by reflexivity.
  assert (H2 : main 2 (mkArgs (Readable green_square) 16 false false true)
               = Some (Failed 3 Failed_to_write_SVG))
    by (vm_compute; reflexivity).
  repeat split; auto.
  intros H. apply (H _ _ _ _ _ _ _ _ H1 H2); [discriminate|reflexivity].
Qed.

(** C3, amended. Every run of [main] that ends has one of these
    outcomes.  A failing run prints its message and returns the exit
    code of its class: 3 for bad input, 2 for no content, 3 for a write
    failure; so the exit code tells "no content found" from the other
    two classes and does not tell bad input from a write failure.  A run
    that writes the document (the output path is writable) ends with
    exit status 0 when the summary is not printed ([--quiet]) or
    [sys.stdout] takes it, and with exit status 1, after the write, when
    the summary is printed to a [sys.stdout] that does not take it (the
    [print] raises and nobody catches it).  No exception ends a run
    before the write. *)
Theorem C3_exit_code_of_failure_class (fuel : nat) (args : Args) (o : Outcome) :
  main fuel args = Some o ->
  match o with
  | Failed code msg => code = class_exit_code (failure_class msg)
  | Written code _ =>
      svg_out_writable args = true /\
      (quiet args = true \/ stdout_prints args = true -> code = 0) /\
      (quiet args = false /\ stdout_prints args = false -> code = 1)
  | Traceback => False
  end.
Proof.
  intros H. destruct o as [code msg|code svg|];
    [| |exact (main_no_traceback fuel args H)].
  - unfold main in H.
    repeat match type of H with
           | context [match ?x with _ => _ end] => destruct x
           | context [if ?x then _ else _] => destruct x
           end;
      try discriminate; injection H as <- <-; reflexivity.
  - split.
    + destruct (svg_out_writable args) eqn:Ew; [reflexivity|]. exfalso.
      unfold main in H. rewrite Ew in H.
      repeat match type of H with
             | context [match ?x with _ => _ end] => destruct x
             end;
        discriminate.
    + destruct (main_written fuel args code svg H) as [-> _].
      split.
      * intros [-> | ->]; [reflexivity|]. rewrite orb_true_r. reflexivity.
      * intros [-> ->]. reflexivity.
Qed.

(** C3 on the green square: with an output path that cannot be written
    the run fails with exit code 3; with a writable path and a
    [sys.stdout] that does not take the summary, the document is written
    and the exit status is 1, or 0 with [--quiet]. *)
Lemma C3_witness :
  main 2 (mkArgs (Readable green_square) 16 false false true)
  = Some (Failed 3 Failed_to_write_SVG) /\
  3 = class_exit_code (failure_class Failed_to_write_SVG) /\
  main 2 (mkArgs (Readable green_square) 16 true false false)
  = Some (Written 1 (mkSvg 1 1 [mkRect 0 0 "#00FF00" 10000])) /\
  main 2 (mkArgs (Readable green_square) 16 true true false)
  = Some (Written 0 (mkSvg 1 1 [mkRect 0 0 "#00FF00" 10000])).
Proof.
  assert (H : main 2 (mkArgs (Readable green_square) 16 false false true)
              = Some (Failed 3 Failed_to_write_SVG)) by (vm_compute; reflexivity).
  split; [exact H|].
  split; [exact (C3_exit_code_of_failure_class 2
                   (mkArgs (Readable green_square) 16 false false true) _ H)|].
  split; vm_compute; reflexivity.
Defined.

(** ** C4: the canvas size *)

(** C4, refuted as stated: on [drifting_rows] with block size 2 the
    topmost visible pixel is on line 0 and the bottommost on line 5, so
    the claimed height is [5 / 2 + 1 = 3]; the strip of line 0 gives no
    row, the first row is anchored on line 3, and the canvas written has
    height 2. *)
Lemma C4_canvas_height_counts_from_first_row :
  find_first_nontransparent_pixel drifting_rows 128 = Some (0, 0) /\
  find_last_nontransparent_pixel drifting_rows 128 = Some (1, 5) /\
  scan_row_blocks drifting_rows 0 2 128 = None /\
  (exists svg,
     main 4 (mkArgs (Readable drifting_rows) 2 true false true) = Some (Written 0 svg) /\
     canvas_h svg = 2) /\
  (5 - 0) / 2 + 1 = 3 /\
  ~ canvas_spans_extremes.
Proof.
  assert (Hmain : main 4 (mkArgs (Readable drifting_rows) 2 true false true)
                  = Some (Written 0 (mkSvg 1 2 [mkRect 0 0 "#FF0000" 10000;
                                               mkRect 0 0 "#0000FF" 10000])))
    by (vm_compute; reflexivity).
  split; [vm_compute; reflexivity|].
  split; [vm_compute; reflexivity|].
  split; [vm_compute; reflexivity|].
  split; [eexists; split; [exact Hmain|reflexivity]|].
  split; [reflexivity|].
  intros H.
  destruct (H 4%nat drifting_rows 2 true false true 0 _ 0 0 1 5 0 0 1 3 Hmain) as [_ Hh];
    try (vm_compute; reflexivity).
  vm_compute in Hh. discriminate Hh.
Qed.

(** C4, amended. For every run of [main] that writes its document, with
    the extremes reported by the four boundary scanners at threshold 128:
    the canvas width is [floor((rightmost_x - leftmost_x) / blockSize) + 1];
    the canvas height is [floor((bottommost_y - top_ref) / blockSize) + 1]
    where [top_ref] is the line of the first block of the first row kept;
    [top_ref] lies between [topmost_y] and [bottommost_y], and it is
    [topmost_y] whenever the strip of the first visible pixel gives a
    row. *)
Theorem C4_canvas_size (fuel : nat) (im : Image) (bs : Z) (writable quiet out : bool)
  (code : Z) (svg : Svg) :
  main fuel (mkArgs (Readable im) bs writable quiet out) = Some (Written code svg) ->
  exists x0 topmost_y xl bottommost_y leftmost_x ly rightmost_x ry
         row0 rest block0 bl0,
    find_first_nontransparent_pixel im 128 = Some (x0, topmost_y) /\
    find_last_nontransparent_pixel im 128 = Some (xl, bottommost_y) /\
    find_leftmost_nontransparent_pixel im 128 = Some (leftmost_x, ly) /\
    find_rightmost_nontransparent_pixel im 128 = Some (rightmost_x, ry) /\
    scan_all_rows fuel im bs 128 bottommost_y topmost_y = Some (row0 :: rest) /\
    blocks row0 = block0 :: bl0 /\
    let top_ref := snd (origin block0) in
    canvas_w svg = (rightmost_x - leftmost_x) / bs + 1 /\
    canvas_h svg = (bottommost_y - top_ref) / bs + 1 /\
    topmost_y <= top_ref <= bottommost_y /\
    (scan_row_blocks im topmost_y bs 128 <> None -> top_ref = topmost_y).
Proof.
  intros Hmain. apply main_written in Hmain. destruct Hmain as [_ Hasm].
  destruct Hasm as [im' [x0 y0] [xl last_y] [lx ly] [rx ry] row0 rest block0 bl0
                      Him H1 H2 H3 H4 H5 H6 Hsvg].
  simpl in Him, H5, Hsvg. injection Him as <-.
  exists x0, y0, xl, last_y, lx, ly, rx, ry, row0, rest, block0, bl0.
  repeat (split; [assumption|]).
  pose proof (grid_bs _ _ _ _ _ _ _ H5) as Hbs.
  destruct (grid_top_ref _ _ _ _ _ _ _ _ _ _ _ _ _ _ _ H1 H2 H3 H4 H5 H6)
    as (j0 & Hj0 & _ & _ & Htop & Htop' & _).
  assert (0 <= j0 * bs) by (apply Z.mul_nonneg_nonneg; lia).
  assert (Hlr : lx <= rx).
  { destruct (find_leftmost_spec im 128 lx ly H3) as [Hv _].
    destruct (find_rightmost_spec im 128 rx ry H4) as [_ Hmax].
    apply (Hmax lx ly Hv). }
  cbv zeta. subst svg. simpl. unfold int_of_quotient.
  rewrite !Z.quot_div_nonneg by lia.
  repeat split; try lia.
  intros Hkept.
  apply (grid_first_strip_kept _ _ _ _ _ _ _ _ _ _ _ H1 H2 H5 H6 Hkept).
Qed.

(** C4 on [red_blue_tie] with block size 2. *)
Lemma C4_witness :
  exists x0 topmost_y xl bottommost_y leftmost_x ly rightmost_x ry
         row0 rest block0 bl0,
    find_first_nontransparent_pixel red_blue_tie 128 = Some (x0, topmost_y) /\
    find_last_nontransparent_pixel red_blue_tie 128 = Some (xl, bottommost_y) /\
    find_leftmost_nontransparent_pixel red_blue_tie 128 = Some (leftmost_x, ly) /\
    find_rightmost_nontransparent_pixel red_blue_tie 128 = Some (rightmost_x, ry) /\
    scan_all_rows 3 red_blue_tie 2 128 bottommost_y topmost_y = Some (row0 :: rest) /\
    blocks row0 = block0 :: bl0 /\
    let top_ref := snd (origin block0) in
    canvas_w (mkSvg 1 1 [mkRect 0 0 "#0000FF" 10000]) = (rightmost_x - leftmost_x) / 2 + 1 /\
    canvas_h (mkSvg 1 1 [mkRect 0 0 "#0000FF" 10000]) = (bottommost_y - top_ref) / 2 + 1 /\
    topmost_y <= top_ref <= bottommost_y /\
    (scan_row_blocks red_blue_tie topmost_y 2 128 <> None -> top_ref = topmost_y).
Proof.
  apply (C4_canvas_size 3 red_blue_tie 2 true false true 0). vm_compute. reflexivity.
Defined.

(** ** C5: boundary contrast *)

(** C5, refuted as stated: on a 4x4 image of one colour and block size 2
    both averages are 0, and the contrast is 1, not [0 / 0.001 = 0]. *)
Lemma C5_flat_image_contrast_is_one :
  _compute_gradient_at_positions luma (flat_image 4 4 (200, 30, 30)) 2 = (0%R, 0%R) /\
  _compute_boundary_contrast luma (flat_image 4 4 (200, 30, 30)) 2 = 1%R /\
  ~ contrast_is_guarded_ratio luma.
Proof.
  assert (E : _compute_boundary_contrast luma (flat_image 4 4 (200, 30, 30)) 2 = 1%R).
  { unfold _compute_boundary_contrast. rewrite flat_image_averages.
    destruct (Rlt_dec 0 (1 / 1000)) as [_|Hn]; [|exfalso; apply Hn; lra].
    destruct (Rgt_dec 0 0) as [Hgt|_]; [lra|reflexivity]. }
  repeat split.
  - apply flat_image_averages.
  - exact E.
  - intros H. destruct (H (flat_image 4 4 (200, 30, 30)) 2) as [_ H2].
    rewrite flat_image_averages, E in H2. simpl in H2.
    assert (H3 : 1%R = (0 / (1 / 1000))%R) by (apply H2; lra). lra.
Qed.

Lemma range_NoDup (n : Z) : NoDup (range n).
Proof.
  pose proof (range_strongly_sorted n) as S.
  induction S as [|a l _ IH F]; constructor; [|exact IH].
  intros Hin. rewrite Forall_forall in F. specialize (F a Hin). lia.
Qed.

Lemma line_NoDup (y : Z) (xs : list Z) : NoDup xs -> NoDup (map (fun x => (y, x)) xs).
Proof.
  induction 1 as [|x xs Hx _ IH]; cbn [map]; constructor; [|exact IH].
  intros Hin. apply in_map_iff in Hin. destruct Hin as (x' & [= ->] & Hin).
  contradiction.
Qed.

Lemma positions_NoDup (h w : Z) : NoDup (positions h w).
Proof.
  unfold positions. pose proof (range_NoDup h) as Hh.
  induction Hh as [|y ys Hy _ IH]; [constructor|].
  cbn [flat_map]. apply NoDup_app; [apply line_NoDup, range_NoDup|exact IH|].
  intros [y' x'] H1 H2. apply in_map_iff in H1. destruct H1 as (x1 & [= <- <-] & _).
  apply in_flat_map in H2. destruct H2 as (y2 & Hy2 & H2).
  apply in_map_iff in H2. destruct H2 as (x2 & [= <- _] & _). contradiction.
Qed.

Lemma on_boundary_iff (n y x : Z) : on_boundary n y x = true <-> tile_boundary n y x.
Proof.
  unfold on_boundary, tile_boundary. cbv zeta.
  rewrite !orb_true_iff, !Z.eqb_eq. tauto.
Qed.

(** The two lists of gradients [_compute_gradient_at_positions]
    averages. *)
Lemma gradient_lists (rgb2gray : Z * Z * Z -> Z) (img : ndarray) (bs : Z) :
  _compute_gradient_at_positions rgb2gray img bs
  = (mean_or_zero
       (map (fun p => grad_magnitude rgb2gray img (fst p) (snd p))
            (filter (fun p => on_boundary bs (fst p) (snd p))
                    (positions (shape_h img) (shape_w img)))),
     mean_or_zero
       (map (fun p => grad_magnitude rgb2gray img (fst p) (snd p))
            (filter (fun p => negb (on_boundary bs (fst p) (snd p)))
                    (positions (shape_h img) (shape_w img))))).
Proof.
  unfold _compute_gradient_at_positions. rewrite partition_as_filter. reflexivity.
Qed.

Lemma grad_magnitude_sobel (rgb2gray : Z * Z * Z -> Z) (img : ndarray) (y x : Z) :
  grad_magnitude rgb2gray img y x
  = sqrt (sobel_x rgb2gray img y x ^ 2 + sobel_y rgb2gray img y x ^ 2).
Proof. unfold grad_magnitude. cbv zeta. rewrite !pow2_abs. reflexivity. Qed.

(** C5, amended. For every image of at least one pixel and every block
    size [N] other than 0, the positions of the image fall into those on
    a tile boundary (X or Y congruent to 0 or [N - 1] modulo [N]) and
    the others, each position counted once; [avgBoundary] and
    [avgInside] are the means, over these two sets, of the Sobel
    magnitude [sqrt(gx^2 + gy^2)] (0 for an empty set), and neither is
    negative.  The contrast is [avgBoundary / avgInside] when
    [avgInside >= 0.001]; it is [avgBoundary / 0.001] when
    [avgInside < 0.001] and [avgBoundary > 0]; and it is 1 when
    [avgInside < 0.001] and [avgBoundary = 0]. *)
Theorem C5_boundary_contrast_cases (rgb2gray : Z * Z * Z -> Z) (img : ndarray)
  (block_size : Z) :
  block_size <> 0 -> 0 < shape_h img -> 0 < shape_w img ->
  exists boundary_positions inside_positions : list (Z * Z),
    NoDup boundary_positions /\ NoDup inside_positions /\
    (forall y x, In (y, x) boundary_positions <->
       0 <= y < shape_h img /\ 0 <= x < shape_w img /\ tile_boundary block_size y x) /\
    (forall y x, In (y, x) inside_positions <->
       0 <= y < shape_h img /\ 0 <= x < shape_w img /\ ~ tile_boundary block_size y x) /\
    let magnitude := fun p : Z * Z =>
      sqrt (sobel_x rgb2gray img (fst p) (snd p) ^ 2
            + sobel_y rgb2gray img (fst p) (snd p) ^ 2) in
    let avg_boundary := mean_or_zero (map magnitude boundary_positions) in
    let avg_inside := mean_or_zero (map magnitude inside_positions) in
    _compute_gradient_at_positions rgb2gray img block_size = (avg_boundary, avg_inside) /\
    (0 <= avg_boundary)%R /\ (0 <= avg_inside)%R /\
    ((1 / 1000 <= avg_inside)%R ->
     _compute_boundary_contrast rgb2gray img block_size = (avg_boundary / avg_inside)%R) /\
    ((avg_inside < 1 / 1000)%R -> (0 < avg_boundary)%R ->
     _compute_boundary_contrast rgb2gray img block_size = (avg_boundary / (1 / 1000))%R) /\
    ((avg_inside < 1 / 1000)%R -> avg_boundary = 0%R ->
     _compute_boundary_contrast rgb2gray img block_size = 1%R).
Proof.
  intros _ _ _.
  set (ps := positions (shape_h img) (shape_w img)).
  exists (filter (fun p => on_boundary block_size (fst p) (snd p)) ps),
         (filter (fun p => negb (on_boundary block_size (fst p) (snd p))) ps).
  split; [apply NoDup_filter, positions_NoDup|].
  split; [apply NoDup_filter, positions_NoDup|].
  split.
  { intros y x. rewrite filter_In. unfold ps. rewrite in_positions. cbn [fst snd].
    rewrite on_boundary_iff. tauto. }
  split.
  { intros y x. rewrite filter_In. unfold ps. rewrite in_positions. cbn [fst snd].
    rewrite negb_true_iff, <- not_true_iff_false, on_boundary_iff. tauto. }
  cbv zeta.
  assert (E : _compute_gradient_at_positions rgb2gray img block_size
              = (mean_or_zero
                   (map (fun p : Z * Z =>
                           sqrt (sobel_x rgb2gray img (fst p) (snd p) ^ 2
                                 + sobel_y rgb2gray img (fst p) (snd p) ^ 2))
                        (filter (fun p => on_boundary block_size (fst p) (snd p)) ps)),
                 mean_or_zero
                   (map (fun p : Z * Z =>
                           sqrt (sobel_x rgb2gray img (fst p) (snd p) ^ 2
                                 + sobel_y rgb2gray img (fst p) (snd p) ^ 2))
                        (filter (fun p => negb (on_boundary block_size (fst p) (snd p)))
                                ps)))).
  { rewrite gradient_lists. fold ps.
    f_equal; f_equal; apply map_ext; intros p; apply grad_magnitude_sobel. }
  split; [exact E|].
  destruct (averages_nonneg rgb2gray img block_size) as [Hb Hi].
  unfold _compute_boundary_contrast. rewrite E in Hb, Hi |- *. cbn [fst snd] in Hb, Hi.
  clear E.
  set (avg_boundary :=
         mean_or_zero (map _ (filter (fun p => on_boundary _ _ _) ps))) in *.
  set (avg_inside := mean_or_zero (map _ (filter (fun p => negb _) ps))) in *.
  clearbody avg_boundary avg_inside.
  split; [exact Hb|]. split; [exact Hi|].
  split; [|split].
  - intros H. destruct (Rlt_dec avg_inside (1 / 1000)); [lra|reflexivity].
  - intros H1 H2. destruct (Rlt_dec avg_inside (1 / 1000)); [|lra].
    destruct (Rgt_dec avg_boundary 0); [reflexivity|lra].
  - intros H1 H2. destruct (Rlt_dec avg_inside (1 / 1000)); [|lra].
    destruct (Rgt_dec avg_boundary 0); [lra|reflexivity].
Qed.

Lemma NoDup_singleton {A : Type} (l : list A) (v : A) :
  NoDup l -> (forall a, In a l <-> a = v) -> l = [v].
Proof.
  intros Hnd H. destruct l as [|a l]; [exfalso; exact (proj2 (H v) eq_refl)|].
  assert (Ea : a = v) by (apply H; left; reflexivity). subst a.
  destruct l as [|b l]; [reflexivity|]. exfalso.
  assert (Eb : b = v) by (apply H; right; left; reflexivity). subst b.
  inversion Hnd as [|? ? Hnot _]; subst. apply Hnot. left. reflexivity.
Qed.

(** C5 on [ramp_3x3] with block size 3: the centre is the only inside
    position, its gradient is 8, and the contrast is the first case,
    [avgBoundary / avgInside]. *)
Lemma C5_witness :
  snd (_compute_gradient_at_positions luma ramp_3x3 3) = 8%R /\
  _compute_boundary_contrast luma ramp_3x3 3
  = (fst (_compute_gradient_at_positions luma ramp_3x3 3) / 8)%R.
Proof.
  assert (Hbs : 3 <> 0) by discriminate.
  assert (Hh : 0 < shape_h ramp_3x3) by reflexivity.
  assert (Hw : 0 < shape_w ramp_3x3) by reflexivity.
  destruct (C5_boundary_contrast_cases luma ramp_3x3 3 Hbs Hh Hw)
    as (bp & ip & _ & Hnd & _ & Hin & Heq & _ & _ & Hratio & _).
  cbv zeta in Heq, Hratio.
  assert (Eip : ip = [(1, 1)]).
  { apply NoDup_singleton; [exact Hnd|]. intros [y x]. rewrite Hin.
    change (shape_h ramp_3x3) with 3. change (shape_w ramp_3x3) with 3.
    unfold tile_boundary. split.
    - intros (Hy & Hx & Hnb).
      assert (Ey : y = 0 \/ y = 1 \/ y = 2) by lia.
      assert (Ex : x = 0 \/ x = 1 \/ x = 2) by lia.
      destruct Ey as [-> | [-> | ->]]; destruct Ex as [-> | [-> | ->]];
        try reflexivity; exfalso; apply Hnb; vm_compute; tauto.
    - intros [= -> ->]. split; [lia|]. split; [lia|].
      vm_compute. intros [H | [H | [H | H]]]; discriminate H. }
  subst ip.
  assert (E8 : mean_or_zero
                 (map (fun p : Z * Z =>
                         sqrt (sobel_x luma ramp_3x3 (fst p) (snd p) ^ 2
                               + sobel_y luma ramp_3x3 (fst p) (snd p) ^ 2))
                      [(1, 1)]) = 8%R).
  { cbn [map fst snd mean_or_zero fold_right List.length INR].
    unfold sobel_x, sobel_y, gray, ramp_3x3. cbn [shape_h shape_w].
    change (reflect101 (1 - 1) 3) with 0.
    change (reflect101 (1 + 1) 3) with 2.
    change (reflect101 1 3) with 1.
    replace ((2 - 0 + 2 * (2 - 0) + (2 - 0)) ^ 2
             + (0 - 0 + 2 * (1 - 1) + (2 - 2)) ^ 2)%R with (8 ^ 2)%R by ring.
    rewrite sqrt_pow2 by lra. lra. }
  rewrite E8 in Heq, Hratio. rewrite Heq. cbn [fst snd].
  split; [reflexivity|]. apply Hratio. lra.
Defined.

(** ** C6: the trailing trim *)

(** C6. Whenever [scan_row_blocks] gets as far as the trim with the
    blocks [row_blocks], these split as [kept ++ removed] where every
    removed block has [visible_pixels / (block_size * block_size) < 0.5]
    (twice its visible pixels is below [block_size * block_size]), and the
    last kept block, if any, has not: [removed] is the longest such
    suffix, and no block before the last dense one is removed.  The row
    returned holds exactly [kept], and when [kept] is empty no row is
    returned. *)
Theorem C6_trailing_trim (im : Image) (start_y bs thr first_x actual_y : Z)
  (row_blocks : list Block) :
  untrimmed_blocks im start_y bs thr = Some (first_x, actual_y, row_blocks) ->
  exists kept removed,
    row_blocks = kept ++ removed /\
    Forall (fun b => 2 * visible_pixels b < bs * bs) removed /\
    (forall kept' b, kept = kept' ++ [b] -> bs * bs <= 2 * visible_pixels b) /\
    match scan_row_blocks im start_y bs thr with
    | None => kept = []
    | Some row => kept <> [] /\ blocks row = kept
    end.
Proof.
  intros Hu.
  destruct (pop_sparse_spec bs (List.length row_blocks) row_blocks (le_n _))
    as (removed & H1 & H2 & H3).
  fold (trim_trailing bs row_blocks) in H1, H3.
  exists (trim_trailing bs row_blocks), removed. repeat split.
  - exact H1.
  - eapply Forall_impl; [|exact H2]. intros b Hb. unfold sparse in Hb.
    apply Z.ltb_lt in Hb. exact Hb.
  - intros kept' b Hk. specialize (H3 kept' b Hk). unfold sparse in H3.
    apply Z.ltb_ge in H3. exact H3.
  - unfold scan_row_blocks. rewrite Hu.
    destruct row_blocks as [|b0 bl] eqn:Erb; [reflexivity|]. rewrite <- Erb in *.
    destruct (rev (trim_trailing bs row_blocks)) as [|last_block rl] eqn:Er.
    + rewrite <- (rev_involutive (trim_trailing bs row_blocks)), Er. reflexivity.
    + simpl. split; [|reflexivity]. intros E. rewrite E in Er. discriminate.
Qed.

(** C6 on [dense_then_sparse]: the second block is removed. *)
Lemma C6_witness :
  exists row_blocks,
    untrimmed_blocks dense_then_sparse 0 2 128 = Some (0, 0, row_blocks) /\
    exists kept removed,
      row_blocks = kept ++ removed /\
      Forall (fun b => 2 * visible_pixels b < 2 * 2) removed /\
      (forall kept' b, kept = kept' ++ [b] -> 2 * 2 <= 2 * visible_pixels b) /\
      match scan_row_blocks dense_then_sparse 0 2 128 with
      | None => kept = []
      | Some row => kept <> [] /\ blocks row = kept
      end.
Proof.
  eexists. split.
  - vm_compute. reflexivity.
  - apply (C6_trailing_trim dense_then_sparse 0 2 128 0 0). vm_compute. reflexivity.
Defined.

(** ** C7: the order of [color_counts] *)

(** C7. In every block of a row returned by [scan_row_blocks], with [V]
    the colour strings of the visible pixels of the block's tile:
    [color_counts] is sorted by descending count, ties broken by the
    smaller colour string; each entry counts how often its colour occurs
    in [V], and every colour of [V] has an entry; and the list of colours
    and counts is the same for any rearrangement [V'] of [V], so that it,
    and its first entry, the dominant colour, are determined by the
    multiset of visible colours alone. *)
Theorem C7_color_counts_order (im : Image) (start_y bs thr : Z) (row : Row) (b : Block) :
  scan_row_blocks im start_y bs thr = Some row ->
  In b (blocks row) ->
  let V := visible_colors im thr bs (origin b) in
  StronglySorted before (color_counts b) /\
  (forall c, In c (color_counts b) ->
     In (rgba_hex c) V /\ count c = Z.of_nat (count_occ string_dec V (rgba_hex c))) /\
  (forall k, In k V -> exists c, In c (color_counts b) /\ rgba_hex c = k) /\
  (forall V', Permutation V V' ->
     map (fun c => (rgba_hex c, count c)) (color_counts b)
     = sorted count_key_le (histogram V')).
Proof.
  intros Hrow Hb V.
  apply scan_row_blocks_spec in Hrow.
  destruct Hrow as (fx & ay & _ & _ & _ & Hok & _).
  rewrite Forall_forall in Hok. specialize (Hok b Hb).
  destruct (block_ok_color_counts im thr bs fx ay b Hok) as (H1 & H2 & H3).
  repeat split; auto.
  - apply H2; assumption.
  - apply H2; assumption.
  - intros V' Hp. destruct Hok as (_ & _ & _ & _ & Hcc & _).
    rewrite Hcc. apply sorted_histogram_perm. exact Hp.
Qed.

(** C7 on [red_blue_tie]: two colours with two pixels each, blue first. *)
Lemma C7_witness :
  exists row b,
    scan_row_blocks red_blue_tie 0 2 128 = Some row /\
    blocks row = [b] /\
    map (fun c => (rgba_hex c, count c)) (color_counts b)
    = [("#0000FFFF"%string, 2); ("#FF0000FF"%string, 2)] /\
    let V := visible_colors red_blue_tie 128 2 (origin b) in
    StronglySorted before (color_counts b) /\
    (forall c, In c (color_counts b) ->
       In (rgba_hex c) V /\ count c = Z.of_nat (count_occ string_dec V (rgba_hex c))) /\
    (forall k, In k V -> exists c, In c (color_counts b) /\ rgba_hex c = k) /\
    (forall V', Permutation V V' ->
       map (fun c => (rgba_hex c, count c)) (color_counts b)
       = sorted count_key_le (histogram V')).
Proof.
  eexists. eexists. split; [vm_compute; reflexivity|].
  split; [reflexivity|]. split; [reflexivity|].
  eapply (C7_color_counts_order red_blue_tie 0 2 128).
  - vm_compute. reflexivity.
  - left. reflexivity.
Defined.

(** ** C8: a fully transparent image *)

(** C8. On an image whose pixels all have alpha 0, with any threshold of
    at least 1, each of the four boundary scanners returns [None], and
    [main] (whatever the block size, the fuel and the state of the output
    path) ends with exit code 2 and the message "No visible pixels found",
    writing no document. *)
Theorem C8_transparent_image_is_empty_content (im : Image) (thr : Z) :
  fully_transparent im -> 1 <= thr ->
  find_first_nontransparent_pixel im thr = None /\
  find_last_nontransparent_pixel im thr = None /\
  find_leftmost_nontransparent_pixel im thr = None /\
  find_rightmost_nontransparent_pixel im thr = None /\
  forall fuel bs writable quiet out,
    main fuel (mkArgs (Readable im) bs writable quiet out)
    = Some (Failed 2 No_visible_pixels_found).
Proof.
  intros Ht Hthr.
  assert (H1 : find_first_nontransparent_pixel im 128 = None).
  { unfold find_first_nontransparent_pixel.
    apply first_some_None. intros y Hy. apply first_some_None. intros x Hx.
    apply in_range in Hx, Hy. apply transparent_pixel_skipped; auto. lia. }
  repeat split.
  - unfold find_first_nontransparent_pixel.
    apply first_some_None. intros y Hy. apply first_some_None. intros x Hx.
    apply in_range in Hx, Hy. now apply transparent_pixel_skipped.
  - unfold find_last_nontransparent_pixel.
    apply first_some_None. intros y Hy. apply first_some_None. intros x Hx.
    apply in_range_down in Hx, Hy. now apply transparent_pixel_skipped.
  - unfold find_leftmost_nontransparent_pixel.
    apply first_some_None. intros x Hx. apply first_some_None. intros y Hy.
    apply in_range in Hx, Hy. now apply transparent_pixel_skipped.
  - unfold find_rightmost_nontransparent_pixel.
    apply first_some_None. intros x Hx. apply first_some_None. intros y Hy.
    apply in_range_down in Hx. apply in_range in Hy. now apply transparent_pixel_skipped.
  - intros fuel bs writable. unfold main. simpl. rewrite H1. reflexivity.
Qed.

(** C8 on [transparent_2x2] with threshold 1. *)
Lemma C8_witness :
  find_first_nontransparent_pixel transparent_2x2 1 = None /\
  find_last_nontransparent_pixel transparent_2x2 1 = None /\
  find_leftmost_nontransparent_pixel transparent_2x2 1 = None /\
  find_rightmost_nontransparent_pixel transparent_2x2 1 = None /\
  forall fuel bs writable quiet out,
    main fuel (mkArgs (Readable transparent_2x2) bs writable quiet out)
    = Some (Failed 2 No_visible_pixels_found).
Proof.
  apply (C8_transparent_image_is_empty_content transparent_2x2 1).
  - intros x y _ _. reflexivity.
  - lia.
Defined.

(** ** C9: rectangles and grid cells *)

(** C9, refuted as stated: on [drifting_rows] with block size 2 the
    strip of line 0 gives no row, the rows anchored on lines 3 and 4 both
    map to grid row [(3 - 3) div 2 = (4 - 3) div 2 = 0], and the document
    holds two rectangles at cell (0, 0). *)
Lemma C9_two_rectangles_in_one_cell :
  main 4 (mkArgs (Readable drifting_rows) 2 true false true)
    = Some (Written 0 (mkSvg 1 2 [mkRect 0 0 "#FF0000" 10000;
                                 mkRect 0 0 "#0000FF" 10000])) /\
  ~ one_rectangle_per_cell.
Proof.
  assert (Hmain : main 4 (mkArgs (Readable drifting_rows) 2 true false true)
                  = Some (Written 0 (mkSvg 1 2 [mkRect 0 0 "#FF0000" 10000;
                                               mkRect 0 0 "#0000FF" 10000])))
    by (vm_compute; reflexivity).
  split; [exact Hmain|].
  intros H. destruct (H _ _ _ _ Hmain) as [_ Hnd].
  simpl in Hnd. inversion Hnd as [|? ? Hnotin _]. apply Hnotin. left. reflexivity.
Qed.

(** The rectangles of one row lie on one grid row, in strictly
    increasing grid columns. *)
Lemma row_rects_sorted (im : Image) (thr bs cy left_ref top_ref : Z) (row : Row) :
  0 <= cy ->
  scan_row_blocks im cy bs thr = Some row ->
  StronglySorted right_of (row_rects bs left_ref top_ref row).
Proof.
  intros Hcy Hrow.
  destruct (row_facts im thr bs cy row Hcy Hrow)
    as (fx & ay & _ & _ & _ & _ & _ & _ & _ & _ & Hidx).
  unfold row_rects.
  apply (flat_map_strongly_sorted _ index_lt); [exact Hidx| |].
  - intros b _. unfold block_rect. destruct (color_counts b); repeat constructor.
  - intros b1 b2 r1 r2 Hb1 Hb2 Hlt Hr1 Hr2.
    destruct (rect_in_row im thr bs cy left_ref top_ref row b1 r1 Hcy Hrow Hb1 Hr1)
      as [Hx1 Hy1].
    destruct (rect_in_row im thr bs cy left_ref top_ref row b2 r2 Hcy Hrow Hb2 Hr2)
      as [Hx2 Hy2].
    unfold right_of, index_lt in *. split; lia.
Qed.

(** C9, amended. Every rectangle written by [main] lies inside the
    declared canvas.  In every run the rectangles come row by row, each
    row of the scan coming from a strip that starts [k] block sizes
    below the line of the first visible pixel and not below the last
    visible line ([k >= 0]); the rectangles of one row lie on one grid
    row, in strictly increasing grid columns, so two rectangles of one
    row never share a cell.  When the strip of the first visible pixel
    gives a row, the row scanned at strip [k] maps to grid row [k], and
    the rectangles come out in strictly increasing order, row by row
    and left to right, so that no two of them occupy the same cell. *)
Theorem C9_rectangles_in_canvas (fuel : nat) (im : Image) (bs : Z)
  (writable quiet out : bool) (code : Z) (svg : Svg) :
  main fuel (mkArgs (Readable im) bs writable quiet out) = Some (Written code svg) ->
  Forall (in_canvas svg) (rects svg) /\
  (forall x0 y0,
     find_first_nontransparent_pixel im 128 = Some (x0, y0) ->
     scan_row_blocks im y0 bs 128 <> None ->
     StronglySorted cell_lt (rects svg) /\ NoDup (map cell (rects svg))) /\
  exists x0 y0 x1 y1 left_ref top_ref rows,
    find_first_nontransparent_pixel im 128 = Some (x0, y0) /\
    find_last_nontransparent_pixel im 128 = Some (x1, y1) /\
    scan_all_rows fuel im bs 128 y1 y0 = Some rows /\
    rects svg = flat_map (row_rects bs left_ref top_ref) rows /\
    Forall (fun row => StronglySorted right_of (row_rects bs left_ref top_ref row)) rows /\
    (forall row, In row rows ->
       exists k, 0 <= k /\ y0 + k * bs <= y1 /\
                 scan_row_blocks im (y0 + k * bs) bs 128 = Some row) /\
    (scan_row_blocks im y0 bs 128 <> None ->
     forall k row, 0 <= k ->
       scan_row_blocks im (y0 + k * bs) bs 128 = Some row ->
       Forall (fun r => rect_y r = k) (row_rects bs left_ref top_ref row)).
Proof.
  intros Hmain. apply main_written in Hmain. destruct Hmain as [_ Hasm].
  destruct (assembled_rects _ _ _ Hasm) as [Hin Hsorted].
  split; [exact Hin|]. split.
  { intros x0 y0 Hfirst Hkept.
    assert (Hs : StronglySorted cell_lt (rects svg)).
    { apply Hsorted. exists im, x0, y0. simpl. auto. }
    split; [exact Hs|]. apply cell_lt_NoDup. exact Hs. }
  clear Hin Hsorted.
  destruct Hasm as [im' [x0 y0] [x1 y1] [lx ly] [rx ry] row0 rest block0 bl0
                      Him H1 H2 H3 H4 H5 H6 Hsvg].
  cbn [fst snd block_size image] in Him, H5, Hsvg. injection Him as <-.
  pose proof (grid_bs _ _ _ _ _ _ _ H5) as Hbs.
  pose proof (grid_y0 _ _ _ _ _ H1 H2) as Hy0.
  destruct (scan_all_rows_spec im bs 128 y1 fuel y0 _ H5) as [Hrows _].
  exists x0, y0, x1, y1, lx, (snd (origin block0)), (row0 :: rest).
  split; [exact H1|]. split; [exact H2|]. split; [exact H5|].
  split; [subst svg; reflexivity|].
  assert (Hstrip : forall row, In row (row0 :: rest) ->
            exists k, 0 <= k /\ y0 + k * bs <= y1 /\
                      scan_row_blocks im (y0 + k * bs) bs 128 = Some row).
  { intros row Hrow.
    pose proof (scan_all_rows_closed_form im bs 128 y1 fuel Hbs y0 _ H5) as Hcf.
    unfold rows_of_strips in Hcf.
    replace (y0 <=? y1) with true in Hcf by (symmetry; apply Z.leb_le; lia).
    rewrite Hcf in Hrow. apply in_flat_map in Hrow. destruct Hrow as (k & Hk & Hrow).
    apply in_range in Hk. exists k.
    assert (Hmul : bs * ((y1 - y0) / bs) <= y1 - y0) by (apply Z.mul_div_le; lia).
    split; [lia|]. split; [nia|].
    destruct (scan_row_blocks im (y0 + k * bs) bs 128) as [row'|];
      [|contradiction].
    destruct Hrow as [->|[]]. reflexivity. }
  split.
  { apply Forall_forall. intros row Hrow.
    destruct (Hstrip row Hrow) as (k & Hk & _ & Hscan).
    apply (row_rects_sorted im 128 bs (y0 + k * bs) _ _ row); [nia|exact Hscan]. }
  split; [exact Hstrip|].
  intros Hkept k row Hk Hscan.
  rewrite (grid_first_strip_kept _ _ _ _ _ _ _ _ _ _ _ H1 H2 H5 H6 Hkept).
  apply Forall_forall. intros r Hr. unfold row_rects in Hr.
  apply in_flat_map in Hr. destruct Hr as (b & Hb & Hr).
  assert (Hcy : 0 <= y0 + k * bs) by nia.
  destruct (rect_in_row im 128 bs (y0 + k * bs) lx y0 row b r Hcy Hscan Hb Hr) as [_ Hy].
  destruct (row_facts im 128 bs (y0 + k * bs) row Hcy Hscan)
    as (fx & ay & Hfp & _ & Hay & _).
  rewrite Hy, Hfp. cbn [snd]. apply div_in_strip; [exact Hbs|lia].
Qed.

(** C9 on [two_tiles] with block size 2: one row of two rectangles. *)
Lemma C9_witness :
  Forall (in_canvas two_tiles_svg) (rects two_tiles_svg) /\
  StronglySorted cell_lt (rects two_tiles_svg) /\
  NoDup (map cell (rects two_tiles_svg)) /\
  exists left_ref top_ref rows row,
    rects two_tiles_svg = flat_map (row_rects 2 left_ref top_ref) rows /\
    Forall (fun row => StronglySorted right_of (row_rects 2 left_ref top_ref row)) rows /\
    scan_row_blocks two_tiles 0 2 128 = Some row /\
    Forall (fun r => rect_y r = 0) (row_rects 2 left_ref top_ref row).
Proof.
  destruct (C9_rectangles_in_canvas 3 two_tiles 2 true false true 0 two_tiles_svg)
    as (H1 & H2 & x0 & y0 & x1 & y1 & left_ref & top_ref & rows
        & Hf & Hl & Hrows & Hrects & Hsorted & _ & Hk).
  - vm_compute. reflexivity.
  - assert (Hfirst : find_first_nontransparent_pixel two_tiles 128 = Some (0, 0))
      by (vm_compute; reflexivity).
    assert (Hkept : scan_row_blocks two_tiles 0 2 128 <> None)
      by (vm_compute; discriminate).
    rewrite Hfirst in Hf. injection Hf as <- <-.
    split; [exact H1|].
    destruct (H2 0 0 Hfirst Hkept) as [Hs Hnd].
    split; [exact Hs|]. split; [exact Hnd|].
    destruct (scan_row_blocks two_tiles 0 2 128) as [row|] eqn:Erow; [|contradiction].
    exists left_ref, top_ref, rows, row.
    split; [exact Hrects|]. split; [exact Hsorted|]. split; [reflexivity|].
    apply (Hk Hkept 0 row); [lia|exact Erow].
Defined.

(** ** C10: rectangles with an unusual [fill] *)




(** * Further properties of the code *)

(** ** The boundary scanners: completeness and the second coordinate *)

Section ScannerExtremes.

Variable im : Image.
Variable thr : Z.

Lemma find_first_exists (x y : Z) :
  visible_at im thr x y -> find_first_nontransparent_pixel im thr <> None.
Proof.
  intros Hv H. unfold find_first_nontransparent_pixel in H.
  rewrite first_some_None in H.
  destruct Hv as (Hx & Hy & Ha).
  specialize (H y (proj2 (in_range _ _) Hy)).
  rewrite first_some_None in H.
  specialize (H x (proj2 (in_range _ _) Hx)).
  revert H. apply alpha_test_visible. unfold visible_at. auto.
Qed.

Lemma find_last_exists (x y : Z) :
  visible_at im thr x y -> find_last_nontransparent_pixel im thr <> None.
Proof.
  intros Hv H. unfold find_last_nontransparent_pixel in H.
  rewrite first_some_None in H.
  destruct Hv as (Hx & Hy & Ha).
  specialize (H y (proj2 (in_range_down _ _) Hy)).
  rewrite first_some_None in H.
  specialize (H x (proj2 (in_range_down _ _) Hx)).
  revert H. apply alpha_test_visible. unfold visible_at. auto.
Qed.

(** On its line, the pixel [find_last_nontransparent_pixel] returns is
    the rightmost visible one. *)
Lemma find_last_on_line (x0 y0 : Z) :
  find_last_nontransparent_pixel im thr = Some (x0, y0) ->
  forall x, visible_at im thr x y0 -> x <= x0.
Proof.
  unfold find_last_nontransparent_pixel. intros H.
  apply first_some_range_down in H. destruct H as (y & Hy & H & _).
  apply first_some_range_down in H. destruct H as (x & Hx & H & Hright).
  apply alpha_test_Some in H. destruct H as [[= <- <-] Ha].
  intros x' (Hx' & _ & Ha').
  destruct (Z_lt_le_dec x x') as [Hlt|]; [|assumption].
  assert (Hc := Hright x' ltac:(lia)). apply alpha_test_None in Hc. lia.
Qed.

(** In their column, the pixels the two column scanners return are the
    topmost visible ones. *)
Lemma find_leftmost_in_column (x0 y0 : Z) :
  find_leftmost_nontransparent_pixel im thr = Some (x0, y0) ->
  forall y, visible_at im thr x0 y -> y0 <= y.
Proof.
  unfold find_leftmost_nontransparent_pixel. intros H.
  apply first_some_range in H. destruct H as (x & Hx & H & _).
  apply first_some_range in H. destruct H as (y & Hy & H & Habove).
  apply alpha_test_Some in H. destruct H as [[= <- <-] Ha].
  intros y' (_ & Hy' & Ha').
  destruct (Z_lt_le_dec y' y) as [Hlt|]; [|assumption].
  assert (Hc := Habove y' ltac:(lia)). apply alpha_test_None in Hc. lia.
Qed.

Lemma find_rightmost_in_column (x0 y0 : Z) :
  find_rightmost_nontransparent_pixel im thr = Some (x0, y0) ->
  forall y, visible_at im thr x0 y -> y0 <= y.
Proof.
  unfold find_rightmost_nontransparent_pixel. intros H.
  apply first_some_range_down in H. destruct H as (x & Hx & H & _).
  apply first_some_range in H. destruct H as (y & Hy & H & Habove).
  apply alpha_test_Some in H. destruct H as [[= <- <-] Ha].
  intros y' (_ & Hy' & Ha').
  destruct (Z_lt_le_dec y' y) as [Hlt|]; [|assumption].
  assert (Hc := Habove y' ltac:(lia)). apply alpha_test_None in Hc. lia.
Qed.

End ScannerExtremes.

(** X1. [find_first_nontransparent_pixel] returns the first visible pixel
    in row-major order and [find_last_nontransparent_pixel] the last one:
    the pixel returned meets the threshold, every visible pixel lies on a
    later (earlier) line or on the same line at or after (before) it, and
    [None] is returned exactly when no pixel of the image meets the
    threshold. *)
Theorem X1_first_and_last_in_row_major_order (im : Image) (thr : Z) :
  match find_first_nontransparent_pixel im thr with
  | Some (x0, y0) =>
      visible_at im thr x0 y0 /\
      forall x y, visible_at im thr x y -> y0 < y \/ (y = y0 /\ x0 <= x)
  | None => forall x y, ~ visible_at im thr x y
  end /\
  match find_last_nontransparent_pixel im thr with
  | Some (x1, y1) =>
      visible_at im thr x1 y1 /\
      forall x y, visible_at im thr x y -> y < y1 \/ (y = y1 /\ x <= x1)
  | None => forall x y, ~ visible_at im thr x y
  end.
Proof.
  split.
  - destruct (find_first_nontransparent_pixel im thr) as [[x0 y0]|] eqn:E.
    + destruct (find_first_spec im thr x0 y0 E) as (Hv & Hline & Hcol).
      split; [exact Hv|]. intros x y Hxy.
      destruct (Z.eq_dec y y0) as [->|Hne].
      * right. split; [reflexivity|]. apply Hcol. exact Hxy.
      * left. specialize (Hline x y Hxy). lia.
    + intros x y Hv. exact (find_first_exists im thr x y Hv E).
  - destruct (find_last_nontransparent_pixel im thr) as [[x1 y1]|] eqn:E.
    + destruct (find_last_spec im thr x1 y1 E) as (Hv & Hline).
      split; [exact Hv|]. intros x y Hxy.
      destruct (Z.eq_dec y y1) as [->|Hne].
      * right. split; [reflexivity|]. apply (find_last_on_line im thr x1 y1 E). exact Hxy.
      * left. specialize (Hline x y Hxy). lia.
    + intros x y Hv. exact (find_last_exists im thr x y Hv E).
Qed.

(** X2. [find_leftmost_nontransparent_pixel] and
    [find_rightmost_nontransparent_pixel] return the topmost visible pixel
    of the leftmost, respectively rightmost, column that has one: no
    visible pixel lies left (right) of it, none lies above it in its
    column, and [None] is returned exactly when no pixel meets the
    threshold. *)
Theorem X2_leftmost_and_rightmost_columns (im : Image) (thr : Z) :
  match find_leftmost_nontransparent_pixel im thr with
  | Some (x0, y0) =>
      visible_at im thr x0 y0 /\
      forall x y, visible_at im thr x y -> x0 < x \/ (x = x0 /\ y0 <= y)
  | None => forall x y, ~ visible_at im thr x y
  end /\
  match find_rightmost_nontransparent_pixel im thr with
  | Some (x1, y1) =>
      visible_at im thr x1 y1 /\
      forall x y, visible_at im thr x y -> x < x1 \/ (x = x1 /\ y1 <= y)
  | None => forall x y, ~ visible_at im thr x y
  end.
Proof.
  split.
  - destruct (find_leftmost_nontransparent_pixel im thr) as [[x0 y0]|] eqn:E.
    + destruct (find_leftmost_spec im thr x0 y0 E) as (Hv & Hcol).
      split; [exact Hv|]. intros x y Hxy.
      destruct (Z.eq_dec x x0) as [->|Hne].
      * right. split; [reflexivity|]. apply (find_leftmost_in_column im thr x0 y0 E). exact Hxy.
      * left. specialize (Hcol x y Hxy). lia.
    + intros x y Hv. exact (find_leftmost_exists im thr x y Hv E).
  - destruct (find_rightmost_nontransparent_pixel im thr) as [[x1 y1]|] eqn:E.
    + destruct (find_rightmost_spec im thr x1 y1 E) as (Hv & Hcol).
      split; [exact Hv|]. intros x y Hxy.
      destruct (Z.eq_dec x x1) as [->|Hne].
      * right. split; [reflexivity|]. apply (find_rightmost_in_column im thr x1 y1 E). exact Hxy.
      * left. specialize (Hcol x y Hxy). lia.
    + intros x y Hv. exact (find_rightmost_exists im thr x y Hv E).
Qed.

(** X3. As soon as one scanner finds a pixel all four do, and their
    results span the bounding box of the visible pixels: every visible
    pixel has its column between the leftmost and the rightmost result
    and its line between the first and the last result. *)
Theorem X3_scanners_span_the_bounding_box (im : Image) (thr x0 y0 : Z) :
  find_first_nontransparent_pixel im thr = Some (x0, y0) ->
  exists x1 y1 xa ya xb yb,
    find_last_nontransparent_pixel im thr = Some (x1, y1) /\
    find_leftmost_nontransparent_pixel im thr = Some (xa, ya) /\
    find_rightmost_nontransparent_pixel im thr = Some (xb, yb) /\
    (forall x y, visible_at im thr x y -> xa <= x <= xb /\ y0 <= y <= y1) /\
    0 <= xa <= xb /\ xb < im_w im /\ 0 <= y0 <= y1 /\ y1 < im_h im.
Proof.
  intros E0. destruct (find_first_spec im thr x0 y0 E0) as (Hv & Htop & _).
  destruct (find_last_nontransparent_pixel im thr) as [[x1 y1]|] eqn:E1;
    [|destruct (find_last_exists im thr x0 y0 Hv E1)].
  destruct (find_leftmost_nontransparent_pixel im thr) as [[xa ya]|] eqn:Ea;
    [|destruct (find_leftmost_exists im thr x0 y0 Hv Ea)].
  destruct (find_rightmost_nontransparent_pixel im thr) as [[xb yb]|] eqn:Eb;
    [|destruct (find_rightmost_exists im thr x0 y0 Hv Eb)].
  destruct (find_last_spec im thr x1 y1 E1) as (Hv1 & Hbot).
  destruct (find_leftmost_spec im thr xa ya Ea) as (Hva & Hleft).
  destruct (find_rightmost_spec im thr xb yb Eb) as (Hvb & Hright).
  exists x1, y1, xa, ya, xb, yb.
  repeat (split; [reflexivity|]).
  split.
  - intros x y Hxy.
    specialize (Htop x y Hxy). specialize (Hbot x y Hxy).
    specialize (Hleft x y Hxy). specialize (Hright x y Hxy). lia.
  - specialize (Hright xa ya Hva). specialize (Hbot x0 y0 Hv).
    destruct Hv as (? & ? & _), Hv1 as (? & ? & _), Hva as (? & ? & _), Hvb as (? & ? & _).
    lia.
Qed.

(** X3 on the green square. *)
Lemma X3_witness :
  exists x1 y1 xa ya xb yb,
    find_last_nontransparent_pixel green_square 128 = Some (x1, y1) /\
    find_leftmost_nontransparent_pixel green_square 128 = Some (xa, ya) /\
    find_rightmost_nontransparent_pixel green_square 128 = Some (xb, yb) /\
    (forall x y, visible_at green_square 128 x y -> xa <= x <= xb /\ 8 <= y <= y1) /\
    0 <= xa <= xb /\ xb < im_w green_square /\ 0 <= 8 <= y1 /\ y1 < im_h green_square.
Proof.
  apply (X3_scanners_span_the_bounding_box green_square 128 8 8).
  vm_compute. reflexivity.
Defined.

(** X4. [main] never ends with "Could not find image boundaries": once
    the first-pixel scan has found a pixel, the last-pixel scan finds one
    too. *)
Theorem X4_image_boundaries_are_always_found (fuel : nat) (args : Args) :
  main fuel args <> Some (Failed 2 Could_not_find_image_boundaries).
Proof.
  unfold main.
  destruct (image args) as [| |im]; try discriminate.
  destruct (find_first_nontransparent_pixel im 128) as [[x y]|] eqn:E1; [|discriminate].
  destruct (find_first_spec im 128 x y E1) as (Hv & _).
  destruct (find_last_nontransparent_pixel im 128) as [[xl last_y]|] eqn:E2;
    [|destruct (find_last_exists im 128 x y Hv E2)].
  destruct (scan_all_rows fuel im (block_size args) 128 last_y y) as [[|row0 rest]|];
    try discriminate.
  destruct (blocks row0); [discriminate|].
  destruct (find_rightmost_nontransparent_pixel im 128) as [[rx ry]|]; [|discriminate].
  destruct (svg_out_writable args); discriminate.
Qed.

(** ** Termination of [main], and the block sizes for which it never returns *)

Lemma main_fuel_le (fuel fuel' : nat) (args : Args) (o : Outcome) :
  (fuel <= fuel')%nat -> main fuel args = Some o -> main fuel' args = Some o.
Proof.
  induction 1 as [|fuel' _ IH]; intros H; [exact H|].
  apply main_more_fuel. apply IH. exact H.
Qed.

(** With a block size of zero or less the row loop never gets past
    [last_y]. *)
Lemma scan_all_rows_never_ends (im : Image) (bs thr last_y : Z) (fuel : nat) :
  bs <= 0 ->
  forall cy, cy <= last_y -> scan_all_rows fuel im bs thr last_y cy = None.
Proof.
  intros Hbs. induction fuel as [|fuel IH]; intros cy Hcy; [reflexivity|].
  cbn [scan_all_rows].
  replace (cy <=? last_y) with true by (symmetry; apply Z.leb_le; exact Hcy).
  rewrite IH by lia. reflexivity.
Qed.

(** X5. With a block size of at least 1, [main] returns: there is one
    outcome that every run ends with, once the row loop is given more
    turns than the image has lines plus one. *)
Theorem X5_main_terminates (args : Args) :
  1 <= block_size args ->
  exists o, forall fuel,
    (forall im, image args = Readable im -> im_h im + 1 < Z.of_nat fuel) ->
    main fuel args = Some o.
Proof.
  intros Hbs.
  set (fuel0 := match image args with
                | Readable im => Z.to_nat (Z.max 0 (im_h im + 2))
                | _ => O
                end).
  assert (H0 : forall im, image args = Readable im -> im_h im + 1 < Z.of_nat fuel0).
  { intros im E. unfold fuel0. rewrite E. lia. }
  pose proof (main_terminates fuel0 args Hbs H0) as Hsome.
  destruct (main fuel0 args) as [o|] eqn:E0; [|contradiction].
  exists o. intros fuel Hfuel.
  pose proof (main_terminates fuel args Hbs Hfuel) as Hsome'.
  destruct (main fuel args) as [o'|] eqn:E; [|contradiction].
  destruct (Nat.le_ge_cases fuel fuel0) as [Hle|Hle].
  - pose proof (main_fuel_le _ _ _ _ Hle E) as E'. congruence.
  - pose proof (main_fuel_le _ _ _ _ Hle E0) as E'. congruence.
Qed.

(** X5 on the green square with block size 16. *)
Lemma X5_witness :
  exists o, forall fuel,
    (forall im, image (mkArgs (Readable green_square) 16 true false true) = Readable im ->
                im_h im + 1 < Z.of_nat fuel) ->
    main fuel (mkArgs (Readable green_square) 16 true false true) = Some o.
Proof.
  apply (X5_main_terminates (mkArgs (Readable green_square) 16 true false true)).
  simpl. lia.
Defined.

(** X6. With a block size of zero or less, [main] never returns on an
    image that has a visible pixel: [scan_row_blocks] finds no row, the
    line counter does not grow, and the row loop runs for ever. *)
Theorem X6_main_loops_on_nonpositive_block_size (im : Image) (bs : Z)
  (writable quiet out : bool) (x y : Z) :
  bs <= 0 -> visible_at im 128 x y ->
  forall fuel, main fuel (mkArgs (Readable im) bs writable quiet out) = None.
Proof.
  intros Hbs Hv fuel. unfold main. cbn [image block_size].
  destruct (find_first_nontransparent_pixel im 128) as [[x0 y0]|] eqn:E1;
    [|destruct (find_first_exists im 128 x y Hv E1)].
  destruct (find_last_nontransparent_pixel im 128) as [[x1 y1]|] eqn:E2;
    [|destruct (find_last_exists im 128 x y Hv E2)].
  destruct (find_first_spec im 128 x0 y0 E1) as (Hv0 & _).
  destruct (find_last_spec im 128 x1 y1 E2) as (_ & Hbot).
  specialize (Hbot x0 y0 Hv0).
  rewrite (scan_all_rows_never_ends im bs 128 y1 fuel Hbs y0 Hbot). reflexivity.
Qed.

(** X6 on the green square with block size 0. *)
Lemma X6_witness :
  visible_at green_square 128 8 8 /\
  forall fuel, main fuel (mkArgs (Readable green_square) 0 true false true) = None.
Proof.
  assert (Hv : visible_at green_square 128 8 8)
    by (unfold visible_at; vm_compute; intuition discriminate).
  split; [exact Hv|].
  apply (X6_main_loops_on_nonpositive_block_size green_square 0 true false true 8 8);
    [lia|exact Hv].
Defined.

(** ** The row scanner: sizes of a tile *)

Lemma scan_pixel_sizes (im : Image) (thr ox sy dx : Z) (acc : BlockAcc) (flag : bool) :
  (ox + dx >=? im_w im) = false ->
  exists acc',
    scan_pixel im thr ox sy dx (acc, flag) = Some (acc', true) /\
    visible acc' + skipped acc' = visible acc + skipped acc + 1 /\
    skipped acc <= skipped acc' /\
    actual_w acc' = Z.max (actual_w acc) (dx + 1) /\
    actual_h acc' = actual_h acc.
Proof.
  intros Hin. unfold scan_pixel. rewrite Hin.
  destruct (px im (ox + dx) sy) as [[[rC gC] bC] aC].
  destruct (aC >=? thr); eexists; (split; [reflexivity|]); cbn; lia.
Qed.

(** The pixel loop of one line, started at column offset [s] for [k]
    turns: it visits [m] pixels, up to the right edge of the image. *)
Lemma inner_loop_sizes (im : Image) (thr ox sy : Z) (k : nat) :
  forall (s : nat) (acc : BlockAcc) (flag : bool),
    let m := Z.max 0 (Z.min (Z.of_nat k) (im_w im - ox - Z.of_nat s)) in
    exists acc' flag',
      for_each (map Z.of_nat (seq s k)) (scan_pixel im thr ox sy) (acc, flag) = (acc', flag') /\
      visible acc' + skipped acc' = visible acc + skipped acc + m /\
      skipped acc <= skipped acc' /\
      actual_h acc' = actual_h acc /\
      (m = 0 -> flag' = flag /\ actual_w acc' = actual_w acc) /\
      (0 < m -> flag' = true /\ actual_w acc' = Z.max (actual_w acc) (Z.of_nat s + m)).
Proof.
  induction k as [|k IH]; intros s acc flag m.
  - exists acc, flag. subst m. cbn [seq map for_each]. repeat split; lia.
  - cbn [seq map for_each].
    destruct (ox + Z.of_nat s >=? im_w im) eqn:Eout.
    + assert (Hm : m = 0) by (subst m; apply Z.geb_le in Eout; lia).
      exists acc, flag. unfold scan_pixel. rewrite Eout. repeat split; lia.
    + destruct (scan_pixel_sizes im thr ox sy (Z.of_nat s) acc flag Eout)
        as (acc1 & E1 & Hvs & Hsk & Hw & Hh).
      rewrite E1.
      destruct (IH (S s) acc1 true) as (acc' & flag' & E & Hvs' & Hsk' & Hh' & Hz & Hp).
      exists acc', flag'. split; [exact E|].
      rewrite Z.geb_leb in Eout. apply Z.leb_gt in Eout.
      set (m' := Z.max 0 (Z.min (Z.of_nat k) (im_w im - ox - Z.of_nat (S s)))) in *.
      assert (Hm : m = 1 + m') by (subst m m'; lia).
      split; [lia|]. split; [lia|]. split; [lia|]. split; [lia|].
      intros _. destruct (Z.eq_dec m' 0) as [E0|E0].
      * destruct (Hz E0) as [-> ->]. split; [reflexivity|]. lia.
      * destruct (Hp ltac:(lia)) as [-> ->]. split; [reflexivity|]. lia.
Qed.

(** The line loop, started at line offset [s] for [k] turns: it visits
    [n] lines of [W] pixels each. *)
Lemma outer_loop_sizes (im : Image) (thr bs ox oy : Z) (k : nat) :
  forall (s : nat) (acc : BlockAcc),
    let W := Z.max 0 (Z.min bs (im_w im - ox)) in
    let n := Z.max 0 (Z.min (Z.of_nat k) (im_h im - oy - Z.of_nat s)) in
    let acc' := for_each (map Z.of_nat (seq s k)) (scan_pixel_row im thr bs ox oy) acc in
    visible acc' + skipped acc' = visible acc + skipped acc + n * W /\
    skipped acc <= skipped acc' /\
    (W = 0 \/ n = 0 -> actual_w acc' = actual_w acc /\ actual_h acc' = actual_h acc) /\
    (0 < W -> 0 < n ->
     actual_w acc' = Z.max (actual_w acc) W /\ actual_h acc' = actual_h acc + n).
Proof.
  induction k as [|k IH]; intros s acc W n acc'.
  - subst acc' n. cbn [seq map for_each]. repeat split; lia.
  - destruct (oy + Z.of_nat s >=? im_h im) eqn:Eout.
    + assert (Hn : n = 0) by (subst n; apply Z.geb_le in Eout; lia).
      assert (E : acc' = acc).
      { subst acc'. cbn [seq map for_each]. unfold scan_pixel_row. rewrite Eout. reflexivity. }
      clearbody acc'. rewrite E, Hn. repeat split; lia.
    + destruct (inner_loop_sizes im thr ox (oy + Z.of_nat s) (Z.to_nat bs) 0 acc false)
        as (acc1 & flag1 & E1 & Hvs & Hsk & Hh & Hz & Hp).
      fold (range bs) in E1.
      set (m := Z.max 0 (Z.min (Z.of_nat (Z.to_nat bs)) (im_w im - ox - Z.of_nat 0))) in *.
      assert (HmW : m = W) by (subst m W; lia).
      set (acc2 := if flag1
                   then mkAcc (blk_pixels acc1) (blk_color_counts acc1) (visible acc1)
                              (skipped acc1) (actual_w acc1) (actual_h acc1 + 1)
                   else acc1).
      assert (E : acc' = for_each (map Z.of_nat (seq (S s) k))
                                  (scan_pixel_row im thr bs ox oy) acc2).
      { subst acc'. cbn [seq map for_each]. unfold scan_pixel_row at 1.
        rewrite Eout, E1. reflexivity. }
      clearbody acc'.
      rewrite Z.geb_leb in Eout. apply Z.leb_gt in Eout.
      specialize (IH (S s) acc2). cbv zeta in IH. rewrite <- E in IH.
      change (Z.max 0 (Z.min bs (im_w im - ox))) with W in IH.
      set (n' := Z.max 0 (Z.min (Z.of_nat k) (im_h im - oy - Z.of_nat (S s)))) in *.
      assert (Hn : n = 1 + n' /\ 0 <= n') by (clear - Eout; subst n n'; lia).
      destruct Hn as [Hn Hn'].
      clearbody W n n' m. clear Eout.
      destruct IH as (Hvs' & Hsk' & Hz' & Hp').
      assert (Hvs2 : visible acc2 + skipped acc2 = visible acc1 + skipped acc1)
        by (subst acc2; destruct flag1; reflexivity).
      assert (Hw2 : actual_w acc2 = actual_w acc1)
        by (subst acc2; destruct flag1; reflexivity).
      assert (Hsk2 : skipped acc2 = skipped acc1)
        by (subst acc2; destruct flag1; reflexivity).
      split.
      { rewrite Hvs', Hvs2, Hvs, HmW, Hn. lia. }
      split; [lia|]. split.
      * intros [HW|Hn0]; [|lia].
        destruct (Hz ltac:(lia)) as [Hf Hw1].
        assert (Hh2 : actual_h acc2 = actual_h acc1) by (subst acc2; rewrite Hf; reflexivity).
        destruct (Hz' (or_introl HW)) as [Ha Hb]. split; congruence.
      * intros HW _. destruct (Hp ltac:(lia)) as [Hf Hw1].
        assert (Hh2 : actual_h acc2 = actual_h acc + 1)
          by (subst acc2; rewrite Hf; cbn; lia).
        destruct (Z.eq_dec n' 0) as [E0|E0].
        -- destruct (Hz' (or_intror E0)) as [Ha Hb]. split; lia.
        -- destruct (Hp' HW ltac:(lia)) as [Ha Hb]. split; lia.
Qed.

(** A tile whose origin lies inside the image: the size recorded is the
    tile clipped to the image, and every pixel of it is counted once, as
    visible or as skipped. *)
Lemma collect_block_sizes (im : Image) (thr bs ox oy : Z) :
  1 <= bs -> ox < im_w im -> oy < im_h im ->
  let acc := collect_block_pixels im thr bs ox oy in
  actual_w acc = Z.min bs (im_w im - ox) /\
  actual_h acc = Z.min bs (im_h im - oy) /\
  visible acc + skipped acc = actual_w acc * actual_h acc /\
  0 <= skipped acc.
Proof.
  intros Hbs Hox Hoy acc.
  pose proof (outer_loop_sizes im thr bs ox oy (Z.to_nat bs) 0 acc0) as H.
  cbv zeta in H. fold (range bs) in H.
  fold (collect_block_pixels im thr bs ox oy) in H. fold acc in H.
  destruct H as (Hvs & Hsk & _ & Hp).
  destruct Hp as [Hw Hh]; [lia|lia|].
  cbn [acc0 visible skipped actual_w actual_h] in *.
  rewrite Hw, Hh. split; [lia|]. split; [lia|]. split; [rewrite Hvs; nia|exact Hsk].
Qed.

(** ** The row scanner: where the blocks of a row come from *)

(** A block that [scan_block] appends, field by field. *)
Lemma scan_block_fields (im : Image) (thr bs fx ay bi : Z) (b : Block) :
  scan_block im thr bs fx ay bi = Some [b] ->
  let acc := collect_block_pixels im thr bs (fx + bi * bs) ay in
  exists l,
    counts_list (build_color_coords thr (blk_pixels acc))
                (sorted count_key_le (blk_color_counts acc)) = Some l /\
    b = mkBlock bi (fx + bi * bs, ay) (actual_w acc, actual_h acc)
                (visible acc) (skipped acc) (Z.of_nat (List.length l)) l /\
    0 < visible acc.
Proof.
  unfold scan_block. cbv zeta.
  destruct (counts_list _ _) as [l|]; [|discriminate].
  destruct (visible _ >? 0) eqn:Epos; [|discriminate].
  intros [= <-]. exists l. apply Z.gtb_lt in Epos.
  split; [reflexivity|]. split; [reflexivity|]. lia.
Qed.

(** Every block the block loop collects was appended by the turn of its
    own index, for a tile that starts inside the image. *)
Lemma scan_blocks_members (im : Image) (thr bs fx ay : Z) (fuel : nat) :
  forall bi bl,
    0 <= bi ->
    scan_blocks fuel im thr bs fx ay bi = Some bl ->
    Forall (fun b => bi <= index b /\ fx + index b * bs < im_w im /\
                     scan_block im thr bs fx ay (index b) = Some [b]) bl.
Proof.
  induction fuel as [|fuel IH]; intros bi bl Hbi; simpl.
  - intros [= <-]. constructor.
  - destruct (fx + bi * bs >=? im_w im) eqn:Eout; [intros [= <-]; constructor|].
    rewrite Z.geb_leb in Eout. apply Z.leb_gt in Eout.
    destruct (scan_block im thr bs fx ay bi) as [b|] eqn:Eb; [|discriminate].
    destruct (scan_blocks fuel im thr bs fx ay (bi + 1)) as [rest|] eqn:Er; [|discriminate].
    intros [= <-].
    specialize (IH (bi + 1) rest ltac:(lia) Er).
    assert (Hrest : Forall (fun b => bi <= index b /\ fx + index b * bs < im_w im /\
                                     scan_block im thr bs fx ay (index b) = Some [b]) rest).
    { eapply Forall_impl; [|exact IH]. intros b' (H1 & H2 & H3). repeat split; auto. lia. }
    destruct (scan_block_spec im thr bs fx ay bi b Hbi Eb) as [->|(b0 & -> & Hi & _)]; simpl.
    + exact Hrest.
    + constructor; [|exact Hrest]. rewrite Hi. repeat split; auto. lia.
Qed.

(** The row [scan_row_blocks] returns, taken apart. *)
Lemma scan_row_blocks_inv (im : Image) (start_y bs thr : Z) (row : Row) :
  scan_row_blocks im start_y bs thr = Some row ->
  exists fx ay bl removed kept last_block,
    find_anchor im start_y bs thr = Some (fx, ay) /\
    untrimmed_blocks im start_y bs thr = Some (fx, ay, bl) /\
    bl = blocks row ++ removed /\
    Forall (fun b => sparse bs b = true) removed /\
    blocks row = kept ++ [last_block] /\
    sparse bs last_block = false /\
    row = mkRow bs (blocks row) (Z.of_nat (List.length (blocks row))) (fx, ay)
                (fst (origin last_block) + bs - 1, snd (origin last_block) + bs - 1).
Proof.
  unfold scan_row_blocks.
  destruct (untrimmed_blocks im start_y bs thr) as [[[fx ay] bl]|] eqn:Eu; [|discriminate].
  assert (Ea : find_anchor im start_y bs thr = Some (fx, ay)).
  { unfold untrimmed_blocks in Eu.
    destruct (find_anchor im start_y bs thr) as [[fx' ay']|]; [|discriminate].
    destruct (scan_blocks _ _ _ _ _ _ _); [|discriminate].
    injection Eu as -> -> _. reflexivity. }
  destruct bl as [|b0 bl0] eqn:Ebl; [discriminate|]. rewrite <- Ebl in *.
  destruct (pop_sparse_spec bs (List.length bl) bl (le_n _)) as (removed & H1 & H2 & H3).
  fold (trim_trailing bs bl) in H1, H3.
  destruct (rev (trim_trailing bs bl)) as [|last_block rl] eqn:Er; [discriminate|].
  intros [= <-]. cbn [blocks].
  assert (Ek : trim_trailing bs bl = rev rl ++ [last_block]).
  { rewrite <- (rev_involutive (trim_trailing bs bl)), Er. reflexivity. }
  exists fx, ay, bl, removed, (rev rl), last_block.
  repeat split; auto.
  apply (H3 (rev rl) last_block Ek).
Qed.

(** A tile that holds a visible pixel gives a block. *)
Lemma scan_block_of_visible_tile (im : Image) (thr bs fx ay bi x y : Z) (bl : list Block) :
  In (x, y) (footprint im bs (fx + bi * bs) ay) ->
  thr <= alpha_of (px im x y) ->
  scan_block im thr bs fx ay bi = Some bl ->
  exists b, bl = [b].
Proof.
  intros Hin Ha. unfold scan_block. cbv zeta.
  destruct (collect_block_summary im thr bs (fx + bi * bs) ay) as (_ & _ & Hv).
  destruct (counts_list _ _) as [l|]; [|discriminate].
  assert (Hpos : (visible (collect_block_pixels im thr bs (fx + bi * bs) ay) >? 0) = true).
  { apply Z.gtb_lt. rewrite Hv.
    assert (Hk : In (rgba_hex_of (px im x y))
                    (visible_colors_of im thr (footprint im bs (fx + bi * bs) ay))).
    { apply in_visible_colors_of. exists x, y. auto. }
    destruct (visible_colors_of im thr (footprint im bs (fx + bi * bs) ay));
      [destruct Hk|simpl; lia]. }
  rewrite Hpos. intros [= <-]. eexists. reflexivity.
Qed.

(** The blocks collected for a row start with the block of index 0, whose
    tile starts at the anchor. *)
Lemma untrimmed_blocks_head (im : Image) (start_y bs thr fx ay : Z) (bl : list Block) :
  0 <= start_y ->
  untrimmed_blocks im start_y bs thr = Some (fx, ay, bl) ->
  exists b0 rest, bl = b0 :: rest /\ index b0 = 0 /\ origin b0 = (fx, ay).
Proof.
  intros Hs. unfold untrimmed_blocks.
  destruct (find_anchor im start_y bs thr) as [[fx' ay']|] eqn:Ea; [|discriminate].
  destruct (scan_blocks _ _ _ _ _ _ _) as [bl'|] eqn:Eb; [|discriminate].
  intros [= -> -> ->].
  destruct (find_anchor_spec im start_y bs thr fx ay Hs Ea)
    as (Hbs & Hay & (Hx & Hy & Ha) & _).
  destruct (Z.to_nat (im_w im - fx)) as [|fuel] eqn:Ef; [lia|].
  cbn [scan_blocks] in Eb.
  replace (fx + 0 * bs >=? im_w im) with false in Eb
    by (symmetry; rewrite Z.geb_leb; apply Z.leb_gt; lia).
  destruct (scan_block im thr bs fx ay 0) as [b|] eqn:E0; [|discriminate].
  destruct (scan_blocks fuel im thr bs fx ay (0 + 1)) as [rest|]; [|discriminate].
  injection Eb as <-.
  destruct (scan_block_of_visible_tile im thr bs fx ay 0 fx ay b) as (b0 & ->); auto.
  { apply in_footprint. lia. }
  exists b0, rest. split; [reflexivity|].
  apply scan_block_fields in E0. destruct E0 as (l & _ & -> & _). cbn.
  split; [reflexivity|]. f_equal. lia.
Qed.

(** ** The row scanner: counts add up *)

Lemma dict_set_sum (d : dict Z) (k : string) (v : Z) :
  fold_right Z.add 0 (map snd (dict_set d k v))
  = fold_right Z.add 0 (map snd d) - dict_get_default d k 0 + v.
Proof.
  unfold dict_get_default.
  induction d as [|[k' v'] d IH]; simpl; [lia|].
  destruct (String.eqb k' k); simpl; lia.
Qed.

Lemma histogram_sum (colors : list string) :
  fold_right Z.add 0 (map snd (histogram colors)) = Z.of_nat (List.length colors).
Proof.
  induction colors as [|k colors IH] using rev_ind; [reflexivity|].
  rewrite histogram_snoc, dict_set_sum, IH, length_app. simpl. lia.
Qed.

Lemma sum_perm {A : Type} (f : A -> Z) (l l' : list A) :
  Permutation l l' ->
  fold_right Z.add 0 (map f l) = fold_right Z.add 0 (map f l').
Proof. induction 1; simpl; lia. Qed.

Lemma sum_of_positive (l : list Z) :
  Forall (fun v => 1 <= v) l -> Z.of_nat (List.length l) <= fold_right Z.add 0 l.
Proof. induction 1; simpl; lia. Qed.

(** The colour entries of a block: their counts are positive and add up
    to the number of visible pixels. *)
Lemma counts_of_sorted_histogram (colors : list string) (coords_of : dict (list (Z * Z)))
  (l : list ColorCount) :
  counts_list coords_of (sorted count_key_le (histogram colors)) = Some l ->
  fold_right Z.add 0 (map count l) = Z.of_nat (List.length colors) /\
  Forall (fun c => 1 <= count c) l.
Proof.
  intros H. apply counts_list_spec in H. destruct H as [Hitems _].
  assert (Hcounts : map count l = map snd (sorted count_key_le (histogram colors))).
  { rewrite <- Hitems, map_map. reflexivity. }
  split.
  - rewrite Hcounts, (sum_perm snd _ _ (sorted_perm count_key_le (histogram colors))).
    apply histogram_sum.
  - apply Forall_forall. intros c Hc.
    assert (Hin : In (rgba_hex c, count c) (sorted count_key_le (histogram colors))).
    { rewrite <- Hitems. apply (in_map (fun c => (rgba_hex c, count c))). exact Hc. }
    apply (Permutation_in _ (sorted_perm count_key_le (histogram colors))) in Hin.
    apply histogram_In in Hin. destruct Hin as [-> Hk].
    pose proof (proj1 (count_occ_In string_dec colors (rgba_hex c)) Hk). lia.
Qed.

(** ** The row scanner: every block of a row *)

(** Each block of a row was appended by the turn of its index. *)
Lemma row_block_origin (im : Image) (start_y bs thr : Z) (row : Row) (b : Block) :
  0 <= start_y ->
  scan_row_blocks im start_y bs thr = Some row ->
  In b (blocks row) ->
  exists fx ay,
    first_pixel row = (fx, ay) /\
    find_anchor im start_y bs thr = Some (fx, ay) /\
    1 <= bs /\ 0 <= fx /\ 0 <= ay < im_h im /\
    0 <= index b /\ fx + index b * bs < im_w im /\
    scan_block im thr bs fx ay (index b) = Some [b].
Proof.
  intros Hs Hrow Hb.
  destruct (scan_row_blocks_inv im start_y bs thr row Hrow)
    as (fx & ay & bl & removed & kept & last_block & Ea & Eu & Ebl & _ & _ & _ & Erow).
  destruct (find_anchor_spec im start_y bs thr fx ay Hs Ea)
    as (Hbs & Hay & (Hx & Hy & _) & _).
  unfold untrimmed_blocks in Eu. rewrite Ea in Eu.
  destruct (scan_blocks _ im thr bs fx ay 0) as [bl'|] eqn:Eb; [|discriminate].
  injection Eu as ->.
  apply scan_blocks_members in Eb; [|lia].
  rewrite Ebl in Eb. apply prefix_Forall in Eb.
  rewrite Forall_forall in Eb. destruct (Eb b Hb) as (Hi & Hw & Hscan).
  exists fx, ay. rewrite Erow. cbn [first_pixel].
  repeat split; auto; lia.
Qed.

(** X7. A row returned by [scan_row_blocks] for a start line that is
    not negative: its [first_pixel] is a visible pixel, on
    the first line of the strip [start_y .. start_y + block_size - 1] that
    has one, and the leftmost visible pixel of that line; its first block
    has index 0 and starts at [first_pixel]; every block starts at
    [first_pixel] shifted right by [index * block_size], inside the image,
    and the indices grow along the row; [total_blocks] is the number of
    blocks, and [last_pixel_visited] is the bottom-right corner of the
    tile of the last block. *)
Theorem X7_row_structure (im : Image) (start_y bs thr : Z) (row : Row) :
  0 <= start_y ->
  scan_row_blocks im start_y bs thr = Some row ->
  exists fx ay b0 rest,
    first_pixel row = (fx, ay) /\
    visible_at im thr fx ay /\
    start_y <= ay < start_y + bs /\
    (forall x y, start_y <= y < ay -> ~ visible_at im thr x y) /\
    (forall x, visible_at im thr x ay -> fx <= x) /\
    blocks row = b0 :: rest /\ index b0 = 0 /\ origin b0 = (fx, ay) /\
    Forall (fun b => 0 <= index b /\ origin b = (fx + index b * bs, ay) /\
                     fst (origin b) < im_w im) (blocks row) /\
    StronglySorted index_lt (blocks row) /\
    row_block_size row = bs /\
    total_blocks row = Z.of_nat (List.length (blocks row)) /\
    last_pixel_visited row
    = (fst (origin (last (blocks row) b0)) + bs - 1, ay + bs - 1).
Proof.
  intros Hs Hrow.
  destruct (scan_row_blocks_inv im start_y bs thr row Hrow)
    as (fx & ay & bl & removed & kept & last_block & Ea & Eu & Ebl & _ & Ekept & _ & Erow).
  destruct (find_anchor_spec im start_y bs thr fx ay Hs Ea)
    as (Hbs & Hay & Hv & Habove & Hleft).
  destruct (untrimmed_blocks_head im start_y bs thr fx ay bl Hs Eu)
    as (b0 & rest0 & Ehead & Hi0 & Ho0).
  destruct (scan_row_blocks_spec im start_y bs thr row Hrow)
    as (fx' & ay' & Ea' & _ & _ & Hok & Hsorted).
  rewrite Ea in Ea'. injection Ea' as <- <-.
  assert (Hblocks : exists rest, blocks row = b0 :: rest).
  { rewrite Ebl in Ehead. destruct (blocks row) as [|b bs'] eqn:E.
    - destruct kept; discriminate.
    - injection Ehead as -> _. eexists. reflexivity. }
  destruct Hblocks as (rest & Eblocks).
  assert (Horigins : Forall (fun b => 0 <= index b /\ origin b = (fx + index b * bs, ay) /\
                                      fst (origin b) < im_w im) (blocks row)).
  { apply Forall_forall. intros b Hb.
    destruct (row_block_origin im start_y bs thr row b Hs Hrow Hb)
      as (fx' & ay' & _ & Ea' & _ & _ & _ & Hi & Hw & _).
    rewrite Ea in Ea'. injection Ea' as <- <-.
    rewrite Forall_forall in Hok. destruct (Hok b Hb) as (_ & Ho & _).
    rewrite Ho. cbn [fst]. auto. }
  assert (Hlast : last (blocks row) b0 = last_block).
  { rewrite Ekept. apply last_last. }
  assert (Holast : snd (origin last_block) = ay).
  { rewrite Forall_forall in Horigins.
    destruct (Horigins last_block) as (_ & -> & _); [|reflexivity].
    rewrite Ekept. apply in_or_app. right. left. reflexivity. }
  assert (Hfp : first_pixel row = (fx, ay)) by (rewrite Erow; reflexivity).
  assert (Hrb : row_block_size row = bs) by (rewrite Erow; reflexivity).
  assert (Htb : total_blocks row = Z.of_nat (List.length (blocks row)))
    by (rewrite Erow; reflexivity).
  assert (Hlp : last_pixel_visited row
                = (fst (origin last_block) + bs - 1, snd (origin last_block) + bs - 1))
    by (rewrite Erow; reflexivity).
  exists fx, ay, b0, rest.
  rewrite Hlast, Hlp, Holast.
  split; [exact Hfp|]. split; [exact Hv|]. split; [exact Hay|].
  split; [exact Habove|]. split; [exact Hleft|]. split; [exact Eblocks|].
  split; [exact Hi0|]. split; [exact Ho0|]. split; [exact Horigins|].
  split; [exact Hsorted|]. split; [exact Hrb|]. split; [exact Htb|]. reflexivity.
Qed.

(** X7 on [two_tiles] with block size 2. *)
Lemma X7_witness :
  exists row fx ay b0 rest,
    scan_row_blocks two_tiles 0 2 128 = Some row /\
    first_pixel row = (fx, ay) /\
    visible_at two_tiles 128 fx ay /\
    0 <= ay < 0 + 2 /\
    (forall x y, 0 <= y < ay -> ~ visible_at two_tiles 128 x y) /\
    (forall x, visible_at two_tiles 128 x ay -> fx <= x) /\
    blocks row = b0 :: rest /\ index b0 = 0 /\ origin b0 = (fx, ay) /\
    Forall (fun b => 0 <= index b /\ origin b = (fx + index b * 2, ay) /\
                     fst (origin b) < im_w two_tiles) (blocks row) /\
    StronglySorted index_lt (blocks row) /\
    row_block_size row = 2 /\
    total_blocks row = Z.of_nat (List.length (blocks row)) /\
    last_pixel_visited row
    = (fst (origin (last (blocks row) b0)) + 2 - 1, ay + 2 - 1).
Proof.
  eexists.
  assert (E : scan_row_blocks two_tiles 0 2 128 = Some _) by (vm_compute; reflexivity).
  destruct (X7_row_structure two_tiles 0 2 128 _ ltac:(lia) E) as (fx & ay & b0 & rest & H).
  exists fx, ay, b0, rest. split; [exact E|exact H].
Defined.

(** X8. Every block of a row returned by [scan_row_blocks] for a start
    line that is not negative:
    [actual_size] is the tile clipped to the image, at least 1x1;
    [visible_pixels + skipped_pixels] is the number of pixels of the
    clipped tile; at least one pixel is visible; [unique_colors] is the
    length of [color_counts], between 1 and [visible_pixels]; every colour
    count is at least 1, and the counts add up to [visible_pixels]. *)
Theorem X8_block_accounting (im : Image) (start_y bs thr : Z) (row : Row) (b : Block) :
  0 <= start_y ->
  scan_row_blocks im start_y bs thr = Some row ->
  In b (blocks row) ->
  actual_size b = (Z.min bs (im_w im - fst (origin b)),
                   Z.min bs (im_h im - snd (origin b))) /\
  1 <= fst (actual_size b) /\ 1 <= snd (actual_size b) /\
  visible_pixels b + skipped_pixels b = fst (actual_size b) * snd (actual_size b) /\
  1 <= visible_pixels b /\ 0 <= skipped_pixels b /\
  unique_colors b = Z.of_nat (List.length (color_counts b)) /\
  1 <= unique_colors b <= visible_pixels b /\
  Forall (fun c => 1 <= count c) (color_counts b) /\
  fold_right Z.add 0 (map count (color_counts b)) = visible_pixels b.
Proof.
  intros Hs Hrow Hb.
  destruct (row_block_origin im start_y bs thr row b Hs Hrow Hb)
    as (fx & ay & _ & _ & Hbs & Hfx & Hay & Hi & Hw & Hscan).
  remember (index b) as bi eqn:Ebi. clear Ebi.
  apply scan_block_fields in Hscan. cbv zeta in Hscan.
  destruct Hscan as (l & Hl & -> & Hpos).
  cbn [actual_size origin visible_pixels skipped_pixels unique_colors color_counts fst snd].
  destruct (collect_block_sizes im thr bs (fx + bi * bs) ay Hbs Hw ltac:(lia))
    as (Haw & Hah & Hsum & Hskip).
  destruct (collect_block_summary im thr bs (fx + bi * bs) ay) as (_ & Hc & Hv).
  rewrite Hc in Hl.
  destruct (counts_of_sorted_histogram _ _ _ Hl) as (Hadd & Hone).
  rewrite <- Hv in Hadd.
  pose proof (sum_of_positive (map count l)) as Hlen.
  rewrite length_map in Hlen.
  specialize (Hlen ltac:(rewrite Forall_map; exact Hone)).
  set (acc := collect_block_pixels im thr bs (fx + bi * bs) ay) in *.
  assert (Hne : l <> []).
  { intros ->. simpl in Hadd. lia. }
  assert (1 <= Z.of_nat (List.length l)) by (destruct l; [contradiction|simpl; lia]).
  split; [rewrite Haw, Hah; reflexivity|].
  split; [lia|]. split; [lia|]. split; [exact Hsum|]. split; [lia|].
  split; [exact Hskip|]. split; [reflexivity|]. split; [lia|]. split; [exact Hone|exact Hadd].
Qed.

(** X8 on [dense_then_sparse] with block size 2. *)
Lemma X8_witness :
  exists row b,
    scan_row_blocks dense_then_sparse 0 2 128 = Some row /\
    blocks row = [b] /\
    actual_size b = (Z.min 2 (im_w dense_then_sparse - fst (origin b)),
                     Z.min 2 (im_h dense_then_sparse - snd (origin b))) /\
    1 <= fst (actual_size b) /\ 1 <= snd (actual_size b) /\
    visible_pixels b + skipped_pixels b = fst (actual_size b) * snd (actual_size b) /\
    1 <= visible_pixels b /\ 0 <= skipped_pixels b /\
    unique_colors b = Z.of_nat (List.length (color_counts b)) /\
    1 <= unique_colors b <= visible_pixels b /\
    Forall (fun c => 1 <= count c) (color_counts b) /\
    fold_right Z.add 0 (map count (color_counts b)) = visible_pixels b.
Proof.
  eexists. eexists.
  split; [vm_compute; reflexivity|]. split; [reflexivity|].
  eapply (X8_block_accounting dense_then_sparse 0 2 128).
  - lia.
  - vm_compute. reflexivity.
  - left. reflexivity.
Defined.

(** ** The row scanner: the coordinates of a colour *)

Lemma counts_list_coords (coords_of : dict (list (Z * Z))) (items : list (string * Z))
  (l : list ColorCount) :
  counts_list coords_of items = Some l ->
  Forall (fun c => coords c = dict_get_default coords_of (rgba_hex c) []) l.
Proof.
  revert l. induction items as [|[k v] items IH]; simpl; intros l.
  - intros [= <-]. constructor.
  - destruct (int16 (last2 k)) as [a|]; [|discriminate].
    destruct (counts_list coords_of items) as [rest|]; [|discriminate].
    intros [= <-]. constructor; [reflexivity|apply IH; reflexivity].
Qed.

(** The entries of [blk_color_coords], colour by colour. *)
Lemma build_color_coords_get (thr : Z) (k : string) (pixels : list PixelEntry) :
  forall d : dict (list (Z * Z)),
    dict_get_default
      (fold_left (fun d pC =>
         if e_a pC >=? thr then
           let hxC2 := rgba_hex_of (entry_rgba pC) in
           dict_set d hxC2 (dict_get_default d hxC2 [] ++ [(e_x pC, e_y pC)])
         else d) pixels d) k []
    = dict_get_default d k []
      ++ map (fun e => (e_x e, e_y e))
             (filter (fun e => (e_a e >=? thr) && String.eqb (rgba_hex_of (entry_rgba e)) k)
                     pixels).
Proof.
  induction pixels as [|e pixels IH]; intros d; cbn [fold_left filter map].
  - rewrite app_nil_r. reflexivity.
  - rewrite IH. destruct (e_a e >=? thr); cbn [andb]; [|reflexivity].
    cbv zeta. unfold dict_get_default at 1. rewrite dict_get_set.
    destruct (String.eqb (rgba_hex_of (entry_rgba e)) k) eqn:Ek.
    + apply String.eqb_eq in Ek. rewrite Ek. cbn [map]. rewrite <- app_assoc. reflexivity.
    + reflexivity.
Qed.

Lemma entry_at_fields (im : Image) (c : Z * Z) :
  e_x (entry_at im c) = fst c /\ e_y (entry_at im c) = snd c /\
  entry_rgba (entry_at im c) = px im (fst c) (snd c) /\
  e_a (entry_at im c) = alpha_of (px im (fst c) (snd c)).
Proof.
  unfold entry_at. destruct (px im (fst c) (snd c)) as [[[r g] b] a]. auto.
Qed.

Lemma color_coords_of_cells (im : Image) (thr : Z) (k : string) (cells : list (Z * Z)) :
  dict_get_default (build_color_coords thr (map (entry_at im) cells)) k []
  = pixels_of_color im thr k cells.
Proof.
  unfold build_color_coords. rewrite build_color_coords_get. cbn [dict_get_default dict_get app].
  unfold pixels_of_color.
  induction cells as [|c cells IH]; [reflexivity|]. cbn [map filter].
  destruct (entry_at_fields im c) as (Ex & Ey & Ergba & Ea).
  rewrite Ea, Ergba.
  destruct ((alpha_of (px im (fst c) (snd c)) >=? thr)
            && String.eqb (rgba_hex_of (px im (fst c) (snd c))) k); [|exact IH].
  cbn [map]. rewrite Ex, Ey, IH. destruct c. reflexivity.
Qed.

Lemma count_occ_visible_colors (im : Image) (thr : Z) (k : string) (cells : list (Z * Z)) :
  count_occ string_dec (visible_colors_of im thr cells) k
  = List.length (pixels_of_color im thr k cells).
Proof.
  unfold visible_colors_of, pixels_of_color.
  induction cells as [|c cells IH]; [reflexivity|]. cbn [filter].
  destruct (alpha_of (px im (fst c) (snd c)) >=? thr); cbn [andb map]; [|exact IH].
  destruct (String.eqb (rgba_hex_of (px im (fst c) (snd c))) k) eqn:Ek.
  - apply String.eqb_eq in Ek. rewrite count_occ_cons_eq by exact Ek.
    cbn [List.length]. rewrite IH. reflexivity.
  - apply String.eqb_neq in Ek. rewrite count_occ_cons_neq by exact Ek. exact IH.
Qed.

(** The colour entries of a block of a row. *)
Lemma row_block_color_entry (im : Image) (start_y bs thr : Z) (row : Row) (b : Block)
  (c : ColorCount) :
  0 <= start_y ->
  scan_row_blocks im start_y bs thr = Some row ->
  In b (blocks row) -> In c (color_counts b) ->
  let cells := footprint im bs (fst (origin b)) (snd (origin b)) in
  0 <= fst (origin b) /\ 0 <= snd (origin b) /\
  coords c = pixels_of_color im thr (rgba_hex c) cells /\
  count c = Z.of_nat (List.length (pixels_of_color im thr (rgba_hex c) cells)) /\
  1 <= count c /\
  rgb_hex c = substring 0 7 (rgba_hex c) /\
  int16 (last2 (rgba_hex c)) = Some (cc_a c).
Proof.
  intros Hs Hrow Hb Hc.
  destruct (row_block_origin im start_y bs thr row b Hs Hrow Hb)
    as (fx & ay & _ & _ & Hbs & Hfx & Hay & Hi & Hw & Hscan).
  remember (index b) as bi eqn:Ebi. clear Ebi.
  apply scan_block_fields in Hscan. cbv zeta in Hscan.
  destruct Hscan as (l & Hl & -> & Hpos).
  cbn [origin color_counts fst snd] in *.
  destruct (collect_block_summary im thr bs (fx + bi * bs) ay) as (Hp & Hcc & _).
  rewrite Hp, Hcc in Hl.
  pose proof (counts_list_coords _ _ _ Hl) as Hcoords.
  destruct (counts_of_sorted_histogram _ _ _ Hl) as (_ & Hone).
  destruct (counts_list_spec _ _ _ Hl) as (Hitems & Hfields).
  rewrite Forall_forall in Hcoords, Hone, Hfields.
  assert (0 <= bi * bs) by (apply Z.mul_nonneg_nonneg; lia).
  split; [lia|]. split; [lia|].
  split; [rewrite (Hcoords c Hc); apply color_coords_of_cells|].
  split.
  - assert (Hin : In (rgba_hex c, count c)
                     (sorted count_key_le
                        (histogram (visible_colors_of im thr
                                      (footprint im bs (fx + bi * bs) ay))))).
    { rewrite <- Hitems. apply (in_map (fun c => (rgba_hex c, count c))). exact Hc. }
    apply (Permutation_in _ (sorted_perm count_key_le _)) in Hin.
    apply histogram_In in Hin. destruct Hin as [-> _].
    rewrite count_occ_visible_colors. reflexivity.
  - split; [apply Hone; exact Hc|]. apply Hfields. exact Hc.
Qed.

(** X9. In every block of a row returned by [scan_row_blocks] for a
    start line that is not negative, the
    [coords] of a colour entry are the positions of the visible pixels of
    the tile that carry this colour string, in the order the tile is
    scanned (line by line, left to right), and their number is the
    entry's [count]. *)
Theorem X9_coords_of_a_color (im : Image) (start_y bs thr : Z) (row : Row) (b : Block)
  (c : ColorCount) :
  0 <= start_y ->
  scan_row_blocks im start_y bs thr = Some row ->
  In b (blocks row) -> In c (color_counts b) ->
  coords c = pixels_of_color im thr (rgba_hex c)
               (footprint im bs (fst (origin b)) (snd (origin b))) /\
  Z.of_nat (List.length (coords c)) = count c.
Proof.
  intros Hs Hrow Hb Hc.
  destruct (row_block_color_entry im start_y bs thr row b c Hs Hrow Hb Hc)
    as (_ & _ & Hcoords & Hcount & _).
  split; [exact Hcoords|]. rewrite Hcoords, Hcount. reflexivity.
Qed.

(** X9 on [red_blue_tie]: the two blue pixels, then the two red ones. *)
Lemma X9_witness :
  exists row b c1 c2,
    scan_row_blocks red_blue_tie 0 2 128 = Some row /\
    blocks row = [b] /\ color_counts b = [c1; c2] /\
    coords c1 = [(1, 0); (0, 1)] /\
    coords c1 = pixels_of_color red_blue_tie 128 (rgba_hex c1)
                  (footprint red_blue_tie 2 (fst (origin b)) (snd (origin b))) /\
    Z.of_nat (List.length (coords c1)) = count c1.
Proof.
  eexists. eexists. eexists. eexists.
  split; [vm_compute; reflexivity|]. split; [reflexivity|]. split; [reflexivity|].
  split; [reflexivity|].
  eapply (X9_coords_of_a_color red_blue_tie 0 2 128).
  - lia.
  - vm_compute. reflexivity.
  - left. reflexivity.
  - left. reflexivity.
Defined.

(** ** Colour strings name one pixel value *)

Lemma rgba_eqb_eq (p q : RGBA) : rgba_eqb p q = true <-> p = q.
Proof.
  destruct p as [[[r1 g1] b1] a1], q as [[[r2 g2] b2] a2]. unfold rgba_eqb.
  rewrite !andb_true_iff, !Z.eqb_eq. split.
  - intros [[[-> ->] ->] ->]. reflexivity.
  - intros [= -> -> -> ->]. auto.
Qed.

Lemma to_hex_inj (v1 v2 : Z) :
  byte_range v1 -> byte_range v2 -> _to_hex v1 = _to_hex v2 -> v1 = v2.
Proof.
  intros H1 H2 E. apply int16_to_hex in H1, H2. rewrite E in H1. congruence.
Qed.

Lemma rgba_hex_of_inj (p q : RGBA) :
  rgba_bytes p -> rgba_bytes q -> rgba_hex_of p = rgba_hex_of q -> p = q.
Proof.
  destruct p as [[[r1 g1] b1] a1], q as [[[r2 g2] b2] a2].
  intros (Hr1 & Hg1 & Hb1 & Ha1) (Hr2 & Hg2 & Hb2 & Ha2).
  unfold rgba_hex_of, _to_hex. cbn [append].
  intros [= E1 E2 E3 E4 E5 E6 E7 E8].
  assert (Er : _to_hex r1 = _to_hex r2) by (unfold _to_hex; congruence).
  assert (Eg : _to_hex g1 = _to_hex g2) by (unfold _to_hex; congruence).
  assert (Eb : _to_hex b1 = _to_hex b2) by (unfold _to_hex; congruence).
  assert (Ea : _to_hex a1 = _to_hex a2) by (unfold _to_hex; congruence).
  apply to_hex_inj in Er, Eg, Eb, Ea; auto. congruence.
Qed.

Lemma last2_rgba_hex_of (r g b a : Z) : last2 (rgba_hex_of (r, g, b, a)) = _to_hex a.
Proof. reflexivity. Qed.

Lemma wf_image_bytes (im : Image) (x y : Z) :
  wf_image im -> 0 <= x < im_w im -> 0 <= y < im_h im -> rgba_bytes (px im x y).
Proof. intros Hwf Hx Hy. exact (Hwf x y Hx Hy). Qed.

(** X10. On an image whose channels are bytes and for a start line
    that is not negative, every colour entry of a block of the row
    returned by [scan_row_blocks] stands for one pixel value [(r, g, b, a)] with [a] at or above
    the threshold: [rgba_hex] is its ['#RRGGBBAA'] string, [rgb_hex] its
    ['#RRGGBB'] string, the field [a] is its alpha, read back from the
    last two characters of [rgba_hex], and [coords] lists exactly the
    pixels of the tile that have this value, so that [count] is their
    number: two pixels are counted together only if all four channels
    agree. *)
Theorem X10_color_entry_is_one_pixel_value (im : Image) (start_y bs thr : Z)
  (row : Row) (b : Block) (c : ColorCount) :
  wf_image im -> 0 <= start_y ->
  scan_row_blocks im start_y bs thr = Some row ->
  In b (blocks row) -> In c (color_counts b) ->
  exists red green blue alpha,
    rgba_bytes (red, green, blue, alpha) /\ thr <= alpha /\
    rgba_hex c = rgba_hex_of (red, green, blue, alpha) /\
    rgb_hex c = rgb_hex_of red green blue /\
    cc_a c = alpha /\
    coords c = filter (fun p => rgba_eqb (px im (fst p) (snd p)) (red, green, blue, alpha))
                      (footprint im bs (fst (origin b)) (snd (origin b))) /\
    count c = Z.of_nat (List.length (coords c)).
Proof.
  intros Hwf Hs Hrow Hb Hc.
  destruct (row_block_color_entry im start_y bs thr row b c Hs Hrow Hb Hc)
    as (Hox & Hoy & Hcoords & Hcount & Hone & Hrgb & Halpha).
  cbv zeta in *.
  set (cells := footprint im bs (fst (origin b)) (snd (origin b))) in *.
  assert (Hcell : forall p, In p cells -> rgba_bytes (px im (fst p) (snd p))).
  { intros [x y] Hp. apply in_footprint in Hp. apply wf_image_bytes; [exact Hwf| |];
      cbn [fst snd]; lia. }
  destruct (pixels_of_color im thr (rgba_hex c) cells) as [|p0 ps] eqn:Ep;
    [simpl in Hcount; lia|].
  assert (Hp0 : In p0 (pixels_of_color im thr (rgba_hex c) cells))
    by (rewrite Ep; left; reflexivity).
  unfold pixels_of_color in Hp0. apply filter_In in Hp0. destruct Hp0 as [Hin0 Hsel0].
  apply andb_true_iff in Hsel0. destruct Hsel0 as [Hvis0 Hkey0].
  apply Z.geb_le in Hvis0. apply String.eqb_eq in Hkey0.
  specialize (Hcell p0 Hin0) as Hbytes0.
  destruct (px im (fst p0) (snd p0)) as [[[red green] blue] alpha] eqn:Epx.
  exists red, green, blue, alpha.
  split; [exact Hbytes0|]. split; [exact Hvis0|]. split; [symmetry; exact Hkey0|].
  split; [rewrite Hrgb, <- Hkey0; apply rgb_prefix_of_rgba|].
  split.
  - rewrite <- Hkey0, last2_rgba_hex_of in Halpha.
    destruct Hbytes0 as (_ & _ & _ & Ha). rewrite (int16_to_hex alpha Ha) in Halpha.
    congruence.
  - rewrite <- Ep in *. split; [|rewrite Hcoords; exact Hcount].
    rewrite Hcoords. unfold pixels_of_color. apply filter_ext_in. intros p Hp.
    rewrite <- Hkey0.
    destruct (rgba_eqb (px im (fst p) (snd p)) (red, green, blue, alpha)) eqn:Eq.
    + apply rgba_eqb_eq in Eq. rewrite Eq. cbn [alpha_of].
      rewrite String.eqb_refl, andb_true_r. apply Z.geb_le. exact Hvis0.
    + apply andb_false_iff. right. apply String.eqb_neq. intros Ek.
      apply rgba_hex_of_inj in Ek; [|apply Hcell; exact Hp|exact Hbytes0].
      rewrite Ek in Eq. assert (Hrefl := proj2 (rgba_eqb_eq (red, green, blue, alpha) _) eq_refl).
      congruence.
Qed.

(** X10 on [red_blue_tie]. *)
Lemma X10_witness :
  exists row b c rest red green blue alpha,
    scan_row_blocks red_blue_tie 0 2 128 = Some row /\
    blocks row = [b] /\ color_counts b = c :: rest /\
    rgba_bytes (red, green, blue, alpha) /\ 128 <= alpha /\
    rgba_hex c = rgba_hex_of (red, green, blue, alpha) /\
    rgb_hex c = rgb_hex_of red green blue /\
    cc_a c = alpha /\
    coords c = filter (fun p => rgba_eqb (px red_blue_tie (fst p) (snd p))
                                         (red, green, blue, alpha))
                      (footprint red_blue_tie 2 (fst (origin b)) (snd (origin b))) /\
    count c = Z.of_nat (List.length (coords c)).
Proof.
  assert (Hwf : wf_image red_blue_tie).
  { intros x y _ _. unfold red_blue_tie, px, byte_range. destruct (x =? y); lia. }
  pose (c := mkColorCount "#0000FFFF" "#0000FF" 255 2 [(1, 0); (0, 1)]).
  pose (c' := mkColorCount "#FF0000FF" "#FF0000" 255 2 [(0, 0); (1, 1)]).
  pose (b := mkBlock 0 (0, 0) (2, 2) 4 0 2 [c; c']).
  pose (row := mkRow 2 [b] 1 (0, 0) (1, 1)).
  assert (E : scan_row_blocks red_blue_tie 0 2 128 = Some row) by (vm_compute; reflexivity).
  destruct (X10_color_entry_is_one_pixel_value red_blue_tie 0 2 128 row b c Hwf ltac:(lia) E
              (or_introl eq_refl) (or_introl eq_refl))
    as (red & green & blue & alpha & H).
  exists row, b, c, [c'], red, green, blue, alpha.
  split; [exact E|]. split; [reflexivity|]. split; [reflexivity|]. exact H.
Defined.

(** ** The row scanner: when no row is returned *)

Lemma find_anchor_none (im : Image) (start_y bs thr : Z) :
  0 <= start_y ->
  (find_anchor im start_y bs thr = None <->
   forall x y, start_y <= y < start_y + bs -> ~ visible_at im thr x y).
Proof.
  intros Hs. split.
  - intros Hnone x y Hy (Hx & Hy' & Ha).
    unfold find_anchor in Hnone.
    destruct (first_some (range (Z.min bs (im_h im - start_y))) _) as [t|] eqn:Et.
    + apply first_some_range in Et. destruct Et as (dy & Hdy & Hrow & _).
      apply first_some_range in Hrow. destruct Hrow as (xc & Hxc & Hc & _).
      destruct (alpha_of (px im xc (start_y + dy)) >=? thr) eqn:Ec; [|discriminate].
      injection Hc as <-.
      rewrite first_some_None in Hnone.
      specialize (Hnone xc (proj2 (in_range _ _) Hxc)).
      rewrite Ec in Hnone. discriminate.
    + rewrite first_some_None in Et.
      specialize (Et (y - start_y)
                     (proj2 (in_range (Z.min bs (im_h im - start_y)) (y - start_y))
                            ltac:(lia))).
      rewrite first_some_None in Et.
      specialize (Et x (proj2 (in_range _ _) Hx)).
      replace (start_y + (y - start_y)) with y in Et by lia.
      destruct (alpha_of (px im x y) >=? thr) eqn:E; [discriminate|].
      rewrite Z.geb_leb in E. apply Z.leb_gt in E. lia.
  - intros Hnone.
    destruct (find_anchor im start_y bs thr) as [[fx ay]|] eqn:Ea; [|reflexivity].
    destruct (find_anchor_spec im start_y bs thr fx ay Hs Ea) as (_ & Hay & Hv & _).
    destruct (Hnone fx ay Hay Hv).
Qed.

Lemma counts_list_total (coords_of : dict (list (Z * Z))) (items : list (string * Z)) :
  Forall (fun kv => int16 (last2 (fst kv)) <> None) items ->
  counts_list coords_of items <> None.
Proof.
  induction 1 as [|[k v] items Hk _ IH]; simpl; [discriminate|].
  cbn [fst] in Hk. destruct (int16 (last2 k)); [|contradiction].
  destruct (counts_list coords_of items); [discriminate|contradiction].
Qed.

(** On an image whose channels are bytes no turn of the block loop raises. *)
Lemma scan_block_total (im : Image) (thr bs fx ay bi : Z) :
  wf_image im -> 0 <= fx + bi * bs -> 0 <= ay ->
  scan_block im thr bs fx ay bi <> None.
Proof.
  intros Hwf Hox Hoy. unfold scan_block. cbv zeta.
  destruct (collect_block_summary im thr bs (fx + bi * bs) ay) as (_ & Hc & _).
  rewrite Hc.
  destruct (counts_list _ _) eqn:El; [discriminate|].
  exfalso. revert El. apply counts_list_total.
  apply Forall_forall. intros [k v] Hin. cbn [fst].
  apply (Permutation_in _ (sorted_perm count_key_le _)) in Hin.
  apply histogram_In in Hin. destruct Hin as [_ Hk].
  apply in_visible_colors_of in Hk. destruct Hk as (x & y & Hfoot & _ & ->).
  apply in_footprint in Hfoot.
  pose proof (wf_image_bytes im x y Hwf ltac:(lia) ltac:(lia)) as Hb.
  destruct (px im x y) as [[[r g] b] a]. destruct Hb as (_ & _ & _ & Ha).
  rewrite last2_rgba_hex_of, (int16_to_hex a Ha). discriminate.
Qed.

(** A tile holds a pixel that meets the threshold. *)
Lemma visible_colors_nonempty (im : Image) (thr bs ox oy : Z) :
  visible_colors im thr bs (ox, oy) <> [] ->
  exists x y, In (x, y) (footprint im bs ox oy) /\ thr <= alpha_of (px im x y).
Proof.
  unfold visible_colors. cbn [fst snd].
  destruct (visible_colors_of im thr (footprint im bs ox oy)) as [|k l] eqn:E;
    [contradiction|].
  intros _.
  assert (Hk : In k (visible_colors_of im thr (footprint im bs ox oy)))
    by (rewrite E; left; reflexivity).
  apply in_visible_colors_of in Hk. destruct Hk as (x & y & H1 & H2 & _).
  exists x, y. auto.
Qed.

(** With the turns [untrimmed_blocks] allows, the block loop ends without
    an exception and has a block for every tile that holds a visible
    pixel. *)
Lemma scan_blocks_complete (im : Image) (thr bs fx ay : Z) :
  wf_image im -> 1 <= bs -> 0 <= fx -> 0 <= ay ->
  forall (fuel : nat) (bi : Z),
    0 <= bi ->
    im_w im - (fx + bi * bs) <= Z.of_nat fuel ->
    exists bl,
      scan_blocks fuel im thr bs fx ay bi = Some bl /\
      forall i, bi <= i ->
        visible_colors im thr bs (fx + i * bs, ay) <> [] ->
        exists b, In b bl /\ index b = i.
Proof.
  intros Hwf Hbs Hfx Hay. induction fuel as [|fuel IH]; intros bi Hbi Hfuel.
  - exists []. split; [reflexivity|]. intros i Hi Hne. exfalso.
    apply visible_colors_nonempty in Hne. destruct Hne as (x & y & Hfoot & _).
    apply in_footprint in Hfoot. simpl in Hfuel. nia.
  - cbn [scan_blocks]. cbv zeta.
    destruct (fx + bi * bs >=? im_w im) eqn:Eout.
    + exists []. split; [reflexivity|]. intros i Hi Hne. exfalso.
      apply visible_colors_nonempty in Hne. destruct Hne as (x & y & Hfoot & _).
      apply in_footprint in Hfoot. apply Z.geb_le in Eout. nia.
    + assert (Hox : 0 <= fx + bi * bs) by nia.
      destruct (scan_block im thr bs fx ay bi) as [b|] eqn:Eb;
        [|destruct (scan_block_total im thr bs fx ay bi Hwf Hox Hay Eb)].
      destruct (IH (bi + 1) ltac:(lia) ltac:(nia)) as (rest & Er & Hall).
      rewrite Er. exists (b ++ rest). split; [reflexivity|].
      intros i Hi Hne. destruct (Z.eq_dec i bi) as [->|Hneq].
      * apply visible_colors_nonempty in Hne. destruct Hne as (x & y & Hfoot & Ha).
        destruct (scan_block_of_visible_tile im thr bs fx ay bi x y b Hfoot Ha Eb)
          as (b0 & ->).
        destruct (scan_block_spec im thr bs fx ay bi [b0] Hbi Eb)
          as [Hnil|(b1 & [= <-] & Hidx & _)]; [discriminate|].
        exists b0. split; [left; reflexivity|exact Hidx].
      * destruct (Hall i ltac:(lia) Hne) as (b' & Hin & Hidx).
        exists b'. split; [apply in_or_app; right; exact Hin|exact Hidx].
Qed.

Lemma trim_trailing_nil (bs : Z) (bl : list Block) :
  trim_trailing bs bl = [] <-> Forall (fun b => sparse bs b = true) bl.
Proof.
  destruct (pop_sparse_spec bs (List.length bl) bl (le_n _)) as (removed & H1 & H2 & H3).
  fold (trim_trailing bs bl) in H1, H3. split.
  - intros E. rewrite E in H1. simpl in H1. rewrite H1. exact H2.
  - intros Hall.
    destruct (rev (trim_trailing bs bl)) as [|last_block rl] eqn:Er.
    + rewrite <- (rev_involutive (trim_trailing bs bl)), Er. reflexivity.
    + exfalso.
      assert (Ek : trim_trailing bs bl = rev rl ++ [last_block]).
      { rewrite <- (rev_involutive (trim_trailing bs bl)), Er. reflexivity. }
      assert (Hin : In last_block bl).
      { rewrite H1, Ek. apply in_or_app. left. apply in_or_app. right. left. reflexivity. }
      rewrite Forall_forall in Hall. specialize (Hall last_block Hin).
      rewrite (H3 (rev rl) last_block Ek) in Hall. discriminate.
Qed.

(** X11. On an image whose channels are bytes and for a start line that
    is not negative, [scan_row_blocks] returns no row in two cases only:
    no pixel of the lines
    [start_y .. start_y + block_size - 1] meets the threshold; or, with
    the row anchored at the first visible pixel [(fx, ay)] of the strip,
    every tile [(fx + i * block_size, ay)] has fewer visible pixels than
    half of [block_size * block_size].  For these start lines no
    exception is swallowed. *)
Theorem X11_when_no_row_is_returned (im : Image) (start_y bs thr : Z) :
  wf_image im -> 0 <= start_y ->
  (scan_row_blocks im start_y bs thr = None <->
   (forall x y, start_y <= y < start_y + bs -> ~ visible_at im thr x y) \/
   (exists fx ay,
      find_anchor im start_y bs thr = Some (fx, ay) /\
      forall i, 0 <= i ->
        2 * Z.of_nat (List.length (visible_colors im thr bs (fx + i * bs, ay))) < bs * bs)).
Proof.
  intros Hwf Hs. split.
  - intros Hnone.
    destruct (find_anchor im start_y bs thr) as [[fx ay]|] eqn:Ea;
      [right|left; apply find_anchor_none; assumption].
    destruct (find_anchor_spec im start_y bs thr fx ay Hs Ea)
      as (Hbs & Hay & (Hx & Hy & _) & _).
    exists fx, ay. split; [reflexivity|].
    destruct (scan_blocks_complete im thr bs fx ay Hwf Hbs ltac:(lia) ltac:(lia)
                (Z.to_nat (im_w im - fx)) 0 ltac:(lia) ltac:(lia))
      as (bl & Eb & Hall).
    unfold scan_row_blocks, untrimmed_blocks in Hnone. rewrite Ea, Eb in Hnone.
    assert (Hsparse : Forall (fun b => sparse bs b = true) bl).
    { destruct bl as [|b0 bl0] eqn:Ebl; [constructor|]. rewrite <- Ebl in *.
      apply trim_trailing_nil.
      destruct (rev (trim_trailing bs bl)) as [|last_block rl] eqn:Er; [|discriminate].
      rewrite <- (rev_involutive (trim_trailing bs bl)), Er. reflexivity. }
    intros i Hi.
    destruct (visible_colors im thr bs (fx + i * bs, ay)) as [|k l] eqn:Ev;
      [simpl; nia|].
    destruct (Hall i Hi ltac:(rewrite Ev; discriminate)) as (b & Hb & Hidx).
    rewrite <- Ev.
    apply scan_blocks_spec in Eb; [|lia]. destruct Eb as [Hok _].
    rewrite Forall_forall in Hok, Hsparse.
    destruct (Hok b Hb) as [(_ & Ho & Hvis & _) _].
    specialize (Hsparse b Hb). unfold sparse in Hsparse. apply Z.ltb_lt in Hsparse.
    rewrite Hidx in Ho. rewrite <- Ho, <- Hvis. exact Hsparse.
  - intros [Hnone|(fx & ay & Ea & Hall)].
    + apply find_anchor_none in Hnone; [|exact Hs].
      unfold scan_row_blocks, untrimmed_blocks. rewrite Hnone. reflexivity.
    + destruct (scan_row_blocks im start_y bs thr) as [row|] eqn:Erow; [|reflexivity].
      exfalso.
      destruct (scan_row_blocks_inv im start_y bs thr row Erow)
        as (fx' & ay' & bl & removed & kept & last_block & Ea' & _ & _ & _ & Ek & Hdense & _).
      rewrite Ea in Ea'. injection Ea' as <- <-.
      destruct (scan_row_blocks_spec im start_y bs thr row Erow)
        as (fx' & ay' & Ea' & _ & _ & Hok & _).
      rewrite Ea in Ea'. injection Ea' as <- <-.
      rewrite Forall_forall in Hok.
      destruct (Hok last_block) as (Hi & Ho & Hvis & _).
      { rewrite Ek. apply in_or_app. right. left. reflexivity. }
      specialize (Hall (index last_block) Hi). rewrite <- Ho, <- Hvis in Hall.
      unfold sparse in Hdense. apply Z.ltb_ge in Hdense. lia.
Qed.

(** X11 on [drifting_rows]: the strip of line 0 has one visible pixel,
    too few for a block of side 2. *)
Lemma X11_witness :
  scan_row_blocks drifting_rows 0 2 128 = None /\
  (scan_row_blocks drifting_rows 0 2 128 = None <->
   (forall x y, 0 <= y < 0 + 2 -> ~ visible_at drifting_rows 128 x y) \/
   (exists fx ay,
      find_anchor drifting_rows 0 2 128 = Some (fx, ay) /\
      forall i, 0 <= i ->
        2 * Z.of_nat (List.length (visible_colors drifting_rows 128 2 (fx + i * 2, ay)))
        < 2 * 2)).
Proof.
  split; [vm_compute; reflexivity|].
  apply (X11_when_no_row_is_returned drifting_rows 0 2 128 drifting_rows_wf). lia.
Defined.

(** ** The grid assembler: one rectangle for every block *)

(** A colour entry of a block comes from a visible pixel of its tile. *)
Lemma color_entry_source (im : Image) (start_y bs thr : Z) (row : Row) (b : Block)
  (c : ColorCount) :
  wf_image im -> 0 <= start_y ->
  scan_row_blocks im start_y bs thr = Some row ->
  In b (blocks row) -> In c (color_counts b) ->
  exists x y red green blue alpha,
    visible_at im thr x y /\
    px im x y = (red, green, blue, alpha) /\
    rgba_bytes (red, green, blue, alpha) /\
    rgb_hex c = rgb_hex_of red green blue /\
    cc_a c = alpha.
Proof.
  intros Hwf Hs Hrow Hb Hc.
  destruct (row_block_color_entry im start_y bs thr row b c Hs Hrow Hb Hc)
    as (Hox & Hoy & _ & Hcount & Hone & Hrgb & Halpha).
  cbv zeta in *.
  destruct (pixels_of_color im thr (rgba_hex c) _) as [|[x y] ps] eqn:Ep;
    [simpl in Hcount; lia|].
  assert (Hp0 : In (x, y) (pixels_of_color im thr (rgba_hex c)
                             (footprint im bs (fst (origin b)) (snd (origin b)))))
    by (rewrite Ep; left; reflexivity).
  unfold pixels_of_color in Hp0. apply filter_In in Hp0. destruct Hp0 as [Hin Hsel].
  cbn [fst snd] in Hsel.
  apply andb_true_iff in Hsel. destruct Hsel as [Hvis Hkey].
  apply Z.geb_le in Hvis. apply String.eqb_eq in Hkey.
  apply in_footprint in Hin.
  pose proof (wf_image_bytes im x y Hwf ltac:(lia) ltac:(lia)) as Hbytes.
  remember (px im x y) as p eqn:Epx. destruct p as [[[red green] blue] alpha].
  symmetry in Epx.
  exists x, y, red, green, blue, alpha.
  split; [unfold visible_at; rewrite Epx; repeat split; try lia; exact Hvis|].
  split; [exact Epx|]. split; [exact Hbytes|].
  split; [rewrite Hrgb, <- Hkey; apply rgb_prefix_of_rgba|].
  rewrite <- Hkey, last2_rgba_hex_of in Halpha.
  destruct Hbytes as (_ & _ & _ & Ha). rewrite (int16_to_hex alpha Ha) in Halpha.
  congruence.
Qed.

Lemma row_block_has_color (im : Image) (start_y bs thr : Z) (row : Row) (b : Block) :
  scan_row_blocks im start_y bs thr = Some row ->
  In b (blocks row) -> color_counts b <> [].
Proof.
  intros Hrow Hb E.
  destruct (scan_row_blocks_spec im start_y bs thr row Hrow) as (fx & ay & _ & _ & _ & Hok & _).
  rewrite Forall_forall in Hok. specialize (Hok b Hb).
  destruct (block_ok_color_counts im thr bs fx ay b Hok) as (_ & _ & Hcover).
  destruct Hok as (_ & _ & Hvis & Hpos & _).
  destruct (visible_colors im thr bs (origin b)) as [|k V]; [simpl in Hvis; lia|].
  destruct (Hcover k (or_introl eq_refl)) as (c & Hc & _).
  rewrite E in Hc. destruct Hc.
Qed.

Lemma block_rects_of_blocks (bs left_ref top_ref : Z) (bl : list Block) :
  Forall (fun b => color_counts b <> []) bl ->
  Forall2 (rect_of_block bs left_ref top_ref) bl
          (flat_map (block_rect bs left_ref top_ref) bl).
Proof.
  induction 1 as [|b bl Hb _ IH]; [constructor|].
  cbn [flat_map]. unfold block_rect at 1.
  destruct (color_counts b) as [|top_color others] eqn:E; [contradiction|].
  cbn [app]. constructor; [|exact IH].
  exists top_color, others. cbn. auto.
Qed.

Lemma all_rects_of_blocks (bs left_ref top_ref : Z) (rows : list Row) :
  Forall (fun row => Forall (fun b => color_counts b <> []) (blocks row)) rows ->
  Forall2 (rect_of_block bs left_ref top_ref) (flat_map blocks rows)
          (all_rects bs left_ref top_ref rows).
Proof.
  unfold all_rects. induction 1 as [|row rows Hrow _ IH]; [constructor|].
  cbn [flat_map]. apply Forall2_app; [|exact IH].
  apply block_rects_of_blocks. exact Hrow.
Qed.

(** X12. In a run of [main] that writes its document, every block of
    every row gives exactly one rectangle, in the order of the rows and of
    the blocks within a row: its fill is the [rgb_hex] of the block's
    first colour entry, its opacity comes from that entry's alpha, and its
    cell is the block's origin, counted in blocks from the leftmost
    visible column and from the line of the first row.  The test for an
    empty [color_counts] never skips a block. *)
Theorem X12_one_rectangle_per_block (fuel : nat) (im : Image) (bs : Z) (writable quiet out : bool)
  (code : Z) (svg : Svg) :
  main fuel (mkArgs (Readable im) bs writable quiet out) = Some (Written code svg) ->
  exists x0 y0 x1 y1 xa ya row0 rest,
    find_first_nontransparent_pixel im 128 = Some (x0, y0) /\
    find_last_nontransparent_pixel im 128 = Some (x1, y1) /\
    find_leftmost_nontransparent_pixel im 128 = Some (xa, ya) /\
    scan_all_rows fuel im bs 128 y1 y0 = Some (row0 :: rest) /\
    Forall2 (rect_of_block bs xa (snd (first_pixel row0)))
            (flat_map blocks (row0 :: rest)) (rects svg).
Proof.
  intros Hmain. apply main_written in Hmain. destruct Hmain as [_ Hasm].
  destruct Hasm as [im' [x0 y0] [x1 y1] [xa ya] [xb yb] row0 rest block0 bl0
                      Him H1 H2 H3 H4 H5 H6 Hsvg].
  cbn [fst snd block_size image] in Him, H5, Hsvg. injection Him as <-.
  exists x0, y0, x1, y1, xa, ya, row0, rest.
  repeat (split; [assumption|]).
  pose proof (grid_bs _ _ _ _ _ _ _ H5) as Hbs.
  pose proof (grid_y0 _ _ _ _ _ H1 H2) as Hy0.
  destruct (grid_top_ref _ _ _ _ _ _ _ _ _ _ _ _ _ _ _ H1 H2 H3 H4 H5 H6)
    as (_ & _ & _ & _ & _ & _ & Htop).
  destruct (scan_all_rows_spec im bs 128 y1 fuel y0 _ H5) as [Hrows _].
  subst svg. cbn [rects]. rewrite Htop.
  apply all_rects_of_blocks. apply Forall_forall. intros row Hrow.
  apply Forall_forall. intros b Hb.
  destruct (rows_from_strips im 128 bs y0 _ Hrows Hbs row Hrow) as (j & _ & Hscan).
  exact (row_block_has_color im _ bs 128 row b Hscan Hb).
Qed.

(** X12 on [two_tiles] with block size 2. *)
Lemma X12_witness :
  exists x0 y0 x1 y1 xa ya row0 rest,
    find_first_nontransparent_pixel two_tiles 128 = Some (x0, y0) /\
    find_last_nontransparent_pixel two_tiles 128 = Some (x1, y1) /\
    find_leftmost_nontransparent_pixel two_tiles 128 = Some (xa, ya) /\
    scan_all_rows 3 two_tiles 2 128 y1 y0 = Some (row0 :: rest) /\
    Forall2 (rect_of_block 2 xa (snd (first_pixel row0)))
            (flat_map blocks (row0 :: rest)) (rects two_tiles_svg).
Proof.
  apply (X12_one_rectangle_per_block 3 two_tiles 2 true false true 0 two_tiles_svg).
  vm_compute. reflexivity.
Defined.

(** ** The grid assembler: what a rectangle shows *)

Lemma hex_digit_is_hex (d : Z) : 0 <= d < 16 -> is_hex_digit (hex_digit d) = true.
Proof.
  intros H. unfold is_hex_digit. rewrite (hex_digit_value d H). reflexivity.
Qed.

Lemma rgb_hex_of_is_hash_rrggbb (r g b : Z) :
  byte_range r -> byte_range g -> byte_range b ->
  is_hash_rrggbb (rgb_hex_of r g b) = true.
Proof.
  unfold byte_range. intros Hr Hg Hb. unfold rgb_hex_of, _to_hex. cbn [append is_hash_rrggbb].
  rewrite !hex_digit_is_hex; [reflexivity| | | | | |];
    try (apply Z.mod_pos_bound; lia);
    (split; [apply Z.div_pos; lia|apply Z.div_lt_upper_bound; lia]).
Qed.

(** X13. On an image whose channels are bytes, every rectangle [main]
    writes shows a visible pixel of the image: its fill is the
    ['#RRGGBB'] string (a hash sign and six hexadecimal digits) of the
    red, green and blue bytes of a pixel whose alpha is at least 128, and
    its opacity is that alpha over 255, rounded to four places, so
    between 0.502 and 1. *)
Theorem X13_rectangles_show_visible_pixels (fuel : nat) (im : Image) (bs : Z)
  (writable quiet out : bool) (code : Z) (svg : Svg) :
  wf_image im ->
  main fuel (mkArgs (Readable im) bs writable quiet out) = Some (Written code svg) ->
  Forall (fun r =>
            is_hash_rrggbb (fill r) = true /\
            5020 <= fill_opacity r <= 10000 /\
            exists x y red green blue alpha,
              visible_at im 128 x y /\
              px im x y = (red, green, blue, alpha) /\
              fill r = rgb_hex_of red green blue /\
              fill_opacity r = round4_of_255 alpha) (rects svg).
Proof.
  intros Hwf Hmain. apply main_written in Hmain. destruct Hmain as [_ Hasm].
  destruct Hasm as [im' [x0 y0] [x1 y1] [xa ya] [xb yb] row0 rest block0 bl0
                      Him H1 H2 H3 H4 H5 H6 Hsvg].
  cbn [fst snd block_size image] in Him, H5, Hsvg. injection Him as <-.
  pose proof (grid_bs _ _ _ _ _ _ _ H5) as Hbs.
  pose proof (grid_y0 _ _ _ _ _ H1 H2) as Hy0.
  destruct (scan_all_rows_spec im bs 128 y1 fuel y0 _ H5) as [Hrows _].
  subst svg. cbn [rects]. apply Forall_forall. intros r Hr.
  apply in_all_rects in Hr. destruct Hr as (row & b & Hrow & Hb & Hr).
  destruct (rows_from_strips im 128 bs y0 _ Hrows Hbs row Hrow) as (j & Hj & Hscan).
  assert (Hcy : 0 <= y0 + j * bs)
    by (assert (0 <= j * bs) by (apply Z.mul_nonneg_nonneg; lia); lia).
  apply in_block_rect in Hr. destruct Hr as (_ & _ & top_color & others & Ecc & Hfill & Hop).
  destruct (color_entry_source im _ bs 128 row b top_color Hwf Hcy Hscan Hb
              ltac:(rewrite Ecc; left; reflexivity))
    as (x & y & red & green & blue & alpha & Hv & Epx & (Hr & Hg & Hbl & Ha) & Hrgb & Halpha).
  assert (Hge : 128 <= alpha).
  { destruct Hv as (_ & _ & Hv). rewrite Epx in Hv. exact Hv. }
  rewrite Hfill, Hop, Hrgb, Halpha.
  split; [apply rgb_hex_of_is_hash_rrggbb; assumption|].
  split.
  - unfold round4_of_255, byte_range in *. split.
    + apply Z.div_le_lower_bound; lia.
    + assert ((20000 * alpha + 255) / 510 < 10001)
        by (apply Z.div_lt_upper_bound; lia).
      lia.
  - exists x, y, red, green, blue, alpha. auto.
Qed.

(** X13 on [two_tiles] with block size 2. *)
Lemma X13_witness :
  Forall (fun r =>
            is_hash_rrggbb (fill r) = true /\
            5020 <= fill_opacity r <= 10000 /\
            exists x y red green blue alpha,
              visible_at two_tiles 128 x y /\
              px two_tiles x y = (red, green, blue, alpha) /\
              fill r = rgb_hex_of red green blue /\
              fill_opacity r = round4_of_255 alpha) (rects two_tiles_svg).
Proof.
  apply (X13_rectangles_show_visible_pixels 3 two_tiles 2 true false true 0 two_tiles_svg
           two_tiles_wf).
  vm_compute. reflexivity.
Defined.

(** ** Materializer: the painter's rule *)






(** ** Block size estimator: positions at and inside the boundaries *)

(** The gradients [_compute_gradient_at_positions] averages as "inside":
    those of the positions of the image that are on no boundary. *)
Lemma inside_gradients (rgb2gray : Z * Z * Z -> Z) (img : ndarray) (bs : Z) :
  snd (_compute_gradient_at_positions rgb2gray img bs)
  = mean_or_zero
      (map (fun p => grad_magnitude rgb2gray img (fst p) (snd p))
           (filter (fun p => negb (on_boundary bs (fst p) (snd p)))
                   (positions (shape_h img) (shape_w img)))).
Proof.
  unfold _compute_gradient_at_positions. rewrite partition_as_filter. reflexivity.
Qed.

(** When the inside average is zero, the contrast is a thousand times
    the boundary average, or 1 when that is zero too. *)
Lemma contrast_without_inside (rgb2gray : Z * Z * Z -> Z) (img : ndarray) (bs : Z) :
  snd (_compute_gradient_at_positions rgb2gray img bs) = 0%R ->
  _compute_boundary_contrast rgb2gray img bs
  = (if Rgt_dec (fst (_compute_gradient_at_positions rgb2gray img bs)) 0
     then fst (_compute_gradient_at_positions rgb2gray img bs) / (1 / 1000)
     else 1)%R.
Proof.
  unfold _compute_boundary_contrast.
  destruct (_compute_gradient_at_positions rgb2gray img bs) as [avg_boundary avg_inside].
  cbn [fst snd]. intros ->.
  destruct (Rlt_dec 0 (1 / 1000)) as [_|Hn]; [reflexivity|exfalso; apply Hn; lra].
Qed.

Lemma on_boundary_small (bs y x : Z) : bs = 1 \/ bs = 2 -> on_boundary bs y x = true.
Proof.
  intros Hbs. unfold on_boundary.
  assert (H : (x mod bs =? 0) || (x mod bs =? bs - 1) = true).
  { pose proof (Z.mod_pos_bound x bs ltac:(lia)) as Hm.
    destruct (Z.eq_dec (x mod bs) 0) as [E|E].
    - rewrite E. reflexivity.
    - apply orb_true_iff. right. apply Z.eqb_eq. lia. }
  rewrite H. reflexivity.
Qed.

(** X15. With block size 1 or 2 every position of the image counts as a
    boundary position ([x % n] is always 0 or [n - 1]), so no gradient is
    averaged as "inside": [_compute_gradient_at_positions] returns 0 for
    the inside average, whatever the image, and
    [_compute_boundary_contrast] returns the boundary average divided by
    0.001, or 1.0 when the boundary average is 0. *)
Theorem X15_no_inside_positions_for_block_sizes_1_and_2 (rgb2gray : Z * Z * Z -> Z)
  (img : ndarray) (bs : Z) :
  bs = 1 \/ bs = 2 ->
  let avg_boundary := fst (_compute_gradient_at_positions rgb2gray img bs) in
  snd (_compute_gradient_at_positions rgb2gray img bs) = 0%R /\
  _compute_boundary_contrast rgb2gray img bs
  = (if Rgt_dec avg_boundary 0 then avg_boundary / (1 / 1000) else 1)%R.
Proof.
  intros Hbs. cbv zeta.
  assert (Hin : snd (_compute_gradient_at_positions rgb2gray img bs) = 0%R).
  { rewrite inside_gradients.
    replace (filter _ _) with (@nil (Z * Z)); [reflexivity|].
    symmetry. induction (positions (shape_h img) (shape_w img)) as [|p l IH];
      [reflexivity|].
    cbn [filter]. rewrite (on_boundary_small bs (fst p) (snd p) Hbs). exact IH. }
  split; [exact Hin|]. apply contrast_without_inside. exact Hin.
Qed.

(** X15 on a flat 4x4 image with block size 2. *)
Lemma X15_witness :
  snd (_compute_gradient_at_positions luma (flat_image 4 4 (200, 30, 30)) 2) = 0%R.
Proof.
  apply (X15_no_inside_positions_for_block_sizes_1_and_2 luma (flat_image 4 4 (200, 30, 30)) 2).
  right. reflexivity.
Defined.

(** ** Block size estimator: images made of tiles *)

(** A column (or line) index strictly inside a tile: the indices one
    step away, read through the border rule, fall in the same tile. *)
Lemma reflect101_same_tile (bs len x d : Z) :
  1 <= bs -> 0 <= x < len ->
  (x mod bs =? 0) || (x mod bs =? bs - 1) = false ->
  -1 <= d <= 1 ->
  0 <= reflect101 (x + d) len < len /\ reflect101 (x + d) len / bs = x / bs.
Proof.
  intros Hbs Hx Hin Hd.
  apply orb_false_iff in Hin. destruct Hin as [H0 H1].
  apply Z.eqb_neq in H0, H1.
  pose proof (Z.mod_pos_bound x bs ltac:(lia)) as Hm.
  pose proof (Z.div_mod x bs ltac:(lia)) as Hdm.
  assert (Hq : 0 <= x / bs) by (apply Z.div_pos; lia).
  assert (Hx1 : 1 <= x) by nia.
  assert (Htile : forall z, x - 1 <= z <= x + 1 -> z / bs = x / bs).
  { intros z Hz. apply (div_in_strip z (x / bs) bs Hbs). nia. }
  unfold reflect101.
  replace (len =? 1) with false by (symmetry; apply Z.eqb_neq; lia).
  replace (x + d <? 0) with false by (symmetry; apply Z.ltb_ge; lia).
  destruct (x + d >=? len) eqn:E.
  - apply Z.geb_le in E. split; [lia|]. apply Htile. lia.
  - rewrite Z.geb_leb in E. apply Z.leb_gt in E. split; [lia|]. apply Htile. lia.
Qed.

Section TiledImages.

Variable rgb2gray : Z * Z * Z -> Z.
Variables (img : ndarray) (bs : Z).
Hypothesis Hbs : 1 <= bs.
Hypothesis Htiled : tiled bs img.

(** Around a position inside a tile the gray image is constant. *)
Lemma tiled_gray_neighbour (y x dy dx : Z) :
  0 <= y < shape_h img -> 0 <= x < shape_w img ->
  on_boundary bs y x = false ->
  -1 <= dy <= 1 -> -1 <= dx <= 1 ->
  gray rgb2gray img (y + dy) (x + dx) = gray rgb2gray img y x.
Proof.
  intros Hy Hx Hin Hdy Hdx.
  unfold on_boundary in Hin. cbv zeta in Hin. apply orb_false_iff in Hin.
  destruct Hin as [Hinx Hiny].
  destruct (reflect101_same_tile bs (shape_h img) y dy Hbs Hy Hiny Hdy) as [Hy1 Hty1].
  destruct (reflect101_same_tile bs (shape_w img) x dx Hbs Hx Hinx Hdx) as [Hx1 Htx1].
  destruct (reflect101_same_tile bs (shape_h img) y 0 Hbs Hy Hiny ltac:(lia)) as [Hy0 Hty0].
  destruct (reflect101_same_tile bs (shape_w img) x 0 Hbs Hx Hinx ltac:(lia)) as [Hx0 Htx0].
  rewrite Z.add_0_r in Hy0, Hty0, Hx0, Htx0.
  pose proof (Htiled _ _ _ _ Hy1 Hx1 Hy0 Hx0 ltac:(congruence) ltac:(congruence)) as Hsame.
  unfold gray. cbv zeta. unfold same_value in Hsame.
  destruct img as [h w v|h w v]; cbn [shape_h shape_w] in *; rewrite Hsame; reflexivity.
Qed.

Lemma tiled_inside_gradient (y x : Z) :
  0 <= y < shape_h img -> 0 <= x < shape_w img ->
  on_boundary bs y x = false ->
  grad_magnitude rgb2gray img y x = 0%R.
Proof.
  intros Hy Hx Hin.
  assert (Hn : forall dy dx, -1 <= dy <= 1 -> -1 <= dx <= 1 ->
                 gray rgb2gray img (y + dy) (x + dx) = gray rgb2gray img y x)
    by (intros; apply tiled_gray_neighbour; assumption).
  unfold grad_magnitude, sobel_x, sobel_y. cbv zeta.
  replace (y - 1) with (y + -1) by lia. replace (x - 1) with (x + -1) by lia.
  replace (gray rgb2gray img y (x + 1)) with (gray rgb2gray img (y + 0) (x + 1))
    by (rewrite Z.add_0_r; reflexivity).
  replace (gray rgb2gray img y (x + -1)) with (gray rgb2gray img (y + 0) (x + -1))
    by (rewrite Z.add_0_r; reflexivity).
  replace (gray rgb2gray img (y + 1) x) with (gray rgb2gray img (y + 1) (x + 0))
    by (rewrite Z.add_0_r; reflexivity).
  replace (gray rgb2gray img (y + -1) x) with (gray rgb2gray img (y + -1) (x + 0))
    by (rewrite Z.add_0_r; reflexivity).
  rewrite !Hn by lia.
  set (v := gray rgb2gray img y x).
  replace (v - v + 2 * (v - v) + (v - v))%R with 0%R by lra.
  rewrite Rabs_R0. replace (0 ^ 2 + 0 ^ 2)%R with 0%R by lra. apply sqrt_0.
Qed.

Lemma tiled_inside_average :
  snd (_compute_gradient_at_positions rgb2gray img bs) = 0%R.
Proof.
  rewrite inside_gradients. apply mean_or_zero_zeros.
  apply Forall_forall. intros v Hv. apply in_map_iff in Hv.
  destruct Hv as ([y x] & <- & Hp). apply filter_In in Hp. destruct Hp as [Hp Hin].
  apply in_positions in Hp. cbn [fst snd] in *.
  apply negb_true_iff in Hin. apply tiled_inside_gradient; tauto.
Qed.

End TiledImages.

(** X16. For an image made of tiles of side [n] (aligned with the
    top-left corner, each of one value, the last ones possibly cut by the
    edge), and that block size [n]: every gradient inside the tiles is 0,
    so the inside average is 0, and the boundary contrast is the boundary
    average divided by 0.001, or 1.0 when the image has no edge at all. *)
Theorem X16_tiled_image_has_no_inside_gradient (rgb2gray : Z * Z * Z -> Z)
  (img : ndarray) (bs : Z) :
  1 <= bs -> tiled bs img ->
  let avg_boundary := fst (_compute_gradient_at_positions rgb2gray img bs) in
  snd (_compute_gradient_at_positions rgb2gray img bs) = 0%R /\
  _compute_boundary_contrast rgb2gray img bs
  = (if Rgt_dec avg_boundary 0 then avg_boundary / (1 / 1000) else 1)%R.
Proof.
  intros Hbs Htiled. cbv zeta.
  pose proof (tiled_inside_average rgb2gray img bs Hbs Htiled) as Hin.
  split; [exact Hin|]. apply contrast_without_inside. exact Hin.
Qed.

(** X16 on a 6x6 gray image of four tiles of side 3. *)
Lemma X16_witness :
  snd (_compute_gradient_at_positions luma four_tiles 3) = 0%R.
Proof.
  apply (X16_tiled_image_has_no_inside_gradient luma four_tiles 3); [lia|].
  intros y x y' x' Hy Hx Hy' Hx' Ey Ex. unfold same_value, four_tiles.
  rewrite Ey, Ex. reflexivity.
Defined.

(** ** Block size estimator: the uniformity score *)

Lemma np_mean_bounds (lo hi : R) (xs : list R) :
  xs <> [] ->
  Forall (fun v => (lo <= v <= hi)%R) xs ->
  (lo <= np_mean xs <= hi)%R.
Proof.
  intros Hne Hall. unfold np_mean.
  assert (Hn : (0 < INR (List.length xs))%R).
  { apply lt_0_INR. destruct xs; [contradiction|simpl; lia]. }
  assert (Hsum : (lo * INR (List.length xs) <= fold_right Rplus 0 xs
                  <= hi * INR (List.length xs))%R).
  { clear Hne Hn. induction Hall as [|v xs Hv _ IH].
    - simpl. lra.
    - change (List.length (v :: xs)) with (S (List.length xs)). rewrite S_INR.
      simpl fold_right. lra. }
  split.
  - apply Rmult_le_reg_r with (INR (List.length xs)); [exact Hn|].
    unfold Rdiv. rewrite Rmult_assoc, Rinv_l by lra. lra.
  - apply Rmult_le_reg_r with (INR (List.length xs)); [exact Hn|].
    unfold Rdiv. rewrite Rmult_assoc, Rinv_l by lra. lra.
Qed.

Lemma block_uniformity_bounds (img : ndarray) (bs by_ bx : Z) :
  (0 <= block_uniformity img bs by_ bx <= 1)%R.
Proof.
  unfold block_uniformity. cbv zeta.
  set (sd := np_std _).
  assert (Hsd : (0 <= sd)%R) by (apply sqrt_pos).
  unfold Rmin. destruct (Rle_dec (sd / 100) 1); lra.
Qed.

(** X17. For a block size of at least 1,
    [_compute_block_uniformity_score] lies between 0 and 1, and it is
    0.0 when the image is narrower or lower than one block. *)
Theorem X17_uniformity_score_range (img : ndarray) (bs : Z) :
  1 <= bs -> 0 <= shape_h img -> 0 <= shape_w img ->
  (0 <= _compute_block_uniformity_score img bs <= 1)%R /\
  (shape_h img < bs \/ shape_w img < bs -> _compute_block_uniformity_score img bs = 0%R).
Proof.
  intros Hbs Hh Hw. unfold _compute_block_uniformity_score. cbv zeta. split.
  - destruct ((shape_w img / bs =? 0) || (shape_h img / bs =? 0)) eqn:E; [lra|].
    apply orb_false_iff in E. destruct E as [Ex Ey]. apply Z.eqb_neq in Ex, Ey.
    assert (Hbx : 0 < shape_w img / bs)
      by (pose proof (Z.div_pos (shape_w img) bs Hw ltac:(lia)); lia).
    assert (Hby : 0 < shape_h img / bs)
      by (pose proof (Z.div_pos (shape_h img) bs Hh ltac:(lia)); lia).
    apply np_mean_bounds.
    + intros Enil.
      assert (Hin : In (block_uniformity img bs 0 0)
                       (flat_map (fun by_ => map (fun bx => block_uniformity img bs by_ bx)
                                                 (range (shape_w img / bs)))
                                 (range (shape_h img / bs)))).
      { apply in_flat_map. exists 0. split; [apply in_range; lia|].
        apply in_map_iff. exists 0. split; [reflexivity|apply in_range; lia]. }
      rewrite Enil in Hin. destruct Hin.
    + apply Forall_forall. intros v Hv. apply in_flat_map in Hv.
      destruct Hv as (by_ & _ & Hv). apply in_map_iff in Hv. destruct Hv as (bx & <- & _).
      apply block_uniformity_bounds.
  - intros Hsmall.
    replace ((shape_w img / bs =? 0) || (shape_h img / bs =? 0)) with true; [reflexivity|].
    symmetry. apply orb_true_iff.
    destruct Hsmall as [H|H]; [right|left]; apply Z.eqb_eq; apply Z.div_small; lia.
Qed.

(** X17 on a flat 4x4 image with block size 8. *)
Lemma X17_witness :
  _compute_block_uniformity_score (flat_image 4 4 (200, 30, 30)) 8 = 0%R.
Proof.
  apply (X17_uniformity_score_range (flat_image 4 4 (200, 30, 30)) 8); simpl; lia.
Defined.

(** ** Block size estimator: the uniformity of an image made of tiles *)

(** [np.mean] and [np.std] of an array made of copies of one array. *)
Lemma sum_of_copies {A : Type} (c : list R) (l : list A) :
  fold_right Rplus 0%R (flat_map (fun _ => c) l)
  = (INR (List.length l) * fold_right Rplus 0 c)%R.
Proof.
  induction l as [|a l IH].
  - simpl. lra.
  - change (List.length (a :: l)) with (S (List.length l)). rewrite S_INR.
    cbn [flat_map]. rewrite fold_right_app.
    assert (E : forall (xs : list R) (z : R),
               fold_right Rplus z xs = (fold_right Rplus 0%R xs + z)%R).
    { induction xs as [|x xs IHx]; intros z; simpl; [lra|]. rewrite IHx. lra. }
    rewrite E, IH. lra.
Qed.

Lemma length_of_copies {A B : Type} (c : list B) (l : list A) :
  List.length (flat_map (fun _ => c) l) = (List.length l * List.length c)%nat.
Proof.
  induction l as [|a l IH]; [reflexivity|].
  cbn [flat_map]. rewrite length_app, IH. simpl. lia.
Qed.

Lemma np_mean_of_copies {A : Type} (c : list R) (l : list A) :
  l <> [] -> c <> [] -> np_mean (flat_map (fun _ => c) l) = np_mean c.
Proof.
  intros Hl Hc. unfold np_mean.
  rewrite sum_of_copies, length_of_copies, mult_INR.
  assert (Hn : (0 < INR (List.length l))%R)
    by (apply lt_0_INR; destruct l; [contradiction|simpl; lia]).
  assert (Hk : (0 < INR (List.length c))%R)
    by (apply lt_0_INR; destruct c; [contradiction|simpl; lia]).
  field. split; lra.
Qed.

Lemma map_of_copies {A : Type} (f : R -> R) (c : list R) (l : list A) :
  map f (flat_map (fun _ => c) l) = flat_map (fun _ => map f c) l.
Proof.
  induction l as [|a l IH]; [reflexivity|].
  cbn [flat_map]. rewrite map_app, IH. reflexivity.
Qed.

Lemma np_std_of_copies {A : Type} (c : list R) (l : list A) :
  l <> [] -> c <> [] -> np_std (flat_map (fun _ => c) l) = np_std c.
Proof.
  intros Hl Hc. unfold np_std. cbv zeta.
  rewrite (np_mean_of_copies c l Hl Hc), map_of_copies.
  rewrite np_mean_of_copies; [reflexivity|exact Hl|].
  destruct c; [contradiction|discriminate].
Qed.

Lemma flat_map_constant {A B : Type} (f : A -> list B) (c : list B) (l : list A) :
  (forall a, In a l -> f a = c) -> flat_map f l = flat_map (fun _ => c) l.
Proof.
  induction l as [|a l IH]; intros H; [reflexivity|].
  cbn [flat_map]. rewrite (H a (or_introl eq_refl)), IH; [reflexivity|].
  intros a' Ha'. apply H. right. exact Ha'.
Qed.

Lemma pixel_values_nonempty (img : ndarray) (y x : Z) : pixel_values img y x <> [].
Proof.
  unfold pixel_values. destruct img as [h w v|h w v]; [discriminate|].
  destruct (v y x) as [[r g] b]. discriminate.
Qed.

Lemma range_from_nonempty (a b : Z) : a < b -> range_from a b <> [].
Proof.
  intros H. unfold range_from.
  destruct (Z.to_nat (b - a)) as [|n] eqn:E; [lia|]. discriminate.
Qed.

(** A full tile of an image made of tiles: the deviation of its entries
    is that of the entries of one pixel. *)
Lemma tiled_block_std (img : ndarray) (bs by_ bx : Z) :
  1 <= bs -> tiled bs img ->
  0 <= by_ < shape_h img / bs -> 0 <= bx < shape_w img / bs ->
  np_std (block_values img (by_ * bs) ((by_ + 1) * bs) (bx * bs) ((bx + 1) * bs))
  = np_std (pixel_values img (by_ * bs) (bx * bs)).
Proof.
  intros Hbs Htiled Hby Hbx.
  pose proof (Z.mul_div_le (shape_h img) bs ltac:(lia)) as Hh.
  pose proof (Z.mul_div_le (shape_w img) bs ltac:(lia)) as Hw.
  assert (Hpix : forall y x,
             by_ * bs <= y < (by_ + 1) * bs -> bx * bs <= x < (bx + 1) * bs ->
             pixel_values img y x = pixel_values img (by_ * bs) (bx * bs)).
  { intros y x Hy Hx.
    assert (Ey : y / bs = by_) by (apply div_in_strip; lia).
    assert (Ex : x / bs = bx) by (apply div_in_strip; lia).
    assert (Ey0 : (by_ * bs) / bs = by_) by (apply div_in_strip; lia).
    assert (Ex0 : (bx * bs) / bs = bx) by (apply div_in_strip; lia).
    assert (Hsame : same_value img y x (by_ * bs) (bx * bs)).
    { apply Htiled; try congruence; nia. }
    unfold pixel_values. unfold same_value in Hsame.
    destruct img as [h w v|h w v]; rewrite Hsame; reflexivity. }
  unfold block_values.
  set (c := pixel_values img (by_ * bs) (bx * bs)).
  assert (Hrow : forall y, In y (range_from (by_ * bs) ((by_ + 1) * bs)) ->
             flat_map (fun x => pixel_values img y x) (range_from (bx * bs) ((bx + 1) * bs))
             = flat_map (fun _ => c) (range_from (bx * bs) ((bx + 1) * bs))).
  { intros y Hy. apply in_range_from in Hy. apply flat_map_constant.
    intros x Hx. apply in_range_from in Hx. apply Hpix; assumption. }
  rewrite (flat_map_constant _ _ _ Hrow).
  assert (Hc : c <> []) by apply pixel_values_nonempty.
  assert (Hxs : range_from (bx * bs) ((bx + 1) * bs) <> [])
    by (apply range_from_nonempty; lia).
  assert (Hys : range_from (by_ * bs) ((by_ + 1) * bs) <> [])
    by (apply range_from_nonempty; lia).
  rewrite np_std_of_copies; [apply np_std_of_copies; assumption|exact Hys|].
  destruct (range_from (bx * bs) ((bx + 1) * bs)) as [|x xs]; [contradiction|].
  cbn [flat_map]. destruct c; [contradiction|discriminate].
Qed.

Lemma np_std_of_equal_values (v : R) (xs : list R) :
  xs <> [] -> Forall (fun u => u = v) xs -> np_std xs = 0%R.
Proof.
  intros Hne Hall. unfold np_std. cbv zeta.
  assert (Hm : np_mean xs = v).
  { assert (Hb : (v <= np_mean xs <= v)%R).
    { apply np_mean_bounds; [exact Hne|].
      eapply Forall_impl; [|exact Hall]. intros u ->. lra. }
    lra. }
  rewrite Hm.
  assert (Hz : (0 <= np_mean (map (fun u => (Rabs (u - v) ^ 2)%R) xs) <= 0)%R).
  { apply np_mean_bounds; [destruct xs; [contradiction|discriminate]|].
    apply Forall_forall. intros z Hz. apply in_map_iff in Hz.
    destruct Hz as (u & <- & Hu). rewrite Forall_forall in Hall. rewrite (Hall u Hu).
    replace (v - v)%R with 0%R by lra. rewrite Rabs_R0. lra. }
  replace (np_mean _) with 0%R by lra. apply sqrt_0.
Qed.

Lemma flat_map_map_ext_in {A B C : Type} (f g : A -> B -> C) (xs : list B) (ys : list A) :
  (forall a b, In a ys -> In b xs -> f a b = g a b) ->
  flat_map (fun a => map (f a) xs) ys = flat_map (fun a => map (g a) xs) ys.
Proof.
  intros H. induction ys as [|a ys IH]; [reflexivity|].
  cbn [flat_map]. f_equal.
  - apply map_ext_in. intros b Hb. apply H; [left; reflexivity|exact Hb].
  - apply IH. intros a' b Ha' Hb. apply H; [right; exact Ha'|exact Hb].
Qed.

Lemma np_mean_of_equal_values (v : R) (xs : list R) :
  xs <> [] -> Forall (fun u => u = v) xs -> np_mean xs = v.
Proof.
  intros Hne Hall.
  assert (Hb : (v <= np_mean xs <= v)%R).
  { apply np_mean_bounds; [exact Hne|].
    eapply Forall_impl; [|exact Hall]. intros u ->. lra. }
  lra.
Qed.

Lemma gray_pixel_std (img : ndarray) (y x : Z) :
  gray_pixels img -> 0 <= y < shape_h img -> 0 <= x < shape_w img ->
  np_std (pixel_values img y x) = 0%R.
Proof.
  intros Hgray Hy Hx. unfold pixel_values.
  destruct img as [h w v|h w v]; cbn [shape_h shape_w gray_pixels] in *.
  - apply (np_std_of_equal_values (IZR (v y x))); [discriminate|].
    constructor; [reflexivity|constructor].
  - specialize (Hgray y x Hy Hx). destruct (v y x) as [[r g] b].
    destruct Hgray as [-> ->].
    apply (np_std_of_equal_values (IZR b)); [discriminate|].
    repeat constructor.
Qed.

(** The uniformity scores of the tiles of an image made of tiles. *)
Lemma tiled_uniformity_scores (img : ndarray) (bs : Z) :
  1 <= bs -> tiled bs img ->
  flat_map (fun by_ => map (fun bx => block_uniformity img bs by_ bx)
                           (range (shape_w img / bs)))
           (range (shape_h img / bs))
  = flat_map (fun by_ =>
                map (fun bx =>
                       (1 - Rmin (np_std (pixel_values img (by_ * bs) (bx * bs)) / 100) 1)%R)
                    (range (shape_w img / bs)))
             (range (shape_h img / bs)).
Proof.
  intros Hbs Htiled. apply flat_map_map_ext_in. intros by_ bx Hby Hbx.
  apply in_range in Hby, Hbx. unfold block_uniformity. cbv zeta.
  rewrite (tiled_block_std img bs by_ bx Hbs Htiled Hby Hbx). reflexivity.
Qed.

(** X18. For an image made of tiles of side [n] that is at least one
    tile wide and high, and that block size [n], the uniformity score is
    the mean over the full tiles of [1 - min(s / 100, 1)], where [s] is
    the standard deviation of the channel values of one pixel of the
    tile: the deviation is taken over the three channels together, so the
    score is 1.0 when every pixel is gray, and 0.0 when the channels of
    every pixel differ by a deviation of 100 or more (pure red, for
    one), although each tile is of one colour. *)
Theorem X18_uniformity_of_tiled_image (img : ndarray) (bs : Z) :
  1 <= bs -> tiled bs img -> bs <= shape_h img -> bs <= shape_w img ->
  _compute_block_uniformity_score img bs
  = np_mean
      (flat_map (fun by_ =>
                   map (fun bx =>
                          (1 - Rmin (np_std (pixel_values img (by_ * bs) (bx * bs)) / 100) 1)%R)
                       (range (shape_w img / bs)))
                (range (shape_h img / bs))) /\
  (gray_pixels img -> _compute_block_uniformity_score img bs = 1%R) /\
  ((forall y x, 0 <= y < shape_h img -> 0 <= x < shape_w img ->
      (100 <= np_std (pixel_values img y x))%R) ->
   _compute_block_uniformity_score img bs = 0%R).
Proof.
  intros Hbs Htiled Hh Hw.
  pose proof (Z.div_le_lower_bound (shape_h img) bs 1 ltac:(lia) ltac:(lia)) as Hby.
  pose proof (Z.div_le_lower_bound (shape_w img) bs 1 ltac:(lia) ltac:(lia)) as Hbx.
  pose proof (Z.mul_div_le (shape_h img) bs ltac:(lia)) as Hh'.
  pose proof (Z.mul_div_le (shape_w img) bs ltac:(lia)) as Hw'.
  assert (E : _compute_block_uniformity_score img bs
              = np_mean
                  (flat_map (fun by_ =>
                     map (fun bx =>
                            (1 - Rmin (np_std (pixel_values img (by_ * bs) (bx * bs)) / 100) 1)%R)
                         (range (shape_w img / bs)))
                     (range (shape_h img / bs)))).
  { unfold _compute_block_uniformity_score. cbv zeta.
    replace ((shape_w img / bs =? 0) || (shape_h img / bs =? 0)) with false.
    - rewrite (tiled_uniformity_scores img bs Hbs Htiled). reflexivity.
    - symmetry. apply orb_false_iff. split; apply Z.eqb_neq; lia. }
  assert (Hne : flat_map (fun by_ =>
                     map (fun bx =>
                            (1 - Rmin (np_std (pixel_values img (by_ * bs) (bx * bs)) / 100) 1)%R)
                         (range (shape_w img / bs)))
                     (range (shape_h img / bs)) <> []).
  { intros Enil.
    assert (Hin : In (1 - Rmin (np_std (pixel_values img (0 * bs) (0 * bs)) / 100) 1)%R
                     (flat_map (fun by_ =>
                        map (fun bx =>
                               (1 - Rmin (np_std (pixel_values img (by_ * bs) (bx * bs)) / 100)
                                         1)%R)
                            (range (shape_w img / bs)))
                        (range (shape_h img / bs)))).
    { apply in_flat_map. exists 0. split; [apply in_range; lia|].
      apply in_map_iff. exists 0. split; [reflexivity|apply in_range; lia]. }
    rewrite Enil in Hin. destruct Hin. }
  assert (Hall : forall P : R -> Prop,
             (forall y x, 0 <= y < shape_h img -> 0 <= x < shape_w img ->
                          P (1 - Rmin (np_std (pixel_values img y x) / 100) 1)%R) ->
             Forall P
               (flat_map (fun by_ =>
                  map (fun bx =>
                         (1 - Rmin (np_std (pixel_values img (by_ * bs) (bx * bs)) / 100) 1)%R)
                      (range (shape_w img / bs)))
                  (range (shape_h img / bs)))).
  { intros P HP. apply Forall_forall. intros v Hv. apply in_flat_map in Hv.
    destruct Hv as (by_ & Hy & Hv). apply in_map_iff in Hv. destruct Hv as (bx & <- & Hx).
    apply in_range in Hy, Hx. apply HP; nia. }
  split; [exact E|]. split.
  - intros Hgray. rewrite E. apply np_mean_of_equal_values; [exact Hne|].
    apply Hall. intros y x Hy Hx. rewrite (gray_pixel_std img y x Hgray Hy Hx).
    unfold Rmin. destruct (Rle_dec (0 / 100) 1); lra.
  - intros Hsat. rewrite E. apply np_mean_of_equal_values; [exact Hne|].
    apply Hall. intros y x Hy Hx. specialize (Hsat y x Hy Hx).
    unfold Rmin. destruct (Rle_dec (np_std (pixel_values img y x) / 100) 1); lra.
Qed.

Lemma np_std_pure_red : (100 <= np_std [255; 0; 0])%R.
Proof.
  unfold np_std, np_mean. cbv zeta. cbn [map fold_right List.length].
  rewrite !pow2_abs.
  replace (INR 3) with 3%R by (simpl; lra).
  replace 100%R with (sqrt (100 * 100)) by (apply sqrt_square; lra).
  apply sqrt_le_1_alt. lra.
Qed.

(** X18 on a flat 4x4 image of pure red with block size 2: the score is
    0. *)
Lemma X18_witness :
  _compute_block_uniformity_score (flat_image 4 4 (255, 0, 0)) 2 = 0%R.
Proof.
  apply (X18_uniformity_of_tiled_image (flat_image 4 4 (255, 0, 0)) 2).
  - lia.
  - intros y x y' x' _ _ _ _ _ _. reflexivity.
  - simpl. lia.
  - simpl. lia.
  - intros y x _ _. exact np_std_pure_red.
Defined.

(** ** Block size estimator: the block size chosen *)










(** ** The grid assembler: the number of rows *)

(** X20. The row loop of [main], for a block size of at least 1: when
    it ends, [all_rows] holds the rows that [scan_row_blocks] finds for
    the start lines [y], [y + block_size], [y + 2 * block_size], ... up
    to [last_y], in this order, each strip being tried once and the
    strips without a row being passed over; so there are at most
    [floor((last_y - y) / block_size) + 1] rows. *)
Theorem X20_row_loop_in_closed_form (fuel : nat) (im : Image) (bs thr last_y y : Z)
  (rows : list Row) :
  1 <= bs -> y <= last_y ->
  scan_all_rows fuel im bs thr last_y y = Some rows ->
  rows = flat_map (fun j => match scan_row_blocks im (y + j * bs) bs thr with
                            | Some row => [row]
                            | None => []
                            end)
                  (range ((last_y - y) / bs + 1)) /\
  Z.of_nat (List.length rows) <= (last_y - y) / bs + 1.
Proof.
  intros Hbs Hy Hrows.
  pose proof (scan_all_rows_closed_form im bs thr last_y fuel Hbs y rows Hrows) as E.
  unfold rows_of_strips in E.
  replace (y <=? last_y) with true in E by (symmetry; apply Z.leb_le; exact Hy).
  split; [exact E|].
  assert (Hn : 0 <= (last_y - y) / bs + 1)
    by (pose proof (Z.div_pos (last_y - y) bs ltac:(lia) ltac:(lia)); lia).
  rewrite E.
  assert (Hlen : forall l : list Z,
             (List.length (flat_map (fun j => match scan_row_blocks im (y + j * bs) bs thr with
                                              | Some row => [row]
                                              | None => []
                                              end) l) <= List.length l)%nat).
  { induction l as [|j l IHl]; [simpl; lia|].
    cbn [flat_map]. rewrite length_app.
    destruct (scan_row_blocks im (y + j * bs) bs thr); simpl; lia. }
  specialize (Hlen (range ((last_y - y) / bs + 1))).
  unfold range in Hlen at 2. rewrite length_map, length_seq in Hlen. lia.
Qed.

(** X20 on [drifting_rows] with block size 2: three strips, two rows. *)
Lemma X20_witness :
  exists rows,
    scan_all_rows 4 drifting_rows 2 128 5 0 = Some rows /\
    rows = flat_map (fun j => match scan_row_blocks drifting_rows (0 + j * 2) 2 128 with
                              | Some row => [row]
                              | None => []
                              end)
                    (range ((5 - 0) / 2 + 1)) /\
    Z.of_nat (List.length rows) <= (5 - 0) / 2 + 1.
Proof.
  eexists. split; [vm_compute; reflexivity|].
  apply (X20_row_loop_in_closed_form 4 drifting_rows 2 128 5 0); [lia|lia|].
  vm_compute. reflexivity.
Defined.

(** ** Pixels below the threshold *)

Lemma first_some_ext_in {A B : Type} (xs : list A) (f g : A -> option B) :
  (forall x, In x xs -> f x = g x) -> first_some xs f = first_some xs g.
Proof.
  induction xs as [|x xs IH]; intros H; [reflexivity|].
  cbn [first_some]. rewrite (H x (or_introl eq_refl)).
  destruct (g x); [reflexivity|]. apply IH. intros z Hz. apply H. right. exact Hz.
Qed.

Lemma counts_list_ext (d1 d2 : dict (list (Z * Z))) (items : list (string * Z)) :
  (forall k, dict_get_default d1 k [] = dict_get_default d2 k []) ->
  counts_list d1 items = counts_list d2 items.
Proof.
  intros H. induction items as [|[k v] items IH]; [reflexivity|].
  cbn [counts_list]. rewrite IH, (H k). reflexivity.
Qed.

Lemma scan_row_blocks_nonpositive (im : Image) (start_y bs thr : Z) :
  bs <= 0 -> scan_row_blocks im start_y bs thr = None.
Proof.
  intros Hbs. unfold scan_row_blocks, untrimmed_blocks, find_anchor. cbv zeta.
  unfold range at 1.
  replace (Z.to_nat (Z.min bs (im_h im - start_y))) with 0%nat by lia.
  reflexivity.
Qed.

Section HiddenPixels.

Variable thr : Z.
Variables im1 im2 : Image.
Hypothesis Hsame : same_visible_pixels thr im1 im2.

Lemma same_width : im_w im1 = im_w im2.
Proof. exact (proj1 Hsame). Qed.

Lemma same_height : im_h im1 = im_h im2.
Proof. exact (proj1 (proj2 Hsame)). Qed.

Lemma same_visibility (x y : Z) :
  0 <= x < im_w im1 -> 0 <= y < im_h im1 ->
  (alpha_of (px im1 x y) >=? thr) = (alpha_of (px im2 x y) >=? thr).
Proof.
  intros Hx Hy. destruct Hsame as (_ & _ & H).
  destruct (H x y Hx Hy) as [E|[H1 H2]]; [rewrite E; reflexivity|].
  transitivity false; [|symmetry]; lia.
Qed.

Lemma same_visible_pixel (x y : Z) :
  0 <= x < im_w im1 -> 0 <= y < im_h im1 ->
  (alpha_of (px im2 x y) >=? thr) = true -> px im1 x y = px im2 x y.
Proof.
  intros Hx Hy Hv. destruct Hsame as (_ & _ & H).
  destruct (H x y Hx Hy) as [E|[H1 H2]]; [exact E|lia].
Qed.

Lemma scanners_agree :
  find_first_nontransparent_pixel im1 thr = find_first_nontransparent_pixel im2 thr /\
  find_last_nontransparent_pixel im1 thr = find_last_nontransparent_pixel im2 thr /\
  find_leftmost_nontransparent_pixel im1 thr = find_leftmost_nontransparent_pixel im2 thr /\
  find_rightmost_nontransparent_pixel im1 thr = find_rightmost_nontransparent_pixel im2 thr.
Proof.
  unfold find_first_nontransparent_pixel, find_last_nontransparent_pixel,
    find_leftmost_nontransparent_pixel, find_rightmost_nontransparent_pixel.
  cbv zeta. rewrite <- same_width, <- same_height.
  repeat split.
  - apply first_some_ext_in. intros y Hy. apply in_range in Hy.
    apply first_some_ext_in. intros x Hx. apply in_range in Hx.
    rewrite (same_visibility x y Hx Hy). reflexivity.
  - apply first_some_ext_in. intros y Hy. apply in_range_down in Hy.
    apply first_some_ext_in. intros x Hx. apply in_range_down in Hx.
    rewrite (same_visibility x y Hx Hy). reflexivity.
  - apply first_some_ext_in. intros x Hx. apply in_range in Hx.
    apply first_some_ext_in. intros y Hy. apply in_range in Hy.
    rewrite (same_visibility x y Hx Hy). reflexivity.
  - apply first_some_ext_in. intros x Hx. apply in_range_down in Hx.
    apply first_some_ext_in. intros y Hy. apply in_range in Hy.
    rewrite (same_visibility x y Hx Hy). reflexivity.
Qed.

Lemma find_anchor_agree (start_y bs : Z) :
  0 <= start_y ->
  find_anchor im1 start_y bs thr = find_anchor im2 start_y bs thr.
Proof.
  intros Hs.
  destruct (find_anchor im2 start_y bs thr) as [[fx ay]|] eqn:E2.
  - pose proof (find_anchor_spec im2 start_y bs thr fx ay Hs E2) as (_ & Hay & Hvis & _).
    destruct Hvis as (_ & Hay2 & _).
    revert E2. unfold find_anchor. cbv zeta. rewrite <- same_width, <- same_height.
    replace (first_some (range (Z.min bs (im_h im1 - start_y)))
               (fun dy => first_some (range (im_w im1)) (fun x_check =>
                  if alpha_of (px im1 x_check (start_y + dy)) >=? thr
                  then Some (start_y + dy) else None)))
       with (first_some (range (Z.min bs (im_h im1 - start_y)))
               (fun dy => first_some (range (im_w im1)) (fun x_check =>
                  if alpha_of (px im2 x_check (start_y + dy)) >=? thr
                  then Some (start_y + dy) else None))).
    + destruct (first_some (range (Z.min bs (im_h im1 - start_y))) _) as [ty|] eqn:Et;
        [|discriminate].
      intros E2. rewrite <- E2.
      assert (Hty : ty = ay).
      { apply first_some_range in E2. destruct E2 as (x & _ & Hb & _).
        destruct (alpha_of (px im2 x ty) >=? thr); [|discriminate].
        injection Hb as _ Hb. exact Hb. }
      apply first_some_ext_in. intros x Hx. apply in_range in Hx.
      rewrite (same_visibility x ty Hx) by (rewrite same_height; lia). reflexivity.
    + apply first_some_ext_in. intros dy Hdy. apply in_range in Hdy.
      apply first_some_ext_in. intros x Hx. apply in_range in Hx.
      rewrite (same_visibility x (start_y + dy) Hx) by lia. reflexivity.
  - pose proof (proj1 (find_anchor_none im2 start_y bs thr Hs) E2) as Hnone.
    apply (proj2 (find_anchor_none im1 start_y bs thr Hs)).
    intros x y Hy (Hx & Hy' & Hv). apply (Hnone x y Hy).
    unfold visible_at. rewrite <- same_width, <- same_height.
    split; [exact Hx|]. split; [exact Hy'|].
    pose proof (same_visibility x y Hx Hy') as E. lia.
Qed.

Lemma footprint_agree (bs ox oy : Z) : footprint im1 bs ox oy = footprint im2 bs ox oy.
Proof. unfold footprint. rewrite same_width, same_height. reflexivity. Qed.

Lemma visible_colors_of_agree (cells : list (Z * Z)) :
  (forall c, In c cells -> 0 <= fst c < im_w im1 /\ 0 <= snd c < im_h im1) ->
  visible_colors_of im1 thr cells = visible_colors_of im2 thr cells.
Proof.
  induction cells as [|c cells IH]; intros H; [reflexivity|].
  unfold visible_colors_of in *. cbn [filter].
  destruct (H c (or_introl eq_refl)) as [Hx Hy].
  rewrite (same_visibility _ _ Hx Hy).
  destruct (alpha_of (px im2 (fst c) (snd c)) >=? thr) eqn:Ev.
  - cbn [map]. rewrite (same_visible_pixel _ _ Hx Hy Ev).
    f_equal. apply IH. intros z Hz. apply H. right. exact Hz.
  - apply IH. intros z Hz. apply H. right. exact Hz.
Qed.

Lemma pixels_of_color_agree (k : string) (cells : list (Z * Z)) :
  (forall c, In c cells -> 0 <= fst c < im_w im1 /\ 0 <= snd c < im_h im1) ->
  pixels_of_color im1 thr k cells = pixels_of_color im2 thr k cells.
Proof.
  intros H. unfold pixels_of_color. apply filter_ext_in. intros c Hc.
  destruct (H c Hc) as [Hx Hy].
  rewrite (same_visibility _ _ Hx Hy).
  destruct (alpha_of (px im2 (fst c) (snd c)) >=? thr) eqn:Ev; [|reflexivity].
  rewrite (same_visible_pixel _ _ Hx Hy Ev). reflexivity.
Qed.

Lemma footprint_inside (bs ox oy : Z) (c : Z * Z) :
  0 <= ox -> 0 <= oy ->
  In c (footprint im1 bs ox oy) -> 0 <= fst c < im_w im1 /\ 0 <= snd c < im_h im1.
Proof.
  intros Hox Hoy Hc. destruct c as [x y]. apply in_footprint in Hc. cbn [fst snd]. lia.
Qed.

Lemma scan_block_agree (bs fx ay bi : Z) :
  1 <= bs -> 0 <= fx + bi * bs < im_w im1 -> 0 <= ay < im_h im1 ->
  scan_block im1 thr bs fx ay bi = scan_block im2 thr bs fx ay bi.
Proof.
  intros Hbs Hox Hoy.
  pose proof (collect_block_summary im1 thr bs (fx + bi * bs) ay) as (P1 & C1 & V1).
  pose proof (collect_block_summary im2 thr bs (fx + bi * bs) ay) as (P2 & C2 & V2).
  pose proof (collect_block_sizes im1 thr bs (fx + bi * bs) ay Hbs ltac:(lia) ltac:(lia))
    as (W1 & H1 & S1 & _).
  pose proof (collect_block_sizes im2 thr bs (fx + bi * bs) ay Hbs
                ltac:(rewrite <- same_width; lia) ltac:(rewrite <- same_height; lia))
    as (W2 & H2 & S2 & _).
  cbv zeta in W1, H1, S1, W2, H2, S2.
  assert (Hcells : forall c, In c (footprint im1 bs (fx + bi * bs) ay) ->
                             0 <= fst c < im_w im1 /\ 0 <= snd c < im_h im1)
    by (intros c; apply footprint_inside; lia).
  assert (EV : visible_colors_of im1 thr (footprint im1 bs (fx + bi * bs) ay)
               = visible_colors_of im2 thr (footprint im2 bs (fx + bi * bs) ay))
    by (rewrite <- footprint_agree; apply visible_colors_of_agree; exact Hcells).
  unfold scan_block. cbv zeta.
  remember (collect_block_pixels im1 thr bs (fx + bi * bs) ay) as a1 eqn:Ea1.
  remember (collect_block_pixels im2 thr bs (fx + bi * bs) ay) as a2 eqn:Ea2.
  clear Ea1 Ea2.
  assert (Ec : blk_color_counts a1 = blk_color_counts a2) by (rewrite C1, C2, EV; reflexivity).
  assert (Ev : visible a1 = visible a2) by (rewrite V1, V2, EV; reflexivity).
  assert (Ew : actual_w a1 = actual_w a2) by (rewrite W1, W2, same_width; reflexivity).
  assert (Eh : actual_h a1 = actual_h a2) by (rewrite H1, H2, same_height; reflexivity).
  assert (Es : skipped a1 = skipped a2) by (rewrite Ew, Eh, Ev in S1; lia).
  rewrite (counts_list_ext (build_color_coords thr (blk_pixels a1))
             (build_color_coords thr (blk_pixels a2))).
  - rewrite Ec, Ev, Ew, Eh, Es. reflexivity.
  - intros k. rewrite P1, P2, !color_coords_of_cells, <- footprint_agree.
    apply pixels_of_color_agree. exact Hcells.
Qed.

Lemma scan_blocks_agree (bs fx ay : Z) (fuel : nat) :
  1 <= bs -> 0 <= fx -> 0 <= ay < im_h im1 ->
  forall bi, 0 <= bi ->
    scan_blocks fuel im1 thr bs fx ay bi = scan_blocks fuel im2 thr bs fx ay bi.
Proof.
  intros Hbs Hfx Hay. induction fuel as [|fuel IH]; intros bi Hbi; [reflexivity|].
  cbn [scan_blocks]. cbv zeta. rewrite <- same_width.
  destruct (fx + bi * bs >=? im_w im1) eqn:Eo; [reflexivity|].
  rewrite (scan_block_agree bs fx ay bi Hbs) by nia || exact Hay.
  rewrite (IH (bi + 1)) by lia. reflexivity.
Qed.

Lemma scan_row_blocks_agree (start_y bs : Z) :
  0 <= start_y \/ bs <= 0 ->
  scan_row_blocks im1 start_y bs thr = scan_row_blocks im2 start_y bs thr.
Proof.
  intros [Hs|Hbs].
  - unfold scan_row_blocks, untrimmed_blocks.
    rewrite (find_anchor_agree start_y bs Hs).
    destruct (find_anchor im2 start_y bs thr) as [[fx ay]|] eqn:Ea; [|reflexivity].
    pose proof (find_anchor_spec im2 start_y bs thr fx ay Hs Ea) as (Hbs & _ & Hvis & _).
    destruct Hvis as (Hx & Hy & _).
    rewrite <- same_width. rewrite <- same_width in Hx. rewrite <- same_height in Hy.
    rewrite (scan_blocks_agree bs fx ay _ Hbs) by lia.
    reflexivity.
  - rewrite !scan_row_blocks_nonpositive by exact Hbs. reflexivity.
Qed.

Lemma scan_all_rows_agree (bs last_y : Z) (fuel : nat) :
  forall cy, 0 <= cy \/ bs <= 0 ->
    scan_all_rows fuel im1 bs thr last_y cy = scan_all_rows fuel im2 bs thr last_y cy.
Proof.
  induction fuel as [|fuel IH]; intros cy Hcy; [reflexivity|].
  cbn [scan_all_rows]. cbv zeta.
  rewrite (scan_row_blocks_agree cy bs Hcy).
  rewrite (IH (cy + bs)) by lia. reflexivity.
Qed.

End HiddenPixels.

(** X21. Pixels below the alpha threshold are never seen: two images
    of the same size that differ only in pixels that are below the
    threshold in both give the same results in the four boundary
    scanners and in [scan_row_blocks] (for a start line that is not
    negative), and, with the threshold 128 of [main], the same outcome
    of [main], whatever the block size. *)
Theorem X21_pixels_below_the_threshold_do_not_matter (thr : Z) (im1 im2 : Image) :
  same_visible_pixels thr im1 im2 ->
  find_first_nontransparent_pixel im1 thr = find_first_nontransparent_pixel im2 thr /\
  find_last_nontransparent_pixel im1 thr = find_last_nontransparent_pixel im2 thr /\
  find_leftmost_nontransparent_pixel im1 thr = find_leftmost_nontransparent_pixel im2 thr /\
  find_rightmost_nontransparent_pixel im1 thr = find_rightmost_nontransparent_pixel im2 thr /\
  (forall start_y bs, 0 <= start_y ->
     scan_row_blocks im1 start_y bs thr = scan_row_blocks im2 start_y bs thr) /\
  (thr = 128 ->
   forall fuel bs writable quiet out,
     main fuel (mkArgs (Readable im1) bs writable quiet out)
     = main fuel (mkArgs (Readable im2) bs writable quiet out)).
Proof.
  intros Hsame.
  pose proof (scanners_agree thr im1 im2 Hsame) as (E1 & E2 & E3 & E4).
  split; [exact E1|]. split; [exact E2|]. split; [exact E3|]. split; [exact E4|].
  split.
  - intros start_y bs Hs. apply (scan_row_blocks_agree thr im1 im2 Hsame). left. exact Hs.
  - intros -> fuel bs writable.
    unfold main. cbn [image block_size svg_out_writable PngToSvg.quiet stdout_prints]. cbv zeta.
    rewrite E1, E2, E3, E4.
    destruct (find_first_nontransparent_pixel im2 128) as [[x y]|] eqn:Ef; [|reflexivity].
    destruct (find_last_nontransparent_pixel im2 128) as [[lx ly]|]; [|reflexivity].
    pose proof (find_first_spec im2 128 x y Ef) as ((_ & Hy & _) & _).
    rewrite (scan_all_rows_agree 128 im1 im2 Hsame bs ly fuel y) by (left; lia).
    reflexivity.
Qed.

(** X21 on [drifting_rows] and a copy whose transparent pixels are
    white instead of black. *)
Lemma X21_witness :
  same_visible_pixels 128 drifting_rows drifting_rows_on_white /\
  scan_row_blocks drifting_rows 1 2 128 = scan_row_blocks drifting_rows_on_white 1 2 128 /\
  main 4 (mkArgs (Readable drifting_rows) 2 true false true)
  = main 4 (mkArgs (Readable drifting_rows_on_white) 2 true false true).
Proof.
  assert (Hsame : same_visible_pixels 128 drifting_rows drifting_rows_on_white).
  { split; [reflexivity|]. split; [reflexivity|].
    intros x y _ _. unfold drifting_rows_on_white. cbn [px].
    destruct (alpha_of (px drifting_rows x y) <? 128) eqn:E; [|left; reflexivity].
    right. split; [lia|]. cbn [alpha_of]. lia. }
  split; [exact Hsame|].
  pose proof (X21_pixels_below_the_threshold_do_not_matter 128 drifting_rows
                drifting_rows_on_white Hsame)
    as (_ & _ & _ & _ & Hrow & Hmain).
  split; [apply Hrow; lia|apply Hmain; reflexivity].
Defined.

(** ** Images that are already pixel art *)

Lemma filter_keeps_all {A : Type} (f : A -> bool) (l : list A) :
  (forall x, In x l -> f x = true) -> filter f l = l.
Proof.
  induction l as [|a l IH]; intros H; [reflexivity|].
  cbn [filter]. rewrite (H a (or_introl eq_refl)). f_equal.
  apply IH. intros x Hx. apply H. right. exact Hx.
Qed.

Lemma length_flat_map_const {A B : Type} (f : A -> list B) (n : nat) (l : list A) :
  (forall x, In x l -> List.length (f x) = n) ->
  List.length (flat_map f l) = (List.length l * n)%nat.
Proof.
  induction l as [|a l IH]; intros H; [reflexivity|].
  cbn [flat_map List.length]. rewrite length_app, (H a (or_introl eq_refl)), IH; [lia|].
  intros x Hx. apply H. right. exact Hx.
Qed.

Lemma length_range (n : Z) : List.length (range n) = Z.to_nat n.
Proof. unfold range. rewrite length_map, length_seq. reflexivity. Qed.

Lemma strictly_sorted_unique (l1 : list Z) :
  forall l2,
    StronglySorted Z.lt l1 -> StronglySorted Z.lt l2 ->
    (forall i, In i l1 <-> In i l2) ->
    l1 = l2.
Proof.
  induction l1 as [|a l1 IH]; intros l2 S1 S2 H.
  - destruct l2 as [|b l2]; [reflexivity|].
    exfalso. apply (proj2 (H b)). left. reflexivity.
  - destruct l2 as [|b l2].
    + exfalso. apply (proj1 (H a)). left. reflexivity.
    + inversion S1 as [|? ? S1' F1]; subst. inversion S2 as [|? ? S2' F2]; subst.
      rewrite Forall_forall in F1, F2.
      assert (Eab : a = b).
      { destruct (proj1 (H a) (or_introl eq_refl)) as [E|Hin]; [symmetry; exact E|].
        destruct (proj2 (H b) (or_introl eq_refl)) as [E|Hin']; [exact E|].
        pose proof (F2 a Hin). pose proof (F1 b Hin'). lia. }
      subst b. f_equal. apply IH; [exact S1'|exact S2'|].
      intros i. split; intros Hi.
      * destruct (proj1 (H i) (or_intror Hi)) as [E|Hin]; [|exact Hin].
        subst i. pose proof (F1 a Hi). lia.
      * destruct (proj2 (H i) (or_intror Hi)) as [E|Hin]; [|exact Hin].
        subst i. pose proof (F2 a Hi). lia.
Qed.

Lemma strongly_sorted_of_map {A B : Type} (f : A -> B) (R : B -> B -> Prop) (l : list A) :
  StronglySorted (fun a b => R (f a) (f b)) l -> StronglySorted R (map f l).
Proof.
  induction 1 as [|a l S IH F]; cbn [map]; constructor; [exact IH|].
  rewrite Forall_map. exact F.
Qed.

Lemma trim_trailing_dense (bs : Z) (bl : list Block) :
  Forall (fun b => sparse bs b = false) bl -> trim_trailing bs bl = bl.
Proof.
  intros Hdense. unfold trim_trailing.
  destruct (pop_sparse_spec bs (List.length bl) bl (le_n _)) as (removed & E & Hsparse & _).
  destruct removed as [|r removed].
  - rewrite app_nil_r in E. symmetry. exact E.
  - exfalso. rewrite Forall_forall in Hdense.
    assert (Hr : In r bl) by (rewrite E; apply in_or_app; right; left; reflexivity).
    apply Hdense in Hr. inversion Hsparse as [|? ? Hs _]; subst. congruence.
Qed.

Lemma flat_map_nested {A B C : Type} (f : A -> list B) (g : B -> list C) (l : list A) :
  flat_map g (flat_map f l) = flat_map (fun a => flat_map g (f a)) l.
Proof.
  induction l as [|a l IH]; [reflexivity|].
  cbn [flat_map]. rewrite flat_map_app, IH. reflexivity.
Qed.

Lemma flat_map_ext_In {A B : Type} (f g : A -> list B) (l : list A) :
  (forall a, In a l -> f a = g a) -> flat_map f l = flat_map g l.
Proof.
  induction l as [|a l IH]; intros H; [reflexivity|].
  cbn [flat_map]. rewrite (H a (or_introl eq_refl)), IH; [reflexivity|].
  intros x Hx. apply H. right. exact Hx.
Qed.

Section TileGrid.

Variable im : Image.
Variables thr bs cols rows : Z.
Hypothesis Hwf : wf_image im.
Hypothesis Hbs : 1 <= bs.
Hypothesis Hcols : 1 <= cols.
Hypothesis Hgrid : tile_grid thr bs cols rows im.

Lemma tile_grid_width : im_w im = cols * bs.
Proof. exact (proj1 Hgrid). Qed.

Lemma tile_grid_height : im_h im = rows * bs.
Proof. exact (proj1 (proj2 Hgrid)). Qed.

Lemma tile_grid_visible (x y : Z) :
  0 <= x < cols * bs -> 0 <= y < rows * bs -> visible_at im thr x y.
Proof.
  intros Hx Hy. unfold visible_at. rewrite tile_grid_width, tile_grid_height.
  split; [exact Hx|]. split; [exact Hy|].
  destruct Hgrid as (_ & _ & H). apply (H x y Hx Hy).
Qed.

Lemma tile_grid_cell (i j x y : Z) :
  0 <= i < cols -> 0 <= j < rows ->
  i * bs <= x < (i + 1) * bs -> j * bs <= y < (j + 1) * bs ->
  px im x y = px im (i * bs) (j * bs).
Proof.
  intros Hi Hj Hx Hy. destruct Hgrid as (_ & _ & H).
  destruct (H x y ltac:(nia) ltac:(nia)) as [E _].
  rewrite E, (div_in_strip x i bs Hbs Hx), (div_in_strip y j bs Hbs Hy). reflexivity.
Qed.

Lemma tile_grid_anchor (j : Z) :
  0 <= j < rows -> find_anchor im (j * bs) bs thr = Some (0, j * bs).
Proof.
  intros Hj. assert (Hs : 0 <= j * bs) by nia.
  assert (Hv : visible_at im thr 0 (j * bs)) by (apply tile_grid_visible; nia).
  destruct (find_anchor im (j * bs) bs thr) as [[fx ay]|] eqn:E.
  - destruct (find_anchor_spec _ _ _ _ _ _ Hs E) as (_ & Hay & Hvis & Habove & Hleft).
    assert (Eay : ay = j * bs).
    { destruct (Z.eq_dec ay (j * bs)) as [Eq|Hne]; [exact Eq|].
      exfalso. apply (Habove 0 (j * bs)); [lia|exact Hv]. }
    subst ay. pose proof (Hleft 0 Hv). destruct Hvis as (Hx & _).
    f_equal. f_equal. lia.
  - exfalso. apply (proj1 (find_anchor_none _ _ _ _ Hs) E 0 (j * bs)); [lia|exact Hv].
Qed.

Lemma tile_grid_footprint (i j : Z) :
  0 <= i < cols -> 0 <= j < rows ->
  Z.of_nat (List.length (visible_colors im thr bs (i * bs, j * bs))) = bs * bs /\
  forall k, In k (visible_colors im thr bs (i * bs, j * bs)) ->
            k = rgba_hex_of (px im (i * bs) (j * bs)).
Proof.
  intros Hi Hj. split.
  - unfold visible_colors, visible_colors_of. cbn [fst snd]. rewrite length_map.
    rewrite filter_keeps_all.
    + unfold footprint. rewrite !filter_keeps_all.
      * rewrite (length_flat_map_const _ (Z.to_nat bs)).
        -- rewrite length_range. nia.
        -- intros dy _. rewrite length_map, length_range. reflexivity.
      * intros dy Hdy. apply in_range in Hdy. rewrite tile_grid_height.
        apply negb_true_iff. nia.
      * intros dx Hdx. apply in_range in Hdx. rewrite tile_grid_width.
        apply negb_true_iff. nia.
    + intros [x y] Hc. apply in_footprint in Hc. cbn [fst snd].
      rewrite tile_grid_width, tile_grid_height in Hc.
      destruct (tile_grid_visible x y ltac:(nia) ltac:(nia)) as (_ & _ & Hv). lia.
  - intros k Hk. unfold visible_colors in Hk. cbn [fst snd] in Hk.
    apply in_visible_colors_of in Hk. destruct Hk as (x & y & Hin & _ & ->).
    apply in_footprint in Hin.
    rewrite (tile_grid_cell i j x y Hi Hj) by lia. reflexivity.
Qed.

Lemma tile_grid_blocks (j : Z) :
  0 <= j < rows ->
  exists bl,
    untrimmed_blocks im (j * bs) bs thr = Some (0, j * bs, bl) /\
    map index bl = range cols /\
    Forall (block_ok im thr bs 0 (j * bs)) bl.
Proof.
  intros Hj. assert (Hs : 0 <= j * bs) by nia.
  destruct (scan_blocks_complete im thr bs 0 (j * bs) Hwf Hbs ltac:(lia) Hs
              (Z.to_nat (im_w im - 0)) 0 ltac:(lia) ltac:(lia)) as (bl & Ebl & Hall).
  exists bl. split.
  { unfold untrimmed_blocks. rewrite (tile_grid_anchor j Hj), Ebl. reflexivity. }
  destruct (scan_blocks_spec im thr bs 0 (j * bs) _ 0 bl ltac:(lia) Ebl) as (Hok & Hsorted).
  pose proof (scan_blocks_members im thr bs 0 (j * bs) _ 0 bl ltac:(lia) Ebl) as Hmem.
  split.
  - apply strictly_sorted_unique.
    + apply strongly_sorted_of_map. exact Hsorted.
    + apply range_strongly_sorted.
    + intros i. rewrite in_range, in_map_iff. split.
      * intros (b & <- & Hb). rewrite Forall_forall in Hmem.
        destruct (Hmem b Hb) as (H0 & Hw & _). rewrite tile_grid_width in Hw. nia.
      * intros Hi. destruct (Hall i ltac:(lia)) as (b & Hb & Eb).
        { replace (0 + i * bs) with (i * bs) by lia.
          destruct (tile_grid_footprint i j Hi Hj) as [Hlen _].
          intros E. rewrite E in Hlen. simpl in Hlen. nia. }
        exists b. split; [exact Eb|exact Hb].
  - eapply Forall_impl; [|exact Hok]. intros b [H _]. exact H.
Qed.

Lemma tile_grid_strip (j : Z) :
  0 <= j < rows ->
  exists row,
    scan_row_blocks im (j * bs) bs thr = Some row /\
    map index (blocks row) = range cols /\
    Forall (block_ok im thr bs 0 (j * bs)) (blocks row).
Proof.
  intros Hj. destruct (tile_grid_blocks j Hj) as (bl & Eu & Hidx & Hok).
  assert (Hdense : Forall (fun b => sparse bs b = false) bl).
  { rewrite Forall_forall in *. intros b Hb.
    destruct (Hok b Hb) as (_ & Ho & Hv & _).
    assert (Hi : 0 <= index b < cols)
      by (apply in_range; rewrite <- Hidx; apply in_map; exact Hb).
    rewrite Ho in Hv. replace (0 + index b * bs) with (index b * bs) in Hv by lia.
    destruct (tile_grid_footprint (index b) j Hi Hj) as [Hlen _].
    rewrite Hlen in Hv. unfold sparse. rewrite Hv. nia. }
  unfold scan_row_blocks. rewrite Eu.
  destruct bl as [|b0 rest].
  { exfalso. replace cols with ((cols - 1) + 1) in Hidx by lia.
    rewrite range_succ in Hidx by lia. discriminate. }
  cbv zeta. rewrite (trim_trailing_dense bs _ Hdense).
  destruct (rev (b0 :: rest)) as [|lastb others] eqn:Er.
  { apply (f_equal (@List.length _)) in Er. rewrite length_rev in Er. discriminate. }
  eexists. split; [reflexivity|]. cbn [blocks]. split; assumption.
Qed.

Lemma tile_grid_block_rect (j : Z) (b : Block) :
  0 <= j < rows -> 0 <= index b < cols ->
  block_ok im thr bs 0 (j * bs) b ->
  block_rect bs 0 0 b = [tile_rect im bs (index b) j].
Proof.
  intros Hj Hi Hok.
  pose proof (block_ok_color_counts im thr bs 0 (j * bs) b Hok) as Hcc.
  cbv zeta in Hcc. destruct Hcc as (_ & Hin & Hex).
  destruct Hok as (_ & Ho & _ & _ & _ & Hfields).
  replace (0 + index b * bs) with (index b * bs) in Ho by lia.
  rewrite Ho in Hin, Hex.
  destruct (tile_grid_footprint (index b) j Hi Hj) as [Hlen Hall].
  rewrite Forall_forall in Hfields.
  unfold block_rect. destruct (color_counts b) as [|c cs] eqn:Ec.
  - exfalso.
    destruct (visible_colors im thr bs (index b * bs, j * bs)) as [|k V] eqn:EV;
      [simpl in Hlen; nia|].
    destruct (Hex k (or_introl eq_refl)) as (c & [] & _).
  - cbv zeta. rewrite Ho. cbn [fst snd].
    destruct (Hin c (or_introl eq_refl)) as [HcV _]. apply Hall in HcV.
    destruct (Hfields c (or_introl eq_refl)) as (Hrgb & Halpha).
    pose proof (wf_image_bytes im (index b * bs) (j * bs) Hwf
                  ltac:(rewrite tile_grid_width; nia) ltac:(rewrite tile_grid_height; nia))
      as Hbytes.
    unfold tile_rect.
    destruct (px im (index b * bs) (j * bs)) as [[[r g] bl] a].
    rewrite HcV in Hrgb, Halpha. rewrite rgb_prefix_of_rgba in Hrgb.
    rewrite last2_rgba_hex_of in Halpha.
    destruct Hbytes as (_ & _ & _ & Ha). rewrite (int16_to_hex a Ha) in Halpha.
    injection Halpha as Halpha.
    rewrite Hrgb, <- Halpha, !Z.sub_0_r, !Z.div_mul by lia. reflexivity.
Qed.

Lemma tile_grid_strip_rects (j : Z) :
  0 <= j < rows ->
  all_rects bs 0 0
    (match scan_row_blocks im (0 + j * bs) bs thr with
     | Some row => [row]
     | None => []
     end)
  = map (fun i => tile_rect im bs i j) (range cols).
Proof.
  intros Hj. replace (0 + j * bs) with (j * bs) by lia.
  destruct (tile_grid_strip j Hj) as (row & -> & Hidx & Hok).
  unfold all_rects. cbn [flat_map]. rewrite app_nil_r, <- Hidx.
  assert (Hall : Forall (fun b => block_rect bs 0 0 b = [tile_rect im bs (index b) j])
                        (blocks row)).
  { rewrite Forall_forall in *. intros b Hb.
    apply tile_grid_block_rect; [exact Hj| |apply Hok; exact Hb].
    apply in_range. rewrite <- Hidx. apply in_map. exact Hb. }
  clear Hidx Hok. induction Hall as [|b l Hb _ IH]; [reflexivity|].
  cbn [flat_map map]. rewrite Hb, IH. reflexivity.
Qed.

End TileGrid.

(** What [main] writes for a grid of opaque tiles. *)
Lemma main_on_tile_grid (im : Image) (bs cols rows : Z) (fuel : nat) (quiet out : bool) :
  wf_image im -> 1 <= bs -> 1 <= cols -> 1 <= rows ->
  tile_grid 128 bs cols rows im ->
  im_h im + 1 < Z.of_nat fuel ->
  main fuel (mkArgs (Readable im) bs true quiet out)
  = Some (Written (if quiet || out then 0 else 1)
            (mkSvg cols rows
               (flat_map (fun j => map (fun i => tile_rect im bs i j) (range cols))
                         (range rows)))).
Proof.
  intros Hwf Hbs Hcols Hrows Hgrid Hfuel.
  pose proof (tile_grid_width im 128 bs cols rows Hgrid) as Ew.
  pose proof (tile_grid_height im 128 bs cols rows Hgrid) as Eh.
  pose proof (tile_grid_visible im 128 bs cols rows Hgrid) as Hvis.
  assert (Hin : forall x y, visible_at im 128 x y -> 0 <= x < cols * bs /\ 0 <= y < rows * bs)
    by (intros x y (Hx & Hy & _); rewrite Ew in Hx; rewrite Eh in Hy; split; assumption).
  assert (V00 : visible_at im 128 0 0) by (apply Hvis; nia).
  assert (V11 : visible_at im 128 (cols * bs - 1) (rows * bs - 1)) by (apply Hvis; nia).
  assert (Ef : find_first_nontransparent_pixel im 128 = Some (0, 0)).
  { destruct (find_first_nontransparent_pixel im 128) as [[x0 y0]|] eqn:E;
      [|exfalso; exact (find_first_exists im 128 0 0 V00 E)].
    destruct (find_first_spec im 128 x0 y0 E) as (Hv & Htop & Hleft).
    apply Hin in Hv. pose proof (Htop 0 0 V00).
    assert (y0 = 0) by lia. subst y0. pose proof (Hleft 0 V00).
    f_equal. f_equal. lia. }
  assert (El : exists x1, find_last_nontransparent_pixel im 128 = Some (x1, rows * bs - 1)).
  { destruct (find_last_nontransparent_pixel im 128) as [[x1 y1]|] eqn:E;
      [|exfalso; exact (find_last_exists im 128 0 0 V00 E)].
    destruct (find_last_spec im 128 x1 y1 E) as (Hv & Hbot).
    apply Hin in Hv. pose proof (Hbot _ _ V11).
    exists x1. f_equal. f_equal. lia. }
  assert (Ea : exists ya, find_leftmost_nontransparent_pixel im 128 = Some (0, ya)).
  { destruct (find_leftmost_nontransparent_pixel im 128) as [[xa ya]|] eqn:E;
      [|exfalso; exact (find_leftmost_exists im 128 0 0 V00 E)].
    destruct (find_leftmost_spec im 128 xa ya E) as (Hv & Hl).
    apply Hin in Hv. pose proof (Hl _ _ V00).
    exists ya. f_equal. f_equal. lia. }
  assert (Eb : exists yb, find_rightmost_nontransparent_pixel im 128
                          = Some (cols * bs - 1, yb)).
  { destruct (find_rightmost_nontransparent_pixel im 128) as [[xb yb]|] eqn:E;
      [|exfalso; exact (find_rightmost_exists im 128 0 0 V00 E)].
    destruct (find_rightmost_spec im 128 xb yb E) as (Hv & Hr).
    apply Hin in Hv. pose proof (Hr _ _ V11).
    exists yb. f_equal. f_equal. lia. }
  destruct El as (x1 & El). destruct Ea as (ya & Ea). destruct Eb as (yb & Eb).
  destruct (scan_all_rows fuel im bs 128 (rows * bs - 1) 0) as [rws|] eqn:Er;
    [|exfalso; apply (scan_all_rows_terminates im bs 128 (rows * bs - 1) fuel Hbs 0);
      [lia|exact Er]].
  pose proof (scan_all_rows_closed_form im bs 128 _ fuel Hbs 0 rws Er) as Hcf.
  unfold rows_of_strips in Hcf.
  replace (0 <=? rows * bs - 1) with true in Hcf by (symmetry; apply Z.leb_le; nia).
  replace ((rows * bs - 1 - 0) / bs + 1) with rows in Hcf
    by (rewrite (div_in_strip (rows * bs - 1 - 0) (rows - 1) bs Hbs); lia).
  destruct (tile_grid_strip im 128 bs cols rows Hwf Hbs Hcols Hgrid 0 ltac:(lia))
    as (row0 & E0 & Hidx0 & Hok0).
  replace (0 * bs) with 0 in E0, Hok0 by lia.
  destruct (scan_all_rows_spec im bs 128 _ fuel 0 rws Er) as (_ & Hhead).
  destruct (Hhead row0 ltac:(nia) E0) as (rest & Erws).
  assert (Eb0 : exists block0 bl0, blocks row0 = block0 :: bl0 /\ origin block0 = (0, 0)).
  { replace cols with ((cols - 1) + 1) in Hidx0 by lia.
    rewrite range_succ in Hidx0 by lia.
    destruct (blocks row0) as [|block0 bl0]; [discriminate|].
    exists block0, bl0. split; [reflexivity|].
    injection Hidx0 as Hi0 _.
    inversion Hok0 as [|? ? (_ & Ho & _) _]; subst. rewrite Ho, Hi0. reflexivity. }
  destruct Eb0 as (block0 & bl0 & Eb0 & Eo0).
  assert (Erects : all_rects bs 0 0 rws
                   = flat_map (fun j => map (fun i => tile_rect im bs i j) (range cols))
                              (range rows)).
  { rewrite Hcf. unfold all_rects at 1. rewrite flat_map_nested.
    apply flat_map_ext_In. intros j Hj. apply in_range in Hj.
    apply (tile_grid_strip_rects im 128 bs cols rows Hwf Hbs Hcols Hgrid j Hj). }
  unfold main. cbn [image block_size svg_out_writable PngToSvg.quiet stdout_prints]. cbv zeta.
  rewrite Ef, El, Ea, Eb, Er, Erws, Eb0, Eo0. cbn [fst snd].
  rewrite <- Erws, Erects.
  unfold int_of_quotient.
  rewrite !Z.quot_div_nonneg by nia.
  rewrite (div_in_strip (cols * bs - 1 - 0) (cols - 1) bs Hbs) by lia.
  rewrite (div_in_strip (rows * bs - 1 - 0) (rows - 1) bs Hbs) by lia.
  replace (cols - 1 + 1) with cols by lia.
  replace (rows - 1 + 1) with rows by lia.
  reflexivity.
Qed.

Lemma tile_rect_cell (im : Image) (bs i j : Z) : cell (tile_rect im bs i j) = (i, j).
Proof.
  unfold tile_rect. destruct (px im (i * bs) (j * bs)) as [[[r g] b] a]. reflexivity.
Qed.

Lemma tile_rects_sorted (im : Image) (bs cols rows : Z) :
  StronglySorted cell_lt
    (flat_map (fun j => map (fun i => tile_rect im bs i j) (range cols)) (range rows)).
Proof.
  assert (Hxy : forall i j, rect_x (tile_rect im bs i j) = i /\ rect_y (tile_rect im bs i j) = j).
  { intros i j. pose proof (tile_rect_cell im bs i j) as E. unfold cell in E.
    injection E as Ex Ey. split; assumption. }
  apply (flat_map_strongly_sorted _ Z.lt cell_lt).
  - apply range_strongly_sorted.
  - intros j _. apply strongly_sorted_of_map.
    pose proof (range_strongly_sorted cols) as S.
    induction S as [|i l S IH F]; constructor; [exact IH|].
    eapply Forall_impl; [|exact F]. intros i' Hlt. right.
    destruct (Hxy i j) as [-> ->]. destruct (Hxy i' j) as [-> ->]. lia.
  - intros j1 j2 r1 r2 _ _ Hlt H1 H2.
    apply in_map_iff in H1, H2.
    destruct H1 as (i1 & <- & _). destruct H2 as (i2 & <- & _).
    left. destruct (Hxy i1 j1) as [_ ->]. destruct (Hxy i2 j2) as [_ ->]. exact Hlt.
Qed.

Lemma tile_rect_emitted (im : Image) (bs cols rows i j : Z) :
  wf_image im -> 1 <= bs -> tile_grid 128 bs cols rows im ->
  0 <= i < cols -> 0 <= j < rows ->
  exists r g b a,
    px im (i * bs) (j * bs) = (r, g, b, a) /\
    byte_range r /\ byte_range g /\ byte_range b /\
    fill (tile_rect im bs i j) = rgb_hex_of r g b /\
    emitted_ok cols rows (tile_rect im bs i j).
Proof.
  intros Hwf Hbs Hgrid Hi Hj.
  pose proof (wf_image_bytes im (i * bs) (j * bs) Hwf
                ltac:(rewrite (tile_grid_width im 128 bs cols rows Hgrid); nia)
                ltac:(rewrite (tile_grid_height im 128 bs cols rows Hgrid); nia)) as Hbytes.
  unfold tile_rect, emitted_ok.
  destruct (px im (i * bs) (j * bs)) as [[[r g] b] a].
  destruct Hbytes as (Hr & Hg & Hb & _). cbn [rect_x rect_y fill].
  exists r, g, b, a.
  split; [reflexivity|]. split; [exact Hr|]. split; [exact Hg|]. split; [exact Hb|].
  split; [reflexivity|]. split; [lia|].
  exists r, g, b.
  split; [exact Hr|]. split; [exact Hg|]. split; [exact Hb|reflexivity].
Qed.

(** The raster the materializer draws from what [main] writes for a grid
    of opaque tiles. *)
Lemma round_trip_of_tile_grid (im : Image) (bs cols rows : Z) :
  wf_image im -> 1 <= bs -> 1 <= cols -> 1 <= rows ->
  tile_grid 128 bs cols rows im ->
  let svg := mkSvg cols rows
               (flat_map (fun j => map (fun i => tile_rect im bs i j) (range cols))
                         (range rows)) in
  exists img,
    _svg_to_editable_png (Some (svg_content svg)) bs = Some img /\
    ras_w img = cols /\ ras_h img = rows /\
    forall i j, 0 <= i < cols -> 0 <= j < rows ->
      let '(r, g, b, _) := px im (i * bs) (j * bs) in pixels img i j = (r, g, b).
Proof.
  intros Hwf Hbs Hcols Hrows Hgrid svg.
  rewrite (materialize_written svg bs) by (cbn; lia).
  eexists. split; [reflexivity|]. unfold svg. cbn [canvas_w canvas_h rects].
  set (rs := flat_map (fun j => map (fun i => tile_rect im bs i j) (range cols))
                      (range rows)).
  assert (Hmem : forall r, In r rs ->
                   exists i j, 0 <= i < cols /\ 0 <= j < rows /\ r = tile_rect im bs i j).
  { intros r Hr. apply in_flat_map in Hr. destruct Hr as (j & Hj & Hr).
    apply in_map_iff in Hr. destruct Hr as (i & <- & Hi).
    apply in_range in Hi, Hj. exists i, j. repeat split; lia. }
  assert (Hok : Forall (emitted_ok cols rows) rs).
  { apply Forall_forall. intros r Hr. destruct (Hmem r Hr) as (i & j & Hi & Hj & ->).
    destruct (tile_rect_emitted im bs cols rows i j Hwf Hbs Hgrid Hi Hj)
      as (? & ? & ? & ? & _ & _ & _ & _ & _ & H). exact H. }
  destruct (fold_draw_size cols rows rs (new_image cols rows) eq_refl eq_refl Hok)
    as (Hw & Hh & _).
  split; [exact Hw|]. split; [exact Hh|].
  intros i j Hi Hj.
  destruct (tile_rect_emitted im bs cols rows i j Hwf Hbs Hgrid Hi Hj)
    as (r & g & b & a & Epx & Hr & Hg & Hb & Hfill & _).
  rewrite Epx.
  assert (Hin : In (tile_rect im bs i j) rs).
  { apply in_flat_map. exists j. split; [apply in_range; exact Hj|].
    apply in_map_iff. exists i. split; [reflexivity|apply in_range; exact Hi]. }
  apply in_split in Hin. destruct Hin as (before & after & Esplit).
  pose proof (cell_lt_NoDup rs (tile_rects_sorted im bs cols rows)) as Hnd.
  rewrite Esplit in Hnd.
  pose proof (fold_draw_last cols rows rs (new_image cols rows) eq_refl eq_refl Hok
                before (tile_rect im bs i j) after r g b Esplit
                (NoDup_map_split cell before after _ Hnd) Hr Hg Hb Hfill) as Hpix.
  pose proof (tile_rect_cell im bs i j) as Ecell. unfold cell in Ecell.
  injection Ecell as Ex Ey. rewrite Ex, Ey in Hpix. exact Hpix.
Qed.

(** X22. Pixel art in, the same grid out: for an image that is a grid
    of [cols] x [rows] tiles of side [block_size], each of one pixel
    value with alpha of at least 128, [main] run with this block size
    writes a canvas of [cols] x [rows] cells with exactly one rectangle
    per tile, row by row and left to right, at the tile's grid cell,
    filled with the tile's colour and with the tile's alpha as its
    opacity. *)
Theorem X22_pixel_art_is_reproduced (im : Image) (bs cols rows : Z) (fuel : nat)
  (quiet out : bool) :
  wf_image im -> 1 <= bs -> 1 <= cols -> 1 <= rows ->
  tile_grid 128 bs cols rows im ->
  im_h im + 1 < Z.of_nat fuel ->
  main fuel (mkArgs (Readable im) bs true quiet out)
  = Some (Written (if quiet || out then 0 else 1)
            (mkSvg cols rows
               (flat_map (fun j => map (fun i => tile_rect im bs i j) (range cols))
                         (range rows)))).
Proof. exact (main_on_tile_grid im bs cols rows fuel quiet out). Qed.

Lemma two_tiles_grid : tile_grid 128 2 2 1 two_tiles.
Proof.
  split; [reflexivity|]. split; [reflexivity|].
  intros x y Hx Hy.
  assert (Ey : y = 0 \/ y = 1) by lia.
  assert (Ex : x = 0 \/ x = 1 \/ x = 2 \/ x = 3) by lia.
  destruct Ey as [-> | ->]; destruct Ex as [-> | [-> | [-> | ->]]];
    vm_compute; split; [reflexivity|discriminate | .. ].
  all: try reflexivity; try discriminate.
Qed.

(** X22 on [two_tiles]: one row of two rectangles, red then blue. *)
Lemma X22_witness :
  main 4 (mkArgs (Readable two_tiles) 2 true false true)
  = Some (Written 0
            (mkSvg 2 1
               (flat_map (fun j => map (fun i => tile_rect two_tiles 2 i j) (range 2))
                         (range 1)))) /\
  flat_map (fun j => map (fun i => tile_rect two_tiles 2 i j) (range 2)) (range 1)
  = [mkRect 0 0 "#FF0000" 10000; mkRect 1 0 "#0000FF" 10000].
Proof.
  split; [|vm_compute; reflexivity].
  apply (X22_pixel_art_is_reproduced two_tiles 2 2 1 4);
    [exact two_tiles_wf|lia|lia|lia|exact two_tiles_grid|vm_compute; reflexivity].
Defined.

(** X23. The two programs composed on pixel art: for an image that is a
    grid of [cols] x [rows] tiles of side [block_size], each of one
    pixel value with alpha of at least 128, the document [main] writes
    is read back by [_svg_to_editable_png] as an image of [cols] x [rows]
    pixels, one per tile, with the red, green and blue of its tile (the
    alpha is dropped). *)
Theorem X23_pixel_art_round_trip (im : Image) (bs cols rows : Z) (fuel : nat) :
  wf_image im -> 1 <= bs -> 1 <= cols -> 1 <= rows ->
  tile_grid 128 bs cols rows im ->
  im_h im + 1 < Z.of_nat fuel ->
  exists svg img,
    (forall quiet out,
       main fuel (mkArgs (Readable im) bs true quiet out)
       = Some (Written (if quiet || out then 0 else 1) svg)) /\
    _svg_to_editable_png (Some (svg_content svg)) bs = Some img /\
    ras_w img = cols /\ ras_h img = rows /\
    forall i j, 0 <= i < cols -> 0 <= j < rows ->
      let '(r, g, b, _) := px im (i * bs) (j * bs) in pixels img i j = (r, g, b).
Proof.
  intros Hwf Hbs Hcols Hrows Hgrid Hfuel.
  destruct (round_trip_of_tile_grid im bs cols rows Hwf Hbs Hcols Hrows Hgrid)
    as (img & Himg & Hw & Hh & Hpix).
  eexists. exists img.
  split; [intros quiet out;
          exact (main_on_tile_grid im bs cols rows fuel quiet out
                   Hwf Hbs Hcols Hrows Hgrid Hfuel)|].
  split; [exact Himg|]. split; [exact Hw|]. split; [exact Hh|exact Hpix].
Qed.

(** X23 on [two_tiles]: two pixels, red then blue. *)
Lemma X23_witness :
  exists svg img,
    main 4 (mkArgs (Readable two_tiles) 2 true false true) = Some (Written 0 svg) /\
    _svg_to_editable_png (Some (svg_content svg)) 2 = Some img /\
    ras_w img = 2 /\ ras_h img = 1 /\
    pixels img 0 0 = (255, 0, 0) /\ pixels img 1 0 = (0, 0, 255).
Proof.
  destruct (X23_pixel_art_round_trip two_tiles 2 2 1 4 two_tiles_wf ltac:(lia) ltac:(lia)
              ltac:(lia) two_tiles_grid ltac:(vm_compute; reflexivity))
    as (svg & img & Hmain & Himg & Hw & Hh & Hpix).
  exists svg, img.
  split; [exact (Hmain false true)|]. split; [exact Himg|]. split; [exact Hw|].
  split; [exact Hh|].
  split; [exact (Hpix 0 0 ltac:(lia) ltac:(lia))|exact (Hpix 1 0 ltac:(lia) ltac:(lia))].
Defined.

(** ** Images with a margin *)

Lemma filter_both {A : Type} (p q : A -> bool) (l : list A) :
  filter p (filter q l) = filter (fun x => q x && p x) l.
Proof.
  induction l as [|a l IH]; [reflexivity|].
  cbn [filter]. destruct (q a); cbn [filter andb]; [|exact IH].
  destruct (p a); [f_equal|]; exact IH.
Qed.

Lemma filter_of_map {A B : Type} (p : B -> bool) (f : A -> B) (l : list A) :
  filter p (map f l) = map f (filter (fun a => p (f a)) l).
Proof.
  induction l as [|a l IH]; [reflexivity|].
  cbn [map filter]. destruct (p (f a)); cbn [map]; [f_equal|]; exact IH.
Qed.

Lemma filter_drops_all {A : Type} (f : A -> bool) (l : list A) :
  (forall x, f x = false) -> filter f l = [].
Proof.
  intros H. induction l as [|a l IH]; [reflexivity|].
  cbn [filter]. rewrite (H a). exact IH.
Qed.

Lemma map_of_flat_map {A B C : Type} (f : B -> C) (g : A -> list B) (l : list A) :
  map f (flat_map g l) = flat_map (fun a => map f (g a)) l.
Proof.
  induction l as [|a l IH]; [reflexivity|].
  cbn [flat_map]. rewrite map_app, IH. reflexivity.
Qed.

Lemma footprint_of_tile_cells (im : Image) (bs ox oy : Z) :
  footprint im bs ox oy
  = filter (fun c => negb (fst c >=? im_w im) && negb (snd c >=? im_h im))
           (tile_cells bs ox oy).
Proof.
  unfold footprint, tile_cells.
  generalize (range bs) at 2 4 as dys. intros dys.
  induction dys as [|d dys IH]; [reflexivity|].
  cbn [filter flat_map]. rewrite filter_app, <- IH.
  assert (E : filter (fun c => negb (fst c >=? im_w im) && negb (snd c >=? im_h im))
                     (map (fun dx => (ox + dx, oy + d)) (range bs))
              = if negb (oy + d >=? im_h im)
                then map (fun dx => (ox + dx, oy + d))
                         (filter (fun dx => negb (ox + dx >=? im_w im)) (range bs))
                else []).
  { rewrite filter_of_map. cbn [fst snd].
    destruct (negb (oy + d >=? im_h im)).
    - f_equal. apply filter_ext. intros dx. apply andb_true_r.
    - rewrite filter_drops_all; [reflexivity|]. intros dx. apply andb_false_r. }
  rewrite E. destruct (negb (oy + d >=? im_h im)); reflexivity.
Qed.

Lemma tile_cells_shift (bs ox oy dx dy : Z) :
  tile_cells bs (ox + dx) (oy + dy) = map (shift_by dx dy) (tile_cells bs ox oy).
Proof.
  unfold tile_cells. rewrite map_of_flat_map. apply flat_map_ext. intros d.
  rewrite map_map. apply map_ext. intros d'. unfold shift_by. cbn [fst snd].
  f_equal; lia.
Qed.

Lemma in_tile_cells (bs ox oy x y : Z) :
  In (x, y) (tile_cells bs ox oy) -> ox <= x /\ oy <= y.
Proof.
  unfold tile_cells. intros H. apply in_flat_map in H. destruct H as (d & Hd & H).
  apply in_map_iff in H. destruct H as (d' & [= <- <-] & Hd').
  apply in_range in Hd, Hd'. lia.
Qed.

Lemma scan_block_beyond (im : Image) (thr bs fx ay bi : Z) :
  im_w im <= fx + bi * bs -> scan_block im thr bs fx ay bi = Some [].
Proof.
  intros Hout.
  destruct (collect_block_summary im thr bs (fx + bi * bs) ay) as (_ & C & V).
  assert (E : footprint im bs (fx + bi * bs) ay = []).
  { destruct (footprint im bs (fx + bi * bs) ay) as [|[x y] l] eqn:E; [reflexivity|].
    exfalso. assert (Hin : In (x, y) (footprint im bs (fx + bi * bs) ay))
      by (rewrite E; left; reflexivity).
    apply in_footprint in Hin. lia. }
  unfold scan_block. cbv zeta. rewrite C, V, E. reflexivity.
Qed.

Lemma Forall2_of_rev {A B : Type} (R : A -> B -> Prop) (l : list A) (l' : list B) :
  Forall2 R l l' -> Forall2 R (rev l) (rev l').
Proof.
  induction 1 as [|a b l l' Hab _ IH]; [constructor|].
  cbn [rev]. apply Forall2_app; [exact IH|]. constructor; [exact Hab|constructor].
Qed.

Lemma Forall2_removelast {A B : Type} (R : A -> B -> Prop) (l : list A) (l' : list B) :
  Forall2 R l l' -> Forall2 R (removelast l) (removelast l').
Proof.
  induction 1 as [|a b l l' Hab Hl IH]; [constructor|].
  cbn [removelast]. destruct Hl; [constructor|].
  constructor; [exact Hab|exact IH].
Qed.

Section Margin.

Variables thr dx dy : Z.
Variables im im' : Image.
Hypothesis Hemb : embedded_at thr dx dy im im'.

Lemma margin_offsets : 0 <= dx /\ 0 <= dy.
Proof. destruct Hemb as (H1 & H2 & _). split; assumption. Qed.

Lemma margin_inside (x y : Z) :
  0 <= x < im_w im -> 0 <= y < im_h im ->
  0 <= x + dx < im_w im' /\ 0 <= y + dy < im_h im' /\
  px im' (x + dx) (y + dy) = px im x y.
Proof.
  intros Hx Hy. destruct Hemb as (H1 & H2 & H3 & H4 & H5 & _).
  split; [lia|]. split; [lia|]. apply H5; assumption.
Qed.

Lemma margin_visible (x y : Z) :
  visible_at im' thr (x + dx) (y + dy) <-> visible_at im thr x y.
Proof.
  unfold visible_at. split.
  - intros (Hx & Hy & Hv).
    assert (Hout : ~ (dx <= x + dx < dx + im_w im /\ dy <= y + dy < dy + im_h im) -> False).
    { intros Hout. destruct Hemb as (_ & _ & _ & _ & _ & H6).
      pose proof (H6 (x + dx) (y + dy) Hx Hy Hout). lia. }
    destruct (Z_lt_dec x 0) as [H1|H1]; [exfalso; apply Hout; lia|].
    destruct (Z_lt_dec x (im_w im)) as [H2|H2]; [|exfalso; apply Hout; lia].
    destruct (Z_lt_dec y 0) as [H3|H3]; [exfalso; apply Hout; lia|].
    destruct (Z_lt_dec y (im_h im)) as [H4|H4]; [|exfalso; apply Hout; lia].
    destruct (margin_inside x y ltac:(lia) ltac:(lia)) as (_ & _ & E).
    rewrite E in Hv. repeat split; lia || exact Hv.
  - intros (Hx & Hy & Hv).
    destruct (margin_inside x y Hx Hy) as (Hx' & Hy' & E).
    rewrite E. repeat split; lia || exact Hv.
Qed.

Lemma margin_visible_inv (x' y' : Z) :
  visible_at im' thr x' y' -> visible_at im thr (x' - dx) (y' - dy).
Proof.
  intros H. apply margin_visible.
  replace (x' - dx + dx) with x' by lia. replace (y' - dy + dy) with y' by lia. exact H.
Qed.

Lemma margin_first :
  find_first_nontransparent_pixel im' thr
  = option_map (shift_by dx dy) (find_first_nontransparent_pixel im thr).
Proof.
  destruct (find_first_nontransparent_pixel im thr) as [[x0 y0]|] eqn:E;
    destruct (find_first_nontransparent_pixel im' thr) as [[x0' y0']|] eqn:E';
    cbn [option_map]; unfold shift_by; cbn [fst snd].
  - destruct (find_first_spec im thr x0 y0 E) as (Hv & Htop & Hleft).
    destruct (find_first_spec im' thr x0' y0' E') as (Hv' & Htop' & Hleft').
    pose proof (proj2 (margin_visible x0 y0) Hv) as Hv2.
    pose proof (margin_visible_inv x0' y0' Hv') as Hv2'.
    pose proof (Htop _ _ Hv2'). pose proof (Htop' _ _ Hv2).
    assert (Ey : y0' = y0 + dy) by lia. subst y0'.
    replace (y0 + dy - dy) with y0 in Hv2' by lia.
    pose proof (Hleft _ Hv2'). pose proof (Hleft' _ Hv2).
    f_equal. f_equal. lia.
  - exfalso. destruct (find_first_spec im thr x0 y0 E) as (Hv & _).
    exact (find_first_exists im' thr _ _ (proj2 (margin_visible x0 y0) Hv) E').
  - exfalso. destruct (find_first_spec im' thr x0' y0' E') as (Hv' & _).
    exact (find_first_exists im thr _ _ (margin_visible_inv x0' y0' Hv') E).
  - reflexivity.
Qed.

Lemma margin_last :
  find_last_nontransparent_pixel im' thr
  = option_map (shift_by dx dy) (find_last_nontransparent_pixel im thr).
Proof.
  destruct (find_last_nontransparent_pixel im thr) as [[x0 y0]|] eqn:E;
    destruct (find_last_nontransparent_pixel im' thr) as [[x0' y0']|] eqn:E';
    cbn [option_map]; unfold shift_by; cbn [fst snd].
  - destruct (find_last_spec im thr x0 y0 E) as (Hv & Hbot).
    destruct (find_last_spec im' thr x0' y0' E') as (Hv' & Hbot').
    pose proof (find_last_on_line im thr x0 y0 E) as Hright.
    pose proof (find_last_on_line im' thr x0' y0' E') as Hright'.
    pose proof (proj2 (margin_visible x0 y0) Hv) as Hv2.
    pose proof (margin_visible_inv x0' y0' Hv') as Hv2'.
    pose proof (Hbot _ _ Hv2'). pose proof (Hbot' _ _ Hv2).
    assert (Ey : y0' = y0 + dy) by lia. subst y0'.
    replace (y0 + dy - dy) with y0 in Hv2' by lia.
    pose proof (Hright _ Hv2'). pose proof (Hright' _ Hv2).
    f_equal. f_equal. lia.
  - exfalso. destruct (find_last_spec im thr x0 y0 E) as (Hv & _).
    exact (find_last_exists im' thr _ _ (proj2 (margin_visible x0 y0) Hv) E').
  - exfalso. destruct (find_last_spec im' thr x0' y0' E') as (Hv' & _).
    exact (find_last_exists im thr _ _ (margin_visible_inv x0' y0' Hv') E).
  - reflexivity.
Qed.

Lemma margin_leftmost :
  find_leftmost_nontransparent_pixel im' thr
  = option_map (shift_by dx dy) (find_leftmost_nontransparent_pixel im thr).
Proof.
  destruct (find_leftmost_nontransparent_pixel im thr) as [[x0 y0]|] eqn:E;
    destruct (find_leftmost_nontransparent_pixel im' thr) as [[x0' y0']|] eqn:E';
    cbn [option_map]; unfold shift_by; cbn [fst snd].
  - destruct (find_leftmost_spec im thr x0 y0 E) as (Hv & Hleft).
    destruct (find_leftmost_spec im' thr x0' y0' E') as (Hv' & Hleft').
    pose proof (find_leftmost_in_column im thr x0 y0 E) as Htop.
    pose proof (find_leftmost_in_column im' thr x0' y0' E') as Htop'.
    pose proof (proj2 (margin_visible x0 y0) Hv) as Hv2.
    pose proof (margin_visible_inv x0' y0' Hv') as Hv2'.
    pose proof (Hleft _ _ Hv2'). pose proof (Hleft' _ _ Hv2).
    assert (Ex : x0' = x0 + dx) by lia. subst x0'.
    replace (x0 + dx - dx) with x0 in Hv2' by lia.
    pose proof (Htop _ Hv2'). pose proof (Htop' _ Hv2).
    f_equal. f_equal. lia.
  - exfalso. destruct (find_leftmost_spec im thr x0 y0 E) as (Hv & _).
    exact (find_leftmost_exists im' thr _ _ (proj2 (margin_visible x0 y0) Hv) E').
  - exfalso. destruct (find_leftmost_spec im' thr x0' y0' E') as (Hv' & _).
    exact (find_leftmost_exists im thr _ _ (margin_visible_inv x0' y0' Hv') E).
  - reflexivity.
Qed.

Lemma margin_rightmost :
  find_rightmost_nontransparent_pixel im' thr
  = option_map (shift_by dx dy) (find_rightmost_nontransparent_pixel im thr).
Proof.
  destruct (find_rightmost_nontransparent_pixel im thr) as [[x0 y0]|] eqn:E;
    destruct (find_rightmost_nontransparent_pixel im' thr) as [[x0' y0']|] eqn:E';
    cbn [option_map]; unfold shift_by; cbn [fst snd].
  - destruct (find_rightmost_spec im thr x0 y0 E) as (Hv & Hright).
    destruct (find_rightmost_spec im' thr x0' y0' E') as (Hv' & Hright').
    pose proof (find_rightmost_in_column im thr x0 y0 E) as Htop.
    pose proof (find_rightmost_in_column im' thr x0' y0' E') as Htop'.
    pose proof (proj2 (margin_visible x0 y0) Hv) as Hv2.
    pose proof (margin_visible_inv x0' y0' Hv') as Hv2'.
    pose proof (Hright _ _ Hv2'). pose proof (Hright' _ _ Hv2).
    assert (Ex : x0' = x0 + dx) by lia. subst x0'.
    replace (x0 + dx - dx) with x0 in Hv2' by lia.
    pose proof (Htop _ Hv2'). pose proof (Htop' _ Hv2).
    f_equal. f_equal. lia.
  - exfalso. destruct (find_rightmost_spec im thr x0 y0 E) as (Hv & _).
    exact (find_rightmost_exists im' thr _ _ (proj2 (margin_visible x0 y0) Hv) E').
  - exfalso. destruct (find_rightmost_spec im' thr x0' y0' E') as (Hv' & _).
    exact (find_rightmost_exists im thr _ _ (margin_visible_inv x0' y0' Hv') E).
  - reflexivity.
Qed.

Lemma margin_anchor (start_y bs : Z) :
  0 <= start_y ->
  find_anchor im' (start_y + dy) bs thr
  = option_map (shift_by dx dy) (find_anchor im start_y bs thr).
Proof.
  intros Hs. pose proof margin_offsets as [Hdx Hdy].
  assert (Hs' : 0 <= start_y + dy) by lia.
  destruct (find_anchor im start_y bs thr) as [[fx ay]|] eqn:E;
    destruct (find_anchor im' (start_y + dy) bs thr) as [[fx' ay']|] eqn:E';
    cbn [option_map]; unfold shift_by; cbn [fst snd].
  - destruct (find_anchor_spec im _ _ _ _ _ Hs E) as (_ & Hay & Hv & Habove & Hleft).
    destruct (find_anchor_spec im' _ _ _ _ _ Hs' E') as (_ & Hay' & Hv' & Habove' & Hleft').
    pose proof (proj2 (margin_visible fx ay) Hv) as Hv2.
    pose proof (margin_visible_inv fx' ay' Hv') as Hv2'.
    assert (Ey : ay' = ay + dy).
    { destruct (Z_lt_dec ay' (ay + dy)) as [Hlt|Hge].
      - exfalso. apply (Habove (fx' - dx) (ay' - dy)); [lia|exact Hv2'].
      - destruct (Z_lt_dec (ay + dy) ay') as [Hlt|Hge'];
          [exfalso; apply (Habove' (fx + dx) (ay + dy)); [lia|exact Hv2]|lia]. }
    subst ay'. replace (ay + dy - dy) with ay in Hv2' by lia.
    pose proof (Hleft _ Hv2'). pose proof (Hleft' _ Hv2).
    f_equal. f_equal. lia.
  - exfalso. destruct (find_anchor_spec im _ _ _ _ _ Hs E) as (_ & Hay & Hv & _).
    apply (proj1 (find_anchor_none im' _ _ _ Hs') E' (fx + dx) (ay + dy)); [lia|].
    apply margin_visible. exact Hv.
  - exfalso. destruct (find_anchor_spec im' _ _ _ _ _ Hs' E') as (_ & Hay' & Hv' & _).
    apply (proj1 (find_anchor_none im _ _ _ Hs) E (fx' - dx) (ay' - dy)); [lia|].
    apply margin_visible_inv. exact Hv'.
  - reflexivity.
Qed.

Lemma margin_visible_cells (bs ox oy : Z) :
  0 <= ox -> 0 <= oy ->
  filter (fun c => alpha_of (px im' (fst c) (snd c)) >=? thr)
         (footprint im' bs (ox + dx) (oy + dy))
  = map (shift_by dx dy)
        (filter (fun c => alpha_of (px im (fst c) (snd c)) >=? thr)
                (footprint im bs ox oy)).
Proof.
  intros Hox Hoy. pose proof margin_offsets as [Hdx Hdy].
  rewrite !footprint_of_tile_cells, !filter_both, tile_cells_shift, filter_of_map.
  f_equal. apply filter_ext_in. intros [x y] Hc. apply in_tile_cells in Hc.
  unfold shift_by. cbn [fst snd].
  destruct (negb (x >=? im_w im) && negb (y >=? im_h im)) eqn:Ein.
  - assert (Hx : 0 <= x < im_w im) by lia. assert (Hy : 0 <= y < im_h im) by lia.
    destruct (margin_inside x y Hx Hy) as (Hx' & Hy' & E). rewrite E.
    replace (negb (x + dx >=? im_w im') && negb (y + dy >=? im_h im')) with true by lia.
    reflexivity.
  - cbn [andb].
    destruct (negb (x + dx >=? im_w im') && negb (y + dy >=? im_h im')) eqn:Ein';
      [|reflexivity].
    cbn [andb]. destruct Hemb as (_ & _ & _ & _ & _ & H6).
    pose proof (H6 (x + dx) (y + dy) ltac:(lia) ltac:(lia) ltac:(lia)). lia.
Qed.

Lemma margin_visible_colors (bs ox oy : Z) :
  0 <= ox -> 0 <= oy ->
  visible_colors_of im' thr (footprint im' bs (ox + dx) (oy + dy))
  = visible_colors_of im thr (footprint im bs ox oy).
Proof.
  intros Hox Hoy. unfold visible_colors_of.
  rewrite (margin_visible_cells bs ox oy Hox Hoy), map_map.
  apply map_ext_in. intros [x y] Hc. apply filter_In in Hc. destruct Hc as [Hc _].
  apply in_footprint in Hc. unfold shift_by. cbn [fst snd].
  destruct (margin_inside x y ltac:(lia) ltac:(lia)) as (_ & _ & E).
  rewrite E. reflexivity.
Qed.

Lemma margin_pixels_of_color (k : string) (bs ox oy : Z) :
  0 <= ox -> 0 <= oy ->
  pixels_of_color im' thr k (footprint im' bs (ox + dx) (oy + dy))
  = map (shift_by dx dy) (pixels_of_color im thr k (footprint im bs ox oy)).
Proof.
  intros Hox Hoy. unfold pixels_of_color.
  rewrite <- (filter_both (fun p => String.eqb (rgba_hex_of (px im' (fst p) (snd p))) k)
                (fun p => alpha_of (px im' (fst p) (snd p)) >=? thr)).
  rewrite <- (filter_both (fun p => String.eqb (rgba_hex_of (px im (fst p) (snd p))) k)
                (fun p => alpha_of (px im (fst p) (snd p)) >=? thr)).
  rewrite (margin_visible_cells bs ox oy Hox Hoy), filter_of_map.
  f_equal. apply filter_ext_in. intros [x y] Hc. apply filter_In in Hc.
  destruct Hc as [Hc _]. apply in_footprint in Hc. unfold shift_by. cbn [fst snd].
  destruct (margin_inside x y ltac:(lia) ltac:(lia)) as (_ & _ & E).
  rewrite E. reflexivity.
Qed.

Lemma counts_list_shift (C C' : dict (list (Z * Z))) (items : list (string * Z)) :
  (forall k, dict_get_default C' k [] = map (shift_by dx dy) (dict_get_default C k [])) ->
  counts_list C' items = option_map (map (shift_color dx dy)) (counts_list C items).
Proof.
  intros H. induction items as [|[k v] items IH]; [reflexivity|].
  cbn [counts_list]. rewrite IH, H.
  destruct (int16 (last2 k)); [|reflexivity].
  destruct (counts_list C items); reflexivity.
Qed.

Lemma margin_scan_block (bs fx ay bi : Z) :
  0 <= fx + bi * bs -> 0 <= ay ->
  option_rel (Forall2 (block_shown_as dx dy))
    (scan_block im thr bs fx ay bi) (scan_block im' thr bs (fx + dx) (ay + dy) bi).
Proof.
  intros Hox Hoy.
  destruct (collect_block_summary im thr bs (fx + bi * bs) ay) as (P & C & V).
  destruct (collect_block_summary im' thr bs (fx + bi * bs + dx) (ay + dy)) as (P' & C' & V').
  unfold scan_block. cbv zeta.
  replace (fx + dx + bi * bs) with (fx + bi * bs + dx) by lia.
  remember (collect_block_pixels im thr bs (fx + bi * bs) ay) as a eqn:Ea.
  remember (collect_block_pixels im' thr bs (fx + bi * bs + dx) (ay + dy)) as a' eqn:Ea'.
  clear Ea Ea'.
  pose proof (margin_visible_colors bs (fx + bi * bs) ay Hox Hoy) as EV.
  assert (Ec : blk_color_counts a' = blk_color_counts a) by (rewrite C, C', EV; reflexivity).
  assert (Ev : visible a' = visible a) by (rewrite V, V', EV; reflexivity).
  rewrite (counts_list_shift (build_color_coords thr (blk_pixels a))
             (build_color_coords thr (blk_pixels a'))), Ec, Ev.
  - destruct (counts_list _ _) as [l|]; cbn [option_map option_rel]; [|exact I].
    destruct (visible a >? 0); constructor; [|constructor].
    unfold block_shown_as.
    cbn [index origin visible_pixels unique_colors color_counts].
    rewrite length_map. repeat split; reflexivity.
  - intros k. rewrite P, P', !color_coords_of_cells.
    apply margin_pixels_of_color; assumption.
Qed.

Lemma margin_scan_blocks_tail (bs fx ay : Z) (fuel' : nat) :
  1 <= bs -> 0 <= ay ->
  forall bi, 0 <= fx + bi * bs -> im_w im <= fx + bi * bs ->
    scan_blocks fuel' im' thr bs (fx + dx) (ay + dy) bi = Some [].
Proof.
  intros Hbs Hay. induction fuel' as [|fuel' IH]; intros bi Hox Hout; [reflexivity|].
  cbn [scan_blocks]. cbv zeta.
  destruct (fx + dx + bi * bs >=? im_w im'); [reflexivity|].
  pose proof (margin_scan_block bs fx ay bi Hox Hay) as R.
  rewrite (scan_block_beyond im thr bs fx ay bi Hout) in R.
  destruct (scan_block im' thr bs (fx + dx) (ay + dy) bi) as [bl'|];
    cbn [option_rel] in R; [|contradiction].
  inversion R; subst. rewrite (IH (bi + 1)) by nia. reflexivity.
Qed.

Lemma margin_scan_blocks (bs fx ay : Z) :
  1 <= bs -> 0 <= fx -> 0 <= ay ->
  forall (fuel fuel' : nat) (bi : Z),
    0 <= bi ->
    im_w im - (fx + bi * bs) <= Z.of_nat fuel ->
    im_w im' - (fx + dx + bi * bs) <= Z.of_nat fuel' ->
    option_rel (Forall2 (block_shown_as dx dy))
      (scan_blocks fuel im thr bs fx ay bi)
      (scan_blocks fuel' im' thr bs (fx + dx) (ay + dy) bi).
Proof.
  intros Hbs Hfx Hay. pose proof margin_offsets as [Hdx Hdy].
  induction fuel as [|fuel IH]; intros fuel' bi Hbi Hf Hf'.
  - cbn [scan_blocks]. rewrite margin_scan_blocks_tail by nia.
    cbn [option_rel]. constructor.
  - cbn [scan_blocks]. cbv zeta.
    destruct (fx + bi * bs >=? im_w im) eqn:Eo.
    + rewrite margin_scan_blocks_tail by nia. cbn [option_rel]. constructor.
    + assert (Hw : im_w im + dx <= im_w im') by (destruct Hemb as (_ & _ & H & _); exact H).
      destruct fuel' as [|fuel']; [exfalso; lia|].
      cbn [scan_blocks]. cbv zeta.
      replace (fx + dx + bi * bs >=? im_w im') with false by lia.
      pose proof (margin_scan_block bs fx ay bi ltac:(nia) Hay) as R.
      pose proof (IH fuel' (bi + 1) ltac:(lia) ltac:(nia) ltac:(nia)) as R2.
      destruct (scan_block im thr bs fx ay bi) as [b|],
               (scan_block im' thr bs (fx + dx) (ay + dy) bi) as [b'|];
        cbn [option_rel] in R; try contradiction; [|exact I].
      destruct (scan_blocks fuel im thr bs fx ay (bi + 1)) as [r|],
               (scan_blocks fuel' im' thr bs (fx + dx) (ay + dy) (bi + 1)) as [r'|];
        cbn [option_rel] in R2; try contradiction; cbn [option_rel]; [|exact I].
      apply Forall2_app; assumption.
Qed.

Lemma margin_pop_sparse (bs : Z) (n : nat) :
  forall l l',
    Forall2 (block_shown_as dx dy) l l' ->
    Forall2 (block_shown_as dx dy) (pop_sparse n bs l) (pop_sparse n bs l').
Proof.
  induction n as [|n IH]; intros l l' H; cbn [pop_sparse]; [exact H|].
  pose proof (Forall2_of_rev _ l l' H) as Hrev.
  destruct Hrev as [|b b' r r' Hb _]; [exact H|].
  assert (Es : sparse bs b' = sparse bs b)
    by (unfold sparse; destruct Hb as (_ & _ & -> & _); reflexivity).
  rewrite Es. destruct (sparse bs b); [|exact H].
  apply IH. apply Forall2_removelast. exact H.
Qed.

Lemma margin_row (bs start_y : Z) :
  0 <= start_y \/ bs <= 0 ->
  option_rel (row_shown_as dx dy)
    (scan_row_blocks im start_y bs thr) (scan_row_blocks im' (start_y + dy) bs thr).
Proof.
  intros [Hs|Hbs]; [|rewrite !scan_row_blocks_nonpositive by exact Hbs; exact I].
  unfold scan_row_blocks, untrimmed_blocks. rewrite (margin_anchor start_y bs Hs).
  destruct (find_anchor im start_y bs thr) as [[fx ay]|] eqn:Ea;
    cbn [option_map shift_by fst snd option_rel]; [|exact I].
  destruct (find_anchor_spec im _ _ _ _ _ Hs Ea) as (Hbs & _ & (Hx & Hy & _) & _).
  pose proof (margin_scan_blocks bs fx ay Hbs ltac:(lia) ltac:(lia)
                (Z.to_nat (im_w im - fx)) (Z.to_nat (im_w im' - (fx + dx))) 0
                ltac:(lia) ltac:(lia) ltac:(lia)) as R.
  destruct (scan_blocks (Z.to_nat (im_w im - fx)) im thr bs fx ay 0) as [bl|],
           (scan_blocks (Z.to_nat (im_w im' - (fx + dx))) im' thr bs (fx + dx) (ay + dy) 0)
             as [bl'|];
    cbn [option_rel] in R; try contradiction; [|exact I].
  pose proof (margin_pop_sparse bs (List.length bl) bl bl' R) as Hkept.
  pose proof (Forall2_length R) as Hlen.
  unfold trim_trailing. rewrite <- Hlen.
  destruct R as [|b0 b0' l l' _ _]; [exact I|].
  cbv zeta.
  set (kept := pop_sparse (List.length (b0 :: l)) bs (b0 :: l)) in *.
  set (kept' := pop_sparse (List.length (b0 :: l)) bs (b0' :: l')) in *.
  clearbody kept kept'.
  pose proof (Forall2_of_rev _ kept kept' Hkept) as Hrev.
  destruct Hrev as [|lb lb' r r' Hlb _]; [exact I|].
  cbn [option_rel]. unfold row_shown_as.
  cbn [row_block_size blocks total_blocks first_pixel last_pixel_visited].
  split; [reflexivity|]. split; [exact Hkept|].
  split; [rewrite (Forall2_length Hkept); reflexivity|].
  split; [reflexivity|].
  destruct Hlb as (_ & -> & _). unfold shift_by. cbn [fst snd]. f_equal; lia.
Qed.

Lemma margin_rows (bs last_y : Z) (fuel : nat) :
  forall cy, 0 <= cy \/ bs <= 0 ->
    option_rel (Forall2 (row_shown_as dx dy))
      (scan_all_rows fuel im bs thr last_y cy)
      (scan_all_rows fuel im' bs thr (last_y + dy) (cy + dy)).
Proof.
  pose proof margin_offsets as [Hdx Hdy].
  induction fuel as [|fuel IH]; intros cy Hcy; cbn [scan_all_rows]; [exact I|].
  cbv zeta. replace (cy + dy <=? last_y + dy) with (cy <=? last_y) by lia.
  destruct (cy <=? last_y); [|cbn [option_rel]; constructor].
  pose proof (margin_row bs cy Hcy) as R1.
  pose proof (IH (cy + bs) ltac:(lia)) as R2.
  replace (cy + bs + dy) with (cy + dy + bs) in R2 by lia.
  destruct (scan_all_rows fuel im bs thr last_y (cy + bs)) as [rest|],
           (scan_all_rows fuel im' bs thr (last_y + dy) (cy + dy + bs)) as [rest'|];
    cbn [option_rel] in R2; try contradiction; [|exact I].
  destruct (scan_row_blocks im cy bs thr) as [row|],
           (scan_row_blocks im' (cy + dy) bs thr) as [row'|];
    cbn [option_rel] in R1; try contradiction; cbn [option_rel];
    [constructor; assumption|assumption].
Qed.

Lemma margin_block_rect (bs left_ref top_ref : Z) (b b' : Block) :
  block_shown_as dx dy b b' ->
  block_rect bs (left_ref + dx) (top_ref + dy) b' = block_rect bs left_ref top_ref b.
Proof.
  intros (_ & Ho & _ & _ & Hc). unfold block_rect. rewrite Hc, Ho.
  destruct (color_counts b) as [|c cs]; cbn [map]; [reflexivity|].
  cbv zeta. unfold shift_by, shift_color. cbn [fst snd rgb_hex cc_a].
  f_equal. f_equal; f_equal; lia.
Qed.

Lemma margin_all_rects (bs left_ref top_ref : Z) (rows rows' : list Row) :
  Forall2 (row_shown_as dx dy) rows rows' ->
  all_rects bs (left_ref + dx) (top_ref + dy) rows' = all_rects bs left_ref top_ref rows.
Proof.
  unfold all_rects. induction 1 as [|row row' rows rows' Hrow _ IH]; [reflexivity|].
  cbn [flat_map]. rewrite IH. f_equal.
  destruct Hrow as (_ & Hblocks & _).
  induction Hblocks as [|b b' l l' Hb _ IHb]; [reflexivity|].
  cbn [flat_map]. rewrite IHb, (margin_block_rect _ _ _ b b' Hb). reflexivity.
Qed.

End Margin.

(** X24. Margins do not matter: when an image is set at an offset
    inside a larger one whose other pixels are all below the alpha
    threshold (a transparent margin on any side), the four boundary
    scanners return the same pixels, moved by the offset, and [main]
    (threshold 128) ends in the same way and writes the same document:
    the rectangles are placed relative to the visible content, not to
    the image. *)
Theorem X24_margins_do_not_matter (thr dx dy : Z) (im im' : Image) :
  embedded_at thr dx dy im im' ->
  find_first_nontransparent_pixel im' thr
  = option_map (shift_by dx dy) (find_first_nontransparent_pixel im thr) /\
  find_last_nontransparent_pixel im' thr
  = option_map (shift_by dx dy) (find_last_nontransparent_pixel im thr) /\
  find_leftmost_nontransparent_pixel im' thr
  = option_map (shift_by dx dy) (find_leftmost_nontransparent_pixel im thr) /\
  find_rightmost_nontransparent_pixel im' thr
  = option_map (shift_by dx dy) (find_rightmost_nontransparent_pixel im thr) /\
  (thr = 128 ->
   forall fuel bs writable quiet out,
     main fuel (mkArgs (Readable im') bs writable quiet out)
     = main fuel (mkArgs (Readable im) bs writable quiet out)).
Proof.
  intros Hemb.
  pose proof (margin_first thr dx dy im im' Hemb) as E1.
  pose proof (margin_last thr dx dy im im' Hemb) as E2.
  pose proof (margin_leftmost thr dx dy im im' Hemb) as E3.
  pose proof (margin_rightmost thr dx dy im im' Hemb) as E4.
  split; [exact E1|]. split; [exact E2|]. split; [exact E3|]. split; [exact E4|].
  intros -> fuel bs writable.
  unfold main. cbn [image block_size svg_out_writable PngToSvg.quiet stdout_prints]. cbv zeta.
  rewrite E1, E2, E3, E4.
  destruct (find_first_nontransparent_pixel im 128) as [[x y]|] eqn:Ef;
    cbn [option_map shift_by fst snd]; [|reflexivity].
  destruct (find_last_nontransparent_pixel im 128) as [[x1 y1]|];
    cbn [option_map shift_by fst snd]; [|reflexivity].
  destruct (find_first_spec im 128 x y Ef) as ((_ & Hy & _) & _).
  pose proof (margin_rows 128 dx dy im im' Hemb bs y1 fuel y ltac:(left; lia)) as R.
  destruct (scan_all_rows fuel im bs 128 y1 y) as [rows|],
           (scan_all_rows fuel im' bs 128 (y1 + dy) (y + dy)) as [rows'|];
    cbn [option_rel] in R; try contradiction; [|reflexivity].
  pose proof (margin_all_rects dx dy bs) as Hrects.
  destruct R as [|row row' rows rows' Hrow Hrows]; [reflexivity|].
  pose proof (Forall2_cons _ _ Hrow Hrows) as Hall.
  destruct Hrow as (_ & Hblocks & _).
  destruct Hblocks as [|b0 b0' bl bl' Hb0 _]; [reflexivity|].
  destruct Hb0 as (_ & Ho & _).
  destruct (find_rightmost_nontransparent_pixel im 128) as [[rx ry]|];
    cbn [option_map shift_by fst snd]; [|reflexivity].
  rewrite Ho. unfold shift_by at 1 2 3. cbn [fst snd].
  destruct (find_leftmost_nontransparent_pixel im 128) as [[lx ly]|];
    cbn [option_map shift_by fst snd].
  - rewrite (Hrects lx (snd (origin b0)) _ _ Hall).
    replace (rx + dx - (lx + dx)) with (rx - lx) by lia.
    replace (y1 + dy - (snd (origin b0) + dy)) with (y1 - snd (origin b0)) by lia.
    reflexivity.
  - rewrite (Hrects (fst (origin b0)) (snd (origin b0)) _ _ Hall).
    replace (rx + dx - (fst (origin b0) + dx)) with (rx - fst (origin b0)) by lia.
    replace (y1 + dy - (snd (origin b0) + dy)) with (y1 - snd (origin b0)) by lia.
    reflexivity.
Qed.

(** X24 on [two_tiles] set into a transparent 7x5 image. *)
Lemma X24_witness :
  embedded_at 128 1 2 two_tiles two_tiles_in_margin /\
  find_first_nontransparent_pixel two_tiles_in_margin 128
  = option_map (shift_by 1 2) (find_first_nontransparent_pixel two_tiles 128) /\
  main 7 (mkArgs (Readable two_tiles_in_margin) 2 true false true)
  = main 7 (mkArgs (Readable two_tiles) 2 true false true).
Proof.
  assert (Hemb : embedded_at 128 1 2 two_tiles two_tiles_in_margin).
  { unfold embedded_at. split; [lia|]. split; [lia|].
    split; [vm_compute; discriminate|]. split; [vm_compute; discriminate|].
    split.
    - intros x y Hx Hy. change (im_w two_tiles) with 4 in Hx.
      change (im_h two_tiles) with 2 in Hy.
      unfold two_tiles_in_margin. cbn [px].
      replace ((1 <=? x + 1) && (x + 1 <? 5) && (2 <=? y + 2) && (y + 2 <? 4)) with true
        by lia.
      replace (x + 1 - 1) with x by lia. replace (y + 2 - 2) with y by lia.
      reflexivity.
    - intros x y _ _ Hout. change (im_w two_tiles) with 4 in Hout.
      change (im_h two_tiles) with 2 in Hout.
      unfold two_tiles_in_margin. cbn [px].
      destruct ((1 <=? x) && (x <? 5) && (2 <=? y) && (y <? 4)) eqn:E;
        [exfalso; apply Hout; lia|].
      cbn [alpha_of]. lia. }
  split; [exact Hemb|].
  destruct (X24_margins_do_not_matter 128 1 2 two_tiles two_tiles_in_margin Hemb)
    as (E1 & _ & _ & _ & Hmain).
  split; [exact E1|]. apply Hmain. reflexivity.
Defined.
